(** * A Forth interpreter for an 8-bit board: the language engine of
    [ComputerVMKS.ino]

    The sketch is embedded function by function.  The global variables of the
    sketch become the fields of one [state] record that every function takes
    and returns; the malloc'ed [wordNode] chains live in a heap of addresses,
    where malloc always succeeds; the display and the keyboard, which are
    hardware, are reduced to the characters written and the lines typed. *)

From Stdlib Require Import ZArith String Ascii List Lia Bool DecimalString.
From Stdlib Require Import Floats.SpecFloat.
From stdpp Require Import gmap strings list.

Open Scope Z_scope.

(** ** Constants of the sketch *)

Definition BUFFER_SIZE : Z := 64.
Definition STACK_SIZE : Z := 50.
Definition DEF_STACK_SIZE : Z := 10.
Definition IDX_STACK_SIZE : Z := DEF_STACK_SIZE * 2.

(** ** The native [int]

    The sketch runs on an 8-bit AVR board, whose [int] has 16 bits.  Results
    that leave the range wrap around. *)

Definition INT_MIN : Z := -32768.
Definition INT_MAX : Z := 32767.

Definition wrap (z : Z) : Z := (z + 32768) mod 65536 - 32768.

Definition is_int (z : Z) : Prop := INT_MIN <= z <= INT_MAX.

(** ** Enumerations *)

Inductive errorTypes :=
  | NO_ERROR
  | STACK_OVERFLOW
  | STACK_UNDERFLOW
  | STACK_ERROR
  | INPUT_ERROR
  | EXPECTED_WORD
  | EXPECTED_QUOTE
  | RECURSIVE_WORD_DEFINITION
  | LONE_THEN
  | OUTSIDE_WORD_DEFINITION
  | UNRECOGNIZED_WORD
  | INVALID_CONSTRUCTION
  | LONE_LOOP
  | DIVISION_BY_ZERO
  | NODE_NULL_IN_IF.

Inductive wordType :=
  | INTEGER | DOT | PLUS | MINUS | MULTIPLY | DIVIDE | PRINT_S | COLON
  | SEMICOLON | DEFINED_WORD | PRINT_STACK | IF | ELSE | THEN | EQUAL_TO
  | NOT_EQUAL_TO | LESS_THAN | MORE_THAN | LESS_THAN_ZERO | EQUAL_TO_ZERO
  | MORE_THAN_ZERO | DO | LOOP | I | CR | EMIT | DUP | MOD | SLASH_MOD
  | NEGATE | ABS | MAX | MIN | SWAP | ROT | DROP | NIP | TUCK | OVER | ROLL
  | PICK.

#[global] Instance errorTypes_eq_dec : EqDecision errorTypes.
Proof. solve_decision. Defined.

#[global] Instance wordType_eq_dec : EqDecision wordType.
Proof. solve_decision. Defined.

(** ** Words, nodes and the dictionary *)

(** A pointer to a [wordNode]: [None] is the null pointer. *)
Definition ptr : Type := option positive.
Definition NULL : ptr := None.

(** The union [workingArea]: which member was written last. *)
Inductive workingArea :=
  | intValue (z : Z)
  | strValue (str : list ascii)
  | nodeValue (p : ptr).

Record word_t := mkWord { type : wordType; wa : workingArea }.

Record wordNode := mkNode { _word : word_t; next : ptr }.

Record definedWordList := mkDefined { wordName : list ascii; startNode : ptr }.

#[global] Instance workingArea_eq_dec : EqDecision workingArea.
Proof. solve_decision. Defined.

#[global] Instance word_t_eq_dec : EqDecision word_t.
Proof. solve_decision. Defined.

#[global] Instance wordNode_eq_dec : EqDecision wordNode.
Proof. solve_decision. Defined.

(** The members of a working area.  The sketch reads a member only after it
    has written that member; a default stands for the other readings. *)
Definition wa_node (w : workingArea) : ptr :=
  match w with
  | nodeValue p => p
  | _ => NULL
  end.

Definition wa_int (w : workingArea) : Z :=
  match w with
  | intValue z => z
  | _ => 0
  end.

Definition wa_str (w : workingArea) : list ascii :=
  match w with
  | strValue l => l
  | _ => []
  end.

(** ** The interpreter state: the globals of the sketch

    [heap] and [brk] are the malloc arena of the [wordNode]s: [brk] is the
    next address malloc hands out, and a freed address is never handed out
    again.  [display] collects the characters sent to the display and
    [keyboard] holds the lines still to be typed.  [overwritten] is a ghost,
    not a variable of the sketch: it records that a fault has been assigned
    to [errorCode] while a fault was pending.  No function reads it. *)

Record state := mkState {
  errorCode : errorTypes;
  buffer : list ascii;
  b_idx : Z;
  b_end : Z;
  stack : list Z;
  top : Z;
  defStack : list wordType;
  defTop : Z;
  idxStack : list Z;
  idxTop : Z;
  printed : bool;
  s_list : list (list ascii);
  inWordDefinition : bool;
  wordList : list definedWordList;
  heap : gmap positive wordNode;
  brk : positive;
  display : list ascii;
  keyboard : list (list ascii);
  overwritten : bool
}.

(** The register holds a fault. *)
Definition faulted_code (e : errorTypes) : bool := bool_decide (e ≠ NO_ERROR).

(** An assignment to [errorCode]; the ghost [overwritten] is set when a fault
    is assigned while a fault is pending. *)
Definition set_errorCode (v : errorTypes) (s : state) : state :=
  mkState v (buffer s) (b_idx s) (b_end s) (stack s) (top s) (defStack s) (defTop s) (idxStack s) (idxTop s) (printed s) (s_list s) (inWordDefinition s) (wordList s) (heap s) (brk s) (display s) (keyboard s) (overwritten s || faulted_code (errorCode s) && faulted_code v).

Definition set_buffer (v : list ascii) (s : state) : state :=
  mkState (errorCode s) v (b_idx s) (b_end s) (stack s) (top s) (defStack s) (defTop s) (idxStack s) (idxTop s) (printed s) (s_list s) (inWordDefinition s) (wordList s) (heap s) (brk s) (display s) (keyboard s) (overwritten s).

Definition set_b_idx (v : Z) (s : state) : state :=
  mkState (errorCode s) (buffer s) v (b_end s) (stack s) (top s) (defStack s) (defTop s) (idxStack s) (idxTop s) (printed s) (s_list s) (inWordDefinition s) (wordList s) (heap s) (brk s) (display s) (keyboard s) (overwritten s).

Definition set_b_end (v : Z) (s : state) : state :=
  mkState (errorCode s) (buffer s) (b_idx s) v (stack s) (top s) (defStack s) (defTop s) (idxStack s) (idxTop s) (printed s) (s_list s) (inWordDefinition s) (wordList s) (heap s) (brk s) (display s) (keyboard s) (overwritten s).

Definition set_stack (v : list Z) (s : state) : state :=
  mkState (errorCode s) (buffer s) (b_idx s) (b_end s) v (top s) (defStack s) (defTop s) (idxStack s) (idxTop s) (printed s) (s_list s) (inWordDefinition s) (wordList s) (heap s) (brk s) (display s) (keyboard s) (overwritten s).

Definition set_top (v : Z) (s : state) : state :=
  mkState (errorCode s) (buffer s) (b_idx s) (b_end s) (stack s) v (defStack s) (defTop s) (idxStack s) (idxTop s) (printed s) (s_list s) (inWordDefinition s) (wordList s) (heap s) (brk s) (display s) (keyboard s) (overwritten s).

Definition set_defStack (v : list wordType) (s : state) : state :=
  mkState (errorCode s) (buffer s) (b_idx s) (b_end s) (stack s) (top s) v (defTop s) (idxStack s) (idxTop s) (printed s) (s_list s) (inWordDefinition s) (wordList s) (heap s) (brk s) (display s) (keyboard s) (overwritten s).

Definition set_defTop (v : Z) (s : state) : state :=
  mkState (errorCode s) (buffer s) (b_idx s) (b_end s) (stack s) (top s) (defStack s) v (idxStack s) (idxTop s) (printed s) (s_list s) (inWordDefinition s) (wordList s) (heap s) (brk s) (display s) (keyboard s) (overwritten s).

Definition set_idxStack (v : list Z) (s : state) : state :=
  mkState (errorCode s) (buffer s) (b_idx s) (b_end s) (stack s) (top s) (defStack s) (defTop s) v (idxTop s) (printed s) (s_list s) (inWordDefinition s) (wordList s) (heap s) (brk s) (display s) (keyboard s) (overwritten s).

Definition set_idxTop (v : Z) (s : state) : state :=
  mkState (errorCode s) (buffer s) (b_idx s) (b_end s) (stack s) (top s) (defStack s) (defTop s) (idxStack s) v (printed s) (s_list s) (inWordDefinition s) (wordList s) (heap s) (brk s) (display s) (keyboard s) (overwritten s).

Definition set_printed (v : bool) (s : state) : state :=
  mkState (errorCode s) (buffer s) (b_idx s) (b_end s) (stack s) (top s) (defStack s) (defTop s) (idxStack s) (idxTop s) v (s_list s) (inWordDefinition s) (wordList s) (heap s) (brk s) (display s) (keyboard s) (overwritten s).

Definition set_s_list (v : list (list ascii)) (s : state) : state :=
  mkState (errorCode s) (buffer s) (b_idx s) (b_end s) (stack s) (top s) (defStack s) (defTop s) (idxStack s) (idxTop s) (printed s) v (inWordDefinition s) (wordList s) (heap s) (brk s) (display s) (keyboard s) (overwritten s).

Definition set_inWordDefinition (v : bool) (s : state) : state :=
  mkState (errorCode s) (buffer s) (b_idx s) (b_end s) (stack s) (top s) (defStack s) (defTop s) (idxStack s) (idxTop s) (printed s) (s_list s) v (wordList s) (heap s) (brk s) (display s) (keyboard s) (overwritten s).

Definition set_wordList (v : list definedWordList) (s : state) : state :=
  mkState (errorCode s) (buffer s) (b_idx s) (b_end s) (stack s) (top s) (defStack s) (defTop s) (idxStack s) (idxTop s) (printed s) (s_list s) (inWordDefinition s) v (heap s) (brk s) (display s) (keyboard s) (overwritten s).

Definition set_heap (v : gmap positive wordNode) (s : state) : state :=
  mkState (errorCode s) (buffer s) (b_idx s) (b_end s) (stack s) (top s) (defStack s) (defTop s) (idxStack s) (idxTop s) (printed s) (s_list s) (inWordDefinition s) (wordList s) v (brk s) (display s) (keyboard s) (overwritten s).

Definition set_brk (v : positive) (s : state) : state :=
  mkState (errorCode s) (buffer s) (b_idx s) (b_end s) (stack s) (top s) (defStack s) (defTop s) (idxStack s) (idxTop s) (printed s) (s_list s) (inWordDefinition s) (wordList s) (heap s) v (display s) (keyboard s) (overwritten s).

Definition set_display (v : list ascii) (s : state) : state :=
  mkState (errorCode s) (buffer s) (b_idx s) (b_end s) (stack s) (top s) (defStack s) (defTop s) (idxStack s) (idxTop s) (printed s) (s_list s) (inWordDefinition s) (wordList s) (heap s) (brk s) v (keyboard s) (overwritten s).

Definition set_keyboard (v : list (list ascii)) (s : state) : state :=
  mkState (errorCode s) (buffer s) (b_idx s) (b_end s) (stack s) (top s) (defStack s) (defTop s) (idxStack s) (idxTop s) (printed s) (s_list s) (inWordDefinition s) (wordList s) (heap s) (brk s) (display s) v (overwritten s).

Definition NUL : ascii := "000"%char.
Definition LF : ascii := "010"%char.

Definition initial : state :=
  mkState NO_ERROR (replicate (Z.to_nat BUFFER_SIZE) NUL) 0 0
    (replicate (Z.to_nat STACK_SIZE) 0) 0
    (replicate (Z.to_nat DEF_STACK_SIZE) INTEGER) 0
    (replicate (Z.to_nat IDX_STACK_SIZE) 0) 0
    false [] false [] ∅ 1%positive [] [] false.

Definition faulted (s : state) : bool := bool_decide (errorCode s ≠ NO_ERROR).

(** ** Arrays indexed by an [int] *)

Definition arr_get {A} (d : A) (l : list A) (i : Z) : A := nth (Z.to_nat i) l d.
Definition arr_set {A} (l : list A) (i : Z) (v : A) : list A := <[Z.to_nat i := v]> l.

(** ** The three stacks *)

Definition push (value : Z) (s : state) : state :=
  if faulted s then s
  else if STACK_SIZE <=? top s then set_errorCode STACK_OVERFLOW s
  else set_top (top s + 1) (set_stack (arr_set (stack s) (top s) value) s).

Definition discard (count : Z) (s : state) : state :=
  if faulted s then s
  else if top s <? count then set_errorCode STACK_UNDERFLOW s
  else set_top (top s - count) s.

Definition peek (idx : Z) (s : state) : Z * state :=
  if faulted s then (1, s)
  else
    let idx := top s - idx in
    if idx <? 0 then (1, set_errorCode STACK_UNDERFLOW s)
    else if STACK_SIZE <=? idx then (1, set_errorCode STACK_OVERFLOW s)
    else (arr_get 0 (stack s) idx, s).

Definition pop (s : state) : Z * state :=
  if faulted s then (1, s)
  else if top s <=? 0 then (1, set_errorCode STACK_UNDERFLOW s)
  else (arr_get 0 (stack s) (top s - 1), set_top (top s - 1) s).

Definition poke (idx val : Z) (s : state) : state :=
  if faulted s then s
  else
    let idx := top s - idx in
    if idx <? 0 then set_errorCode STACK_ERROR s
    else set_stack (arr_set (stack s) idx val) s.

Definition defPush (value : wordType) (s : state) : state :=
  if faulted s then s
  else if DEF_STACK_SIZE <=? defTop s then set_errorCode STACK_OVERFLOW s
  else set_defTop (defTop s + 1) (set_defStack (arr_set (defStack s) (defTop s) value) s).

Definition defDiscard (s : state) : state :=
  if faulted s then s
  else if defTop s <=? 0 then set_errorCode STACK_UNDERFLOW s
  else set_defTop (defTop s - 1) s.

Definition defPeek (s : state) : wordType * state :=
  if faulted s then (INTEGER, s)
  else if (defTop s <? 1) || (STACK_SIZE <=? defTop s)
  then (INTEGER, set_errorCode STACK_ERROR s)
  else (arr_get INTEGER (defStack s) (defTop s - 1), s).

Definition defHas (t : wordType) (s : state) : bool :=
  existsb (fun x => bool_decide (t = x)) (take (Z.to_nat (defTop s)) (defStack s)).

Definition idxPush (value : Z) (s : state) : state :=
  if faulted s then s
  else if IDX_STACK_SIZE <=? idxTop s then set_errorCode STACK_OVERFLOW s
  else set_idxTop (idxTop s + 1) (set_idxStack (arr_set (idxStack s) (idxTop s) value) s).

(** The sketch subtracts from [defTop] here, not from [idxTop]. *)
Definition idxDiscard (s : state) : state :=
  if faulted s then s
  else if idxTop s <? 2 then set_errorCode STACK_UNDERFLOW s
  else set_defTop (defTop s - 2) s.

Definition idxPeek (off : Z) (s : state) : Z * state :=
  if faulted s then (0, s)
  else if idxTop s - off <? 0 then (0, set_errorCode STACK_ERROR s)
  else (arr_get 0 (idxStack s) (idxTop s - off), s).

Definition idxIncr (s : state) : state :=
  if faulted s then s
  else if idxTop s <=? 0 then set_errorCode STACK_UNDERFLOW s
  else set_idxStack
         (arr_set (idxStack s) (idxTop s - 1)
            (wrap (arr_get 0 (idxStack s) (idxTop s - 1) + 1))) s.

(** ** Results of the functions that loop or follow pointers

    [Ok] is a normal return.  [Undefined] is a C undefined behaviour: a null
    or freed node is read.  [Blocked] waits for a line that the keyboard does
    not have.  [Hangs] is a loop of the sketch that never ends.  [OutOfFuel]
    is the model running out of its recursion budget. *)

Inductive outcome (A : Type) :=
  | Ok (a : A)
  | OutOfFuel
  | Undefined
  | Blocked
  | Hangs.

Arguments Ok {A} a.
Arguments OutOfFuel {A}.
Arguments Undefined {A}.
Arguments Blocked {A}.
Arguments Hangs {A}.

#[global] Instance outcome_ret : MRet outcome := fun A a => Ok a.

#[global] Instance outcome_bind : MBind outcome := fun A B k m =>
  match m with
  | Ok a => k a
  | OutOfFuel => OutOfFuel
  | Undefined => Undefined
  | Blocked => Blocked
  | Hangs => Hangs
  end.

(** ** The display *)

(** [printStringD] with the characters it is given. *)
Definition printStringD (str : list ascii) (s : state) : state :=
  set_display (display s ++ str) s.

Definition newLine (s : state) : state :=
  set_display (display s ++ [LF]) s.

(** A C string stops at its first NUL. *)
Fixpoint cstr (l : list ascii) : list ascii :=
  match l with
  | [] => []
  | c :: r => if bool_decide (c = NUL) then [] else c :: cstr r
  end.

(** [sprintf(buffer, ...)]: the text and its NUL overwrite the start of the
    input buffer. *)
Definition sprintf_buffer (text : list ascii) (s : state) : state :=
  set_buffer (text ++ NUL :: drop (S (length text)) (buffer s)) s.

(** The conversion ["%d"]. *)
Definition dec (z : Z) : list ascii :=
  list_ascii_of_string (NilZero.string_of_int (Z.to_int z)).

Definition SPACE : ascii := " "%char.
Definition TAB : ascii := "009"%char.
Definition QUOTE : ascii := "034"%char.

(** ** The word reader *)

Definition is_blank (c : ascii) : bool :=
  bool_decide (c = SPACE) || bool_decide (c = TAB).

(** The loops [for (; i < b_end && P(buffer[i]); i++)]. *)
Fixpoint scan (P : ascii → bool) (buf : list ascii) (e : Z) (n : nat) (i : Z) : Z :=
  match n with
  | O => i
  | S n' => if (i <? e) && P (arr_get NUL buf i) then scan P buf e n' (i + 1) else i
  end.

Definition scan_from (P : ascii → bool) (i : Z) (s : state) : Z :=
  scan P (buffer s) (b_end s) (Z.to_nat (b_end s - i)) i.

(** [toupper] of the C library, on a [char]. *)
Definition toupper (c : ascii) : ascii :=
  let n := Z.of_nat (nat_of_ascii c) in
  if (97 <=? n) && (n <=? 122) then ascii_of_nat (Z.to_nat (n - 32)) else c.

(** [getIn]: the line typed, each key in upper case, replaces the start of
    the buffer.  The echo of the keys on the display is left out. *)
Definition getIn (line : list ascii) (s : state) : state :=
  sprintf_buffer (take (Z.to_nat (BUFFER_SIZE - 1)) (toupper <$> cstr line)) s.

Definition strlen (l : list ascii) : Z := Z.of_nat (length (cstr l)).

Fixpoint strip_eol (buf : list ascii) (n : nat) (e : Z) : Z :=
  match n with
  | O => e
  | S n' =>
      if (0 <? e) && (bool_decide (arr_get NUL buf (e - 1) = LF)
                      || bool_decide (arr_get NUL buf (e - 1) = "013"%char))
      then strip_eol buf n' (e - 1) else e
  end.

(** The loop of [input], one keyboard line a turn. *)
Fixpoint input_loop (lines : list (list ascii)) (s : state) : outcome state :=
  if b_idx s <? b_end s then Ok (set_keyboard lines s)
  else
    match lines with
    | [] => Blocked
    | line :: rest =>
        let s := if printed s then set_printed false (newLine s) else s in
        let s := getIn line s in
        let s := set_b_idx 0 s in
        let e := strlen (buffer s) in
        let s := set_b_end (strip_eol (buffer s) (Z.to_nat e) e) s in
        input_loop rest s
    end.

Definition input (s : state) : outcome state :=
  if faulted s then Ok s else input_loop (keyboard s) s.

Definition expectWord (s : state) : Z * state :=
  if faulted s then (b_idx s, s)
  else
    let i := scan_from is_blank (b_idx s) s in
    if b_end s <=? b_idx s then (i, set_errorCode EXPECTED_WORD s)
    else
      let s := set_b_idx i s in
      (scan_from (fun c => negb (is_blank c)) (b_idx s + 1) s, s).

(** [readWord]: when only blanks are left in the buffer, [input] has nothing
    to do, [b_idx] stays where it is and the [do] loop of the sketch goes
    round for ever. *)
Definition readWord (s : state) : outcome (Z * state) :=
  s ← input s;
  if faulted s then Ok (b_idx s, s)
  else
    let i := scan_from is_blank (b_idx s) s in
    if b_end s <=? i then Hangs
    else
      let s := set_b_idx i s in
      Ok (scan_from (fun c => negb (is_blank c)) (b_idx s + 1) s, s).

(** ** The resolver *)

Definition span (s_idx e_idx : Z) (s : state) : list ascii :=
  take (Z.to_nat (e_idx - s_idx)) (drop (Z.to_nat s_idx) (buffer s)).

Definition compare (s1 : list ascii) (s_idx e_idx : Z) (s : state) : bool :=
  let len := e_idx - s_idx in
  if negb (len =? Z.of_nat (length s1)) then false
  else bool_decide (span s_idx e_idx s = s1).

Definition isdigit (c : ascii) : bool :=
  (48 <=? Z.of_nat (nat_of_ascii c)) && (Z.of_nat (nat_of_ascii c) <=? 57).

Fixpoint parse_digits (buf : list ascii) (n : nat) (i : Z) (acc : Z) : bool * Z :=
  match n with
  | O => (true, acc)
  | S n' =>
      let c := arr_get NUL buf i in
      if isdigit c
      then parse_digits buf n' (i + 1)
             (wrap (wrap (acc * 10) + (Z.of_nat (nat_of_ascii c) - 48)))
      else (false, acc)
  end.

Definition tryParseInt (idx : Z) (w : word_t) (s : state) : bool * word_t :=
  let hasSign := bool_decide (arr_get NUL (buffer s) (b_idx s) = "-"%char) in
  let i := if hasSign then b_idx s + 1 else b_idx s in
  if idx <=? i then (false, w)
  else
    match parse_digits (buffer s) (Z.to_nat (idx - i)) i 0 with
    | (false, v) => (false, mkWord (type w) (intValue v))
    | (true, v) => (true, mkWord INTEGER (intValue (if hasSign then wrap (- v) else v)))
    end.

Definition str (x : string) : list ascii := list_ascii_of_string x.

(** The built-in words, in the order [tryParseBuiltIn] tests them. *)
Definition builtins : list (list ascii * wordType) :=
  [ (str ".", DOT); (str "+", PLUS); (str "-", MINUS); (str "*", MULTIPLY);
    (str "/", DIVIDE); ("."%char :: QUOTE :: nil, PRINT_S); (str ":", COLON);
    (str ";", SEMICOLON); (str ".S", PRINT_STACK); (str "IF", IF);
    (str "ELSE", ELSE); (str "THEN", THEN); (str "=", EQUAL_TO);
    (str ">", MORE_THAN); (str "<", LESS_THAN); (str "<>", NOT_EQUAL_TO);
    (str "0>", MORE_THAN_ZERO); (str "0<", LESS_THAN_ZERO);
    (str "0=", EQUAL_TO_ZERO); (str "DO", DO); (str "LOOP", LOOP);
    (str "I", I); (str "CR", CR); (str "EMIT", EMIT); (str "DUP", DUP);
    (str "MOD", MOD); (str "/MOD", SLASH_MOD); (str "NEGATE", NEGATE);
    (str "ABS", ABS); (str "MAX", MAX); (str "MIN", MIN); (str "SWAP", SWAP);
    (str "ROT", ROT); (str "DROP", DROP); (str "NIP", NIP); (str "TUCK", TUCK);
    (str "OVER", OVER); (str "ROLL", ROLL); (str "PICK", PICK) ].

Fixpoint tryParseBuiltIn_in (table : list (list ascii * wordType))
    (idx : Z) (w : word_t) (s : state) : bool * word_t :=
  match table with
  | [] => (false, w)
  | (name, t) :: rest =>
      if compare name (b_idx s) idx s then (true, mkWord t (wa w))
      else tryParseBuiltIn_in rest idx w s
  end.

Definition tryParseBuiltIn (idx : Z) (w : word_t) (s : state) : bool * word_t :=
  tryParseBuiltIn_in builtins idx w s.

Fixpoint tryParseDefined_in (wl : list definedWordList)
    (idx : Z) (w : word_t) (s : state) : bool * word_t :=
  match wl with
  | [] => (false, w)
  | d :: rest =>
      if compare (wordName d) (b_idx s) idx s
      then (true, mkWord DEFINED_WORD (nodeValue (startNode d)))
      else tryParseDefined_in rest idx w s
  end.

Definition tryParseDefined (idx : Z) (w : word_t) (s : state) : bool * word_t :=
  tryParseDefined_in (wordList s) idx w s.

Definition parseWord (idx : Z) (w : word_t) (s : state) : word_t * state :=
  match tryParseDefined idx w s with
  | (true, w) => (w, s)
  | (false, w) =>
      match tryParseInt idx w s with
      | (true, w) => (w, s)
      | (false, w) =>
          match tryParseBuiltIn idx w s with
          | (true, w) => (w, s)
          | (false, w) =>
              let s := printStringD (str "??? ") s in
              let s := printStringD
                         (take (Z.to_nat (idx - b_idx s))
                            (cstr (drop (Z.to_nat (b_idx s)) (buffer s)))) s in
              let s := newLine s in
              (w, set_errorCode UNRECOGNIZED_WORD s)
          end
      end
  end.

(** ** The arena of word nodes *)

(** What malloc returns is not initialised; the sketch writes [next] and the
    word before it reads them, so the content given here is never observed. *)
Definition fresh_node : wordNode := mkNode (mkWord INTEGER (intValue 0)) NULL.

Definition malloc (s : state) : positive * state :=
  (brk s, set_brk (Pos.succ (brk s)) (set_heap (<[brk s := fresh_node]> (heap s)) s)).

Definition store_next (p : positive) (n : ptr) (s : state) : state :=
  set_heap (alter (fun x => mkNode (_word x) n) p (heap s)) s.

Definition store_word (p : positive) (w : word_t) (s : state) : state :=
  set_heap (alter (fun x => mkNode w (next x)) p (heap s)) s.

Definition store_wa (p : positive) (v : workingArea) (s : state) : state :=
  set_heap (alter (fun x => mkNode (mkWord (type (_word x)) v) (next x)) p (heap s)) s.

(** [deleteDefinition]: frees the chain that starts at [startNode]. *)
Fixpoint deleteDefinition_from (n : nat) (startNode : ptr)
    (h : gmap positive wordNode) : gmap positive wordNode :=
  match n with
  | O => h
  | S n' =>
      match startNode with
      | None => h
      | Some p =>
          match h !! p with
          | Some nd => deleteDefinition_from n' (next nd) (delete p h)
          | None => h
          end
      end
  end.

Definition deleteDefinition (startNode : ptr) (s : state) : state :=
  set_heap (deleteDefinition_from (S (size (heap s))) startNode (heap s)) s.

(** ** The string list and the dictionary *)

Fixpoint findExistingString_in (sl : list (list ascii)) (idx : Z) (s : state)
    : option (list ascii) :=
  match sl with
  | [] => None
  | x :: rest =>
      if compare x (b_idx s) idx s then Some x else findExistingString_in rest idx s
  end.

Definition findExistingString (idx : Z) (s : state) : option (list ascii) :=
  findExistingString_in (s_list s) idx s.

Definition addString (idx : Z) (s : state) : list ascii * state :=
  let x := cstr (span (b_idx s) idx s) in
  (x, set_s_list (x :: s_list s) s).

(** [searchForDefinedWord]: the position of the first entry with that name. *)
Fixpoint searchForDefinedWord_in (wl : list definedWordList) (name : list ascii)
    : option nat :=
  match wl with
  | [] => None
  | d :: rest =>
      if bool_decide (wordName d = name) then Some O
      else S <$> searchForDefinedWord_in rest name
  end.

Definition searchForDefinedWord (name : list ascii) (s : state) : option nat :=
  searchForDefinedWord_in (wordList s) name.

(** ** Stage 1: the definition compiler *)

(** The backward patch of [LOOP]: the last [DO] before [node] whose working
    area is still null. *)
Fixpoint lastUndefinedDo (h : gmap positive wordNode) (n : nat)
    (current node last : ptr) : outcome ptr :=
  match n with
  | O => OutOfFuel
  | S n' =>
      if bool_decide (current = node) then Ok last
      else
        match current with
        | None => Undefined
        | Some c =>
            match h !! c with
            | None => Undefined
            | Some nd =>
                let last :=
                  if bool_decide (type (_word nd) = DO)
                     && bool_decide (wa_node (wa (_word nd)) = NULL)
                  then current else last in
                lastUndefinedDo h n' (next nd) node last
            end
        end
  end.

(** The backward patch of [THEN]: the last [IF] and the last [ELSE] before
    [node] whose working areas are still null. *)
Fixpoint lastUndefinedIfElse (h : gmap positive wordNode) (n : nat)
    (current node lastIf lastElse : ptr) : outcome (ptr * ptr) :=
  match n with
  | O => OutOfFuel
  | S n' =>
      if bool_decide (current = node) then Ok (lastIf, lastElse)
      else
        match current with
        | None => Undefined
        | Some c =>
            match h !! c with
            | None => Undefined
            | Some nd =>
                let lastElse :=
                  if bool_decide (type (_word nd) = ELSE)
                     && bool_decide (wa_node (wa (_word nd)) = NULL)
                  then current else lastElse in
                let lastIf :=
                  if bool_decide (type (_word nd) = IF)
                     && bool_decide (wa_node (wa (_word nd)) = NULL)
                  then current else lastIf in
                lastUndefinedIfElse h n' (next nd) node lastIf lastElse
            end
        end
  end.

Definition patch_fuel (s : state) : nat := Pos.to_nat (brk s).

(** The patch made after a [LOOP] node has been appended at [p]. *)
Definition patch_LOOP (start : ptr) (p : positive) (s : state) : outcome state :=
  last ← lastUndefinedDo (heap s) (patch_fuel s) start (Some p) NULL;
  match last with
  | None => Ok (set_errorCode LONE_LOOP s)
  | Some d =>
      let s := store_wa d (nodeValue (Some p)) s in
      Ok (store_wa p (nodeValue (Some d)) s)
  end.

(** The patch made after a [THEN] node has been appended at [p]. *)
Definition patch_THEN (start : ptr) (p : positive) (s : state) : outcome state :=
  '(lastIf, lastElse) ← lastUndefinedIfElse (heap s) (patch_fuel s) start (Some p) NULL NULL;
  match lastIf with
  | None => Ok (set_errorCode LONE_THEN s)
  | Some i =>
      s ← match lastElse with
          | None => Ok (store_wa i (nodeValue (Some p)) s)
          | Some e =>
              match heap s !! e with
              | None => Undefined
              | Some nd =>
                  let s := store_wa i (nodeValue (next nd)) s in
                  Ok (store_wa e (nodeValue (Some p)) s)
              end
          end;
      Ok (store_wa p (nodeValue (Some i)) s)
  end.

(** The end of the [COLON] case: publish the body that starts at [start], or
    free it. *)
Definition endDefinition (w : word_t) (name : list ascii) (start : ptr)
    (s : state) : word_t * state :=
  let '(w, s) :=
    if faulted s then (w, deleteDefinition start s)
    else
      let w := mkWord (type w) (nodeValue start) in
      match searchForDefinedWord name s with
      | Some i =>
          let old := from_option startNode NULL (wordList s !! i) in
          let s := deleteDefinition old s in
          (w, set_wordList (<[i := mkDefined name start]> (wordList s)) s)
      | None =>
          (w, set_wordList (mkDefined name start :: wordList s) s)
      end in
  (w, set_inWordDefinition false s).

Definition load_word (p : positive) (s : state) : word_t :=
  from_option _word (_word fresh_node) (heap s !! p).

Definition fault {A} (e : errorTypes) (a : A) (s : state) : A * state :=
  (a, set_errorCode e s).

(** Case [PRINT_S]: the text up to the closing quote is interned. *)
Definition stage1_PRINT_S (w : word_t) (idx : Z) (s : state) : word_t * Z * state :=
  let s := set_b_idx (idx + 1) s in
  let idx := scan_from (fun c => negb (bool_decide (c = QUOTE))) (b_idx s) s in
  if b_end s <=? idx then fault EXPECTED_QUOTE (w, idx) s
  else
    let '(x, s) :=
      match findExistingString idx s with
      | Some x => (x, s)
      | None => addString idx s
      end in
    (mkWord (type w) (strValue x), idx + 1, s).

(** Cases [IF] and [DO]. *)
Definition stage1_open (w : word_t) (idx : Z) (s : state) : word_t * Z * state :=
  if negb (inWordDefinition s) then fault OUTSIDE_WORD_DEFINITION (w, idx) s
  else
    let w := mkWord (type w) (nodeValue NULL) in
    (w, idx, defPush (type w) s).

(** Cases [ELSE] and [THEN]. *)
Definition stage1_ELSE_THEN (w : word_t) (idx : Z) (s : state) : word_t * Z * state :=
  if negb (inWordDefinition s) then fault OUTSIDE_WORD_DEFINITION (w, idx) s
  else
    let '(t, s) := defPeek s in
    if bool_decide (t ≠ IF) then
      if faulted s then (w, idx, s) else fault INVALID_CONSTRUCTION (w, idx) s
    else
      let s := if bool_decide (type w = THEN) then defDiscard s else s in
      (mkWord (type w) (nodeValue NULL), idx, s).

(** Case [I]. *)
Definition stage1_I (w : word_t) (idx : Z) (s : state) : word_t * Z * state :=
  if negb (inWordDefinition s) then fault OUTSIDE_WORD_DEFINITION (w, idx) s
  else if negb (defHas DO s) then fault INVALID_CONSTRUCTION (w, idx) s
  else (mkWord (type w) (nodeValue NULL), idx, s).

(** Case [LOOP]. *)
Definition stage1_LOOP (w : word_t) (idx : Z) (s : state) : word_t * Z * state :=
  if negb (inWordDefinition s) then fault OUTSIDE_WORD_DEFINITION (w, idx) s
  else
    let '(t, s) := defPeek s in
    if bool_decide (t ≠ DO) then
      if faulted s then (w, idx, s) else fault INVALID_CONSTRUCTION (w, idx) s
    else
      let s := defDiscard s in
      (mkWord (type w) (nodeValue NULL), idx, s).

(** The head of the [do ... while] body: a node is allocated and linked
    behind [node]; the first node becomes [start]. *)
Definition append_node (start node : ptr) (s : state) : ptr * positive * state :=
  let '(p, s) := malloc s in
  let start := match node with None => Some p | Some _ => start end in
  let s := match node with None => s | Some q => store_next q (Some p) s end in
  (start, p, store_next p NULL s).

(** The rest of the [do ... while] body, on the node [p] just appended: the
    next word is read, resolved into the node, run through stage 1 (passed as
    [stage1]) and patched.  The boolean tells whether the loop goes on: it
    stops at a fault and after the semicolon. *)
Definition compile_word
    (stage1 : word_t → Z → state → outcome (word_t * Z * state))
    (start : ptr) (p : positive) (idx : Z) (s : state) : outcome (bool * Z * state) :=
  let s := set_b_idx idx s in
  let '(idx, s) := expectWord s in
  if faulted s then Ok (false, idx, s)
  else
    let '(w, s) := parseWord idx (load_word p s) s in
    let s := store_word p w s in
    if faulted s then Ok (false, idx, s)
    else
      '(w, idx, s) ← stage1 w idx s;
      let s := store_word p w s in
      if faulted s then Ok (false, idx, s)
      else
        s ← match type w with
            | LOOP => patch_LOOP start p s
            | THEN => patch_THEN start p s
            | _ => Ok s
            end;
        if faulted s then Ok (false, idx, s)
        else Ok (negb (bool_decide (type w = SEMICOLON)), idx, s).

(** [execWordStage1] and the [do ... while] loop of its [COLON] case, which
    calls it back on every word of the body.  [compile_loop] is entered with
    the [start] and [node] of the sketch and returns them with the index it
    reached. *)
Fixpoint execWordStage1 (fuel : nat) (w : word_t) (idx : Z) (s : state) {struct fuel}
    : outcome (word_t * Z * state) :=
  match fuel with
  | O => OutOfFuel
  | S fuel' =>
      if faulted s then Ok (w, idx, s)
      else
        match type w with
        | PRINT_S => Ok (stage1_PRINT_S w idx s)
        | COLON =>
            if inWordDefinition s
            then Ok (fault RECURSIVE_WORD_DEFINITION (w, idx) s)
            else
              let s := set_inWordDefinition true s in
              let s := set_b_idx idx s in
              let '(idx, s) := expectWord s in
              if faulted s then Ok (w, idx, s)
              else
                let name := cstr (span (b_idx s) idx s) in
                '(start, node, idx, s) ← compile_loop fuel' NULL NULL idx s;
                let '(w, s) := endDefinition w name start s in
                Ok (w, idx, s)
        | IF | DO => Ok (stage1_open w idx s)
        | ELSE | THEN => Ok (stage1_ELSE_THEN w idx s)
        | I => Ok (stage1_I w idx s)
        | LOOP => Ok (stage1_LOOP w idx s)
        | _ => Ok (w, idx, s)
        end
  end
with compile_loop (fuel : nat) (start node : ptr) (idx : Z) (s : state) {struct fuel}
    : outcome (ptr * ptr * Z * state) :=
  match fuel with
  | O => OutOfFuel
  | S fuel' =>
      let '(start, p, s) := append_node start node s in
      '(again, idx, s) ← compile_word (execWordStage1 fuel') start p idx s;
      if (again : bool) then compile_loop fuel' start (Some p) idx s
      else Ok (start, Some p, idx, s)
  end.

(** ** Arithmetic of stage 2 *)

(** The [float] of the board is IEEE binary32, and [double] is the same type:
    [(float)a] is [float_of_int], the division is [float_div]. *)
Definition float_of_int (z : Z) : spec_float := binary_normalize 24 128 z 0 false.

Definition float_div (x y : spec_float) : spec_float := SFdiv 24 128 x y.

(** [floor] followed by the conversion to an integer, before it is cut to the
    16 bits of an [int].  Infinities and NaN do not arise from the quotient of
    two ints with a nonzero divisor. *)
Definition floor_int (f : spec_float) : Z :=
  match f with
  | S754_finite sg m e =>
      let v := if sg then Z.neg m else Z.pos m in
      if 0 <=? e then v * 2 ^ e else v / 2 ^ (- e)
  | _ => 0
  end.

Definition divide (a b : Z) (s : state) : Z * state :=
  if b =? 0 then (0, set_errorCode DIVISION_BY_ZERO s)
  else (wrap (floor_int (float_div (float_of_int a) (float_of_int b))), s).

(** [mod] of the sketch. *)
Definition mod' (a b : Z) (s : state) : Z * state :=
  if b =? 0 then (0, set_errorCode DIVISION_BY_ZERO s)
  else
    let '(d, s) := divide a b s in
    (wrap (a - wrap (d * b)), s).

Definition slashMod (a b : Z) (s : state) : state :=
  if b =? 0 then set_errorCode DIVISION_BY_ZERO s
  else
    let '(d, s) := divide a b s in
    let s := push (wrap (a - wrap (d * b))) s in
    push d s.

(** The loop of [roll]: [for (; idx < top; idx++) stack[idx - 1] = stack[idx]]. *)
Fixpoint roll_shift (n : nat) (idx : Z) (st : list Z) : list Z :=
  match n with
  | O => st
  | S n' => roll_shift n' (idx + 1) (arr_set st (idx - 1) (arr_get 0 st idx))
  end.

Definition roll (s : state) : state :=
  let '(idx, s) := pop s in
  if idx <? 0 then s
  else if faulted s then s
  else
    let '(val, s) := peek (idx + 1) s in
    if faulted s then s
    else
      let idx := top s - idx in
      let s := set_stack (roll_shift (Z.to_nat (top s - idx)) idx (stack s)) s in
      set_stack (arr_set (stack s) (top s - 1) val) s.

Definition pick (s : state) : state :=
  let '(idx, s) := pop s in
  if idx <? 0 then s
  else if faulted s then s
  else
    let '(val, s) := peek (idx + 1) s in
    if faulted s then s
    else push val s.

Definition flag (b : bool) : Z := if b then -1 else 0.

(** The return of most cases: [NULL] on a fault, the node otherwise. *)
Definition checked (node : ptr) (s : state) : outcome (ptr * state) :=
  if faulted s then Ok (NULL, s) else Ok (node, s).

(** The cases of [execWordStage2] that take two operands with [discard(2)]
    and read them back with [peek(0)] and [peek(-1)]. *)
Definition binary (f : Z → Z → Z) (s : state) : state :=
  let s := discard 2 s in
  let '(a, s) := peek 0 s in
  let '(b, s) := peek (-1) s in
  push (f a b) s.

(** Output of [PRINT_STACK], one element a turn. *)
Fixpoint print_elements (l : list Z) (s : state) : state :=
  match l with
  | [] => s
  | v :: r =>
      let text := dec v ++ [SPACE] in
      print_elements r (printStringD text (sprintf_buffer text s))
  end.

(** ** Stage 2: the executor

    [execWordStage2] runs one word and returns the node to resume after;
    [run_word] is the loop of its [DEFINED_WORD] case and [run_if] the loop
    of its [IF] case. *)
Fixpoint execWordStage2 (fuel : nat) (w : word_t) (node : ptr) (s : state) {struct fuel}
    : outcome (ptr * state) :=
  match fuel with
  | O => OutOfFuel
  | S fuel' =>
      if faulted s then Ok (NULL, s)
      else
        match type w with
        | INTEGER => checked node (push (wa_int (wa w)) s)
        | DOT =>
            let '(val, s) := pop s in
            if faulted s then Ok (NULL, s)
            else
              let text := dec val ++ [SPACE] in
              let s := printStringD text (sprintf_buffer text s) in
              Ok (node, set_printed true s)
        | PLUS =>
            let '(a, s) := pop s in
            let '(b, s) := pop s in
            checked node (push (wrap (a + b)) s)
        | MINUS => checked node (binary (fun a b => wrap (a - b)) s)
        | MULTIPLY =>
            let '(a, s) := pop s in
            let '(b, s) := pop s in
            checked node (push (wrap (a * b)) s)
        | DIVIDE =>
            let s := discard 2 s in
            if faulted s then Ok (NULL, s)
            else
              let '(a, s) := peek 0 s in
              let '(b, s) := peek (-1) s in
              let '(val, s) := divide a b s in
              if faulted s then Ok (NULL, s)
              else Ok (node, push val s)
        | PRINT_S =>
            Ok (node, set_printed true (printStringD (wa_str (wa w)) s))
        | DEFINED_WORD => run_word fuel' (wa_node (wa w)) s
        | PRINT_STACK =>
            let text := "<"%char :: dec (top s) ++ str ">: " in
            let s := printStringD text (sprintf_buffer text s) in
            let s := print_elements (take (Z.to_nat (top s)) (stack s)) s in
            Ok (node, set_printed true s)
        | EQUAL_TO => checked node (binary (fun a b => flag (a =? b)) s)
        | NOT_EQUAL_TO => checked node (binary (fun a b => flag (negb (a =? b))) s)
        | MORE_THAN => checked node (binary (fun a b => flag (b <? a)) s)
        | LESS_THAN => checked node (binary (fun a b => flag (a <? b)) s)
        | MORE_THAN_ZERO =>
            let '(a, s) := pop s in checked node (push (flag (0 <? a)) s)
        | LESS_THAN_ZERO =>
            let '(a, s) := pop s in checked node (push (flag (a <? 0)) s)
        | EQUAL_TO_ZERO =>
            let '(a, s) := pop s in checked node (push (flag (a =? 0)) s)
        | IF =>
            match node with
            | None => Undefined
            | Some p =>
                match heap s !! p with
                | None => Undefined
                | Some nd =>
                    let '(f, s) := pop s in
                    let node := if negb (f =? 0) then next nd
                                else wa_node (wa (_word nd)) in
                    if faulted s then Ok (NULL, s)
                    else run_if fuel' node s
                end
            end
        | CR => Ok (node, set_printed false (newLine s))
        | EMIT =>
            let '(val, s) := pop s in
            if faulted s then Ok (NULL, s)
            else Ok (node, printStringD [ascii_of_nat (Z.to_nat (val mod 256))] s)
        | DO =>
            let s := discard 2 s in
            if faulted s then Ok (NULL, s)
            else
              let '(limit, s) := peek 0 s in
              let s := idxPush limit s in
              if faulted s then Ok (NULL, s)
              else
                let '(counter, s) := peek (-1) s in
                checked node (idxPush counter s)
        | LOOP =>
            let s := idxIncr s in
            if faulted s then Ok (NULL, s)
            else
              let '(val, s) := idxPeek 1 s in
              if faulted s then Ok (NULL, s)
              else
                let '(limit, s) := idxPeek 2 s in
                if faulted s then Ok (NULL, s)
                else if val =? limit then Ok (node, s)
                else
                  match node with
                  | None => Undefined
                  | Some p =>
                      match heap s !! p with
                      | None => Undefined
                      | Some nd => Ok (wa_node (wa (_word nd)), s)
                      end
                  end
        | I =>
            let '(val, s) := idxPeek 1 s in
            if faulted s then Ok (NULL, s)
            else checked node (push val s)
        | DUP =>
            let '(val, s) := peek 1 s in
            if faulted s then Ok (NULL, s)
            else checked node (push val s)
        | MOD =>
            let s := discard 2 s in
            if faulted s then Ok (NULL, s)
            else
              let '(a, s) := peek 0 s in
              let '(b, s) := peek (-1) s in
              let '(val, s) := mod' a b s in
              if faulted s then Ok (NULL, s)
              else Ok (node, push val s)
        | SLASH_MOD =>
            let s := discard 2 s in
            if faulted s then Ok (NULL, s)
            else
              let '(a, s) := peek 0 s in
              let '(b, s) := peek (-1) s in
              Ok (node, slashMod a b s)
        | NEGATE =>
            let '(a, s) := pop s in checked node (push (wrap (- a)) s)
        | ABS =>
            (* [abs] is the macro [((x)>0?(x):-(x))] of the Arduino core:
               [pop()] is evaluated for the test and again for the value *)
            let '(a, s) := pop s in
            let '(b, s) := pop s in
            checked node (push (if 0 <? a then b else wrap (- b)) s)
        | MAX =>
            let s := discard 2 s in
            if faulted s then Ok (NULL, s)
            else
              let '(a, s) := peek 0 s in
              let '(b, s) := peek (-1) s in
              Ok (node, push (Z.max a b) s)
        | MIN =>
            let s := discard 2 s in
            if faulted s then Ok (NULL, s)
            else
              let '(a, s) := peek 0 s in
              let '(b, s) := peek (-1) s in
              Ok (node, push (Z.min a b) s)
        | SWAP =>
            let '(val, s) := peek 2 s in
            if faulted s then Ok (NULL, s)
            else
              let '(x, s) := peek 1 s in
              let s := poke 2 x s in
              Ok (node, poke 1 val s)
        | ROT =>
            let '(val, s) := peek 3 s in
            if faulted s then Ok (NULL, s)
            else
              let '(x, s) := peek 2 s in
              let s := poke 3 x s in
              let '(y, s) := peek 1 s in
              let s := poke 2 y s in
              Ok (node, poke 1 val s)
        | DROP => checked node (discard 1 s)
        | NIP =>
            let '(val, s) := pop s in
            if faulted s then Ok (NULL, s)
            else
              let s := discard 1 s in
              if faulted s then Ok (NULL, s)
              else Ok (node, push val s)
        | TUCK =>
            let '(val, s) := peek 1 s in
            if faulted s then Ok (NULL, s)
            else
              let s := push val s in
              if faulted s then Ok (NULL, s)
              else
                let '(x, s) := peek 3 s in
                let s := poke 2 x s in
                if faulted s then Ok (NULL, s)
                else Ok (node, poke 3 val s)
        | OVER =>
            let '(x, s) := peek 2 s in checked node (push x s)
        | ROLL => Ok (node, roll s)
        | PICK => Ok (node, pick s)
        | _ => Ok (node, s)
        end
  end
with run_word (fuel : nat) (node : ptr) (s : state) {struct fuel}
    : outcome (ptr * state) :=
  match fuel with
  | O => OutOfFuel
  | S fuel' =>
      match node with
      | None => Ok (NULL, s)
      | Some p =>
          match heap s !! p with
          | None => Undefined
          | Some nd =>
              '(node, s) ← execWordStage2 fuel' (_word nd) (Some p) s;
              if faulted s then Ok (NULL, s)
              else
                match node with
                | None => run_word fuel' NULL s
                | Some q =>
                    match heap s !! q with
                    | None => Undefined
                    | Some nq => run_word fuel' (next nq) s
                    end
                end
          end
      end
  end
with run_if (fuel : nat) (node : ptr) (s : state) {struct fuel}
    : outcome (ptr * state) :=
  match fuel with
  | O => OutOfFuel
  | S fuel' =>
      match node with
      | None => Undefined
      | Some p =>
          match heap s !! p with
          | None => Undefined
          | Some nd =>
              if bool_decide (type (_word nd) ≠ ELSE)
                 && bool_decide (type (_word nd) ≠ THEN)
              then
                '(node, s) ← execWordStage2 fuel' (_word nd) (Some p) s;
                if faulted s then Ok (NULL, s)
                else
                  match node with
                  | None => Ok (NULL, set_errorCode NODE_NULL_IN_IF s)
                  | Some q =>
                      match heap s !! q with
                      | None => Undefined
                      | Some nq => run_if fuel' (next nq) s
                      end
                  end
              else if bool_decide (type (_word nd) = ELSE)
              then Ok (wa_node (wa (_word nd)), s)
              else Ok (Some p, s)
          end
      end
  end.

(** ** The driver: one turn of [loop] *)

Definition errorMessages (e : errorTypes) : list ascii :=
  match e with
  | NO_ERROR => []
  | STACK_OVERFLOW => str "S. overflow!"
  | STACK_UNDERFLOW => str "S. underflow!"
  | STACK_ERROR => str "S. error!"
  | INPUT_ERROR => str "Input error!"
  | EXPECTED_WORD => str "Exp. a word!"
  | EXPECTED_QUOTE => QUOTE :: str " expected!"
  | RECURSIVE_WORD_DEFINITION => str "Recursive def!"
  | LONE_THEN => str "Lone THEN!"
  | OUTSIDE_WORD_DEFINITION => str "Def only word!"
  | UNRECOGNIZED_WORD => str "Undefined word!"
  | INVALID_CONSTRUCTION => str "Invalid constr!"
  | LONE_LOOP => str "Lone LOOP!"
  | DIVISION_BY_ZERO => str "Division by 0!"
  | NODE_NULL_IN_IF => str "Null node!"
  end.

(** The inner [while (true)] of [loop]: read a word, resolve it, run its
    two stages.  [idx] and [w] are the locals [idx] and [_word]. *)
Definition statement (fuel : nat) (idx : Z) (w : word_t) (s : state)
    : outcome (Z * word_t * state) :=
  let s := set_errorCode NO_ERROR s in
  '(idx, s) ← readWord s;
  if faulted s then Ok (idx, w, s)
  else
    let '(w, s) := parseWord idx w s in
    if faulted s then Ok (idx, w, s)
    else
      '(w, idx, s) ← execWordStage1 fuel w idx s;
      if faulted s then Ok (idx, w, s)
      else
        '(_, s) ← execWordStage2 fuel w NULL s;
        Ok (idx, w, s).

(** What [loop] does after a statement: report the fault, move [b_idx]. *)
Definition report (idx : Z) (s : state) : Z * state :=
  let '(idx, s) :=
    if faulted s then
      let s := if printed s then newLine (set_printed false s) else s in
      let s := printStringD (errorMessages (errorCode s)) s in
      let s := newLine s in
      let s := set_inWordDefinition false s in
      (if bool_decide (errorCode s = RECURSIVE_WORD_DEFINITION) then b_end s else idx, s)
    else (idx, s) in
  (idx, set_b_idx idx s).

Definition cycle (fuel : nat) (idx : Z) (w : word_t) (s : state)
    : outcome (Z * word_t * state) :=
  '(idx, w, s) ← statement fuel idx w s;
  let '(idx, s) := report idx s in
  Ok (idx, w, s).

(** [n] turns of [loop]. *)
Fixpoint cycles (n : nat) (fuel : nat) (idx : Z) (w : word_t) (s : state)
    : outcome (Z * word_t * state) :=
  match n with
  | O => Ok (idx, w, s)
  | S n' =>
      '(idx, w, s) ← cycle fuel idx w s;
      cycles n' fuel idx w s
  end.

(** The interpreter after [n] statements of the lines typed, from power-up. *)
Definition interpret (n : nat) (fuel : nat) (lines : list string) : outcome state :=
  '(_, _, s) ← cycles n fuel 0 (_word fresh_node) (set_keyboard (str <$> lines) initial);
  Ok s.

(** The state an outcome holds, for the examples. *)
Definition state_of (o : outcome state) : state :=
  match o with
  | Ok s => s
  | _ => initial
  end.

(** ** Straight-line code, for the properties of the control words *)

(** The words that [execWordStage2] runs without following a pointer. *)
Definition simple (t : wordType) : bool :=
  match t with
  | DEFINED_WORD | IF | LOOP => false
  | _ => true
  end.

(** The words that may stand inside a branch that is run to its end. *)
Definition plain (t : wordType) : bool :=
  match t with
  | ELSE | THEN => false
  | _ => simple t
  end.

(** The state after one word. *)
Definition step (w : word_t) (s : state) : state :=
  match execWordStage2 1 w NULL s with
  | Ok (_, s') => s'
  | _ => s
  end.

(** The state after the words [ws], one after the other. *)
Definition straight (ws : list word_t) (s : state) : state :=
  foldl (fun s w => step w s) s ws.

(** [seg h p ws q]: from [p] the heap holds a chain of nodes with the words
    [ws]; the [next] of its last node is [q]. *)
Fixpoint seg (h : gmap positive wordNode) (p : ptr) (ws : list word_t) (q : ptr) : Prop :=
  match ws with
  | [] => p = q
  | w :: r =>
      ∃ a nd, p = Some a ∧ h !! a = Some nd ∧ _word nd = w ∧ seg h (next nd) r q
  end.

(** ** The depth of the construction stack, for the properties of stage 1 *)

(** What a word that stage 1 accepts does to [defTop]. *)
Definition nesting (t : wordType) : Z :=
  match t with
  | IF | DO => 1
  | THEN | LOOP => -1
  | _ => 0
  end.

Definition depth_change (ts : list wordType) : Z :=
  foldr (fun t acc => nesting t + acc) 0 ts.

(** What the last word of a compilation does to [defTop]: a word that stage 1
    refused changes nothing; a [THEN] or [LOOP] that the patch refused was
    popped before. *)
Definition closing (e : errorTypes) (t : wordType) : Z :=
  match e with
  | NO_ERROR => nesting t
  | LONE_THEN | LONE_LOOP => -1
  | _ => 0
  end.

(** [block h a ts q]: the nodes at the addresses from [a] up to [q], [q] left
    out, hold words of the types [ts], and each is linked to the next
    address. *)
Fixpoint block (h : gmap positive wordNode) (a : positive) (ts : list wordType)
    (q : positive) : Prop :=
  match ts with
  | [] => a = q
  | t :: r =>
      ∃ nd, h !! a = Some nd ∧ type (_word nd) = t
            ∧ next nd = Some (Pos.succ a) ∧ block h (Pos.succ a) r q
  end.

(** The type and the link of the node at an address. *)
Definition shape (h : gmap positive wordNode) (k : positive) : option (wordType * ptr) :=
  (fun nd => (type (_word nd), next nd)) <$> h !! k.

(** What stage 1 leaves alone while it reads and resolves a word. *)
Definition frame (s s' : state) : Prop :=
  heap s' = heap s ∧ brk s' = brk s ∧ inWordDefinition s' = inWordDefinition s
  ∧ defTop s' = defTop s.

(** What [compile_loop] is entered with: nothing yet, or the body so far,
    whose nodes before [node] have the types [ts]. *)
Definition linked (s : state) (a0 : positive) (start node : ptr)
    (T : list wordType) : Prop :=
  match node with
  | None => T = [] ∧ a0 = brk s
  | Some n =>
      start = Some a0 ∧ brk s = Pos.succ n
      ∧ ∃ ts t, T = ts ++ [t] ∧ block (heap s) a0 ts n
                ∧ shape (heap s) n = Some (t, NULL)
  end.

(** ** Runs of the executor, for the properties of the conditional *)

(** [runs w node s r s']: [execWordStage2] on the word [w] of the node
    [node] returns [r] and leaves the state [s']. *)
Definition runs (w : word_t) (node : ptr) (s : state) (r : ptr) (s' : state) : Prop :=
  ∃ fuel, execWordStage2 fuel w node s = Ok (r, s').

(** The node that the [IF] case returns when its loop stops at the node [e]. *)
Definition close_of (e : positive) (ne : wordNode) : ptr :=
  if bool_decide (type (_word ne) = ELSE) then wa_node (wa (_word ne)) else Some e.

(** The loop of the [IF] case, from the node [node] in the state [s]:
    [branch node s l r s'] when the nodes at the addresses [l] are run in
    this order and the loop ends with the pointer [r] in the state [s'].
    Each node is run by [execWordStage2] and the loop goes on at the
    successor of the node returned. *)
Inductive branch : ptr → state → list positive → ptr → state → Prop :=
  | branch_close (e : positive) (ne : wordNode) (s : state) :
      heap s !! e = Some ne →
      type (_word ne) = ELSE ∨ type (_word ne) = THEN →
      branch (Some e) s [] (close_of e ne) s
  | branch_fault (a : positive) (nd : wordNode) (s : state) (r : ptr) (s1 : state) :
      heap s !! a = Some nd →
      type (_word nd) ≠ ELSE → type (_word nd) ≠ THEN →
      runs (_word nd) (Some a) s r s1 →
      faulted s1 = true →
      branch (Some a) s [a] NULL s1
  | branch_null (a : positive) (nd : wordNode) (s s1 : state) :
      heap s !! a = Some nd →
      type (_word nd) ≠ ELSE → type (_word nd) ≠ THEN →
      runs (_word nd) (Some a) s NULL s1 →
      faulted s1 = false →
      branch (Some a) s [a] NULL (set_errorCode NODE_NULL_IN_IF s1)
  | branch_next (a q : positive) (nd nq : wordNode) (s s1 : state)
      (l : list positive) (r : ptr) (s2 : state) :
      heap s !! a = Some nd →
      type (_word nd) ≠ ELSE → type (_word nd) ≠ THEN →
      runs (_word nd) (Some a) s (Some q) s1 →
      faulted s1 = false →
      heap s1 !! q = Some nq →
      branch (next nq) s1 l r s2 →
      branch (Some a) s (a :: l) r s2.

(** ** Open loops, for the properties of the patch *)

(** The node at the address [k] is a [DO] whose branch target is still
    null: a loop-open that no [LOOP] has been linked with. *)
Definition open_DO (h : gmap positive wordNode) (k : positive) : bool :=
  match h !! k with
  | Some nd =>
      bool_decide (type (_word nd) = DO) && bool_decide (wa_node (wa (_word nd)) = NULL)
  | None => false
  end.

(** ** The ghost of the fault register *)

(** From [s] to [s'] no fault has been assigned over a pending fault, if
    none had been before. *)
Definition unspoiled (s s' : state) : Prop :=
  overwritten s = false → overwritten s' = false.

(** The values on the data stack, the deepest first. *)
Definition items (s : state) : list Z := take (Z.to_nat (top s)) (stack s).

(** No fault is pending and the data stack, an array of [STACK_SIZE] ints,
    holds the values [l]. *)
Definition holds (s : state) (l : list Z) : Prop :=
  errorCode s = NO_ERROR
  ∧ length (stack s) = Z.to_nat STACK_SIZE
  ∧ top s = Z.of_nat (length l)
  ∧ items s = l.

(** [s'] is [s] but for the array and the top index of the data stack. *)
Definition stack_only (s s' : state) : Prop :=
  set_stack (stack s) (set_top (top s) s') = s.

(** A word of type [t] run on [s] returns its node, leaves the values [l'] on
    the data stack and changes nothing but the array and the top index of
    that stack. *)
Definition effect (t : wordType) (s : state) (l' : list Z) : Prop :=
  ∀ (fuel : nat) (node : ptr) (w : word_t),
    type w = t →
    ∃ s', execWordStage2 (S fuel) w node s = Ok (node, s')
          ∧ holds s' l'
          ∧ stack_only s s'.

(** The number of values that the case of [execWordStage2] for a type takes
    from the data stack or reads below its top. *)
Definition operands (t : wordType) : Z :=
  match t with
  | DOT | EMIT | DUP | DROP | NEGATE | LESS_THAN_ZERO | EQUAL_TO_ZERO
  | MORE_THAN_ZERO | ROLL | PICK => 1
  | PLUS | MINUS | MULTIPLY | DIVIDE | MOD | SLASH_MOD | EQUAL_TO | NOT_EQUAL_TO
  | LESS_THAN | MORE_THAN | MAX | MIN | SWAP | OVER | NIP | TUCK | DO | ABS => 2
  | ROT => 3
  | _ => 0
  end.

(** The words whose case pushes one value more than it takes. *)
Definition grows (t : wordType) : bool :=
  match t with
  | INTEGER | DUP | OVER | TUCK | I => true
  | _ => false
  end.

(** The three top indexes lie inside their arrays, which have the sizes the
    sketch declares. *)
Definition in_bounds (s : state) : Prop :=
  0 <= top s <= STACK_SIZE
  ∧ 0 <= defTop s <= DEF_STACK_SIZE
  ∧ 0 <= idxTop s <= IDX_STACK_SIZE
  ∧ length (stack s) = Z.to_nat STACK_SIZE
  ∧ length (defStack s) = Z.to_nat DEF_STACK_SIZE
  ∧ length (idxStack s) = Z.to_nat IDX_STACK_SIZE.

(** What stage 2 leaves alone: the read position, the construction stack,
    the strings, the dictionary and the arena. *)
Definition kept_by_stage2 (s s' : state) : Prop :=
  b_idx s' = b_idx s ∧ b_end s' = b_end s
  ∧ defStack s' = defStack s ∧ defTop s' = defTop s
  ∧ s_list s' = s_list s ∧ inWordDefinition s' = inWordDefinition s
  ∧ wordList s' = wordList s ∧ heap s' = heap s ∧ brk s' = brk s
  ∧ keyboard s' = keyboard s.

(** The part of the state that stage 2 leaves alone: the state with what
    stage 2 may write, the data stack, the loop stack, the buffer, the
    display and the register, blanked. *)
Definition compiler_part (s : state) : state :=
  mkState NO_ERROR [] (b_idx s) (b_end s) [] 0 (defStack s) (defTop s) [] 0 false
    (s_list s) (inWordDefinition s) (wordList s) (heap s) (brk s) [] (keyboard s) false.
Arguments compiler_part : simpl never.

(** What a run of stage 2 keeps. *)
Definition keeps2 (s s' : state) : Prop :=
  (in_bounds s → in_bounds s') ∧ kept_by_stage2 s s'.

(** The names of the dictionary, the newest first. *)
Definition names (s : state) : list (list ascii) := wordName <$> wordList s.

(** No address from [brk] on is allocated. *)
Definition arena_ok (s : state) : Prop :=
  ∀ k, (brk s <= k)%positive → heap s !! k = None.

(** What stage 1 leaves alone: the data stack, the loop stack, the line being
    read, the flag [printed] and the keyboard. *)
Definition kept_by_stage1 (s s' : state) : Prop :=
  stack s' = stack s ∧ top s' = top s
  ∧ idxStack s' = idxStack s ∧ idxTop s' = idxTop s
  ∧ buffer s' = buffer s ∧ b_end s' = b_end s
  ∧ printed s' = printed s ∧ keyboard s' = keyboard s.

(** The invariant of the interpreter. *)
Definition invariant (s : state) : Prop :=
  in_bounds s ∧ NoDup (names s) ∧ arena_ok s.

(** A step that keeps the dictionary and the set of allocated addresses. *)
Definition quiet (s s' : state) : Prop :=
  (in_bounds s → in_bounds s')
  ∧ wordList s' = wordList s
  ∧ brk s' = brk s
  ∧ (∀ k, heap s' !! k = None ↔ heap s !! k = None)
  ∧ inWordDefinition s' = inWordDefinition s
  ∧ kept_by_stage1 s s'.

Definition keeps1 (s s' : state) : Prop :=
  (invariant s → invariant s') ∧ kept_by_stage1 s s'.

(** The fields the invariant reads. *)
Definition core_same (s s' : state) : Prop :=
  stack s' = stack s ∧ top s' = top s
  ∧ defStack s' = defStack s ∧ defTop s' = defTop s
  ∧ idxStack s' = idxStack s ∧ idxTop s' = idxTop s
  ∧ wordList s' = wordList s ∧ heap s' = heap s ∧ brk s' = brk s
  ∧ inWordDefinition s' = inWordDefinition s.

(** Between two statements the invariant holds and no definition is open. *)
Definition at_rest (s : state) : Prop :=
  invariant s ∧ inWordDefinition s = false.

(** One pass of a counted loop whose body is [ws]: the body, then the
    increment that the [LOOP] node makes. *)
Definition pass (ws : list word_t) (s : state) : state := idxIncr (straight ws s).

(** The number of passes of a loop entered with the limit [lim] and the
    counter [c]: the counter is incremented, on 16 bits, until it equals the
    limit. *)
Definition trips (lim c : Z) : nat := S (Z.to_nat ((lim - c - 1) mod 65536)).

(** The word between [b_idx] and [idx] is [tok]. *)
Definition token (s : state) (idx : Z) (tok : list ascii) : Prop :=
  0 <= b_idx s
  ∧ idx = b_idx s + Z.of_nat (length tok)
  ∧ span (b_idx s) idx s = tok.

(** The value of a digit. *)
Definition digit (c : ascii) : Z := Z.of_nat (nat_of_ascii c) - 48.

(** The number that a sequence of decimal digits writes. *)
Definition decimal (ds : list ascii) : Z :=
  fold_left (fun acc c => acc * 10 + digit c) ds 0.

(** The int that a token writes: an optional minus sign, then one digit at
    least and digits only; the number written is cut to 16 bits. *)
Definition numeral (tok : list ascii) : option Z :=
  let '(sg, ds) :=
    match tok with
    | c :: r => if bool_decide (c = "-"%char) then (true, r) else (false, tok)
    | [] => (false, tok)
    end in
  if bool_decide (ds ≠ []) && forallb isdigit ds
  then Some (wrap (if (sg : bool) then - decimal ds else decimal ds))
  else None.

(** [parse_digits] on the characters [ds] of the buffer. *)
Fixpoint digits_fold (ds : list ascii) (acc : Z) : bool * Z :=
  match ds with
  | [] => (true, acc)
  | c :: r =>
      if isdigit c then digits_fold r (wrap (wrap (acc * 10) + digit c))
      else (false, acc)
  end.

(** The text that [%d] writes for [-p], and for [p] when it is an int, reads
    back as the same number. *)
Definition reads_back (p : positive) : bool :=
  match numeral (dec (Z.neg p)) with
  | Some z => z =? Z.neg p
  | None => false
  end
  && ((Z.pos p =? 32768)
      || match numeral (dec (Z.pos p)) with
         | Some z => z =? Z.pos p
         | None => false
         end).

(** ** The console: the screen buffer, the cursor and the keys

    The interpreter above sees the display as the characters written to it
    and the keyboard as the lines typed. The functions of the sketch that
    drive them work on the array [screen], the cursor [sX], [sY] and the keys
    read one by one. [glass] is what the display shows: the glyph last drawn
    at a column and a row, no glyph after a [clear]; [beeps] counts the calls
    of [tone]. *)

Module Console.

Definition SCREEN_SIZE : Z := 128.

Record console := mkConsole {
  screen : list ascii;
  sX : Z;
  sY : Z;
  glass : gmap (Z * Z) ascii;
  beeps : nat
}.

Definition set_screen (v : list ascii) (cs : console) : console :=
  mkConsole v (sX cs) (sY cs) (glass cs) (beeps cs).

Definition set_sX (v : Z) (cs : console) : console :=
  mkConsole (screen cs) v (sY cs) (glass cs) (beeps cs).

Definition set_sY (v : Z) (cs : console) : console :=
  mkConsole (screen cs) (sX cs) v (glass cs) (beeps cs).

(** [u8x8.drawGlyph] and [u8x8.clear]. *)
Definition drawGlyph (x y : Z) (c : ascii) (cs : console) : console :=
  mkConsole (screen cs) (sX cs) (sY cs) (<[(x, y) := c]> (glass cs)) (beeps cs).

Definition clear (cs : console) : console :=
  mkConsole (screen cs) (sX cs) (sY cs) ∅ (beeps cs).

Definition beep (cs : console) : console :=
  mkConsole (screen cs) (sX cs) (sY cs) (glass cs) (S (beeps cs)).

(** The console at power-up: the array is zeroed, nothing is shown. *)
Definition power_on : console :=
  mkConsole (replicate (Z.to_nat SCREEN_SIZE) NUL) 0 0 ∅ 0.

(** The three loops of [scrollScreen]. *)
Fixpoint scroll_up (n : nat) (i : Z) (scr : list ascii) : list ascii :=
  match n with
  | O => scr
  | S n' => scroll_up n' (i + 1) (arr_set scr (i - 16) (arr_get NUL scr i))
  end.

Fixpoint fill_blank (n : nat) (i : Z) (scr : list ascii) : list ascii :=
  match n with
  | O => scr
  | S n' => fill_blank n' (i + 1) (arr_set scr i SPACE)
  end.

Fixpoint redraw (n : nat) (i : Z) (cs : console) : console :=
  match n with
  | O => cs
  | S n' =>
      redraw n' (i + 1)
        (drawGlyph (Z.land i 15) (Z.shiftr i 4) (arr_get NUL (screen cs) i) cs)
  end.

Definition scrollScreen (cs : console) : console :=
  let cs := set_screen (scroll_up 112 16 (screen cs)) cs in
  let cs := set_screen (fill_blank 16 112 (screen cs)) cs in
  redraw 128 0 cs.

Definition screenSet (c : ascii) (cs : console) : console :=
  let cs := drawGlyph (sX cs) (sY cs) c cs in
  set_screen (arr_set (screen cs) (sX cs + 16 * sY cs) c) cs.

Definition newLine (cs : console) : console :=
  let cs := set_sX 0 cs in
  let cs := set_sY (sY cs + 1) cs in
  if 7 <? sY cs then set_sY 7 (scrollScreen cs) else cs.

Definition advance (cs : console) : console :=
  let cs := set_sX (sX cs + 1) cs in
  if 15 <? sX cs then newLine cs else cs.

(** [printStringD(str, n)]: the characters of [str] up to its NUL, [n] of
    them at most when [n] is positive. *)
Fixpoint printStringD (str : list ascii) (n : Z) (cs : console) : console :=
  match str with
  | [] => cs
  | c :: r =>
      if bool_decide (c = NUL) || (n =? 0) then cs
      else printStringD r (wrap (n - 1)) (advance (screenSet c cs))
  end.

(** [displayCarret]: while no key is down the caret is drawn and wiped in
    turn at the cursor; [blinks] is the number of turns before the key. *)
Fixpoint blink (blinks : nat) (carret : bool) (cs : console) : console :=
  match blinks with
  | O => cs
  | S n =>
      let carret := negb carret in
      blink n carret (screenSet (if carret then "_"%char else SPACE) cs)
  end.

Definition displayCarret (blinks : nat) (cs : console) : console :=
  blink blinks false cs.

(** The two loops of [syncToBuffer]. *)
Fixpoint sync_copy (n : nat) (k j : Z) (buffer : list ascii) (cs : console)
    : Z * console :=
  match n with
  | O => (j, cs)
  | S n' =>
      let c := arr_get NUL buffer k in
      let cs := set_screen (arr_set (screen cs) j c) cs in
      let cs := drawGlyph (Z.land j 15) (Z.shiftr j 4) c cs in
      sync_copy n' (k + 1) (j + 1) buffer cs
  end.

Fixpoint sync_fill (n : nat) (j : Z) (cs : console) : console :=
  match n with
  | O => cs
  | S n' =>
      let cs := set_screen (arr_set (screen cs) j SPACE) cs in
      let cs := drawGlyph (Z.land j 15) (Z.shiftr j 4) SPACE cs in
      sync_fill n' (j + 1) cs
  end.

Definition syncToBuffer (i : Z) (buffer : list ascii) (cs : console) : console :=
  let k := Z.shiftr (i + 1) 4 in
  let k := k - Z.min k 7 in
  let k := k * 16 in
  let '(j, cs) := sync_copy (Z.to_nat (i - k)) k 0 buffer cs in
  let cs := sync_fill (Z.to_nat (128 - j)) j cs in
  set_sY (Z.shiftr i 4) cs.

(** A key, as the [switch] of [getIn] sorts the code read: the enter key,
    the backspace key, a code without function (tab, escape, the page and
    arrow keys, the code 0), or any other code. *)
Inductive key :=
  | ENTER
  | BACKSPACE
  | NO_FUNCTION
  | CHAR (c : Z).

(** The byte that a [char] of value [c] is. *)
Definition char_of (c : Z) : ascii := ascii_of_nat (Z.to_nat (c mod 256)).

(** The input cycle of [getIn], from the index [i] on. Each key comes with
    the number of turns of the caret before it. [sync] is what the cycle calls
    when a backspace takes the cursor above the screen. *)
Fixpoint getIn_from (sync : Z → list ascii → console → console)
    (keys : list (nat * key)) (buffer : list ascii) (bufferSize i : Z)
    (cs : console) : outcome (list ascii * console * list (nat * key)) :=
  match keys with
  | [] => Blocked
  | (blinks, k) :: rest =>
      let cs := displayCarret blinks cs in
      match k with
      | ENTER =>
          let buffer := arr_set buffer i NUL in
          let cs := screenSet SPACE cs in
          let cs := newLine cs in
          Ok (buffer, cs, rest)
      | BACKSPACE =>
          if i =? 0 then getIn_from sync rest buffer bufferSize i (beep cs)
          else
            let cs := screenSet SPACE cs in
            let cs := set_sX (sX cs - 1) cs in
            let i := i - 1 in
            let cs :=
              if sX cs <? 0 then
                let cs := set_sX 15 cs in
                let cs := set_sY (sY cs - 1) cs in
                if sY cs <? 0 then
                  let cs := set_sY 0 cs in
                  if 0 <? i then sync i buffer cs else cs
                else cs
              else cs in
            getIn_from sync rest buffer bufferSize i cs
      | NO_FUNCTION => getIn_from sync rest buffer bufferSize i (beep cs)
      | CHAR c =>
          if c <? 161 then
            if bufferSize - i <? 2 then getIn_from sync rest buffer bufferSize i (beep cs)
            else
              let c := toupper (char_of c) in
              let buffer := arr_set buffer i c in
              let cs := screenSet c cs in
              let cs := advance cs in
              getIn_from sync rest buffer bufferSize (i + 1) cs
          else getIn_from sync rest buffer bufferSize i cs
      end
  end.

(** [getIn]. *)
Definition getIn (keys : list (nat * key)) (buffer : list ascii) (bufferSize : Z)
    (cs : console) : outcome (list ascii * console * list (nat * key)) :=
  getIn_from syncToBuffer keys buffer bufferSize 0 cs.

Definition welcome : list ascii := str "8-bit Forth v0.1".

(** [setup]: the array is blanked, the welcome message is printed on the
    fourth row, and after a delay the display is cleared. *)
Definition setup (cs : console) : console :=
  let cs := set_screen (fill_blank 128 0 (screen cs)) cs in
  let cs := clear cs in
  let cs := set_sY 3 cs in
  let cs := printStringD welcome (-1) cs in
  let cs := clear cs in
  set_sY 0 (set_sX 0 cs).

(** The cursor is on the screen, whose array has its size. *)
Definition cursor_ok (cs : console) : Prop :=
  0 <= sX cs <= 15 ∧ 0 <= sY cs <= 7
  ∧ length (screen cs) = Z.to_nat SCREEN_SIZE.

(** The glyph shown at a column and a row; no glyph shows as a blank. *)
Definition shown (cs : console) (x y : Z) : ascii :=
  default SPACE (glass cs !! (x, y)).

(** The display shows the array [screen]. *)
Definition mirror (cs : console) : Prop :=
  ∀ i, 0 <= i < SCREEN_SIZE →
       shown cs (Z.land i 15) (Z.shiftr i 4) = arr_get NUL (screen cs) i.

(** The text that a sequence of keys leaves, from the text [acc] typed so
    far: a character is appended, in upper case, when there is room for it
    and for the final NUL; a backspace removes the last character; the text
    ends at the enter key. *)
Fixpoint typed (keys : list (nat * key)) (bufferSize : Z) (acc : list ascii)
    : list ascii :=
  match keys with
  | [] => acc
  | (_, k) :: rest =>
      match k with
      | ENTER => acc
      | BACKSPACE => typed rest bufferSize (removelast acc)
      | NO_FUNCTION => typed rest bufferSize acc
      | CHAR c =>
          if (c <? 161) && (Z.of_nat (length acc) + 2 <=? bufferSize)
          then typed rest bufferSize (acc ++ [toupper (char_of c)])
          else typed rest bufferSize acc
      end
  end.


(** The position of the cursor, counted in characters from the top of the
    screen. *)
Definition position (cs : console) : Z := sX cs + 16 * sY cs.


(** A property of the console that the steps of the input cycle keep. *)
Definition kept_by_keys (P : console → Prop) : Prop :=
  (∀ cs c, cursor_ok cs → P cs → P (screenSet c cs))
  ∧ (∀ cs, 0 <= sY cs <= 7 → length (screen cs) = Z.to_nat SCREEN_SIZE →
           P cs → P (newLine cs))
  ∧ (∀ cs x, P cs → P (set_sX x cs))
  ∧ (∀ cs y, P cs → P (set_sY y cs))
  ∧ (∀ cs, P cs → P (beep cs)).

End Console.

(** ** Checking a property of every positive int, for the float conversion *)

(** [all_from f n p]: [f] holds of the [n] numbers from [p] on. *)
Fixpoint all_from (f : positive -> bool) (n : nat) (p : positive) : bool :=
  match n with
  | O => true
  | S n' => f p && all_from f n' (Pos.succ p)
  end.

(** The conversion of [p] and of [-p] to a float is exact, with a mantissa of
    24 bits. *)
Definition conv_ok (p : positive) : bool :=
  match float_of_int (Zpos p), float_of_int (Zneg p) with
  | S754_finite false m e, S754_finite true m' e' =>
      (Pos.eqb m m') && (e =? e') && (-23 <=? e) && (e <=? -8)
      && (Zpos m =? Zpos p * 2 ^ (- e)) && (8388608 <=? Zpos m) && (Zpos m <? 16777216)
  | _, _ => false
  end.

(** ** Tactics *)

(** Case analysis on the pairs and the fault tests of a function body. *)
Ltac split_lets :=
  repeat match goal with
    | |- context [let '(_, _) := ?x in _] => destruct x eqn:?
    | |- context [if faulted ?x then _ else _] => destruct (faulted x) eqn:?
    end.

(** Closes a goal with a hypothesis [faulted _ = true] about a state whose
    register is that of a state known to hold no fault. *)
Ltac absurd_fault He :=
  match goal with
  | H : faulted _ = true |- _ =>
      unfold faulted in H; simpl in H; rewrite He in H; simpl in H; discriminate H
  end.

(** Case analysis on the body of an operation that tests the register on
    entry; [Hc] is the ghost of the state and [Hf] its register. *)
Ltac ghost_cases Hc Hf :=
  repeat (case_match; simplify_eq; simpl);
  rewrite ?Hc, ?Hf; try reflexivity.

Ltac by_code := intros fuel w node Hw; simpl; rewrite Hw; reflexivity.

(** The boolean comparisons of the hypotheses, as propositions. *)
Ltac bools :=
  repeat match goal with
    | H : (_ <? _) = true |- _ => apply Z.ltb_lt in H
    | H : (_ <? _) = false |- _ => apply Z.ltb_ge in H
    | H : (_ <=? _) = true |- _ => apply Z.leb_le in H
    | H : (_ <=? _) = false |- _ => apply Z.leb_gt in H
    | H : (_ =? _) = true |- _ => apply Z.eqb_eq in H
    | H : (_ =? _) = false |- _ => apply Z.eqb_neq in H
    end.

Ltac bounds_by L :=
  unfold in_bounds, STACK_SIZE, DEF_STACK_SIZE, IDX_STACK_SIZE, arr_set in *; simpl in *;
  rewrite ?length_insert, ?L; bools; try lia.

(** A state that differs from [s] in none of the fields that [quiet] looks
    at, but for the construction stack. *)
Ltac quiet_fields_by L :=
  unfold quiet, kept_by_stage1; simpl;
  (split; [intros; bounds_by L |]); repeat split; auto.

Ltac zcases :=
  repeat match goal with
         | |- context [Z.leb ?a ?b] => destruct (Z.leb_spec a b)
         | |- context [Z.ltb ?a ?b] => destruct (Z.ltb_spec a b)
         end;
  cbn [andb].

(** Follows a chain of nodes in a concrete heap. *)
Ltac walk :=
  repeat (eexists; eexists;
          split; [reflexivity |];
          split; [vm_compute; reflexivity |];
          split; [reflexivity |]);
  try reflexivity.

(** * Properties *)

Lemma faulted_false (s : state) : errorCode s = NO_ERROR → faulted s = false.
Proof. intros H. unfold faulted. rewrite H. reflexivity. Qed.

Lemma faulted_true (s : state) : errorCode s ≠ NO_ERROR → faulted s = true.
Proof. intros H. unfold faulted. apply bool_decide_eq_true. exact H. Qed.

Lemma faulted_set (e : errorTypes) (s : state) :
  e ≠ NO_ERROR → faulted (set_errorCode e s) = true.
Proof. intros H. apply faulted_true. exact H. Qed.

(** ** Negative index of ROLL and PICK *)

Lemma pop_value (s : state) :
  errorCode s = NO_ERROR → 0 < top s →
  pop s = (arr_get 0 (stack s) (top s - 1), set_top (top s - 1) s).
Proof.
  intros He Ht. unfold pop. rewrite (faulted_false s He).
  destruct (Z.leb_spec (top s) 0); [lia | reflexivity].
Qed.

(** Claim C10.  [roll] and [pick] first pop the index; when the index popped
    is negative they return at once: no fault is raised and the only change to
    the state is that [top] is one lower, the index being consumed. *)
Theorem roll_pick_negative_index (fuel : nat) (w : word_t) (node : ptr) (s : state) :
  errorCode s = NO_ERROR →
  0 < top s →
  arr_get 0 (stack s) (top s - 1) < 0 →
  pop s = (arr_get 0 (stack s) (top s - 1), set_top (top s - 1) s)
  ∧ roll s = set_top (top s - 1) s
  ∧ pick s = set_top (top s - 1) s
  ∧ (type w = ROLL ∨ type w = PICK →
     execWordStage2 (S fuel) w node s = Ok (node, set_top (top s - 1) s))
  ∧ errorCode (set_top (top s - 1) s) = NO_ERROR
  ∧ stack (set_top (top s - 1) s) = stack s.
Proof.
  intros He Ht Hneg.
  assert (Hr : roll s = set_top (top s - 1) s).
  { unfold roll. rewrite (pop_value s He Ht).
    destruct (Z.ltb_spec (arr_get 0 (stack s) (top s - 1)) 0); [reflexivity | lia]. }
  assert (Hp : pick s = set_top (top s - 1) s).
  { unfold pick. rewrite (pop_value s He Ht).
    destruct (Z.ltb_spec (arr_get 0 (stack s) (top s - 1)) 0); [reflexivity | lia]. }
  split; [apply pop_value; assumption |].
  split; [exact Hr |]. split; [exact Hp |].
  split; [| split; [exact He | reflexivity]].
  intros [Hw | Hw]; simpl; rewrite (faulted_false s He), Hw; congruence.
Qed.

(** Claim C10 witness.  [-3 ROLL] and [-3 PICK] over a stack that holds 7. *)
Lemma roll_pick_negative_index_witness :
  let s := push (-3) (push 7 initial) in
  roll s = set_top 1 s ∧ pick s = set_top 1 s.
Proof.
  intros s.
  destruct (roll_pick_negative_index 0 (mkWord ROLL (intValue 0)) NULL s)
    as (_ & Hr & Hp & _); [reflexivity | vm_compute; reflexivity | vm_compute; reflexivity |].
  split; [exact Hr | exact Hp].
Defined.

(** ** Reading and writing the arrays *)

Lemma arr_get_set_eq {A} (d : A) (l : list A) (i : Z) (v : A) :
  0 <= i < Z.of_nat (length l) → arr_get d (arr_set l i v) i = v.
Proof.
  intros H. unfold arr_get, arr_set.
  apply nth_lookup_Some with (d := d).
  apply list_lookup_insert_eq. lia.
Qed.

Lemma arr_get_set_ne {A} (d : A) (l : list A) (i j : Z) (v : A) :
  0 <= i → 0 <= j → i ≠ j → arr_get d (arr_set l i v) j = arr_get d l j.
Proof.
  intros Hi Hj Hne. unfold arr_get, arr_set.
  rewrite !nth_lookup. rewrite list_lookup_insert_ne; [reflexivity | lia].
Qed.

(** ** The loop-close node at run time *)

Lemma idxPeek_value (off : Z) (s : state) :
  errorCode s = NO_ERROR → 0 <= idxTop s - off →
  idxPeek off s = (arr_get 0 (idxStack s) (idxTop s - off), s).
Proof.
  intros He H. unfold idxPeek. rewrite (faulted_false s He).
  destruct (Z.ltb_spec (idxTop s - off) 0); [lia | reflexivity].
Qed.

(** Claim C7.  Running a loop-close node at [p], matched with the loop-open
    node at [d]: the counter of the innermost frame is incremented; when it
    then equals the limit the node returned is [p], so that the caller resumes
    at the physical successor of [p]; otherwise it is [d], so that the caller
    resumes at the node after the loop-open. The frame stays on the loop stack
    in both cases. *)
Theorem LOOP_increments_and_keeps_frame
    (fuel : nat) (p d : positive) (nd dn : wordNode) (s : state) :
  let counter := wrap (arr_get 0 (idxStack s) (idxTop s - 1) + 1) in
  let limit := arr_get 0 (idxStack s) (idxTop s - 2) in
  let s' := set_idxStack (arr_set (idxStack s) (idxTop s - 1) counter) s in
  errorCode s = NO_ERROR →
  2 <= idxTop s <= Z.of_nat (length (idxStack s)) →
  heap s !! p = Some nd →
  type (_word nd) = LOOP →
  wa (_word nd) = nodeValue (Some d) →
  heap s !! d = Some dn →
  execWordStage2 (S fuel) (_word nd) (Some p) s
    = Ok (if counter =? limit then Some p else Some d, s')
  ∧ run_word (S (S fuel)) (Some p) s
    = run_word (S fuel) (if counter =? limit then next nd else next dn) s'
  ∧ idxTop s' = idxTop s
  ∧ arr_get 0 (idxStack s') (idxTop s' - 1) = counter
  ∧ arr_get 0 (idxStack s') (idxTop s' - 2) = limit.
Proof.
  intros counter limit s' He Hi Hp Ht Hwa Hd.
  assert (Hc : arr_get 0 (idxStack s') (idxTop s' - 1) = counter).
  { unfold s'. simpl. apply arr_get_set_eq. lia. }
  assert (Hl : arr_get 0 (idxStack s') (idxTop s' - 2) = limit).
  { unfold s'. simpl. apply arr_get_set_ne; lia. }
  assert (He' : faulted s' = false) by (apply faulted_false; exact He).
  assert (Hexec : execWordStage2 (S fuel) (_word nd) (Some p) s
                  = Ok (if counter =? limit then Some p else Some d, s')).
  { simpl. rewrite (faulted_false s He), Ht.
    unfold idxIncr. rewrite (faulted_false s He).
    destruct (Z.leb_spec (idxTop s) 0); [lia |].
    fold counter. fold s'. rewrite He'.
    rewrite (idxPeek_value 1 s' He), He' by (simpl; lia).
    rewrite (idxPeek_value 2 s' He), He' by (simpl; lia).
    rewrite Hc, Hl.
    destruct (counter =? limit); [reflexivity |].
    replace (heap s') with (heap s) by reflexivity.
    rewrite Hp, Hwa. reflexivity. }
  split; [exact Hexec |].
  split; [| split; [reflexivity | split; [exact Hc | exact Hl]]].
  change (run_word (S (S fuel)) (Some p) s) with
    (match heap s !! p with
     | None => Undefined
     | Some nd =>
         '(node, s) ← execWordStage2 (S fuel) (_word nd) (Some p) s;
         if faulted s then Ok (NULL, s)
         else
           match node with
           | None => run_word (S fuel) NULL s
           | Some q =>
               match heap s !! q with
               | None => Undefined
               | Some nq => run_word (S fuel) (next nq) s
               end
           end
     end).
  rewrite Hp, Hexec. unfold mbind, outcome_bind. rewrite He'.
  replace (heap s') with (heap s) by reflexivity.
  destruct (counter =? limit); [rewrite Hp | rewrite Hd]; reflexivity.
Qed.

(** Claim C7 witness.  The [LOOP] node of [: C 2 0 DO LOOP ;] on the frame of
    limit 2 and counter 0. *)
Lemma LOOP_increments_and_keeps_frame_witness :
  let s := idxPush 0 (idxPush 2 (state_of (interpret 1 9 [": C 2 0 DO LOOP ;"%string]))) in
  let nd := mkNode (mkWord LOOP (nodeValue (Some 3%positive))) (Some 5%positive) in
  heap s !! 4%positive = Some nd
  ∧ execWordStage2 1 (_word nd) (Some 4%positive) s
    = Ok (Some 3%positive, set_idxStack (arr_set (idxStack s) 1 1) s).
Proof.
  intros s nd.
  split; [vm_compute; reflexivity |].
  refine (proj1 (LOOP_increments_and_keeps_frame 0 4 3 nd
            (mkNode (mkWord DO (nodeValue (Some 4%positive))) (Some 4%positive))
            s _ _ _ _ _ _));
    vm_compute; try reflexivity; split; discriminate.
Defined.

(** Ten completed loops fill the loop stack: the eleventh [DO] overflows. *)
Lemma completed_loops_leave_frames :
  idxTop (state_of (interpret 11 20 [": L 1 0 DO LOOP ; L L L L L L L L L L L"%string])) = 20
  ∧ errorCode (state_of (interpret 11 20 [": L 1 0 DO LOOP ; L L L L L L L L L L L"%string]))
    = NO_ERROR
  ∧ errorCode (state_of (interpret 12 20 [": L 1 0 DO LOOP ; L L L L L L L L L L L"%string]))
    = STACK_OVERFLOW.
Proof. vm_compute. repeat split; reflexivity. Qed.

(** ** Division by zero *)

Lemma discard_value (count : Z) (s : state) :
  errorCode s = NO_ERROR → count <= top s →
  discard count s = set_top (top s - count) s.
Proof.
  intros He H. unfold discard. rewrite (faulted_false s He).
  destruct (Z.ltb_spec (top s) count); [lia | reflexivity].
Qed.

Lemma peek_value (idx : Z) (s : state) :
  errorCode s = NO_ERROR → 0 <= top s - idx < STACK_SIZE →
  peek idx s = (arr_get 0 (stack s) (top s - idx), s).
Proof.
  intros He H. unfold peek. rewrite (faulted_false s He).
  destruct (Z.ltb_spec (top s - idx) 0); [lia |].
  destruct (Z.leb_spec STACK_SIZE (top s - idx)); [lia | reflexivity].
Qed.

(** Claim C3, as amended.  The state in which a division word with a zero
    divisor leaves the interpreter: the array of the stack is as it was,
    nothing is pushed, the top index is two lower and the fault is set. *)
Theorem DIVIDE_by_zero_consumes_operands
    (fuel : nat) (w : word_t) (node : ptr) (s : state) :
  type w = DIVIDE →
  errorCode s = NO_ERROR →
  2 <= top s <= STACK_SIZE →
  arr_get 0 (stack s) (top s - 1) = 0 →
  execWordStage2 (S fuel) w node s
    = Ok (NULL, set_errorCode DIVISION_BY_ZERO (set_top (top s - 2) s))
  ∧ stack (set_errorCode DIVISION_BY_ZERO (set_top (top s - 2) s)) = stack s
  ∧ top (set_errorCode DIVISION_BY_ZERO (set_top (top s - 2) s)) = top s - 2.
Proof.
  intros Hw He Ht Hz.
  split; [| split; reflexivity].
  simpl. rewrite (faulted_false s He), Hw.
  rewrite (discard_value 2 s He) by lia.
  set (s1 := set_top (top s - 2) s).
  assert (He1 : errorCode s1 = NO_ERROR) by exact He.
  rewrite (faulted_false s1 He1).
  rewrite (peek_value 0 s1 He1) by (unfold STACK_SIZE in *; simpl; lia).
  rewrite (peek_value (-1) s1 He1) by (unfold STACK_SIZE in *; simpl; lia).
  replace (top s1 - -1) with (top s - 1) by (simpl; lia).
  replace (stack s1) with (stack s) by reflexivity.
  rewrite Hz. reflexivity.
Qed.

(** Claim C3 witness.  [/] over a stack that holds 1 and 0. *)
Lemma DIVIDE_by_zero_consumes_operands_witness :
  let s := push 0 (push 1 initial) in
  top s = 2
  ∧ execWordStage2 1 (mkWord DIVIDE (intValue 0)) NULL s
    = Ok (NULL, set_errorCode DIVISION_BY_ZERO (set_top 0 s)).
Proof.
  intros s. split; [reflexivity |].
  refine (proj1 (DIVIDE_by_zero_consumes_operands 0 (mkWord DIVIDE (intValue 0)) NULL s
            _ _ _ _)); vm_compute; try reflexivity; split; discriminate.
Defined.

(** Claim C3 counterexample.  [1 0 /] from power-up: the fault is raised and
    both operands are gone. *)
Lemma DIVIDE_by_zero_top_changes :
  ∃ s0 s1 : state,
    interpret 2 9 ["1 0 /"%string] = Ok s0
    ∧ interpret 3 9 ["1 0 /"%string] = Ok s1
    ∧ top s0 = 2
    ∧ errorCode s1 = DIVISION_BY_ZERO
    ∧ top s1 = 0
    ∧ top s1 ≠ top s0.
Proof.
  eexists; eexists.
  split; [vm_compute; reflexivity |].
  split; [vm_compute; reflexivity |].
  vm_compute. repeat split; discriminate.
Qed.

(** ** Reading the construction stack *)

Lemma defPeek_value (s : state) :
  errorCode s = NO_ERROR → 1 <= defTop s < STACK_SIZE →
  defPeek s = (arr_get INTEGER (defStack s) (defTop s - 1), s).
Proof.
  intros He H. unfold defPeek. rewrite (faulted_false s He).
  destruct (Z.ltb_spec (defTop s) 1); [lia |].
  destruct (Z.leb_spec STACK_SIZE (defTop s)); [lia | reflexivity].
Qed.

Lemma defDiscard_value (s : state) :
  errorCode s = NO_ERROR → 1 <= defTop s →
  defDiscard s = set_defTop (defTop s - 1) s.
Proof.
  intros He H. unfold defDiscard. rewrite (faulted_false s He).
  destruct (Z.leb_spec (defTop s) 0); [lia | reflexivity].
Qed.

(** ** The conditional at run time *)

Lemma exec_simple (fuel : nat) (w : word_t) (node : ptr) (s : state) :
  simple (type w) = true →
  ∃ r, execWordStage2 (S fuel) w node s = Ok (r, step w s)
       ∧ (faulted (step w s) = false → r = node).
Proof.
  intros Hs. unfold step. simpl.
  destruct (faulted s) eqn:Hf.
  - exists NULL. split; [reflexivity | congruence].
  - destruct (type w); try discriminate Hs; unfold checked; split_lets;
      eexists; (split; [reflexivity | try congruence; try reflexivity]).
Qed.

Lemma heap_print_elements (l : list Z) (s : state) :
  heap (print_elements l s) = heap s.
Proof.
  revert s. induction l as [| v l IH]; intros s; simpl; [reflexivity |].
  rewrite IH. reflexivity.
Qed.

Lemma heap_roll (s : state) : heap (roll s) = heap s.
Proof.
  unfold roll, pop, peek.
  repeat (case_match; simplify_eq; simpl; try reflexivity).
Qed.

Lemma heap_pick (s : state) : heap (pick s) = heap s.
Proof.
  unfold pick, pop, peek, push.
  repeat (case_match; simplify_eq; simpl; try reflexivity).
Qed.

(** Running a word leaves the arena as it is. *)
Lemma heap_step (w : word_t) (s : state) :
  simple (type w) = true → heap (step w s) = heap s.
Proof.
  intros Hs. unfold step. simpl.
  destruct (faulted s) eqn:Hf; [reflexivity |].
  destruct (type w); try discriminate Hs; try reflexivity;
    try apply heap_roll; try apply heap_pick;
    unfold checked, binary, slashMod, mod', divide, push, discard, peek, pop, poke,
      idxPush, idxPeek, idxIncr;
    repeat (case_match; simplify_eq; simpl; try reflexivity);
    try (cbn [heap set_printed]; rewrite heap_print_elements; reflexivity).
Qed.

Lemma step_faulted (w : word_t) (s : state) : faulted s = true → step w s = s.
Proof. intros Hf. unfold step. simpl. rewrite Hf. reflexivity. Qed.

Lemma straight_faulted (ws : list word_t) (s : state) :
  faulted s = true → straight ws s = s.
Proof.
  revert s. induction ws as [| w ws IH]; intros s Hf; [reflexivity |].
  unfold straight. simpl. rewrite (step_faulted w s Hf). apply IH. exact Hf.
Qed.

Lemma heap_straight (ws : list word_t) (s : state) :
  Forall (fun w => simple (type w) = true) ws → heap (straight ws s) = heap s.
Proof.
  revert s. induction ws as [| w ws IH]; intros s Hall; [reflexivity |].
  inversion Hall as [| ? ? Hw Hws]; subst.
  unfold straight. simpl. fold (straight ws (step w s)).
  rewrite IH by exact Hws. apply heap_step. exact Hw.
Qed.

Lemma plain_simple (t : wordType) : plain t = true → simple t = true.
Proof. destruct t; simpl; congruence. Qed.

(** The loop of the [IF] case over a branch of plain words that ends at an
    [ELSE] or [THEN] node [e]: the words are run in order, and the node
    returned is the branch target of the [ELSE], or the [THEN] itself. *)
Lemma run_if_branch (k : nat) (ws : list word_t) (entry : ptr) (e : positive)
    (ne : wordNode) (s : state) :
  seg (heap s) entry ws (Some e) →
  Forall (fun w => plain (type w) = true) ws →
  heap s !! e = Some ne →
  type (_word ne) = ELSE ∨ type (_word ne) = THEN →
  faulted (straight ws s) = false →
  run_if (S (length ws) + k) entry s
    = Ok (if bool_decide (type (_word ne) = ELSE) then wa_node (wa (_word ne)) else Some e,
          straight ws s).
Proof.
  revert entry s. induction ws as [| w ws IH]; intros entry s Hseg Hall He Hte Hnf.
  - simpl in Hseg. subst entry. simpl. rewrite He.
    destruct Hte as [Hte | Hte]; rewrite Hte; reflexivity.
  - simpl in Hseg. destruct Hseg as (a & nd & -> & Ha & Hw & Hseg).
    inversion Hall as [| ? ? Hpw Hpws]; subst.
    assert (Hsw : simple (type (_word nd)) = true) by (apply plain_simple; exact Hpw).
    assert (Hstep : faulted (step (_word nd) s) = false).
    { destruct (faulted (step (_word nd) s)) eqn:Hf; [| reflexivity].
      unfold straight in Hnf. simpl in Hnf.
      fold (straight ws (step (_word nd) s)) in Hnf.
      rewrite (straight_faulted ws _ Hf) in Hnf. congruence. }
    destruct (exec_simple (length ws + k) (_word nd) (Some a) s Hsw) as (r & Hex & Hr).
    specialize (Hr Hstep). subst r.
    change (run_if (S (length (_word nd :: ws)) + k) (Some a) s) with
      (match heap s !! a with
       | None => Undefined
       | Some nd =>
           if bool_decide (type (_word nd) ≠ ELSE) && bool_decide (type (_word nd) ≠ THEN)
           then
             '(node, s) ← execWordStage2 (S (length ws + k)) (_word nd) (Some a) s;
             if faulted s then Ok (NULL, s)
             else
               match node with
               | None => Ok (NULL, set_errorCode NODE_NULL_IN_IF s)
               | Some q =>
                   match heap s !! q with
                   | None => Undefined
                   | Some nq => run_if (S (length ws) + k) (next nq) s
                   end
               end
           else if bool_decide (type (_word nd) = ELSE)
           then Ok (wa_node (wa (_word nd)), s)
           else Ok (Some a, s)
       end).
    rewrite Ha.
    assert (Hg : bool_decide (type (_word nd) ≠ ELSE) && bool_decide (type (_word nd) ≠ THEN) = true).
    { destruct (type (_word nd)); try discriminate Hpw; reflexivity. }
    rewrite Hg, Hex. unfold mbind, outcome_bind. rewrite Hstep.
    rewrite (heap_step _ s Hsw), Ha.
    unfold straight. simpl. fold (straight ws (step (_word nd) s)).
    apply IH.
    + rewrite (heap_step _ s Hsw). exact Hseg.
    + exact Hpws.
    + rewrite (heap_step _ s Hsw). exact He.
    + exact Hte.
    + exact Hnf.
Qed.

(** The conditional over a branch of plain words that leaves no fault: the
    words are run in order, and the node returned is the branch target of
    the [ELSE] node that ends the branch, or the [THEN] node that ends it. *)
Lemma IF_plain_branch (k : nat) (ws : list word_t) (p e : positive)
    (nd ne : wordNode) (s : state) :
  let f := arr_get 0 (stack s) (top s - 1) in
  let s1 := set_top (top s - 1) s in
  let entry := if f =? 0 then wa_node (wa (_word nd)) else next nd in
  errorCode s = NO_ERROR →
  0 < top s →
  heap s !! p = Some nd →
  type (_word nd) = IF →
  seg (heap s) entry ws (Some e) →
  Forall (fun w => plain (type w) = true) ws →
  heap s !! e = Some ne →
  type (_word ne) = ELSE ∨ type (_word ne) = THEN →
  faulted (straight ws s1) = false →
  pop s = (f, s1)
  ∧ execWordStage2 (S (S (length ws)) + k) (_word nd) (Some p) s
    = Ok (if bool_decide (type (_word ne) = ELSE) then wa_node (wa (_word ne)) else Some e,
          straight ws s1).
Proof.
  intros f s1 entry He Htop Hp Ht Hseg Hall Hne Hte Hnf.
  pose proof (pop_value s He Htop) as Hpop. fold f s1 in Hpop.
  split; [exact Hpop |].
  change (S (S (length ws)) + k)%nat with (S (S (length ws) + k)).
  simpl execWordStage2. rewrite (faulted_false s He), Ht, Hp, Hpop.
  assert (He1 : faulted s1 = false) by (apply faulted_false; exact He).
  rewrite He1.
  replace (if negb (f =? 0) then next nd else wa_node (wa (_word nd))) with entry
    by (unfold entry; destruct (f =? 0); reflexivity).
  apply run_if_branch; assumption.
Qed.

Lemma run_word_S (fuel : nat) (p : positive) (s : state) :
  run_word (S fuel) (Some p) s
  = match heap s !! p with
    | None => Undefined
    | Some nd =>
        '(node, s) ← execWordStage2 fuel (_word nd) (Some p) s;
        if faulted s then Ok (NULL, s)
        else
          match node with
          | None => run_word fuel NULL s
          | Some q =>
              match heap s !! q with
              | None => Undefined
              | Some nq => run_word fuel (next nq) s
              end
          end
    end.
Proof. reflexivity. Qed.

Lemma run_word_NULL_S (fuel : nat) (s : state) : run_word (S fuel) NULL s = Ok (NULL, s).
Proof. reflexivity. Qed.

Lemma run_if_S (fuel : nat) (p : positive) (s : state) :
  run_if (S fuel) (Some p) s
  = match heap s !! p with
    | None => Undefined
    | Some nd =>
        if bool_decide (type (_word nd) ≠ ELSE) && bool_decide (type (_word nd) ≠ THEN)
        then
          '(node, s) ← execWordStage2 fuel (_word nd) (Some p) s;
          if faulted s then Ok (NULL, s)
          else
            match node with
            | None => Ok (NULL, set_errorCode NODE_NULL_IN_IF s)
            | Some q =>
                match heap s !! q with
                | None => Undefined
                | Some nq => run_if fuel (next nq) s
                end
            end
        else if bool_decide (type (_word nd) = ELSE)
        then Ok (wa_node (wa (_word nd)), s)
        else Ok (Some p, s)
    end.
Proof. reflexivity. Qed.

(** More fuel does not change a result. *)
Lemma fuel_S (fuel : nat) :
  (∀ w node s x, execWordStage2 fuel w node s = Ok x →
                 execWordStage2 (S fuel) w node s = Ok x)
  ∧ (∀ node s x, run_word fuel node s = Ok x → run_word (S fuel) node s = Ok x)
  ∧ (∀ node s x, run_if fuel node s = Ok x → run_if (S fuel) node s = Ok x).
Proof.
  induction fuel as [| fuel (IHe & IHw & IHi)];
    [repeat split; intros; discriminate |].
  split; [| split].
  - intros w node s x H.
    cbn [execWordStage2] in H |- *.
    destruct (faulted s) eqn:Hf; [exact H |].
    destruct (type w); try exact H.
    + apply IHw. exact H.
    + destruct node as [p |]; [| discriminate].
      destruct (heap s !! p) as [nd |]; [| discriminate].
      destruct (pop s) as [f s1].
      destruct (faulted s1); [exact H |].
      apply IHi. exact H.
  - intros node s x H.
    destruct node as [p |]; [| rewrite run_word_NULL_S in *; exact H].
    rewrite run_word_S in *.
    destruct (heap s !! p) as [nd |]; [| discriminate].
    destruct (execWordStage2 fuel (_word nd) (Some p) s) as [[n1 s1] | | | |] eqn:Hex;
      simpl in H; try discriminate.
    rewrite (IHe _ _ _ _ Hex). simpl.
    destruct (faulted s1); [exact H |].
    destruct n1 as [q |]; [| exact (IHw NULL s1 x H)].
    destruct (heap s1 !! q) as [nq |]; [| discriminate].
    apply IHw. exact H.
  - intros node s x H.
    destruct node as [p |]; [| discriminate].
    rewrite run_if_S in *.
    destruct (heap s !! p) as [nd |]; [| discriminate].
    destruct (bool_decide (type (_word nd) ≠ ELSE) && bool_decide (type (_word nd) ≠ THEN));
      [| exact H].
    destruct (execWordStage2 fuel (_word nd) (Some p) s) as [[n1 s1] | | | |] eqn:Hex;
      simpl in H; try discriminate.
    rewrite (IHe _ _ _ _ Hex). simpl.
    destruct (faulted s1); [exact H |].
    destruct n1 as [q |]; [| exact H].
    destruct (heap s1 !! q) as [nq |]; [| discriminate].
    apply IHi. exact H.
Qed.

Lemma fuel_le (fuel fuel' : nat) :
  (fuel <= fuel')%nat →
  (∀ w node s x, execWordStage2 fuel w node s = Ok x →
                 execWordStage2 fuel' w node s = Ok x)
  ∧ (∀ node s x, run_word fuel node s = Ok x → run_word fuel' node s = Ok x)
  ∧ (∀ node s x, run_if fuel node s = Ok x → run_if fuel' node s = Ok x).
Proof.
  induction 1 as [| fuel' Hle (IHe & IHw & IHi)]; [auto |].
  destruct (fuel_S fuel') as (He & Hw & Hi).
  repeat split; intros; [apply He, IHe | apply Hw, IHw | apply Hi, IHi]; assumption.
Qed.

(** The result of a word does not depend on the fuel. *)
Lemma runs_unique (w : word_t) (node : ptr) (s : state) (r r' : ptr) (s' s'' : state) :
  runs w node s r s' → runs w node s r' s'' → r = r' ∧ s' = s''.
Proof.
  intros [f1 H1] [f2 H2].
  apply (proj1 (fuel_le f1 (f1 `max` f2) ltac:(lia))) in H1.
  apply (proj1 (fuel_le f2 (f1 `max` f2) ltac:(lia))) in H2.
  rewrite H1 in H2. injection H2 as <- <-. auto.
Qed.

(** Running a word leaves the nodes as they are. *)
Lemma heap_exec (fuel : nat) :
  (∀ w node s r s', execWordStage2 fuel w node s = Ok (r, s') → heap s' = heap s)
  ∧ (∀ node s r s', run_word fuel node s = Ok (r, s') → heap s' = heap s)
  ∧ (∀ node s r s', run_if fuel node s = Ok (r, s') → heap s' = heap s).
Proof.
  induction fuel as [| fuel (IHe & IHw & IHi)];
    [repeat split; intros; discriminate |].
  split; [| split].
  - intros w node s r s' H.
    destruct (simple (type w)) eqn:Hs.
    { destruct (exec_simple fuel w node s Hs) as (r0 & Hex & _).
      rewrite Hex in H. injection H as <- <-. apply heap_step. exact Hs. }
    cbn [execWordStage2] in H. destruct (faulted s) eqn:Hf.
    { injection H as <- <-. reflexivity. }
    destruct (type w); try discriminate Hs.
    + apply IHw in H. exact H.
    + destruct node as [p |]; [| discriminate].
      destruct (heap s !! p) as [nd |]; [| discriminate].
      assert (Hpop : heap (pop s).2 = heap s)
        by (unfold pop; repeat (case_match; simpl; try reflexivity)).
      destruct (pop s) as [f s1]. simpl in Hpop.
      destruct (faulted s1).
      * injection H as <- <-. exact Hpop.
      * apply IHi in H. congruence.
    + assert (Hinc : heap (idxIncr s) = heap s)
        by (unfold idxIncr; repeat (case_match; simpl; try reflexivity)).
      assert (Hpk : ∀ off s0, heap (idxPeek off s0).2 = heap s0)
        by (intros off s0; unfold idxPeek; repeat (case_match; simpl; try reflexivity)).
      destruct (faulted (idxIncr s)); [injection H as <- <-; exact Hinc |].
      pose proof (Hpk 1 (idxIncr s)) as H1.
      destruct (idxPeek 1 (idxIncr s)) as [val s1]. simpl in H1.
      destruct (faulted s1); [injection H as <- <-; congruence |].
      pose proof (Hpk 2 s1) as H2.
      destruct (idxPeek 2 s1) as [limit s2]. simpl in H2.
      destruct (faulted s2); [injection H as <- <-; congruence |].
      destruct (val =? limit); [injection H as <- <-; congruence |].
      destruct node as [p |]; [| discriminate].
      destruct (heap s2 !! p); [| discriminate].
      injection H as <- <-. congruence.
  - intros node s r s' H.
    destruct node as [p |]; [| rewrite run_word_NULL_S in H; congruence].
    rewrite run_word_S in H.
    destruct (heap s !! p) as [nd |]; [| discriminate].
    destruct (execWordStage2 fuel (_word nd) (Some p) s) as [[n1 s1] | | | |] eqn:Hex;
      simpl in H; try discriminate.
    apply IHe in Hex.
    destruct (faulted s1); [injection H as <- <-; exact Hex |].
    destruct n1 as [q |].
    + destruct (heap s1 !! q) as [nq |]; [| discriminate].
      apply IHw in H. congruence.
    + apply IHw in H. congruence.
  - intros node s r s' H.
    destruct node as [p |]; [| discriminate].
    rewrite run_if_S in H.
    destruct (heap s !! p) as [nd |]; [| discriminate].
    destruct (bool_decide (type (_word nd) ≠ ELSE) && bool_decide (type (_word nd) ≠ THEN)).
    + destruct (execWordStage2 fuel (_word nd) (Some p) s) as [[n1 s1] | | | |] eqn:Hex;
        simpl in H; try discriminate.
      apply IHe in Hex.
      destruct (faulted s1); [injection H as <- <-; exact Hex |].
      destruct n1 as [q |].
      * destruct (heap s1 !! q) as [nq |]; [| discriminate].
        apply IHi in H. congruence.
      * injection H as <- <-. exact Hex.
    + destruct (bool_decide (type (_word nd) = ELSE)); injection H as <- <-; reflexivity.
Qed.

Lemma heap_runs (w : word_t) (node : ptr) (s : state) (r : ptr) (s' : state) :
  runs w node s r s' → heap s' = heap s.
Proof. intros [fuel H]. exact (proj1 (heap_exec fuel) _ _ _ _ _ H). Qed.

(** The loop of the [DEFINED_WORD] case returns the null pointer. *)
Lemma run_word_returns_NULL (fuel : nat) (node r : ptr) (s s' : state) :
  run_word fuel node s = Ok (r, s') → r = NULL.
Proof.
  revert node s. induction fuel as [| fuel IH]; intros node s H; [discriminate |].
  destruct node as [p |]; [| rewrite run_word_NULL_S in H; congruence].
  rewrite run_word_S in H.
  destruct (heap s !! p) as [nd |]; [| discriminate].
  destruct (execWordStage2 fuel (_word nd) (Some p) s) as [[n1 s1] | | | |];
    simpl in H; try discriminate.
  destruct (faulted s1); [congruence |].
  destruct n1 as [q |]; [| exact (IH _ _ H)].
  destruct (heap s1 !! q); [exact (IH _ _ H) | discriminate].
Qed.

Lemma runs_DEFINED_WORD (w : word_t) (node : ptr) (s : state) (r : ptr) (s' : state) :
  type w = DEFINED_WORD → runs w node s r s' → r = NULL.
Proof.
  intros Hw [fuel H]. destruct fuel as [| fuel]; [discriminate |].
  cbn [execWordStage2] in H. destruct (faulted s); [congruence |].
  rewrite Hw in H. exact (run_word_returns_NULL _ _ _ _ _ H).
Qed.

Lemma not_close (t : wordType) :
  bool_decide (t ≠ ELSE) && bool_decide (t ≠ THEN) = true ↔ t ≠ ELSE ∧ t ≠ THEN.
Proof.
  rewrite andb_true_iff, !bool_decide_eq_true. reflexivity.
Qed.

(** Every return of the loop of the [IF] case is a [branch]. *)
Lemma run_if_branch_of (fuel : nat) (node : ptr) (s : state) (r : ptr) (s' : state) :
  run_if fuel node s = Ok (r, s') → ∃ l, branch node s l r s'.
Proof.
  revert node s. induction fuel as [| fuel IH]; intros node s H; [discriminate |].
  destruct node as [p |]; [| discriminate].
  rewrite run_if_S in H.
  destruct (heap s !! p) as [nd |] eqn:Hp; [| discriminate].
  destruct (bool_decide (type (_word nd) ≠ ELSE) && bool_decide (type (_word nd) ≠ THEN))
    eqn:Hc.
  - apply not_close in Hc. destruct Hc as [Hc1 Hc2].
    destruct (execWordStage2 fuel (_word nd) (Some p) s) as [[n1 s1] | | | |] eqn:Hex;
      simpl in H; try discriminate.
    assert (Hr : runs (_word nd) (Some p) s n1 s1) by (exists fuel; exact Hex).
    destruct (faulted s1) eqn:Hf.
    + injection H as <- <-. exists [p]. eapply branch_fault; eassumption.
    + destruct n1 as [q |].
      * destruct (heap s1 !! q) as [nq |] eqn:Hq; [| discriminate].
        destruct (IH _ _ H) as [l Hl]. exists (p :: l).
        eapply branch_next; eassumption.
      * injection H as <- <-. exists [p]. eapply branch_null; eassumption.
  - assert (Ht : type (_word nd) = ELSE ∨ type (_word nd) = THEN).
    { destruct (decide (type (_word nd) = ELSE)) as [E | E]; [left; exact E |].
      destruct (decide (type (_word nd) = THEN)) as [E' | E']; [right; exact E' |].
      rewrite (proj2 (not_close _) (conj E E')) in Hc. discriminate. }
    exists []. pose proof (branch_close p nd s Hp Ht) as Hb. unfold close_of in Hb.
    destruct (bool_decide (type (_word nd) = ELSE)); injection H as <- <-; exact Hb.
Qed.

(** Every [branch] is a return of the loop of the [IF] case. *)
Lemma branch_run_if (node : ptr) (s : state) (l : list positive) (r : ptr) (s' : state) :
  branch node s l r s' → ∃ fuel, run_if fuel node s = Ok (r, s').
Proof.
  induction 1 as [e ne s He Hte
                 | a nd s r s1 Ha Hc1 Hc2 [f Hr] Hf
                 | a nd s s1 Ha Hc1 Hc2 [f Hr] Hf
                 | a q nd nq s s1 l r s2 Ha Hc1 Hc2 [f Hr] Hf Hq Hb [f2 IH]].
  - exists 1%nat. rewrite run_if_S, He.
    assert (Hc : bool_decide (type (_word ne) ≠ ELSE) && bool_decide (type (_word ne) ≠ THEN)
                 = false).
    { destruct Hte as [E | E]; rewrite E; reflexivity. }
    rewrite Hc. unfold close_of.
    destruct (bool_decide (type (_word ne) = ELSE)); reflexivity.
  - exists (S f). rewrite run_if_S, Ha, (proj2 (not_close _) (conj Hc1 Hc2)), Hr.
    simpl. rewrite Hf. reflexivity.
  - exists (S f). rewrite run_if_S, Ha, (proj2 (not_close _) (conj Hc1 Hc2)), Hr.
    simpl. rewrite Hf. reflexivity.
  - exists (S (f `max` f2)).
    rewrite run_if_S, Ha, (proj2 (not_close _) (conj Hc1 Hc2)).
    rewrite (proj1 (fuel_le f (f `max` f2) ltac:(lia)) _ _ _ _ Hr).
    simpl. rewrite Hf, Hq.
    exact (proj2 (proj2 (fuel_le f2 (f `max` f2) ltac:(lia))) _ _ _ IH).
Qed.

(** The nodes stay as they are along a branch, and a call of a defined word
    ends it with the null pointer and a fault. *)
Lemma branch_heap (node : ptr) (s : state) (l : list positive) (r : ptr) (s' : state) :
  branch node s l r s' → heap s' = heap s.
Proof.
  induction 1 as [e ne s He Hte
                 | a nd s r s1 Ha Hc1 Hc2 Hr Hf
                 | a nd s s1 Ha Hc1 Hc2 Hr Hf
                 | a q nd nq s s1 l r s2 Ha Hc1 Hc2 Hr Hf Hq Hb IH].
  - reflexivity.
  - exact (heap_runs _ _ _ _ _ Hr).
  - simpl. exact (heap_runs _ _ _ _ _ Hr).
  - rewrite IH. exact (heap_runs _ _ _ _ _ Hr).
Qed.

Lemma branch_call (node : ptr) (s : state) (l : list positive) (r : ptr) (s' : state) :
  branch node s l r s' →
  ∀ a na, a ∈ l → heap s !! a = Some na → type (_word na) = DEFINED_WORD →
          r = NULL ∧ faulted s' = true ∧ List.last l a = a.
Proof.
  induction 1 as [e ne s He Hte
                 | a nd s r s1 Ha Hc1 Hc2 Hr Hf
                 | a nd s s1 Ha Hc1 Hc2 Hr Hf
                 | a q nd nq s s1 l r s2 Ha Hc1 Hc2 Hr Hf Hq Hb IH];
    intros x nx Hin Hx Hdw.
  - apply elem_of_nil in Hin. destruct Hin.
  - apply list_elem_of_singleton in Hin. subst x. auto.
  - apply list_elem_of_singleton in Hin. subst x. auto.
  - apply elem_of_cons in Hin. destruct Hin as [-> | Hin].
    + rewrite Ha in Hx. injection Hx as <-.
      pose proof (runs_DEFINED_WORD _ _ _ _ _ Hdw Hr). discriminate.
    + rewrite <- (heap_runs _ _ _ _ _ Hr) in Hx.
      destruct (IH x nx Hin Hx Hdw) as (E1 & E2 & E3).
      split; [exact E1 |]. split; [exact E2 |].
      destruct l as [| y l]; [apply elem_of_nil in Hin; destruct Hin |].
      exact E3.
Qed.

(** Claim C4, as amended.  Running a conditional-open node with no fault
    pending. On an empty stack the flag cannot be popped: the case returns
    null with [STACK_UNDERFLOW]. Otherwise the flag is popped; a nonzero flag
    enters at the physical successor, a zero flag at the branch target of the
    node; from there the case returns exactly as [branch] says: the nodes are
    run one after the other, each by [execWordStage2], going on at the
    successor of the node that each run returns, up to the first [ELSE] or
    [THEN] node met, which is not run, and the node returned is the branch
    target of that [ELSE] or that [THEN] itself; the run ends before, with
    the null pointer, when a node leaves a fault or returns null, as every
    call of a defined word does. The caller, the loop of a body or of an
    enclosing conditional, resumes at the successor of the node returned. *)
Theorem IF_runs_one_branch (p : positive) (nd : wordNode) (s : state) :
  errorCode s = NO_ERROR →
  heap s !! p = Some nd →
  type (_word nd) = IF →
  let f := arr_get 0 (stack s) (top s - 1) in
  let s1 := set_top (top s - 1) s in
  let entry := if f =? 0 then wa_node (wa (_word nd)) else next nd in
  (top s <= 0 →
     ∀ fuel, execWordStage2 (S fuel) (_word nd) (Some p) s
             = Ok (NULL, set_errorCode STACK_UNDERFLOW s))
  ∧ (0 < top s →
     pop s = (f, s1)
     ∧ (∀ r s', runs (_word nd) (Some p) s r s' ↔ ∃ l, branch entry s1 l r s')
     ∧ (∀ l r s', branch entry s1 l r s' →
          heap s' = heap s
          ∧ ∀ a na, a ∈ l → heap s !! a = Some na → type (_word na) = DEFINED_WORD →
                    r = NULL ∧ faulted s' = true ∧ List.last l a = a))
  ∧ (∀ fuel c nc s',
       execWordStage2 fuel (_word nd) (Some p) s = Ok (Some c, s') →
       faulted s' = false → heap s' !! c = Some nc →
       run_word (S fuel) (Some p) s = run_word fuel (next nc) s'
       ∧ run_if (S fuel) (Some p) s = run_if fuel (next nc) s').
Proof.
  intros He Hp Ht f s1 entry. pose proof (faulted_false s He) as Hf.
  split; [| split].
  - intros Htop fuel. cbn [execWordStage2]. rewrite Hf, Ht, Hp.
    unfold pop. rewrite Hf. destruct (Z.leb_spec (top s) 0); [| lia].
    rewrite faulted_set by discriminate. reflexivity.
  - intros Htop. pose proof (pop_value s He Htop) as Hpop. fold f s1 in Hpop.
    assert (Hf1 : faulted s1 = false) by (apply faulted_false; exact He).
    assert (Hentry : (if negb (f =? 0) then next nd else wa_node (wa (_word nd))) = entry)
      by (unfold entry; destruct (f =? 0); reflexivity).
    split; [exact Hpop |]. split.
    + intros r s'. split.
      * intros [fuel H]. destruct fuel as [| fuel]; [discriminate |].
        cbn [execWordStage2] in H. rewrite Hf, Ht, Hp, Hpop, Hf1, Hentry in H.
        exact (run_if_branch_of _ _ _ _ _ H).
      * intros [l Hb]. destruct (branch_run_if _ _ _ _ _ Hb) as [fuel H].
        exists (S fuel). cbn [execWordStage2]. rewrite Hf, Ht, Hp, Hpop, Hf1, Hentry.
        exact H.
    + intros l r s' Hb. split; [exact (branch_heap _ _ _ _ _ Hb) |].
      intros a na Hin Ha Hdw. exact (branch_call _ _ _ _ _ Hb a na Hin Ha Hdw).
  - intros fuel c nc s' H Hf' Hc.
    rewrite run_word_S, run_if_S, Hp, H, Ht. simpl. rewrite Hf', Hc. auto.
Qed.

(** Claim C4 witness.  The [IF] node of [: T IF 1 ELSE 2 THEN ;] with the flag
    -1: the node of [1] is run, the loop stops at the [ELSE] node, at address
    3, and the [THEN] node, at address 5, is returned. *)
Lemma IF_runs_one_branch_witness :
  let s := push (-1) (state_of (interpret 1 9 [": T IF 1 ELSE 2 THEN ;"%string])) in
  let nd := mkNode (mkWord IF (nodeValue (Some 4%positive))) (Some 2%positive) in
  heap s !! 1%positive = Some nd
  ∧ pop s = (-1, set_top 0 s)
  ∧ runs (_word nd) (Some 1%positive) s (Some 5%positive) (push 1 (set_top 0 s)).
Proof.
  intros s nd.
  assert (Hnd : heap s !! 1%positive = Some nd) by (vm_compute; reflexivity).
  assert (He : errorCode s = NO_ERROR) by (vm_compute; reflexivity).
  assert (Htop : 0 < top s) by (vm_compute; reflexivity).
  destruct (IF_runs_one_branch 1 nd s He Hnd eq_refl) as (_ & H & _).
  destruct (H Htop) as (Hpop & Hrun & _). clear H.
  split; [exact Hnd |].
  split; [rewrite Hpop; vm_compute; reflexivity |].
  apply Hrun. exists [2%positive].
  match goal with
  | |- branch ?e ?s1 _ _ _ =>
      replace e with (Some 2%positive) by (vm_compute; reflexivity);
      replace s1 with (set_top 0 s) by (vm_compute; reflexivity)
  end.
  refine (branch_next 2 2 (mkNode (mkWord INTEGER (intValue 1)) (Some 3%positive))
            (mkNode (mkWord INTEGER (intValue 1)) (Some 3%positive))
            (set_top 0 s) (push 1 (set_top 0 s)) [] (Some 5%positive)
            (push 1 (set_top 0 s)) _ _ _ _ _ _ _).
  - vm_compute. reflexivity.
  - discriminate.
  - discriminate.
  - exists 1%nat. vm_compute. reflexivity.
  - vm_compute. reflexivity.
  - vm_compute. reflexivity.
  - refine (branch_close 3 (mkNode (mkWord ELSE (nodeValue (Some 5%positive)))
                              (Some 4%positive)) (push 1 (set_top 0 s)) _ _).
    + vm_compute. reflexivity.
    + left. reflexivity.
Defined.

(** Branches that are not straight-line code.  A nested conditional and a
    counted loop inside a branch are run whole.  A call of a defined word
    inside a branch ends the conditional with [NODE_NULL_IN_IF]: the [7]
    after [THEN] is not pushed. *)
Lemma IF_branch_examples :
  (let s := state_of (interpret 4 40
              [": T IF DUP IF 3 0 DO I . LOOP THEN 5 ELSE 2 THEN 7 ; 1 -1 T"%string]) in
   errorCode s = NO_ERROR ∧ display s = str "0 1 2 "
   ∧ top s = 3 ∧ take 3 (stack s) = [1; 5; 7])
  ∧ (let s := state_of (interpret 5 40
                [": SQ DUP * ; : T IF SQ THEN 7 ; 3 -1 T"%string]) in
     errorCode s = NODE_NULL_IN_IF ∧ top s = 1 ∧ take 1 (stack s) = [9]).
Proof. split; vm_compute; repeat split; reflexivity. Qed.

(** Claim C4 counterexample.  [: T IF 1 ELSE 2 THEN ; -1 T]: the branch target
    of the [IF] node is the node of [2], at address 4. With a nonzero flag the
    [IF] case returns the [THEN] node, at address 5, and [2] is never pushed. *)
Lemma IF_true_does_not_resume_at_branch_target :
  ∃ s0 s1 s2 nd,
    interpret 1 9 [": T IF 1 ELSE 2 THEN ; -1 T"%string] = Ok s0
    ∧ heap s0 !! 1%positive = Some nd
    ∧ type (_word nd) = IF
    ∧ wa (_word nd) = nodeValue (Some 4%positive)
    ∧ execWordStage2 9 (_word nd) (Some 1%positive) (push (-1) s0) = Ok (Some 5%positive, s1)
    ∧ Some 5%positive ≠ wa_node (wa (_word nd))
    ∧ interpret 3 9 [": T IF 1 ELSE 2 THEN ; -1 T"%string] = Ok s2
    ∧ top s2 = 1
    ∧ take 1 (stack s2) = [1].
Proof.
  eexists; eexists; eexists; eexists.
  split; [vm_compute; reflexivity |].
  split; [vm_compute; reflexivity |].
  split; [reflexivity |].
  split; [reflexivity |].
  split; [vm_compute; reflexivity |].
  split; [discriminate |].
  split; [vm_compute; reflexivity |].
  split; reflexivity.
Qed.

(** ** The backward patch of THEN *)

(** Claim C5, the code at the failing input.  [: T IF 1 ELSE DUP IF 2 THEN
    THEN ;]. The nodes are at the addresses 1 to 9: the outer [IF] at 1,
    [ELSE] at 3, [DUP] at 4, the inner [IF] at 5, the inner [THEN] at 7, the
    outer [THEN] at 8. At the inner [THEN] the scan takes the outer [ELSE],
    which stands before the inner [IF]: the inner [IF] gets the node after
    that [ELSE] as its target and the [ELSE] gets the inner [THEN]. At the
    outer [THEN] no [ELSE] is left unresolved and the outer [IF] gets the
    outer [THEN] itself. *)
Theorem THEN_patch_takes_ELSE_before_IF :
  ∃ s, interpret 1 20 [": T IF 1 ELSE DUP IF 2 THEN THEN ;"%string] = Ok s
       ∧ errorCode s = NO_ERROR
       ∧ heap s !! 5%positive
         = Some (mkNode (mkWord IF (nodeValue (Some 4%positive))) (Some 6%positive))
       ∧ heap s !! 3%positive
         = Some (mkNode (mkWord ELSE (nodeValue (Some 7%positive))) (Some 4%positive))
       ∧ heap s !! 7%positive
         = Some (mkNode (mkWord THEN (nodeValue (Some 5%positive))) (Some 8%positive))
       ∧ heap s !! 1%positive
         = Some (mkNode (mkWord IF (nodeValue (Some 8%positive))) (Some 2%positive))
       ∧ heap s !! 8%positive
         = Some (mkNode (mkWord THEN (nodeValue (Some 1%positive))) (Some 9%positive)).
Proof.
  eexists. split; [vm_compute; reflexivity |].
  vm_compute. repeat split; reflexivity.
Qed.

(** With that body, [5 0 T] runs nothing of the [ELSE] branch. *)
Lemma THEN_patch_skips_else_branch :
  ∃ s, interpret 4 20 [": T IF 1 ELSE DUP IF 2 THEN THEN ; 5 0 T"%string] = Ok s
       ∧ errorCode s = NO_ERROR
       ∧ top s = 1
       ∧ take 1 (stack s) = [5].
Proof.
  eexists. split; [vm_compute; reflexivity |].
  vm_compute. repeat split; reflexivity.
Qed.

(** ** Redefinition *)

(** Claim C1, the code at the failing input.  [: A 1 ; : B A ; : A 2 ;]. The
    first body of [A] is at the addresses 1 and 2, the body of [B] at 3 and 4,
    the second body of [A] at 5 and 6. After the redefinition the first body
    is freed, the dictionary names the second one, and the node of [B] still
    points at address 1. *)
Theorem redefinition_leaves_dangling_reference :
  ∃ s, interpret 3 20 [": A 1 ; : B A ; : A 2 ;"%string] = Ok s
       ∧ errorCode s = NO_ERROR
       ∧ wordList s = [mkDefined (str "B") (Some 3%positive);
                       mkDefined (str "A") (Some 5%positive)]
       ∧ heap s !! 3%positive
         = Some (mkNode (mkWord DEFINED_WORD (nodeValue (Some 1%positive))) (Some 4%positive))
       ∧ heap s !! 1%positive = None
       ∧ heap s !! 2%positive = None
       ∧ heap s !! 5%positive
         = Some (mkNode (mkWord INTEGER (intValue 2)) (Some 6%positive)).
Proof.
  eexists. split; [vm_compute; reflexivity |].
  vm_compute. repeat split; reflexivity.
Qed.

(** Calling [B] then reads the freed node; calling [A] runs the new body. *)
Lemma redefinition_call_through_old_reference :
  interpret 4 20 [": A 1 ; : B A ; : A 2 ; B"%string] = Undefined
  ∧ ∃ s, interpret 4 20 [": A 1 ; : B A ; : A 2 ; A"%string] = Ok s
         ∧ top s = 1 ∧ take 1 (stack s) = [2].
Proof.
  split; [vm_compute; reflexivity |].
  eexists. split; [vm_compute; reflexivity |].
  vm_compute. split; reflexivity.
Qed.

(** ** The construction stack across a compilation *)

Lemma block_le (h : gmap positive wordNode) (a : positive) (ts : list wordType)
    (q : positive) :
  block h a ts q → (a <= q)%positive.
Proof.
  revert a. induction ts as [| t ts IH]; intros a H; simpl in H.
  - subst. lia.
  - destruct H as (nd & _ & _ & _ & H). apply IH in H. lia.
Qed.

Lemma block_shape (h h' : gmap positive wordNode) (a : positive)
    (ts : list wordType) (q : positive) :
  (∀ k, (k < q)%positive → shape h' k = shape h k) →
  block h a ts q → block h' a ts q.
Proof.
  intros Hsh. revert a. induction ts as [| t ts IH]; intros a H; simpl in *.
  - exact H.
  - destruct H as (nd & Ha & Ht & Hn & H).
    pose proof (block_le _ _ _ _ H) as Hle.
    assert (Hk : shape h' a = shape h a) by (apply Hsh; lia).
    unfold shape in Hk. rewrite Ha in Hk. simpl in Hk.
    destruct (h' !! a) as [nd' |] eqn:Ha'; [| discriminate].
    simpl in Hk. injection Hk as Ht' Hn'.
    exists nd'. repeat split; [congruence | congruence |].
    apply IH. exact H.
Qed.

Lemma block_snoc (h : gmap positive wordNode) (a : positive) (ts : list wordType)
    (q : positive) (nd : wordNode) :
  block h a ts q → h !! q = Some nd → next nd = Some (Pos.succ q) →
  block h a (ts ++ [type (_word nd)]) (Pos.succ q).
Proof.
  revert a. induction ts as [| t ts IH]; intros a H Hq Hn; simpl in *.
  - subst a. exists nd. auto.
  - destruct H as (nd' & Ha & Ht & Hn' & H).
    exists nd'. repeat split; try assumption. apply IH; assumption.
Qed.

Lemma depth_change_snoc (ts : list wordType) (t : wordType) :
  depth_change (ts ++ [t]) = depth_change ts + nesting t.
Proof.
  unfold depth_change. induction ts as [| x ts IH]; simpl; [lia |].
  rewrite IH. lia.
Qed.

Lemma shape_alter (f : wordNode → wordNode) (d : positive)
    (h : gmap positive wordNode) (k : positive) :
  (∀ nd, type (_word (f nd)) = type (_word nd) ∧ next (f nd) = next nd) →
  shape (alter f d h) k = shape h k.
Proof.
  intros Hf. unfold shape. rewrite lookup_alter.
  case_decide; [| reflexivity]. subst.
  destruct (h !! k) as [nd |]; simpl; [| reflexivity].
  destruct (Hf nd) as [-> ->]. reflexivity.
Qed.

Lemma shape_store_wa (d : positive) (v : workingArea) (s : state) (k : positive) :
  shape (heap (store_wa d v s)) k = shape (heap s) k.
Proof. apply shape_alter. intros nd. split; reflexivity. Qed.

Lemma expectWord_frame (s s' : state) (i : Z) :
  expectWord s = (i, s') →
  frame s s' ∧ (errorCode s' = errorCode s ∨ errorCode s' = EXPECTED_WORD).
Proof.
  unfold expectWord, frame. intros H.
  repeat case_match; simplify_eq; simpl; auto 10.
Qed.

Lemma parseWord_frame (idx : Z) (w w' : word_t) (s s' : state) :
  parseWord idx w s = (w', s') →
  frame s s' ∧ (errorCode s' = errorCode s ∨ errorCode s' = UNRECOGNIZED_WORD).
Proof.
  unfold parseWord, frame. intros H.
  repeat case_match; simplify_eq; simpl; auto 10.
Qed.

Lemma defPeek_cases (s : state) :
  errorCode s = NO_ERROR →
  defPeek s = (INTEGER, set_errorCode STACK_ERROR s)
  ∨ (1 <= defTop s ∧ defPeek s = (arr_get INTEGER (defStack s) (defTop s - 1), s)).
Proof.
  intros He. unfold defPeek. rewrite (faulted_false s He).
  destruct (Z.ltb_spec (defTop s) 1); simpl; [left; reflexivity |].
  destruct (Z.leb_spec STACK_SIZE (defTop s)); [left | right]; auto.
Qed.

(** Stage 1 on one word of a body: the arena is not touched, and [defTop]
    moves by the nesting of the word when the word is accepted. *)
Lemma stage1_in_definition (fuel : nat) (w w' : word_t) (idx idx' : Z) (s s' : state) :
  errorCode s = NO_ERROR →
  inWordDefinition s = true →
  execWordStage1 fuel w idx s = Ok (w', idx', s') →
  heap s' = heap s ∧ brk s' = brk s ∧ inWordDefinition s' = true
  ∧ type w' = type w
  ∧ defTop s' = defTop s + (if faulted s' then 0 else nesting (type w))
  ∧ errorCode s' ≠ LONE_THEN ∧ errorCode s' ≠ LONE_LOOP.
Proof.
  intros He Hin H. destruct fuel as [| fuel]; [discriminate |].
  simpl in H. rewrite (faulted_false s He) in H.
  pose proof (faulted_false s He) as Hf.
  destruct (type w) eqn:Ht;
    try (injection H as <- <- <-; rewrite Hf, Ht; simpl;
         repeat split; [assumption | lia | congruence | congruence]).
  - (* PRINT_S *)
    unfold stage1_PRINT_S, fault, addString in H.
    repeat case_match; simplify_eq; simpl; rewrite ?Hf;
      repeat split; try assumption; try lia; try congruence; try discriminate;
      try absurd_fault He.
  - (* COLON *)
    rewrite Hin in H. unfold fault in H. simplify_eq. simpl.
    repeat split; try assumption; try lia; try discriminate.
  - (* IF *)
    unfold stage1_open, fault, defPush in H. rewrite Hin, Hf, Ht in H. simpl in H.
    repeat case_match; simplify_eq; simpl; rewrite ?Hf;
      repeat split; try assumption; try lia; try congruence; try discriminate;
      try absurd_fault He.
  - (* ELSE *)
    unfold stage1_ELSE_THEN, fault in H. rewrite Hin, Ht in H. simpl in H.
    destruct (defPeek_cases s He) as [Hp | [Hd Hp]]; rewrite Hp in H.
    + simpl in H. simplify_eq. simpl.
      repeat split; try assumption; try lia; try discriminate.
    + rewrite Hf in H.
      repeat case_match; simplify_eq; simpl; rewrite ?Hf;
        repeat split; try assumption; try lia; try congruence; try discriminate;
      try absurd_fault He.
  - (* THEN *)
    unfold stage1_ELSE_THEN, fault in H. rewrite Hin, Ht in H. simpl in H.
    destruct (defPeek_cases s He) as [Hp | [Hd Hp]]; rewrite Hp in H.
    + simpl in H. simplify_eq. simpl.
      repeat split; try assumption; try lia; try discriminate.
    + rewrite Hf, (defDiscard_value s He Hd) in H.
      repeat case_match; simplify_eq; simpl; rewrite ?Hf;
        repeat split; try assumption; try lia; try congruence; try discriminate;
      try absurd_fault He.
  - (* DO *)
    unfold stage1_open, fault, defPush in H. rewrite Hin, Hf, Ht in H. simpl in H.
    repeat case_match; simplify_eq; simpl; rewrite ?Hf;
      repeat split; try assumption; try lia; try congruence; try discriminate;
      try absurd_fault He.
  - (* LOOP *)
    unfold stage1_LOOP, fault in H. rewrite Hin in H. simpl in H.
    destruct (defPeek_cases s He) as [Hp | [Hd Hp]]; rewrite Hp in H.
    + simpl in H. simplify_eq. simpl.
      repeat split; try assumption; try lia; try discriminate.
    + rewrite Hf, (defDiscard_value s He Hd) in H.
      repeat case_match; simplify_eq; simpl; rewrite ?Hf;
        repeat split; try assumption; try lia; try congruence; try discriminate;
      try absurd_fault He.
  - (* I *)
    unfold stage1_I, fault in H. rewrite Hin in H. simpl in H.
    repeat case_match; simplify_eq; simpl; rewrite ?Hf;
      repeat split; try assumption; try lia; try congruence; try discriminate;
      try absurd_fault He.
Qed.

Lemma shape_lookup (h : gmap positive wordNode) (k : positive) (t : wordType) (n : ptr) :
  shape h k = Some (t, n) ↔ ∃ nd, h !! k = Some nd ∧ type (_word nd) = t ∧ next nd = n.
Proof.
  unfold shape. split.
  - destruct (h !! k) as [nd |]; simpl; [| discriminate].
    intros H. injection H as <- <-. eauto.
  - intros (nd & -> & <- & <-). reflexivity.
Qed.

Lemma shape_store_word_ne (p : positive) (w : word_t) (s : state) (k : positive) :
  k ≠ p → shape (heap (store_word p w s)) k = shape (heap s) k.
Proof.
  intros Hne. unfold shape, store_word. simpl.
  rewrite lookup_alter_ne by congruence. reflexivity.
Qed.

Lemma shape_store_word_eq (p : positive) (w : word_t) (s : state) (t : wordType) (n : ptr) :
  shape (heap s) p = Some (t, n) →
  shape (heap (store_word p w s)) p = Some (type w, n).
Proof.
  intros H. apply shape_lookup in H. destruct H as (nd & Hp & _ & Hn).
  unfold shape, store_word. simpl.
  rewrite lookup_alter_eq, Hp. simpl. rewrite Hn. reflexivity.
Qed.

Lemma append_node_linked (s s3 : state) (a0 p : positive) (start start' node : ptr)
    (T : list wordType) :
  linked s a0 start node T →
  append_node start node s = (start', p, s3) →
  start' = Some a0 ∧ block (heap s3) a0 T p
  ∧ shape (heap s3) p = Some (INTEGER, NULL)
  ∧ brk s3 = Pos.succ p ∧ errorCode s3 = errorCode s
  ∧ inWordDefinition s3 = inWordDefinition s ∧ defTop s3 = defTop s.
Proof.
  intros Hl H. unfold append_node, malloc in H. simpl in H.
  destruct node as [n |]; simpl in Hl.
  - destruct Hl as (-> & Hb & ts & t & -> & Hblk & Hn).
    injection H as <- <- <-. simpl.
    split; [reflexivity |].
    assert (Hlt : (n < brk s)%positive) by lia.
    split; [| split; [| auto]].
    + rewrite Hb. apply shape_lookup in Hn. destruct Hn as (nd & Hnd & <- & Hnx).
      replace (type (_word nd)) with
        (type (_word (mkNode (_word nd) (Some (Pos.succ n))))) by reflexivity.
      apply block_snoc.
      * apply block_shape with (h := heap s); [| exact Hblk].
        intros k Hk. unfold shape.
        rewrite !lookup_alter_ne, lookup_insert_ne by lia. reflexivity.
      * rewrite lookup_alter_ne, lookup_alter_eq, lookup_insert_ne, Hnd by lia.
        reflexivity.
      * reflexivity.
    + unfold shape. rewrite lookup_alter_eq, lookup_alter_ne, lookup_insert_eq by lia.
      reflexivity.
  - destruct Hl as (-> & ->). injection H as <- <- <-. simpl.
    split; [reflexivity |]. split; [reflexivity |].
    split; [| auto].
    unfold shape. rewrite lookup_alter_eq, lookup_insert_eq. reflexivity.
Qed.

Lemma patch_LOOP_frame (start : ptr) (p : positive) (s s' : state) :
  patch_LOOP start p s = Ok s' →
  (∀ k, shape (heap s') k = shape (heap s) k)
  ∧ brk s' = brk s ∧ inWordDefinition s' = inWordDefinition s
  ∧ defTop s' = defTop s
  ∧ (errorCode s' = errorCode s ∨ errorCode s' = LONE_LOOP).
Proof.
  unfold patch_LOOP. intros H.
  destruct (lastUndefinedDo (heap s) (patch_fuel s) start (Some p) NULL)
    as [[d |] | | | |]; simpl in H; try discriminate;
    assert (Hs : s' = _) by (symmetry; injection H; intros E; exact E);
    subst s';
    (split; [intros k; rewrite ?shape_store_wa; reflexivity | simpl; auto 10]).
Qed.

Lemma patch_THEN_frame (start : ptr) (p : positive) (s s' : state) :
  patch_THEN start p s = Ok s' →
  (∀ k, shape (heap s') k = shape (heap s) k)
  ∧ brk s' = brk s ∧ inWordDefinition s' = inWordDefinition s
  ∧ defTop s' = defTop s
  ∧ (errorCode s' = errorCode s ∨ errorCode s' = LONE_THEN).
Proof.
  unfold patch_THEN. intros H.
  destruct (lastUndefinedIfElse (heap s) (patch_fuel s) start (Some p) NULL NULL)
    as [[[i |] [e |]] | | | |]; simpl in H; try discriminate.
  1: destruct (heap s !! e) as [nd |]; simpl in H; [| discriminate].
  all: assert (Hs : s' = _) by (symmetry; injection H; intros E; exact E);
    subst s';
    (split; [intros k; rewrite ?shape_store_wa; reflexivity | simpl; auto 10]).
Qed.

Lemma faulted_false_inv (s : state) : faulted s = false → errorCode s = NO_ERROR.
Proof.
  unfold faulted. intros H. apply bool_decide_eq_false in H.
  destruct (decide (errorCode s = NO_ERROR)) as [E | E]; [exact E | contradiction].
Qed.

Lemma faulted_true_inv (s : state) : faulted s = true → errorCode s ≠ NO_ERROR.
Proof. unfold faulted. intros H. apply bool_decide_eq_true in H. exact H. Qed.

Lemma patch_frame (start : ptr) (p : positive) (w : word_t) (s s' : state) :
  match type w with
  | LOOP => patch_LOOP start p s
  | THEN => patch_THEN start p s
  | _ => Ok s
  end = Ok s' →
  (∀ k, shape (heap s') k = shape (heap s) k)
  ∧ brk s' = brk s ∧ inWordDefinition s' = inWordDefinition s
  ∧ defTop s' = defTop s
  ∧ (errorCode s' = errorCode s
     ∨ (errorCode s' = LONE_LOOP ∧ type w = LOOP)
     ∨ (errorCode s' = LONE_THEN ∧ type w = THEN)).
Proof.
  intros H.
  destruct (type w) eqn:Ht;
    try (injection H as <-; repeat split; auto).
  - apply patch_THEN_frame in H. destruct H as (H1 & H2 & H3 & H4 & [H5 | H5]); auto 10.
  - apply patch_LOOP_frame in H. destruct H as (H1 & H2 & H3 & H4 & [H5 | H5]); auto 10.
Qed.

(** One turn of the loop of the compiler, on the node [p] just appended. *)
Lemma compile_word_depth (fuel : nat) (start : ptr) (a0 p : positive)
    (T : list wordType) (idx idx' : Z) (again : bool) (s s' : state) (t0 : wordType) :
  errorCode s = NO_ERROR →
  inWordDefinition s = true →
  block (heap s) a0 T p →
  shape (heap s) p = Some (t0, NULL) →
  compile_word (execWordStage1 fuel) start p idx s = Ok (again, idx', s') →
  ∃ t, block (heap s') a0 T p
       ∧ shape (heap s') p = Some (t, NULL)
       ∧ brk s' = brk s
       ∧ inWordDefinition s' = true
       ∧ defTop s' = defTop s + closing (errorCode s') t
       ∧ (again = true → errorCode s' = NO_ERROR)
       ∧ (again = false → errorCode s' = NO_ERROR → t = SEMICOLON).
Proof.
  intros He Hin Hblk Hp H. unfold compile_word in H.
  destruct (expectWord (set_b_idx idx s)) as [i1 s1] eqn:Hew.
  apply expectWord_frame in Hew. destruct Hew as ((Hh1 & Hb1 & Hi1 & Hd1) & He1).
  simpl in Hh1, Hb1, Hi1, Hd1, He1.
  destruct (faulted s1) eqn:Hf1.
  { injection H as <- <- <-. exists t0.
    rewrite Hh1, Hb1, Hi1, Hd1.
    destruct He1 as [E | E]; [apply faulted_true_inv in Hf1; congruence |].
    rewrite E. simpl. repeat split; auto; try lia; congruence. }
  apply faulted_false_inv in Hf1.
  destruct (parseWord i1 (load_word p s1) s1) as [w2 s2] eqn:Hpw.
  apply parseWord_frame in Hpw. destruct Hpw as ((Hh2 & Hb2 & Hi2 & Hd2) & He2).
  assert (Hblk2 : block (heap (store_word p w2 s2)) a0 T p).
  { apply block_shape with (h := heap s); [| exact Hblk].
    intros k Hk. rewrite shape_store_word_ne by lia. congruence. }
  assert (Hp2 : shape (heap (store_word p w2 s2)) p = Some (type w2, NULL)).
  { apply shape_store_word_eq with (t := t0). congruence. }
  destruct (faulted (store_word p w2 s2)) eqn:Hf2.
  { injection H as <- <- <-. exists (type w2).
    change (faulted (store_word p w2 s2)) with (faulted s2) in Hf2.
    destruct He2 as [E | E]; [apply faulted_true_inv in Hf2; congruence |].
    split; [exact Hblk2 |]. split; [exact Hp2 |].
    simpl. rewrite E, Hb2, Hb1, Hi2, Hi1, Hd2, Hd1. simpl.
    repeat split; auto; try lia; congruence. }
  change (faulted (store_word p w2 s2)) with (faulted s2) in Hf2.
  apply faulted_false_inv in Hf2.
  destruct (execWordStage1 fuel w2 i1 (store_word p w2 s2))
    as [[[w3 i3] s3] | | | |] eqn:Hs1; simpl in H; try discriminate.
  apply stage1_in_definition in Hs1; [| exact Hf2 | simpl; congruence].
  destruct Hs1 as (Hh3 & Hb3 & Hi3 & Ht3 & Hd3 & Hn3 & Hn3').
  assert (Hblk3 : block (heap (store_word p w3 s3)) a0 T p).
  { apply block_shape with (h := heap (store_word p w2 s2)); [| exact Hblk2].
    intros k Hk. rewrite shape_store_word_ne by lia. rewrite Hh3. reflexivity. }
  assert (Hp3 : shape (heap (store_word p w3 s3)) p = Some (type w3, NULL)).
  { apply shape_store_word_eq with (t := type w2). rewrite Hh3. exact Hp2. }
  simpl in Hb3, Hd3.
  destruct (faulted (store_word p w3 s3)) eqn:Hf3.
  { injection H as <- <- <-. exists (type w3).
    change (faulted (store_word p w3 s3)) with (faulted s3) in Hf3.
    rewrite Hf3 in Hd3. apply faulted_true_inv in Hf3.
    split; [exact Hblk3 |]. split; [exact Hp3 |].
    simpl. rewrite Hb3, Hb2, Hb1, Hd3, Hd2, Hd1.
    repeat split; auto; try congruence.
    destruct (errorCode s3); simpl; try lia; congruence. }
  change (faulted (store_word p w3 s3)) with (faulted s3) in Hf3.
  rewrite Hf3 in Hd3. apply faulted_false_inv in Hf3.
  destruct (match type w3 with
            | LOOP => patch_LOOP start p (store_word p w3 s3)
            | THEN => patch_THEN start p (store_word p w3 s3)
            | _ => Ok (store_word p w3 s3)
            end) as [s4 | | | |] eqn:Hpatch; simpl in H; try discriminate.
  apply patch_frame in Hpatch.
  destruct Hpatch as (Hsh4 & Hb4 & Hi4 & Hd4 & He4). simpl in Hb4, Hi4, Hd4, He4.
  assert (Hblk4 : block (heap s4) a0 T p).
  { apply block_shape with (h := heap (store_word p w3 s3)); [| exact Hblk3].
    intros k _. apply Hsh4. }
  assert (Hp4 : shape (heap s4) p = Some (type w3, NULL)).
  { rewrite Hsh4. exact Hp3. }
  assert (Hdep : defTop s4 = defTop s + nesting (type w3)).
  { rewrite Hd4, Hd3, Hd2, Hd1, Ht3. reflexivity. }
  destruct (faulted s4) eqn:Hf4.
  { injection H as <- <- <-. exists (type w3).
    apply faulted_true_inv in Hf4.
    split; [exact Hblk4 |]. split; [exact Hp4 |].
    rewrite Hb4, Hb3, Hb2, Hb1, Hi4, Hdep.
    repeat split; auto; try congruence.
    destruct He4 as [E | [[E Et] | [E Et]]]; [congruence | |];
      rewrite E, Et; reflexivity. }
  apply faulted_false_inv in Hf4.
  injection H as <- <- <-. exists (type w3).
  split; [exact Hblk4 |]. split; [exact Hp4 |].
  rewrite Hb4, Hb3, Hb2, Hb1, Hi4, Hdep, Hf4.
  repeat split; auto.
  intros Hneg _.
  destruct (bool_decide (type w3 = SEMICOLON)) eqn:Hsc; [| discriminate].
  apply bool_decide_eq_true in Hsc. exact Hsc.
Qed.

Lemma compile_loop_S (fuel : nat) (start node : ptr) (idx : Z) (s : state) :
  compile_loop (S fuel) start node idx s
  = let '(start, p, s) := append_node start node s in
    '(again, idx, s) ← compile_word (execWordStage1 fuel) start p idx s;
    if (again : bool) then compile_loop fuel start (Some p) idx s
    else Ok (start, Some p, idx, s).
Proof. reflexivity. Qed.

Lemma compile_loop_depth (fuel : nat) :
  ∀ (start node : ptr) (idx : Z) (s : state) (a0 : positive) (T : list wordType)
    (d0 : Z) (start' node' : ptr) (idx' : Z) (s1 : state),
  errorCode s = NO_ERROR →
  inWordDefinition s = true →
  defTop s = d0 + depth_change T →
  linked s a0 start node T →
  compile_loop fuel start node idx s = Ok (start', node', idx', s1) →
  ∃ ts p t, start' = Some a0 ∧ node' = Some p
            ∧ block (heap s1) a0 ts p
            ∧ shape (heap s1) p = Some (t, NULL)
            ∧ defTop s1 = d0 + depth_change ts + closing (errorCode s1) t
            ∧ (errorCode s1 = NO_ERROR → t = SEMICOLON).
Proof.
  induction fuel as [| fuel IH];
    intros start node idx s a0 T d0 start' node' idx' s1 He Hin Hd Hl H;
    [discriminate |].
  rewrite compile_loop_S in H.
  destruct (append_node start node s) as [[start2 p] s2] eqn:Ha.
  apply (append_node_linked s s2 a0 p start start2 node T Hl) in Ha.
  destruct Ha as (-> & Hblk & Hp & Hb & He2 & Hi2 & Hd2).
  destruct (compile_word (execWordStage1 fuel) (Some a0) p idx s2)
    as [[[again i3] s3] | | | |] eqn:Hcw; simpl in H; try discriminate.
  apply (compile_word_depth fuel (Some a0) a0 p T idx i3 again s2 s3 INTEGER) in Hcw;
    [| congruence | congruence | exact Hblk | exact Hp].
  destruct Hcw as (t & Hblk3 & Hp3 & Hb3 & Hi3 & Hd3 & Hag & Hst).
  destruct again.
  - specialize (Hag eq_refl).
    apply (IH _ _ _ _ a0 (T ++ [t]) d0) in H; auto.
    + rewrite Hd3, Hag, Hd2, Hd, depth_change_snoc. simpl. lia.
    + simpl. split; [reflexivity |]. split; [congruence |].
      exists T, t. auto.
  - injection H as <- <- <- <-.
    exists T, p, t. repeat split; auto.
    rewrite Hd3, Hd2, Hd. lia.
Qed.

(** Claim C2, as amended.  When the compilation of a definition ends, with
    or without a fault, [defTop] is in general not 0: it is its value before,
    moved by the nesting of the nodes of the body: [ts] are the types of the
    nodes before the last one, and [closing] accounts for the last one. When
    the name is missing, the fault is [EXPECTED_WORD] and [defTop] is as
    before. *)
Theorem compilation_keeps_nesting_depth
    (fuel : nat) (w w' : word_t) (idx idx' : Z) (s s' : state) :
  type w = COLON →
  errorCode s = NO_ERROR →
  inWordDefinition s = false →
  execWordStage1 (S fuel) w idx s = Ok (w', idx', s') →
  (errorCode s' = EXPECTED_WORD ∧ defTop s' = defTop s)
  ∨ ∃ i0 s0 start node i1 s1 ts p last,
      expectWord (set_b_idx idx (set_inWordDefinition true s)) = (i0, s0)
      ∧ compile_loop fuel NULL NULL i0 s0 = Ok (start, node, i1, s1)
      ∧ start = Some (brk s) ∧ node = Some p
      ∧ block (heap s1) (brk s) ts p
      ∧ heap s1 !! p = Some last ∧ next last = NULL
      ∧ errorCode s' = errorCode s1
      ∧ defTop s' = defTop s + depth_change ts + closing (errorCode s') (type (_word last))
      ∧ (errorCode s' = NO_ERROR →
           type (_word last) = SEMICOLON ∧ wa w' = nodeValue start
           ∧ defTop s' = defTop s + depth_change ts).
Proof.
  intros Hw He Hin H. simpl in H.
  rewrite (faulted_false s He), Hw, Hin in H.
  destruct (expectWord (set_b_idx idx (set_inWordDefinition true s))) as [i0 s0] eqn:Hew.
  pose proof Hew as Hew'.
  apply expectWord_frame in Hew. destruct Hew as ((Hh0 & Hb0 & Hi0 & Hd0) & He0).
  simpl in Hh0, Hb0, Hi0, Hd0, He0.
  destruct (faulted s0) eqn:Hf0.
  { left. injection H as <- <- <-.
    destruct He0 as [E | E]; [apply faulted_true_inv in Hf0; congruence |].
    split; [exact E | exact Hd0]. }
  apply faulted_false_inv in Hf0.
  destruct (compile_loop fuel NULL NULL i0 s0) as [[[[start node] i1] s1] | | | |] eqn:Hcl;
    simpl in H; try discriminate.
  pose proof Hcl as Hcl'.
  apply (compile_loop_depth fuel NULL NULL i0 s0 (brk s) [] (defTop s)) in Hcl;
    [| exact Hf0 | exact Hi0 | simpl; lia | simpl; split; [reflexivity | congruence]].
  destruct Hcl as (ts & p & t & -> & -> & Hblk & Hp & Hd1 & Hsc).
  apply shape_lookup in Hp. destruct Hp as (last & Hlast & <- & Hnx).
  right. exists i0, s0, (Some (brk s)), (Some p), i1, s1, ts, p, last.
  destruct (endDefinition w (cstr (span (b_idx s0) i0 s0)) (Some (brk s)) s1)
    as [w2 s2] eqn:Hend.
  injection H as <- <- <-.
  assert (Hfacts : errorCode s2 = errorCode s1 ∧ defTop s2 = defTop s1
                   ∧ (errorCode s1 = NO_ERROR → wa w2 = nodeValue (Some (brk s)))).
  { unfold endDefinition in Hend.
    destruct (faulted s1) eqn:Hf1.
    - injection Hend as <- <-. simpl. repeat split.
      intros E. apply faulted_true_inv in Hf1. contradiction.
    - destruct (searchForDefinedWord (cstr (span (b_idx s0) i0 s0)) s1);
        injection Hend as <- <-; simpl; auto. }
  destruct Hfacts as (E2 & D2 & W2).
  rewrite E2, D2.
  repeat split; auto.
  rewrite Hd1, H, (Hsc H). simpl. lia.
Qed.

(** Claim C2 witness.  The definition [: A IF ;]. *)
Lemma compilation_keeps_nesting_depth_witness :
  let s := set_b_end 8 (getIn (str ": A IF ;") initial) in
  let w := mkWord COLON (intValue 0) in
  let r := match execWordStage1 9 w 1 s with Ok r => r | _ => (w, 0, s) end in
  execWordStage1 9 w 1 s = Ok r
  ∧ errorCode r.2 = NO_ERROR
  ∧ ∃ ts t, defTop r.2 = defTop s + depth_change ts + closing NO_ERROR t
            ∧ t = SEMICOLON.
Proof.
  intros s w r.
  assert (Hrun : execWordStage1 9 w 1 s = Ok (r.1.1, r.1.2, r.2))
    by (vm_compute; reflexivity).
  assert (He : errorCode r.2 = NO_ERROR) by (vm_compute; reflexivity).
  split; [vm_compute; reflexivity |]. split; [exact He |].
  destruct (compilation_keeps_nesting_depth 8 w r.1.1 1 r.1.2 s r.2
              eq_refl eq_refl eq_refl Hrun)
    as [[E _] | (i0 & s0 & start & node & i1 & s1 & ts & p & last & H)].
  - rewrite He in E. discriminate E.
  - destruct H as (_ & _ & _ & _ & _ & _ & _ & _ & Hd & Hs).
    exists ts, (type (_word last)). rewrite He in Hd.
    split; [exact Hd | exact (proj1 (Hs He))].
Defined.

(** Claim C2 counterexample.  [: A IF ;] compiles without a fault and leaves
    one entry on the construction stack; [: A IF LOOP ;] ends with
    [INVALID_CONSTRUCTION] and leaves one entry too. *)
Lemma construction_stack_not_emptied :
  (∃ s, interpret 1 9 [": A IF ;"%string] = Ok s
        ∧ errorCode s = NO_ERROR ∧ defTop s = 1)
  ∧ (∃ s, interpret 1 9 [": A IF LOOP ;"%string] = Ok s
          ∧ errorCode s = INVALID_CONSTRUCTION ∧ defTop s = 1).
Proof.
  split; (eexists; split; [vm_compute; reflexivity |]); vm_compute; split; reflexivity.
Qed.

(** An entry left on the construction stack is taken by a later
    definition: after [: A IF ;] the [THEN] of [: B THEN ;] passes stage 1,
    which pops the entry, and the patch, which finds no [IF] in the body of
    [B], raises [LONE_THEN]: the depth goes from 1 to 0. *)
Lemma stale_entry_is_consumed :
  (let s := state_of (interpret 1 9 [": A IF ;"%string]) in
   errorCode s = NO_ERROR ∧ defTop s = 1)
  ∧ (let s := state_of (interpret 2 9 [": A IF ; : B THEN ;"%string]) in
     errorCode s = LONE_THEN ∧ defTop s = 0).
Proof. split; vm_compute; split; reflexivity. Qed.

(** ** Division and modulo *)

Lemma all_from_spec (f : positive -> bool) (n : nat) (p q : positive) :
  all_from f n p = true ->
  (p <= q)%positive -> (Z.pos q < Z.pos p + Z.of_nat n) -> f q = true.
Proof.
  revert p. induction n as [| n IH]; intros p H Hle Hlt.
  - simpl in Hlt. lia.
  - simpl in H. apply andb_true_iff in H. destruct H as [Hp H].
    destruct (Pos.eq_dec p q) as [-> | Hne]; [exact Hp |].
    apply (IH (Pos.succ p)); [exact H | lia | lia].
Qed.

Lemma conv_all : all_from conv_ok (Z.to_nat 32768) 1 = true.
Proof. vm_compute. reflexivity. Qed.

(** The conversion of a nonzero int is exact: a mantissa of 24 bits with a
    negative exponent. *)
Lemma float_of_int_exact (p : positive) :
  Z.pos p <= 32768 ->
  exists m e,
    float_of_int (Z.pos p) = S754_finite false m e
    /\ float_of_int (Z.neg p) = S754_finite true m e
    /\ -23 <= e <= -8
    /\ Z.pos m = Z.pos p * 2 ^ (- e)
    /\ 8388608 <= Z.pos m < 16777216.
Proof.
  intros Hp.
  assert (H : conv_ok p = true).
  { apply (all_from_spec conv_ok (Z.to_nat 32768) 1 p conv_all); [lia |].
    rewrite Z2Nat.id; lia. }
  unfold conv_ok in H.
  destruct (float_of_int (Z.pos p)) as [| | | [|] m e]; try discriminate H.
  destruct (float_of_int (Z.neg p)) as [| | | [|] m' e']; try discriminate H.
  repeat (apply andb_true_iff in H; destruct H as [H ?]).
  apply Pos.eqb_eq in H. subst m'.
  exists m, e. repeat split; try lia.
  f_equal. lia.
Qed.

(** Digits of a positive number from its bounds. *)
Lemma digits2_pos_size (p : positive) : digits2_pos p = Pos.size p.
Proof. induction p; simpl; congruence. Qed.

Lemma Zdigits2_log2 (p : positive) : Zdigits2 (Z.pos p) = Z.log2 (Z.pos p) + 1.
Proof.
  simpl. rewrite digits2_pos_size. destruct p; simpl; lia.
Qed.

Lemma Zdigits2_bounds (m k : Z) :
  0 < k -> 2 ^ (k - 1) <= m < 2 ^ k -> Zdigits2 m = k.
Proof.
  intros Hk [Hlo Hhi].
  assert (0 < m) by (pose proof (Z.pow_pos_nonneg 2 (k - 1)); lia).
  destruct m as [| p |]; try lia.
  rewrite Zdigits2_log2.
  assert (Hl : Z.log2 (Z.pos p) = k - 1).
  { apply Z.log2_unique; [lia |].
    replace (Z.succ (k - 1)) with k by lia. auto. }
  lia.
Qed.

(** One right shift of a positive mantissa. *)
Lemma shr_1_pos (m : Z) (r s : bool) :
  0 < m ->
  shr_1 (Build_shr_record m r s)
  = Build_shr_record (m / 2) (Z.odd m) (r || s).
Proof.
  intros Hm. destruct m as [| p |]; try lia.
  destruct p as [p | p |].
  - assert (E : Z.pos p~1 / 2 = Z.pos p)
      by (symmetry; apply (Z.div_unique_pos _ _ _ 1); lia).
    rewrite E. reflexivity.
  - assert (E : Z.pos p~0 / 2 = Z.pos p)
      by (symmetry; apply (Z.div_unique_pos _ _ _ 0); lia).
    rewrite E. reflexivity.
  - reflexivity.
Qed.

Lemma loc_of_shr_record_of_loc (m : Z) (l : location) :
  loc_of_shr_record (shr_record_of_loc m l) = l.
Proof. destruct l as [| []]; reflexivity. Qed.

Lemma shr_m_of_loc (m : Z) (l : location) : shr_m (shr_record_of_loc m l) = m.
Proof. destruct l as [| []]; reflexivity. Qed.

Lemma shr_fexp_24 (m e : Z) (l : location) :
  8388608 <= m < 16777216 -> -149 <= e ->
  shr_fexp 24 128 m e l = (shr_record_of_loc m l, e).
Proof.
  intros Hm He. unfold shr_fexp.
  rewrite (Zdigits2_bounds m 24) by (simpl; lia).
  unfold fexp, emin.
  replace (Z.max (24 + e - 24) (3 - 128 - 24) - e) with 0 by lia.
  reflexivity.
Qed.

Lemma shr_fexp_25 (m e : Z) (l : location) :
  16777216 <= m < 33554432 -> -149 <= e ->
  shr_fexp 24 128 m e l = (shr_1 (shr_record_of_loc m l), e + 1).
Proof.
  intros Hm He. unfold shr_fexp.
  rewrite (Zdigits2_bounds m 25) by (simpl; lia).
  unfold fexp, emin.
  replace (Z.max (25 + e - 24) (3 - 128 - 24) - e) with 1 by lia.
  reflexivity.
Qed.

Lemma round_nearest_even_cases (m : Z) (l : location) :
  (round_nearest_even m l = m \/ round_nearest_even m l = m + 1)
  /\ (l = loc_Exact -> round_nearest_even m l = m).
Proof.
  destruct l as [| []]; simpl; (split; [| intros; try discriminate; reflexivity]); auto.
  destruct (Z.even m); auto.
Qed.

(** The rounding of a quotient of 24 or 25 bits.  [V], the mantissa of the
    result counted in units of [2 ^ e'], is within one unit below and two
    above the quotient, and is the quotient when the division is exact. *)
Lemma binary_round_aux_quotient (sx : bool) (q e' : Z) (l : location) :
  8388608 <= q < 33554432 ->
  -149 <= e' <= 100 ->
  exists m e,
    binary_round_aux 24 128 sx q e' l = S754_finite sx m e
    /\ e' <= e <= e' + 2
    /\ q - 1 <= Z.pos m * 2 ^ (e - e') <= q + 2
    /\ (l = loc_Exact -> Z.even q = true -> Z.pos m * 2 ^ (e - e') = q).
Proof.
  intros Hq He. unfold binary_round_aux.
  (* second rounding step, shared by both cases *)
  assert (Second : forall m1 e1, 8388608 <= m1 <= 16777216 -> -149 <= e1 <= 102 ->
            exists m e,
              (let '(mrs'', e'') := shr_fexp 24 128 m1 e1 loc_Exact in
               match shr_m mrs'' with
               | 0 => S754_zero sx
               | Z.pos m => if e'' <=? 128 - 24 then S754_finite sx m e'' else S754_infinity sx
               | Z.neg _ => S754_nan
               end) = S754_finite sx m e
              /\ e1 <= e <= e1 + 1 /\ Z.pos m * 2 ^ (e - e1) = m1).
  { intros m1 e1 Hm1 He1.
    destruct (Z.eq_dec m1 16777216) as [-> | Hne].
    - rewrite shr_fexp_25 by lia. simpl.
      change (128 - 24) with 104.
      destruct (Z.leb_spec (e1 + 1) 104); [| lia].
      exists 8388608%positive, (e1 + 1). repeat split; try lia.
      replace (e1 + 1 - e1) with 1 by lia. reflexivity.
    - rewrite shr_fexp_24 by lia. simpl.
      destruct m1 as [| p |]; try lia.
      change (128 - 24) with 104.
      destruct (Z.leb_spec e1 104); [| lia].
      exists p, e1. repeat split; try lia.
      replace (e1 - e1) with 0 by lia. simpl. lia. }
  destruct (Z_lt_le_dec q 16777216) as [Hlt | Hge].
  - rewrite shr_fexp_24 by lia.
    rewrite shr_m_of_loc, loc_of_shr_record_of_loc.
    destruct (round_nearest_even_cases q l) as [Hr Hex].
    destruct (Second (round_nearest_even q l) e') as (m & e & Hres & Hee & Hv);
      [lia | lia |].
    exists m, e. split; [exact Hres |].
    split; [lia |]. split; [lia |].
    intros Hl _. rewrite Hv. apply Hex. exact Hl.
  - rewrite shr_fexp_25 by lia.
    assert (Hrec : exists r s, shr_record_of_loc q l = Build_shr_record q r s
                   /\ (l = loc_Exact -> r = false /\ s = false)).
    { destruct l as [| []]; simpl; eexists; eexists; split; try reflexivity;
        intros; try discriminate; auto. }
    destruct Hrec as (r & s & Hrec & Hrs). rewrite Hrec.
    rewrite shr_1_pos by lia.
    cbn [shr_m].
    set (l1 := loc_of_shr_record (Build_shr_record (q / 2) (Z.odd q) (r || s))).
    destruct (round_nearest_even_cases (q / 2) l1) as [Hr Hex].
    assert (Hq2 : 8388608 <= q / 2 < 16777216).
    { split; [apply Z.div_le_lower_bound | apply Z.div_lt_upper_bound]; lia. }
    destruct (Second (round_nearest_even (q / 2) l1) (e' + 1)) as (m & e & Hres & Hee & Hv);
      [lia | lia |].
    exists m, e. split; [exact Hres |].
    split; [lia |].
    assert (Hpow : Z.pos m * 2 ^ (e - e') = 2 * round_nearest_even (q / 2) l1).
    { replace (e - e') with (e - (e' + 1) + 1) by lia.
      rewrite Z.pow_add_r by lia. rewrite Z.mul_assoc, Hv.
      change (2 ^ 1) with 2. lia. }
    pose proof (Z.div_mod q 2 ltac:(lia)) as Hdm.
    pose proof (Z.mod_pos_bound q 2 ltac:(lia)) as Hmb.
    split; [lia |].
    intros Hl Hev. rewrite Hpow.
    destruct (Hrs Hl) as [-> ->].
    assert (Hodd : Z.odd q = false) by (rewrite <- Z.negb_even, Hev; reflexivity).
    assert (Hl1 : l1 = loc_Exact) by (unfold l1; rewrite Hodd; reflexivity).
    rewrite (Hex Hl1).
    apply Zeven_bool_iff in Hev. apply Zeven_div2 in Hev.
    rewrite Z.div2_div in Hev. lia.
Qed.

Lemma new_location_exact (y : Z) : new_location y 0 = loc_Exact.
Proof.
  unfold new_location, new_location_even, new_location_odd.
  destruct (Z.even y); reflexivity.
Qed.

(** The quotient of two floats that hold nonzero ints. *)
Lemma float_div_finite (sx sy : bool) (mx my : positive) (ex ey : Z) :
  8388608 <= Z.pos mx < 16777216 ->
  8388608 <= Z.pos my < 16777216 ->
  -23 <= ex <= -8 ->
  -23 <= ey <= -8 ->
  exists m e,
    float_div (S754_finite sx mx ex) (S754_finite sy my ey)
    = S754_finite (xorb sx sy) m e
    /\ ex - ey - 24 <= e <= ex - ey - 22
    /\ (Z.pos mx * 2 ^ 24) / Z.pos my - 1
       <= Z.pos m * 2 ^ (e - (ex - ey - 24))
       <= (Z.pos mx * 2 ^ 24) / Z.pos my + 2
    /\ ((Z.pos mx * 2 ^ 24) mod Z.pos my = 0 ->
        Z.even ((Z.pos mx * 2 ^ 24) / Z.pos my) = true ->
        Z.pos m * 2 ^ (e - (ex - ey - 24)) = (Z.pos mx * 2 ^ 24) / Z.pos my).
Proof.
  intros Hx Hy Hex Hey.
  unfold float_div, SFdiv, SFdiv_core_binary.
  rewrite (Zdigits2_bounds (Z.pos mx) 24) by (simpl; lia).
  rewrite (Zdigits2_bounds (Z.pos my) 24) by (simpl; lia).
  unfold fexp, emin.
  replace (Z.min (Z.max (24 + ex - (24 + ey) - 24) (3 - 128 - 24)) (ex - ey))
    with (ex - ey - 24) by lia.
  replace (ex - ey - (ex - ey - 24)) with 24 by lia.
  rewrite Z.shiftl_mul_pow2 by lia.
  pose proof (Z.div_mod (Z.pos mx * 2 ^ 24) (Z.pos my) ltac:(lia)) as Hdm.
  pose proof (Z.mod_pos_bound (Z.pos mx * 2 ^ 24) (Z.pos my) ltac:(lia)) as Hmb.
  unfold Z.div, Z.modulo in *.
  destruct (Z.div_eucl (Z.pos mx * 2 ^ 24) (Z.pos my)) as [q r].
  assert (Hq : 8388608 <= q < 33554432).
  { change (2 ^ 24) with 16777216 in *. nia. }
  destruct (binary_round_aux_quotient (xorb sx sy) q (ex - ey - 24) (new_location (Z.pos my) r))
    as (m & e & Hres & He & Hv & Hexact); [exact Hq | lia |].
  exists m, e. split; [exact Hres |]. split; [lia |]. split; [exact Hv |].
  intros Hr Hev. apply Hexact; [| exact Hev].
  rewrite Hr. apply new_location_exact.
Qed.

(** Arithmetic of the quotient: a value within one below and two above the
    scaled quotient has the floor of the exact quotient. *)
Lemma scaled_quotient_floor (A B P V : Z) :
  1 <= A -> 1 <= B -> 256 * B <= P ->
  (A * P) / B - 1 <= V <= (A * P) / B + 2 ->
  (A mod B = 0 -> V = (A * P) / B) ->
  V / P = A / B /\ (- V) / P = (- A) / B.
Proof.
  intros HA HB HP HV Hex.
  pose proof (Z.div_mod A B ltac:(lia)) as Hdm.
  pose proof (Z.mod_pos_bound A B ltac:(lia)) as Hmb.
  pose proof (Z.div_mod (A * P) B ltac:(lia)) as Hdq.
  pose proof (Z.mod_pos_bound (A * P) B ltac:(lia)) as Hmq.
  set (n := A / B) in *. set (r0 := A mod B) in *.
  set (q := (A * P) / B) in *. set (rq := (A * P) mod B) in *.
  destruct (Z.eq_dec r0 0) as [Hz | Hnz].
  - assert (Hq : q = n * P).
    { unfold q. replace (A * P) with (n * P * B) by nia.
      apply Z.div_mul. lia. }
    rewrite (Hex Hz), Hq. split.
    + apply Z.div_mul. lia.
    + replace (- (n * P)) with (- n * P) by lia.
      rewrite Z.div_mul by lia.
      apply (Z.div_unique _ _ _ 0); [lia | nia].
  - assert (Hlo : n * P + 256 <= q) by nia.
    assert (Hhi : q <= (n + 1) * P - 256) by nia.
    split.
    + symmetry. apply (Z.div_unique _ _ _ (V - n * P)); [lia | nia].
    + transitivity (- (n + 1)).
      * symmetry. apply (Z.div_unique _ _ _ ((n + 1) * P - V)); [lia | nia].
      * apply (Z.div_unique _ _ _ (B - r0)); [lia | nia].
Qed.

Lemma floor_int_scaled (sg : bool) (m : positive) (e K : Z) :
  e < 0 -> 0 <= e + K ->
  floor_int (S754_finite sg m e)
  = (if sg then - (Z.pos m * 2 ^ (e + K)) else Z.pos m * 2 ^ (e + K)) / 2 ^ K.
Proof.
  intros He HK. unfold floor_int.
  destruct (Z.leb_spec 0 e); [lia |].
  assert (E : 2 ^ K = 2 ^ (- e) * 2 ^ (e + K)).
  { rewrite <- Z.pow_add_r by lia. f_equal. lia. }
  rewrite E.
  assert (0 < 2 ^ (e + K)) by (apply Z.pow_pos_nonneg; lia).
  assert (0 < 2 ^ (- e)) by (apply Z.pow_pos_nonneg; lia).
  destruct sg.
  - rewrite <- Z.mul_opp_l. rewrite Z.div_mul_cancel_r by lia. reflexivity.
  - rewrite Z.div_mul_cancel_r by lia. reflexivity.
Qed.

(** The quotient of two nonzero ints, as floats, then floored. *)
Lemma floor_float_div_pos (sa sb : bool) (A B : positive) :
  Z.pos A <= 32768 -> Z.pos B <= 32768 ->
  floor_int (float_div (float_of_int (if sa then Z.neg A else Z.pos A))
                       (float_of_int (if sb then Z.neg B else Z.pos B)))
  = (if xorb sa sb then - Z.pos A else Z.pos A) / Z.pos B.
Proof.
  intros HA HB.
  destruct (float_of_int_exact A HA) as (mx & ex & Hxp & Hxn & Hex & Hmx & Hbx).
  destruct (float_of_int_exact B HB) as (my & ey & Hyp & Hyn & Hey & Hmy & Hby).
  assert (Ha : float_of_int (if sa then Z.neg A else Z.pos A) = S754_finite sa mx ex)
    by (destruct sa; assumption).
  assert (Hb : float_of_int (if sb then Z.neg B else Z.pos B) = S754_finite sb my ey)
    by (destruct sb; assumption).
  rewrite Ha, Hb.
  destruct (float_div_finite sa sb mx my ex ey Hbx Hby Hex Hey)
    as (m & e & Hres & He & Hv & Hexact).
  rewrite Hres.
  set (K := 24 + ey - ex).
  assert (HK : 9 <= K <= 39) by (unfold K; lia).
  replace (e - (ex - ey - 24)) with (e + K) in * by (unfold K; lia).
  rewrite (floor_int_scaled (xorb sa sb) m e K) by lia.
  set (V := Z.pos m * 2 ^ (e + K)) in *.
  assert (Hp1 : 0 < 2 ^ (- ey)) by (apply Z.pow_pos_nonneg; lia).
  assert (Hp2 : 0 < 2 ^ (- ex)) by (apply Z.pow_pos_nonneg; lia).
  assert (Hp3 : 0 < 2 ^ K) by (apply Z.pow_pos_nonneg; lia).
  assert (Hnum : Z.pos mx * 2 ^ 24 = Z.pos A * 2 ^ K * 2 ^ (- ey)).
  { assert (Epow : 2 ^ (- ex) * 2 ^ 24 = 2 ^ K * 2 ^ (- ey)).
    { rewrite <- !Z.pow_add_r by lia. apply f_equal. unfold K. lia. }
    rewrite Hmx, <- !Z.mul_assoc, Epow. reflexivity. }
  assert (Hq : (Z.pos mx * 2 ^ 24) / Z.pos my = (Z.pos A * 2 ^ K) / Z.pos B).
  { rewrite Hnum, Hmy. apply Z.div_mul_cancel_r; lia. }
  rewrite Hq in Hv, Hexact.
  assert (HP : 256 * Z.pos B <= 2 ^ K).
  { assert (E : 2 ^ K = 2 ^ (24 + ey) * 2 ^ (- ex)).
    { rewrite <- Z.pow_add_r by lia. f_equal; unfold K; lia. }
    assert (E2 : 2 ^ (24 + ey) * 2 ^ (- ey) = 16777216).
    { rewrite <- Z.pow_add_r by lia. replace (24 + ey + - ey) with 24 by lia. reflexivity. }
    assert (E3 : 256 <= 2 ^ (- ex)).
    { change 256 with (2 ^ 8). apply Z.pow_le_mono_r; lia. }
    assert (0 < 2 ^ (24 + ey)) by (apply Z.pow_pos_nonneg; lia).
    nia. }
  assert (Hexact' : Z.pos A mod Z.pos B = 0 -> V = (Z.pos A * 2 ^ K) / Z.pos B).
  { intros Hz. apply Hexact.
    - rewrite Hnum, Hmy.
      pose proof (Z.div_mod (Z.pos A) (Z.pos B) ltac:(lia)) as Hd. rewrite Hz in Hd.
      replace (Z.pos A * 2 ^ K * 2 ^ (- ey))
        with ((Z.pos A / Z.pos B * 2 ^ K) * (Z.pos B * 2 ^ (- ey))) by nia.
      apply Z.mod_mul. lia.
    - pose proof (Z.div_mod (Z.pos A) (Z.pos B) ltac:(lia)) as Hd. rewrite Hz in Hd.
      replace (Z.pos A * 2 ^ K) with ((Z.pos A / Z.pos B * 2 ^ K) * Z.pos B) by nia.
      rewrite Z.div_mul by lia.
      replace K with (1 + (K - 1)) by lia. rewrite Z.pow_add_r by lia.
      rewrite Z.mul_assoc, (Z.mul_comm (Z.pos A / Z.pos B)), <- Z.mul_assoc.
      rewrite Z.even_mul. reflexivity. }
  destruct (scaled_quotient_floor (Z.pos A) (Z.pos B) (2 ^ K) V
              ltac:(lia) ltac:(lia) HP Hv Hexact') as [Hpos Hneg].
  destruct (xorb sa sb); assumption.
Qed.

(** For every pair of ints with a nonzero divisor, the float computation of
    [divide] yields the floor of the quotient. *)
Lemma floor_float_div (a b : Z) :
  -32768 <= a <= 32767 -> -32768 <= b <= 32767 -> b <> 0 ->
  floor_int (float_div (float_of_int a) (float_of_int b)) = a / b.
Proof.
  intros Ha Hb Hb0.
  destruct b as [| B | B]; [contradiction | |];
    destruct a as [| A | A];
    try (destruct (float_of_int_exact B ltac:(lia)) as (my & ey & Hyp & Hyn & _);
         first [rewrite Hyp | rewrite Hyn]; reflexivity).
  - apply (floor_float_div_pos false false A B); lia.
  - apply (floor_float_div_pos true false A B); lia.
  - rewrite (floor_float_div_pos false true A B) by lia. simpl xorb. cbv iota.
    change (Z.neg B) with (- Z.pos B).
    rewrite <- (Z.div_opp_opp (- Z.pos A) (Z.pos B)) by lia.
    rewrite Z.opp_involutive. reflexivity.
  - rewrite (floor_float_div_pos true true A B) by lia. simpl xorb. cbv iota.
    change (Z.neg B) with (- Z.pos B). change (Z.neg A) with (- Z.pos A).
    rewrite Z.div_opp_opp by lia. reflexivity.
Qed.

Lemma wrap_id (z : Z) : is_int z → wrap z = z.
Proof.
  unfold is_int, INT_MIN, INT_MAX, wrap. intros H.
  rewrite Z.mod_small by lia. lia.
Qed.

Lemma wrap_congr (x y k : Z) : x = y + 65536 * k → wrap x = wrap y.
Proof.
  intros ->. unfold wrap.
  replace (y + 65536 * k + 32768) with (y + 32768 + k * 65536) by lia.
  rewrite Z.mod_add by lia. reflexivity.
Qed.

Lemma wrap_shift (z : Z) : ∃ k, wrap z = z + 65536 * k.
Proof.
  exists (- ((z + 32768) / 65536)). unfold wrap.
  pose proof (Z.div_mod (z + 32768) 65536 ltac:(lia)). lia.
Qed.

Lemma divide_floor (a b : Z) (s : state) :
  is_int a → is_int b → b ≠ 0 → is_int (a / b) →
  divide a b s = (a / b, s).
Proof.
  unfold is_int, INT_MIN, INT_MAX. intros Ha Hb Hb0 Hq. unfold divide.
  destruct (Z.eqb_spec b 0); [contradiction |].
  rewrite floor_float_div by lia. rewrite wrap_id by exact Hq. reflexivity.
Qed.

Lemma mod_floor (a b : Z) (s : state) :
  is_int a → is_int b → b ≠ 0 →
  mod' a b s = (a - a / b * b, s) ∧ a - a / b * b = a mod b.
Proof.
  unfold is_int, INT_MIN, INT_MAX. intros Ha Hb Hb0.
  assert (Hm : a - a / b * b = a mod b) by (rewrite Z.mod_eq by exact Hb0; lia).
  split; [| exact Hm].
  unfold mod', divide.
  destruct (Z.eqb_spec b 0); [contradiction |].
  rewrite floor_float_div by lia.
  destruct (wrap_shift (a / b)) as [k1 Hk1].
  destruct (wrap_shift (wrap (a / b) * b)) as [k2 Hk2].
  rewrite (wrap_congr (a - wrap (wrap (a / b) * b)) (a - a / b * b) (- (k1 * b) - k2))
    by (rewrite Hk2, Hk1; lia).
  rewrite wrap_id; [reflexivity |].
  rewrite Hm. unfold is_int, INT_MIN, INT_MAX.
  destruct (Z_lt_le_dec 0 b).
  - pose proof (Z.mod_pos_bound a b ltac:(lia)). lia.
  - pose proof (Z.mod_neg_bound a b ltac:(lia)). lia.
Qed.

Lemma push_value (v : Z) (s : state) :
  errorCode s = NO_ERROR → top s < STACK_SIZE →
  push v s = set_top (top s + 1) (set_stack (arr_set (stack s) (top s) v) s).
Proof.
  intros He H. unfold push. rewrite (faulted_false s He).
  destruct (Z.leb_spec STACK_SIZE (top s)); [lia | reflexivity].
Qed.

(** Claim C9, as amended.  The division and modulo words on two ints [a]
    (below) and [b] (on top). With a nonzero divisor the division word
    replaces them by the floor of the quotient when that is an int, and the
    modulo word by [a - floor(a/b) * b]; with a zero divisor both raise
    [DIVISION_BY_ZERO]. *)
Theorem DIVIDE_MOD_floor (fuel : nat) (w : word_t) (node : ptr) (s : state) :
  let a := arr_get 0 (stack s) (top s - 2) in
  let b := arr_get 0 (stack s) (top s - 1) in
  let result v := set_top (top s - 1) (set_stack (arr_set (stack s) (top s - 2) v) s) in
  errorCode s = NO_ERROR →
  2 <= top s <= STACK_SIZE →
  is_int a → is_int b →
  (b ≠ 0 → is_int (a / b) → type w = DIVIDE →
     execWordStage2 (S fuel) w node s = Ok (node, result (a / b)))
  ∧ (b ≠ 0 → type w = MOD →
     execWordStage2 (S fuel) w node s = Ok (node, result (a - a / b * b)))
  ∧ (b = 0 → type w = DIVIDE ∨ type w = MOD →
     execWordStage2 (S fuel) w node s
       = Ok (NULL, set_errorCode DIVISION_BY_ZERO (set_top (top s - 2) s)))
  ∧ (∀ v, top s <= Z.of_nat (length (stack s)) →
       arr_get 0 (stack (result v)) (top (result v) - 1) = v).
Proof.
  intros a b result He Ht Ha Hb.
  set (s1 := set_top (top s - 2) s).
  assert (He1 : errorCode s1 = NO_ERROR) by exact He.
  assert (Hd : discard 2 s = s1) by (apply discard_value; [exact He | lia]).
  assert (Hpa : peek 0 s1 = (a, s1)).
  { rewrite (peek_value 0 s1 He1) by (unfold STACK_SIZE in *; simpl; lia).
    replace (top s1 - 0) with (top s - 2) by (simpl; lia). reflexivity. }
  assert (Hpb : peek (-1) s1 = (b, s1)).
  { rewrite (peek_value (-1) s1 He1) by (unfold STACK_SIZE in *; simpl; lia).
    replace (top s1 - -1) with (top s - 1) by (simpl; lia). reflexivity. }
  assert (Hpush : ∀ v, push v s1 = result v).
  { intros v. rewrite (push_value v s1 He1) by (simpl; lia).
    unfold result, s1. simpl. replace (top s - 2 + 1) with (top s - 1) by lia.
    reflexivity. }
  split; [| split; [| split]].
  - intros Hb0 Hq Hw. simpl. rewrite (faulted_false s He), Hw, Hd.
    rewrite (faulted_false s1 He1), Hpa, Hpb.
    rewrite (divide_floor a b s1 Ha Hb Hb0 Hq).
    rewrite (faulted_false s1 He1), Hpush. reflexivity.
  - intros Hb0 Hw. simpl. rewrite (faulted_false s He), Hw, Hd.
    rewrite (faulted_false s1 He1), Hpa, Hpb.
    rewrite (proj1 (mod_floor a b s1 Ha Hb Hb0)).
    rewrite (faulted_false s1 He1), Hpush. reflexivity.
  - intros Hb0 [Hw | Hw]; simpl; rewrite (faulted_false s He), Hw, Hd;
      rewrite (faulted_false s1 He1), Hpa, Hpb, Hb0; reflexivity.
  - intros v Hlen. unfold result. simpl.
    replace (top s - 1 - 1) with (top s - 2) by lia.
    apply arr_get_set_eq. lia.
Qed.

(** Claim C9 witness.  [/] and [MOD] over a stack that holds -7 and 2. *)
Lemma DIVIDE_MOD_floor_witness :
  let s := push 2 (push (-7) initial) in
  execWordStage2 1 (mkWord DIVIDE (intValue 0)) NULL s
    = Ok (NULL, set_top 1 (set_stack (arr_set (stack s) 0 (-4)) s))
  ∧ execWordStage2 1 (mkWord MOD (intValue 0)) NULL s
    = Ok (NULL, set_top 1 (set_stack (arr_set (stack s) 0 1) s)).
Proof.
  intros s.
  destruct (DIVIDE_MOD_floor 0 (mkWord DIVIDE (intValue 0)) NULL s) as (Hd & _ & _ & _);
    [reflexivity | vm_compute; split; discriminate
    | vm_compute; split; discriminate | vm_compute; split; discriminate |].
  destruct (DIVIDE_MOD_floor 0 (mkWord MOD (intValue 0)) NULL s) as (_ & Hm & _ & _);
    [reflexivity | vm_compute; split; discriminate
    | vm_compute; split; discriminate | vm_compute; split; discriminate |].
  split.
  - apply Hd; [vm_compute; discriminate | vm_compute; split; discriminate | reflexivity].
  - apply Hm; [vm_compute; discriminate | reflexivity].
Defined.

(** The examples of the division and modulo words, from power-up. *)
Lemma division_examples :
  display (state_of (interpret 4 9 ["-7 2 / ."%string])) = str "-4 "
  ∧ display (state_of (interpret 4 9 ["-7 2 MOD ."%string])) = str "1 "
  ∧ display (state_of (interpret 4 9 ["7 2 / ."%string])) = str "3 "
  ∧ errorCode (state_of (interpret 3 9 ["7 0 /"%string])) = DIVISION_BY_ZERO
  ∧ errorCode (state_of (interpret 3 9 ["7 0 MOD"%string])) = DIVISION_BY_ZERO.
Proof. vm_compute. repeat split; reflexivity. Qed.

(** Claim C9 counterexample.  The least int divided by [-1]: the floor of the
    quotient is 32768, which is not an int, and the word pushes [-32768]. *)
Lemma DIVIDE_overflow :
  is_int (-32768) ∧ is_int (-1)
  ∧ (-32768) / (-1) = 32768
  ∧ fst (divide (-32768) (-1) initial) = -32768
  ∧ ∃ s, interpret 3 9 ["-32768 -1 /"%string] = Ok s
         ∧ errorCode s = NO_ERROR ∧ top s = 1
         ∧ take 1 (stack s) = [-32768].
Proof.
  split; [vm_compute; split; discriminate |].
  split; [vm_compute; split; discriminate |].
  split; [reflexivity |]. split; [vm_compute; reflexivity |].
  eexists. split; [vm_compute; reflexivity |].
  vm_compute. repeat split; reflexivity.
Qed.

(** ** The compiler always returns *)

Lemma scan_ge (P : ascii → bool) (buf : list ascii) (e : Z) (n : nat) (i : Z) :
  i <= scan P buf e n i.
Proof.
  revert i. induction n as [| n IH]; intros i; simpl; [lia |].
  destruct ((i <? e) && P (arr_get NUL buf i)); [| lia].
  specialize (IH (i + 1)). lia.
Qed.

Lemma expectWord_progress (s s' : state) (i : Z) :
  errorCode s = NO_ERROR →
  expectWord s = (i, s') →
  b_end s' = b_end s ∧ buffer s' = buffer s
  ∧ (faulted s' = false → b_idx s < i ∧ b_idx s < b_end s).
Proof.
  intros He H. unfold expectWord in H. rewrite (faulted_false s He) in H.
  destruct (Z.leb_spec (b_end s) (b_idx s)).
  - injection H as <- <-.
    split; [reflexivity | split; [reflexivity | intros Hf; discriminate Hf]].
  - injection H as <- <-.
    split; [reflexivity | split; [reflexivity | intros _; split; [| lia]]].
    unfold scan_from. simpl.
    pose proof (scan_ge is_blank (buffer s) (b_end s)
                  (Z.to_nat (b_end s - b_idx s)) (b_idx s)).
    pose proof (scan_ge (fun c => negb (is_blank c)) (buffer s) (b_end s)
                  (Z.to_nat (b_end s - (scan_from is_blank (b_idx s) s + 1)))
                  (scan_from is_blank (b_idx s) s + 1)).
    unfold scan_from in *. lia.
Qed.

Lemma parseWord_input (idx : Z) (w w' : word_t) (s s' : state) :
  parseWord idx w s = (w', s') → b_end s' = b_end s.
Proof.
  unfold parseWord. intros H.
  repeat case_match; simplify_eq; reflexivity.
Qed.

(** Stage 1 on a word of a body returns, and does not move the index back. *)
Lemma stage1_returns (fuel : nat) (w : word_t) (idx : Z) (s : state) :
  inWordDefinition s = true →
  ∃ w' idx' s',
    execWordStage1 (S fuel) w idx s = Ok (w', idx', s')
    ∧ b_end s' = b_end s ∧ idx <= idx'.
Proof.
  intros Hin. simpl.
  destruct (faulted s); [eexists _, _, _; split; [reflexivity | split; [reflexivity | lia]] |].
  destruct (type w) eqn:Ht;
    try (eexists _, _, _; split; [reflexivity | split; [reflexivity | lia]]).
  - (* PRINT_S *)
    unfold stage1_PRINT_S, fault, addString.
    pose proof (scan_ge (fun c => negb (bool_decide (c = QUOTE))) (buffer s) (b_end s)
                  (Z.to_nat (b_end s - (idx + 1))) (idx + 1)) as Hge.
    unfold scan_from. simpl.
    repeat case_match; simplify_eq; simpl;
      (eexists _, _, _; split; [reflexivity | split; [reflexivity | lia]]).
  - (* COLON *)
    rewrite Hin. unfold fault.
    eexists _, _, _; split; [reflexivity | split; [reflexivity | lia]].
  - unfold stage1_open, fault, defPush.
    repeat case_match; simplify_eq; simpl;
      (eexists _, _, _; split; [reflexivity | split; [reflexivity | lia]]).
  - unfold stage1_ELSE_THEN, fault, defPeek, defDiscard.
    repeat case_match; simplify_eq; simpl;
      (eexists _, _, _; split; [reflexivity | split; [reflexivity | lia]]).
  - unfold stage1_ELSE_THEN, fault, defPeek, defDiscard.
    repeat case_match; simplify_eq; simpl;
      (eexists _, _, _; split; [reflexivity | split; [reflexivity | lia]]).
  - unfold stage1_open, fault, defPush.
    repeat case_match; simplify_eq; simpl;
      (eexists _, _, _; split; [reflexivity | split; [reflexivity | lia]]).
  - unfold stage1_LOOP, fault, defPeek, defDiscard.
    repeat case_match; simplify_eq; simpl;
      (eexists _, _, _; split; [reflexivity | split; [reflexivity | lia]]).
  - unfold stage1_I, fault.
    repeat case_match; simplify_eq; simpl;
      (eexists _, _, _; split; [reflexivity | split; [reflexivity | lia]]).
Qed.

Lemma block_length (h : gmap positive wordNode) (a : positive) (ts : list wordType)
    (q : positive) :
  block h a ts q → (Pos.to_nat a + length ts = Pos.to_nat q)%nat.
Proof.
  revert a. induction ts as [| t ts IH]; intros a H; simpl in H.
  - subst. simpl. lia.
  - destruct H as (nd & _ & _ & _ & H). apply IH in H. simpl. lia.
Qed.

(** The scans of the patches reach the new node. *)
Lemma lastUndefinedDo_returns (h : gmap positive wordNode) (ts : list wordType)
    (a p : positive) (n : nat) (last : ptr) :
  block h a ts p → (length ts < n)%nat →
  ∃ r, lastUndefinedDo h n (Some a) (Some p) last = Ok r.
Proof.
  revert a n last. induction ts as [| t ts IH]; intros a n last Hb Hn.
  - simpl in Hb. subst. destruct n; [simpl in Hn; lia |]. simpl.
    rewrite bool_decide_eq_true_2 by reflexivity. eauto.
  - simpl in Hb. destruct Hb as (nd & Ha & _ & Hnx & Hb).
    destruct n; [simpl in Hn; lia |]. simpl.
    pose proof (block_le _ _ _ _ Hb).
    rewrite bool_decide_eq_false_2 by (intros E; injection E; lia).
    rewrite Ha, Hnx. apply IH; [exact Hb | simpl in Hn; lia].
Qed.

Lemma lastUndefinedIfElse_returns (h : gmap positive wordNode) (ts : list wordType)
    (a p : positive) (n : nat) (lastIf lastElse : ptr) :
  block h a ts p → (length ts < n)%nat →
  (∀ e, lastElse = Some e → is_Some (h !! e)) →
  ∃ i e, lastUndefinedIfElse h n (Some a) (Some p) lastIf lastElse = Ok (i, e)
         ∧ (∀ x, e = Some x → is_Some (h !! x)).
Proof.
  revert a n lastIf lastElse. induction ts as [| t ts IH];
    intros a n lastIf lastElse Hb Hn Hel.
  - simpl in Hb. subst. destruct n; [simpl in Hn; lia |]. simpl.
    rewrite bool_decide_eq_true_2 by reflexivity. eauto.
  - simpl in Hb. destruct Hb as (nd & Ha & _ & Hnx & Hb).
    destruct n; [simpl in Hn; lia |]. simpl.
    pose proof (block_le _ _ _ _ Hb).
    rewrite bool_decide_eq_false_2 by (intros E; injection E; lia).
    rewrite Ha, Hnx. apply IH; [exact Hb | simpl in Hn; lia |].
    intros e. case_match; [| apply Hel].
    intros E. injection E as <-. rewrite Ha. eauto.
Qed.

Lemma patch_returns (T : list wordType) (a0 p : positive) (w : word_t) (s : state) :
  block (heap s) a0 T p → brk s = Pos.succ p →
  ∃ s', match type w with
        | LOOP => patch_LOOP (Some a0) p s
        | THEN => patch_THEN (Some a0) p s
        | _ => Ok s
        end = Ok s'.
Proof.
  intros Hb Hbrk.
  assert (Hlen : (length T < patch_fuel s)%nat).
  { unfold patch_fuel. rewrite Hbrk. apply block_length in Hb. lia. }
  destruct (type w); eauto.
  - unfold patch_THEN.
    destruct (lastUndefinedIfElse_returns (heap s) T a0 p (patch_fuel s) NULL NULL Hb Hlen)
      as (i & e & -> & He); [intros e; discriminate |].
    simpl. destruct i as [i |]; [| eauto].
    destruct e as [e |]; simpl; [| eauto].
    destruct (He e eq_refl) as [nd ->]. simpl. eauto.
  - unfold patch_LOOP.
    destruct (lastUndefinedDo_returns (heap s) T a0 p (patch_fuel s) NULL Hb Hlen)
      as (r & ->).
    simpl. destruct r; eauto.
Qed.

Lemma patch_input (start : ptr) (p : positive) (w : word_t) (s s' : state) :
  match type w with
  | LOOP => patch_LOOP start p s
  | THEN => patch_THEN start p s
  | _ => Ok s
  end = Ok s' →
  b_end s' = b_end s.
Proof.
  intros H. destruct (type w); try (injection H as <-; reflexivity).
  - unfold patch_THEN in H.
    destruct (lastUndefinedIfElse (heap s) (patch_fuel s) start (Some p) NULL NULL)
      as [[[i |] [e |]] | | | |]; simpl in H; try discriminate.
    1: destruct (heap s !! e) as [nd |]; simpl in H; [| discriminate].
    all: assert (Hs : s' = _) by (symmetry; injection H; intros E; exact E);
      subst s'; reflexivity.
  - unfold patch_LOOP in H.
    destruct (lastUndefinedDo (heap s) (patch_fuel s) start (Some p) NULL)
      as [[d |] | | | |]; simpl in H; try discriminate;
      assert (Hs : s' = _) by (symmetry; injection H; intros E; exact E);
      subst s'; reflexivity.
Qed.

(** One turn of the loop of the compiler returns; when the loop goes on, the
    index has moved forward inside the line. *)
Lemma compile_word_returns (fuel : nat) (a0 p : positive) (T : list wordType)
    (idx : Z) (s : state) (t0 : wordType) :
  errorCode s = NO_ERROR →
  inWordDefinition s = true →
  block (heap s) a0 T p →
  shape (heap s) p = Some (t0, NULL) →
  brk s = Pos.succ p →
  ∃ again idx' s',
    compile_word (execWordStage1 (S fuel)) (Some a0) p idx s = Ok (again, idx', s')
    ∧ b_end s' = b_end s
    ∧ (again = true → idx < idx' ∧ idx < b_end s).
Proof.
  intros He Hin Hblk Hp Hbrk. unfold compile_word.
  destruct (expectWord (set_b_idx idx s)) as [i1 s1] eqn:Hew.
  pose proof (expectWord_progress (set_b_idx idx s) s1 i1 He Hew) as (Hbe1 & _ & Hpr1).
  apply expectWord_frame in Hew. destruct Hew as ((Hh1 & Hb1 & Hi1 & Hd1) & He1).
  simpl in Hh1, Hb1, Hi1, Hd1, He1, Hbe1, Hpr1.
  destruct (faulted s1) eqn:Hf1.
  { eexists _, _, _. split; [reflexivity |]. split; [exact Hbe1 | discriminate]. }
  specialize (Hpr1 eq_refl). apply faulted_false_inv in Hf1.
  destruct (parseWord i1 (load_word p s1) s1) as [w2 s2] eqn:Hpw.
  pose proof (parseWord_input _ _ _ _ _ Hpw) as Hbe2.
  apply parseWord_frame in Hpw. destruct Hpw as ((Hh2 & Hb2 & Hi2 & Hd2) & He2).
  assert (Hblk2 : block (heap (store_word p w2 s2)) a0 T p).
  { apply block_shape with (h := heap s); [| exact Hblk].
    intros k Hk. rewrite shape_store_word_ne by lia. congruence. }
  destruct (faulted (store_word p w2 s2)) eqn:Hf2.
  { eexists _, _, _. split; [reflexivity |].
    split; [simpl; congruence | discriminate]. }
  change (faulted (store_word p w2 s2)) with (faulted s2) in Hf2.
  apply faulted_false_inv in Hf2.
  destruct (stage1_returns fuel w2 i1 (store_word p w2 s2))
    as (w3 & i3 & s3 & Hs1 & Hbe3 & Hle3); [simpl; congruence |].
  rewrite Hs1. simpl.
  apply stage1_in_definition in Hs1; [| exact Hf2 | simpl; congruence].
  destruct Hs1 as (Hh3 & Hb3 & Hi3 & Ht3 & Hd3 & Hn3 & Hn3').
  simpl in Hbe3, Hb3.
  assert (Hblk3 : block (heap (store_word p w3 s3)) a0 T p).
  { apply block_shape with (h := heap (store_word p w2 s2)); [| exact Hblk2].
    intros k Hk. rewrite shape_store_word_ne by lia. rewrite Hh3. reflexivity. }
  destruct (faulted (store_word p w3 s3)) eqn:Hf3.
  { eexists _, _, _. split; [reflexivity |].
    split; [simpl; congruence | discriminate]. }
  destruct (patch_returns T a0 p w3 (store_word p w3 s3) Hblk3) as (s4 & Hpatch);
    [simpl; congruence |].
  rewrite Hpatch. simpl.
  apply patch_input in Hpatch. simpl in Hpatch.
  destruct (faulted s4).
  { eexists _, _, _. split; [reflexivity |].
    split; [congruence | discriminate]. }
  eexists _, _, _. split; [reflexivity |].
  split; [congruence |]. intros _. lia.
Qed.

Lemma append_node_input (start node : ptr) (s : state) :
  b_end (append_node start node s).2 = b_end s.
Proof. unfold append_node, malloc. simpl. destruct node; reflexivity. Qed.

Lemma compile_loop_returns (fuel : nat) :
  ∀ (start node : ptr) (idx : Z) (s : state) (a0 : positive) (T : list wordType),
  errorCode s = NO_ERROR →
  inWordDefinition s = true →
  linked s a0 start node T →
  (Z.to_nat (b_end s - idx) + 1 < fuel)%nat →
  ∃ r, compile_loop fuel start node idx s = Ok r.
Proof.
  induction fuel as [| fuel IH]; intros start node idx s a0 T He Hin Hl Hm; [lia |].
  rewrite compile_loop_S.
  pose proof (append_node_input start node s) as Hbe.
  destruct (append_node start node s) as [[start2 p] s2] eqn:Ha. simpl in Hbe.
  apply (append_node_linked s s2 a0 p start start2 node T Hl) in Ha.
  destruct Ha as (-> & Hblk & Hp & Hb & He2 & Hi2 & Hd2).
  destruct fuel as [| fuel]; [lia |].
  destruct (compile_word_returns fuel a0 p T idx s2 INTEGER)
    as (again & i3 & s3 & Hcw & Hbe3 & Hpr); try congruence.
  rewrite Hcw. unfold mbind, outcome_bind.
  apply (compile_word_depth (S fuel) (Some a0) a0 p T idx i3 again s2 s3 INTEGER) in Hcw;
    [| congruence | congruence | exact Hblk | exact Hp].
  destruct Hcw as (t & Hblk3 & Hp3 & Hb3 & Hi3 & Hd3 & Hag & Hst).
  destruct again; [| eauto].
  destruct (Hpr eq_refl) as [Hlt Hlt'].
  apply (IH _ _ _ _ a0 (T ++ [t])); auto.
  - simpl. split; [reflexivity |]. split; [congruence |]. exists T, t. auto.
  - rewrite Hbe3, Hbe. lia.
Qed.

(** The compilation of a definition returns: the fuel of the model is enough
    when it exceeds the number of characters left on the line by three. *)
Theorem compilation_returns (fuel : nat) (w : word_t) (idx : Z) (s : state) :
  type w = COLON →
  errorCode s = NO_ERROR →
  inWordDefinition s = false →
  (Z.to_nat (b_end s - idx) + 3 <= fuel)%nat →
  ∃ w' idx' s', execWordStage1 fuel w idx s = Ok (w', idx', s').
Proof.
  intros Hw He Hin Hm. destruct fuel as [| fuel]; [lia |]. simpl.
  rewrite (faulted_false s He), Hw, Hin.
  destruct (expectWord (set_b_idx idx (set_inWordDefinition true s))) as [i0 s0] eqn:Hew.
  pose proof (expectWord_progress (set_b_idx idx (set_inWordDefinition true s)) s0 i0
                He Hew) as (Hbe0 & _ & Hpr0).
  apply expectWord_frame in Hew. destruct Hew as ((Hh0 & Hb0 & Hi0 & Hd0) & He0).
  simpl in Hbe0, Hpr0, Hi0.
  destruct (faulted s0) eqn:Hf0; [eauto |].
  specialize (Hpr0 eq_refl). apply faulted_false_inv in Hf0.
  destruct (compile_loop_returns fuel NULL NULL i0 s0 (brk s0) []) as ([[[start node] i1] s1] & ->);
    [exact Hf0 | exact Hi0 | simpl; auto | rewrite Hbe0; lia |].
  simpl.
  destruct (endDefinition w (cstr (span (b_idx s0) i0 s0)) start s1). eauto.
Qed.

(** ** The loop-close token at compile time *)

(** The scan of the patch over a body: it returns the last open [DO] of the
    body, or the pointer it was started with when the body has none. *)
Lemma lastUndefinedDo_block (h : gmap positive wordNode) (ts : list wordType)
    (a p : positive) (n : nat) (last : ptr) :
  block h a ts p → (length ts < n)%nat →
  ∃ r, lastUndefinedDo h n (Some a) (Some p) last = Ok r
       ∧ ((∀ k, (a <= k < p)%positive → open_DO h k = false) → r = last)
       ∧ (∀ d, (a <= d < p)%positive → open_DO h d = true →
               (∀ k, (d < k < p)%positive → open_DO h k = false) → r = Some d).
Proof.
  revert a n last. induction ts as [| t ts IH]; intros a n last Hb Hn.
  - simpl in Hb. subst. destruct n; [simpl in Hn; lia |]. simpl.
    rewrite bool_decide_eq_true_2 by reflexivity.
    exists last. split; [reflexivity |]. split; [auto |]. intros d Hd. lia.
  - simpl in Hb. destruct Hb as (nd & Ha & _ & Hnx & Hb).
    destruct n; [simpl in Hn; lia |]. simpl.
    pose proof (block_le _ _ _ _ Hb) as Hle.
    rewrite bool_decide_eq_false_2 by (intros E; injection E; lia).
    rewrite Ha, Hnx.
    assert (Hopen : open_DO h a
                    = bool_decide (type (_word nd) = DO)
                      && bool_decide (wa_node (wa (_word nd)) = NULL))
      by (unfold open_DO; rewrite Ha; reflexivity).
    rewrite <- Hopen.
    destruct (IH (Pos.succ a) n (if open_DO h a then Some a else last) Hb
                ltac:(simpl in Hn; lia)) as (r & Hr & Hnone & Hsome).
    exists r. split; [exact Hr |]. split.
    + intros Hno. rewrite Hnone by (intros k Hk; apply Hno; lia).
      rewrite (Hno a) by lia. reflexivity.
    + intros d Hd Hod Hafter.
      destruct (decide (d = a)) as [-> | Hne].
      * rewrite Hnone by (intros k Hk; apply Hafter; lia).
        rewrite Hod. reflexivity.
      * apply Hsome; [lia | exact Hod | exact Hafter].
Qed.

(** Claim C6, as amended.  A [LOOP] token inside a definition, no fault
    pending. On a construction stack that is not empty: a top that is not
    [DO] gives [INVALID_CONSTRUCTION] and leaves the stack as it is; a top
    that is [DO] is popped. The patch that follows, on the body made of the
    nodes from [a0] up to the new node [p]: when no node of the body is an
    open [DO] the fault is [LONE_LOOP]; otherwise the last open [DO] of the
    body and the new node get each other as branch target. *)
Theorem LOOP_token_stage1 (fuel : nat) (w : word_t) (idx : Z) (s : state) :
  type w = LOOP →
  errorCode s = NO_ERROR →
  inWordDefinition s = true →
  1 <= defTop s < STACK_SIZE →
  (arr_get INTEGER (defStack s) (defTop s - 1) ≠ DO →
     execWordStage1 (S fuel) w idx s
       = Ok (w, idx, set_errorCode INVALID_CONSTRUCTION s))
  ∧ (arr_get INTEGER (defStack s) (defTop s - 1) = DO →
     execWordStage1 (S fuel) w idx s
       = Ok (mkWord LOOP (nodeValue NULL), idx, set_defTop (defTop s - 1) s))
  ∧ (∀ (sp : state) (a0 p : positive) (T : list wordType),
       block (heap sp) a0 T p → brk sp = Pos.succ p →
       ((∀ k, (a0 <= k < p)%positive → open_DO (heap sp) k = false) →
          patch_LOOP (Some a0) p sp = Ok (set_errorCode LONE_LOOP sp))
       ∧ (∀ d, (a0 <= d < p)%positive → open_DO (heap sp) d = true →
            (∀ k, (d < k < p)%positive → open_DO (heap sp) k = false) →
            patch_LOOP (Some a0) p sp
            = Ok (store_wa p (nodeValue (Some d)) (store_wa d (nodeValue (Some p)) sp)))).
Proof.
  intros Hw He Hin Ht.
  assert (Hs1 : execWordStage1 (S fuel) w idx s = Ok (stage1_LOOP w idx s)).
  { simpl. rewrite (faulted_false s He), Hw. reflexivity. }
  rewrite Hs1. unfold stage1_LOOP. rewrite Hin. simpl.
  rewrite (defPeek_value s He Ht).
  split; [| split].
  - intros Hne. rewrite bool_decide_eq_true_2 by exact Hne.
    rewrite (faulted_false s He). reflexivity.
  - intros Heq. rewrite bool_decide_eq_false_2 by (intros Hne; exact (Hne Heq)).
    rewrite (defDiscard_value s He) by lia. rewrite Hw. reflexivity.
  - intros sp a0 p T Hb Hbrk.
    assert (Hlen : (length T < patch_fuel sp)%nat).
    { unfold patch_fuel. rewrite Hbrk. apply block_length in Hb. lia. }
    destruct (lastUndefinedDo_block (heap sp) T a0 p (patch_fuel sp) NULL Hb Hlen)
      as (r & Hr & Hnone & Hsome).
    unfold patch_LOOP. rewrite Hr. simpl. split.
    + intros Hno. rewrite (Hnone Hno). reflexivity.
    + intros d Hd Hod Hafter. rewrite (Hsome d Hd Hod Hafter). reflexivity.
Qed.

(** Claim C6 witness.  A [LOOP] token with [IF] on top of the construction
    stack; and the patch on the body [DO LOOP], whose [DO], at address 1, is
    open. *)
Lemma LOOP_token_stage1_witness :
  let s := set_inWordDefinition true (defPush IF initial) in
  let sp :=
    store_word 2 (mkWord LOOP (nodeValue NULL))
      (append_node (Some 1%positive) (Some 1%positive)
         (store_word 1 (mkWord DO (nodeValue NULL))
            (append_node NULL NULL initial).2)).2 in
  execWordStage1 1 (mkWord LOOP (intValue 0)) 0 s
    = Ok (mkWord LOOP (intValue 0), 0, set_errorCode INVALID_CONSTRUCTION s)
  ∧ patch_LOOP (Some 1%positive) 2 sp
    = Ok (store_wa 2 (nodeValue (Some 1%positive))
            (store_wa 1 (nodeValue (Some 2%positive)) sp)).
Proof.
  intros s sp.
  destruct (LOOP_token_stage1 0 (mkWord LOOP (intValue 0)) 0 s) as (H1 & _ & H3).
  - reflexivity.
  - reflexivity.
  - reflexivity.
  - vm_compute. split; [discriminate | reflexivity].
  - split; [apply H1; vm_compute; discriminate |].
    refine (proj2 (H3 sp 1%positive 2%positive [DO] _ _) 1%positive _ _ _).
    + eexists. repeat split; vm_compute; reflexivity.
    + reflexivity.
    + lia.
    + vm_compute. reflexivity.
    + intros k Hk. lia.
Defined.

(** The patch at work.  [: C 2 0 DO I . LOOP ;] compiles and runs.  After
    [: A DO ;] a [DO] is left on the construction stack: the [LOOP] of
    [: B LOOP ;] passes stage 1, and the patch, which finds no [DO] in the
    body of [B], raises [LONE_LOOP]. *)
Lemma LOOP_patch_examples :
  (let s := state_of (interpret 2 40 [": C 2 0 DO I . LOOP ; C"%string]) in
   errorCode s = NO_ERROR ∧ display s = str "0 1 ")
  ∧ (let s := state_of (interpret 1 40 [": A DO ;"%string]) in
     errorCode s = NO_ERROR ∧ defTop s = 1)
  ∧ (let s := state_of (interpret 2 40 [": A DO ; : B LOOP ;"%string]) in
     errorCode s = LONE_LOOP ∧ defTop s = 0).
Proof. split; [| split]; vm_compute; split; reflexivity. Qed.

(** Claim C6 counterexample.  [: A IF LOOP ;] from power-up: no [DO] was ever
    seen, the stack is not empty, and the fault is [INVALID_CONSTRUCTION]. *)
Lemma LOOP_without_DO_after_IF :
  ∃ s, interpret 1 9 [": A IF LOOP ;"%string] = Ok s
       ∧ errorCode s = INVALID_CONSTRUCTION
       ∧ errorCode s ≠ LONE_LOOP.
Proof.
  eexists. split; [vm_compute; reflexivity |].
  vm_compute. split; [reflexivity | discriminate].
Qed.

(** ** The sticky fault register *)

Lemma unspoiled_refl (s : state) : unspoiled s s.
Proof. intros H. exact H. Qed.

Lemma unspoiled_trans (s1 s2 s3 : state) :
  unspoiled s1 s2 → unspoiled s2 s3 → unspoiled s1 s3.
Proof. intros H1 H2 H. auto. Qed.

(** A fault assigned when none is pending, and the clearing of the register. *)
Lemma unspoiled_raise (e : errorTypes) (s : state) :
  errorCode s = NO_ERROR → unspoiled s (set_errorCode e s).
Proof. intros He Hc. simpl. rewrite Hc, He. reflexivity. Qed.

Lemma unspoiled_clear (s : state) : unspoiled s (set_errorCode NO_ERROR s).
Proof. intros Hc. simpl. rewrite Hc. apply andb_false_r. Qed.

Lemma unspoiled_print_elements (l : list Z) (s : state) :
  unspoiled s (print_elements l s).
Proof.
  revert s. induction l as [| v l IH]; intros s; simpl; [apply unspoiled_refl |].
  intros Hc. apply IH. exact Hc.
Qed.

Lemma unspoiled_roll (s : state) : unspoiled s (roll s).
Proof.
  intros Hc. destruct (faulted s) eqn:Hf.
  - unfold roll, pop. rewrite Hf. simpl. rewrite Hf. exact Hc.
  - apply faulted_false_inv in Hf. unfold roll, pop, peek, faulted.
    ghost_cases Hc Hf.
Qed.

Lemma unspoiled_pick (s : state) : unspoiled s (pick s).
Proof.
  intros Hc. destruct (faulted s) eqn:Hf.
  - unfold pick, pop. rewrite Hf. simpl. rewrite Hf. exact Hc.
  - apply faulted_false_inv in Hf. unfold pick, pop, peek, push, faulted.
    ghost_cases Hc Hf.
Qed.

(** The built-in words: [divide], [mod] and [slashMod], which assign without
    a test, assign no fault over a pending one there. *)
Lemma unspoiled_step (w : word_t) (s : state) :
  simple (type w) = true → unspoiled s (step w s).
Proof.
  intros Hs Hc. unfold step. simpl.
  destruct (faulted s) eqn:Hf; [exact Hc |].
  pose proof (faulted_false_inv s Hf) as He.
  destruct (type w); try discriminate Hs; try exact Hc;
    try (apply unspoiled_roll; exact Hc); try (apply unspoiled_pick; exact Hc);
    try (cbn [overwritten set_printed]; apply unspoiled_print_elements; exact Hc);
    unfold checked, binary, slashMod, mod', divide, push, discard, peek, pop, poke,
      idxPush, idxPeek, idxIncr, faulted in *;
    ghost_cases Hc He.
Qed.

Lemma unspoiled_pop (s : state) : unspoiled s (pop s).2.
Proof.
  intros Hc. unfold pop. destruct (faulted s) eqn:Hf; [exact Hc |].
  apply faulted_false_inv in Hf. ghost_cases Hc Hf.
Qed.

Lemma unspoiled_idxIncr (s : state) : unspoiled s (idxIncr s).
Proof.
  intros Hc. unfold idxIncr. destruct (faulted s) eqn:Hf; [exact Hc |].
  apply faulted_false_inv in Hf. ghost_cases Hc Hf.
Qed.

Lemma unspoiled_idxPeek (off : Z) (s : state) : unspoiled s (idxPeek off s).2.
Proof.
  intros Hc. unfold idxPeek. destruct (faulted s) eqn:Hf; [exact Hc |].
  apply faulted_false_inv in Hf. ghost_cases Hc Hf.
Qed.

(** The executor. *)
Lemma unspoiled_exec (fuel : nat) :
  (∀ w node s r s', execWordStage2 fuel w node s = Ok (r, s') → unspoiled s s')
  ∧ (∀ node s r s', run_word fuel node s = Ok (r, s') → unspoiled s s')
  ∧ (∀ node s r s', run_if fuel node s = Ok (r, s') → unspoiled s s').
Proof.
  induction fuel as [| fuel (IHe & IHw & IHi)];
    [repeat split; intros; discriminate |].
  split; [| split].
  - intros w node s r s' H.
    destruct (simple (type w)) eqn:Hs.
    { destruct (exec_simple fuel w node s Hs) as (r0 & Hex & _).
      rewrite Hex in H. injection H as <- <-. apply unspoiled_step. exact Hs. }
    cbn [execWordStage2] in H. destruct (faulted s) eqn:Hf.
    { injection H as <- <-. apply unspoiled_refl. }
    destruct (type w); try discriminate Hs.
    + apply IHw in H. exact H.
    + destruct node as [p |]; [| discriminate].
      destruct (heap s !! p) as [nd |]; [| discriminate].
      pose proof (unspoiled_pop s) as Hpop.
      destruct (pop s) as [f s1]. simpl in Hpop.
      destruct (faulted s1).
      * injection H as <- <-. exact Hpop.
      * apply IHi in H. exact (unspoiled_trans _ _ _ Hpop H).
    + pose proof (unspoiled_idxIncr s) as Hinc.
      destruct (faulted (idxIncr s)); [injection H as <- <-; exact Hinc |].
      pose proof (unspoiled_idxPeek 1 (idxIncr s)) as H1.
      destruct (idxPeek 1 (idxIncr s)) as [val s1]. simpl in H1.
      pose proof (unspoiled_trans _ _ _ Hinc H1) as H1'.
      destruct (faulted s1); [injection H as <- <-; exact H1' |].
      pose proof (unspoiled_idxPeek 2 s1) as H2.
      destruct (idxPeek 2 s1) as [limit s2]. simpl in H2.
      pose proof (unspoiled_trans _ _ _ H1' H2) as H2'.
      destruct (faulted s2); [injection H as <- <-; exact H2' |].
      destruct (val =? limit); [injection H as <- <-; exact H2' |].
      destruct node as [p |]; [| discriminate].
      destruct (heap s2 !! p); [| discriminate].
      injection H as <- <-. exact H2'.
  - intros node s r s' H.
    destruct node as [p |]; [| injection H as <- <-; apply unspoiled_refl].
    cbn [run_word] in H.
    destruct (heap s !! p) as [nd |]; [| discriminate].
    destruct (execWordStage2 fuel (_word nd) (Some p) s) as [[n1 s1] | | | |] eqn:Hex;
      simpl in H; try discriminate.
    apply IHe in Hex.
    destruct (faulted s1); [injection H as <- <-; exact Hex |].
    destruct n1 as [q |].
    + destruct (heap s1 !! q) as [nq |]; [| discriminate].
      apply IHw in H. exact (unspoiled_trans _ _ _ Hex H).
    + apply IHw in H. exact (unspoiled_trans _ _ _ Hex H).
  - intros node s r s' H.
    destruct node as [p |]; [| discriminate].
    cbn [run_if] in H.
    destruct (heap s !! p) as [nd |]; [| discriminate].
    destruct (bool_decide (type (_word nd) ≠ ELSE) && bool_decide (type (_word nd) ≠ THEN)).
    + destruct (execWordStage2 fuel (_word nd) (Some p) s) as [[n1 s1] | | | |] eqn:Hex;
        simpl in H; try discriminate.
      apply IHe in Hex.
      destruct (faulted s1) eqn:Hf1; [injection H as <- <-; exact Hex |].
      destruct n1 as [q |].
      * destruct (heap s1 !! q) as [nq |]; [| discriminate].
        apply IHi in H. exact (unspoiled_trans _ _ _ Hex H).
      * injection H as <- <-. refine (unspoiled_trans _ _ _ Hex _).
        apply unspoiled_raise, faulted_false_inv, Hf1.
    + destruct (bool_decide (type (_word nd) = ELSE)); injection H as <- <-;
        apply unspoiled_refl.
Qed.

(** The reader. *)
Lemma overwritten_input_loop (lines : list (list ascii)) (s s' : state) :
  input_loop lines s = Ok s' → overwritten s' = overwritten s ∧ errorCode s' = errorCode s.
Proof.
  revert s. induction lines as [| line rest IH]; intros s H; simpl in H.
  - destruct (b_idx s <? b_end s); [| discriminate]. injection H as <-. auto.
  - destruct (b_idx s <? b_end s); [injection H as <-; auto |].
    apply IH in H. destruct H as [H1 H2]. rewrite H1, H2.
    destruct (printed s); auto.
Qed.

Lemma unspoiled_readWord (s s' : state) (i : Z) :
  readWord s = Ok (i, s') → unspoiled s s'.
Proof.
  unfold readWord, input. intros H Hc.
  destruct (faulted s) eqn:Hf; simpl in H.
  - rewrite Hf in H. injection H as <- <-. exact Hc.
  - destruct (input_loop (keyboard s) s) as [s1 | | | |] eqn:Hin; simpl in H;
      try discriminate.
    apply overwritten_input_loop in Hin. destruct Hin as [Ho _].
    destruct (faulted s1); [injection H as <- <-; congruence |].
    destruct (b_end s1 <=? scan_from is_blank (b_idx s1) s1); [discriminate |].
    injection H as <- <-. simpl. congruence.
Qed.

Lemma unspoiled_expectWord (s : state) : unspoiled s (expectWord s).2.
Proof.
  intros Hc. unfold expectWord. destruct (faulted s) eqn:Hf; [exact Hc |].
  apply faulted_false_inv in Hf. ghost_cases Hc Hf.
Qed.

(** The resolver, which assigns [UNRECOGNIZED_WORD] without a test. *)
Lemma unspoiled_parseWord (idx : Z) (w : word_t) (s : state) :
  errorCode s = NO_ERROR → unspoiled s (parseWord idx w s).2.
Proof.
  intros He Hc. unfold parseWord.
  destruct (tryParseDefined idx w s) as [[|] w1]; [exact Hc |].
  destruct (tryParseInt idx w1 s) as [[|] w2]; [exact Hc |].
  destruct (tryParseBuiltIn idx w2 s) as [[|] w3]; [exact Hc |].
  simpl. rewrite Hc, He. reflexivity.
Qed.

(** The compiler.  The cases of stage 1 and the patches assign faults
    directly; they are entered with no fault pending. *)
Lemma unspoiled_defPeek (s : state) : unspoiled s (defPeek s).2.
Proof.
  intros Hc. unfold defPeek. destruct (faulted s) eqn:Hf; [exact Hc |].
  apply faulted_false_inv in Hf. ghost_cases Hc Hf.
Qed.

Lemma unspoiled_stage1_cases (w : word_t) (idx : Z) (s : state) :
  errorCode s = NO_ERROR →
  unspoiled s (stage1_PRINT_S w idx s).2
  ∧ unspoiled s (stage1_open w idx s).2
  ∧ unspoiled s (stage1_ELSE_THEN w idx s).2
  ∧ unspoiled s (stage1_I w idx s).2
  ∧ unspoiled s (stage1_LOOP w idx s).2.
Proof.
  intros He. pose proof (faulted_false s He) as Hf.
  repeat split; intros Hc;
    unfold stage1_PRINT_S, stage1_open, stage1_ELSE_THEN, stage1_I, stage1_LOOP, fault,
      addString, defPush, defPeek, defDiscard, faulted in *;
    ghost_cases Hc He.
Qed.

Lemma unspoiled_patch (start : ptr) (p : positive) (w : word_t) (s s' : state) :
  errorCode s = NO_ERROR →
  match type w with
  | LOOP => patch_LOOP start p s
  | THEN => patch_THEN start p s
  | _ => Ok s
  end = Ok s' →
  unspoiled s s'.
Proof.
  intros He H Hc. destruct (type w); try (injection H as <-; exact Hc).
  - unfold patch_THEN in H.
    destruct (lastUndefinedIfElse (heap s) (patch_fuel s) start (Some p) NULL NULL)
      as [[[i |] [e |]] | | | |]; simpl in H; try discriminate.
    1: destruct (heap s !! e) as [nd |]; simpl in H; [| discriminate].
    all: injection H as <-; simpl; rewrite ?Hc, ?He; reflexivity.
  - unfold patch_LOOP in H.
    destruct (lastUndefinedDo (heap s) (patch_fuel s) start (Some p) NULL)
      as [[d |] | | | |]; simpl in H; try discriminate;
      injection H as <-; simpl; rewrite ?Hc, ?He; reflexivity.
Qed.

Lemma unspoiled_compile_word
    (stage1 : word_t → Z → state → outcome (word_t * Z * state))
    (start : ptr) (p : positive) (idx idx' : Z) (again : bool) (s s' : state) :
  (∀ w i s1 w' i' s2, stage1 w i s1 = Ok (w', i', s2) → unspoiled s1 s2) →
  compile_word stage1 start p idx s = Ok (again, idx', s') →
  unspoiled s s'.
Proof.
  intros Hst H. unfold compile_word in H.
  pose proof (unspoiled_expectWord (set_b_idx idx s)) as H1.
  destruct (expectWord (set_b_idx idx s)) as [i1 s1]. simpl in H1.
  assert (H1' : unspoiled s s1) by exact H1.
  destruct (faulted s1) eqn:Hf1; [injection H as <- <- <-; exact H1' |].
  pose proof (unspoiled_parseWord i1 (load_word p s1) s1 (faulted_false_inv _ Hf1)) as H2.
  destruct (parseWord i1 (load_word p s1) s1) as [w2 s2]. simpl in H2.
  pose proof (unspoiled_trans _ _ _ H1' H2) as H2'.
  assert (H2s : unspoiled s (store_word p w2 s2)) by exact H2'.
  destruct (faulted (store_word p w2 s2)) eqn:Hf2; [injection H as <- <- <-; exact H2s |].
  destruct (stage1 w2 i1 (store_word p w2 s2)) as [[[w3 i3] s3] | | | |] eqn:Hs1;
    simpl in H; try discriminate.
  apply Hst in Hs1. pose proof (unspoiled_trans _ _ _ H2s Hs1) as H3.
  assert (H3s : unspoiled s (store_word p w3 s3)) by exact H3.
  destruct (faulted (store_word p w3 s3)) eqn:Hf3; [injection H as <- <- <-; exact H3s |].
  destruct (match type w3 with
            | LOOP => patch_LOOP start p (store_word p w3 s3)
            | THEN => patch_THEN start p (store_word p w3 s3)
            | _ => Ok (store_word p w3 s3)
            end) as [s4 | | | |] eqn:Hp; simpl in H; try discriminate.
  apply unspoiled_patch in Hp; [| exact (faulted_false_inv _ Hf3)].
  pose proof (unspoiled_trans _ _ _ H3s Hp) as H4.
  destruct (faulted s4); injection H as <- <- <-; exact H4.
Qed.

Lemma unspoiled_append_node (start node : ptr) (s : state) :
  unspoiled s (append_node start node s).2.
Proof. intros Hc. unfold append_node, malloc. destruct node; exact Hc. Qed.

Lemma unspoiled_endDefinition (w : word_t) (name : list ascii) (start : ptr) (s : state) :
  unspoiled s (endDefinition w name start s).2.
Proof.
  intros Hc. unfold endDefinition.
  destruct (faulted s); [exact Hc |].
  destruct (searchForDefinedWord name s); exact Hc.
Qed.

Lemma unspoiled_stage1 (fuel : nat) :
  (∀ w idx s w' idx' s',
     execWordStage1 fuel w idx s = Ok (w', idx', s') → unspoiled s s')
  ∧ (∀ start node idx s start' node' idx' s',
       compile_loop fuel start node idx s = Ok (start', node', idx', s') →
       unspoiled s s').
Proof.
  induction fuel as [| fuel (IHs & IHc)]; [split; intros; discriminate |].
  split.
  - intros w idx s w' idx' s' H. cbn [execWordStage1] in H.
    destruct (faulted s) eqn:Hf; [injection H as <- <- <-; apply unspoiled_refl |].
    pose proof (faulted_false_inv s Hf) as He.
    destruct (unspoiled_stage1_cases w idx s He) as (C1 & C2 & C3 & C4 & C5).
    destruct (type w); try (injection H as <- <- <-; apply unspoiled_refl);
      try (injection H as H; apply (f_equal snd) in H; cbn [snd] in H;
           rewrite <- H; assumption).
    destruct (inWordDefinition s).
    { unfold fault in H. injection H as <- <- <-. apply unspoiled_raise. exact He. }
    pose proof (unspoiled_expectWord (set_b_idx idx (set_inWordDefinition true s))) as H1.
    destruct (expectWord (set_b_idx idx (set_inWordDefinition true s))) as [i1 s1].
    simpl in H1. assert (H1' : unspoiled s s1) by exact H1.
    destruct (faulted s1); [injection H as <- <- <-; exact H1' |].
    destruct (compile_loop fuel NULL NULL i1 s1) as [[[[st nd] i2] s2] | | | |] eqn:Hcl;
      simpl in H; try discriminate.
    apply IHc in Hcl.
    pose proof (unspoiled_endDefinition w (cstr (span (b_idx s1) i1 s1)) st s2) as H3.
    destruct (endDefinition w (cstr (span (b_idx s1) i1 s1)) st s2) as [w3 s3].
    injection H as <- <- <-. simpl in H3.
    exact (unspoiled_trans _ _ _ (unspoiled_trans _ _ _ H1' Hcl) H3).
  - intros start node idx s start' node' idx' s' H. rewrite compile_loop_S in H.
    pose proof (unspoiled_append_node start node s) as Ha.
    destruct (append_node start node s) as [[st p] s1]. simpl in Ha.
    destruct (compile_word (execWordStage1 fuel) st p idx s1)
      as [[[again i2] s2] | | | |] eqn:Hcw; simpl in H; try discriminate.
    apply (unspoiled_compile_word _ _ _ _ _ _ _ _ IHs) in Hcw.
    pose proof (unspoiled_trans _ _ _ Ha Hcw) as H2.
    destruct again.
    + apply IHc in H. exact (unspoiled_trans _ _ _ H2 H).
    + injection H as <- <- <- <-. exact H2.
Qed.

(** The driver: it clears the register at the start of a statement and
    keeps it when it reports the fault. *)
Lemma unspoiled_statement (fuel : nat) (idx idx' : Z) (w w' : word_t) (s s' : state) :
  statement fuel idx w s = Ok (idx', w', s') → unspoiled s s'.
Proof.
  intros H. unfold statement in H.
  pose proof (unspoiled_clear s) as H0.
  destruct (readWord (set_errorCode NO_ERROR s)) as [[i1 s1] | | | |] eqn:Hrw;
    simpl in H; try discriminate.
  apply unspoiled_readWord in Hrw. pose proof (unspoiled_trans _ _ _ H0 Hrw) as H1.
  destruct (faulted s1) eqn:Hf1; [injection H as <- <- <-; exact H1 |].
  pose proof (unspoiled_parseWord i1 w s1 (faulted_false_inv _ Hf1)) as H2.
  destruct (parseWord i1 w s1) as [w2 s2]. simpl in H2.
  pose proof (unspoiled_trans _ _ _ H1 H2) as H2'.
  destruct (faulted s2); [injection H as <- <- <-; exact H2' |].
  destruct (execWordStage1 fuel w2 i1 s2) as [[[w3 i3] s3] | | | |] eqn:Hs1;
    simpl in H; try discriminate.
  apply (proj1 (unspoiled_stage1 fuel)) in Hs1.
  pose proof (unspoiled_trans _ _ _ H2' Hs1) as H3.
  destruct (faulted s3); [injection H as <- <- <-; exact H3 |].
  destruct (execWordStage2 fuel w3 NULL s3) as [[n4 s4] | | | |] eqn:Hs2;
    simpl in H; try discriminate.
  apply (proj1 (unspoiled_exec fuel)) in Hs2.
  injection H as <- <- <-. exact (unspoiled_trans _ _ _ H3 Hs2).
Qed.

Lemma report_keeps (idx : Z) (s : state) :
  errorCode (report idx s).2 = errorCode s
  ∧ overwritten (report idx s).2 = overwritten s.
Proof.
  unfold report. destruct (faulted s); [| auto].
  destruct (printed s); simpl; auto.
Qed.

Lemma unspoiled_cycle (fuel : nat) (idx idx' : Z) (w w' : word_t) (s s' : state) :
  cycle fuel idx w s = Ok (idx', w', s') → unspoiled s s'.
Proof.
  intros H. unfold cycle in H.
  destruct (statement fuel idx w s) as [[[i1 w1] s1] | | | |] eqn:Hst; simpl in H;
    try discriminate.
  apply unspoiled_statement in Hst.
  destruct (report_keeps i1 s1) as [_ Ho].
  destruct (report i1 s1) as [i2 s2]. simpl in Ho.
  injection H as <- <- <-. intros Hc. rewrite Ho. exact (Hst Hc).
Qed.

Lemma unspoiled_cycles (n fuel : nat) (idx idx' : Z) (w w' : word_t) (s s' : state) :
  cycles n fuel idx w s = Ok (idx', w', s') → unspoiled s s'.
Proof.
  revert idx w s. induction n as [| n IH]; intros idx w s H; simpl in H.
  - injection H as <- <- <-. apply unspoiled_refl.
  - destruct (cycle fuel idx w s) as [[[i1 w1] s1] | | | |] eqn:Hc; simpl in H;
      try discriminate.
    apply unspoiled_cycle in Hc. exact (unspoiled_trans _ _ _ Hc (IH _ _ _ H)).
Qed.

Lemma unspoiled_interpret (n fuel : nat) (lines : list string) (s : state) :
  interpret n fuel lines = Ok s → overwritten s = false.
Proof.
  unfold interpret. intros H.
  destruct (cycles n fuel 0 (_word fresh_node) (set_keyboard (str <$> lines) initial))
    as [[[i w] s1] | | | |] eqn:Hc; simpl in H; try discriminate.
  injection H as <-. apply unspoiled_cycles in Hc. apply Hc. reflexivity.
Qed.

(** Claim C8 counterexample.  In [: A IF LOOP ;], after stage 1 has raised
    [INVALID_CONSTRUCTION], the compiler still calls [deleteDefinition],
    which frees the two nodes of the partial body: an operation made with a
    fault pending that is not a no-op. *)
Lemma cleanup_after_fault_changes_state :
  let s := set_b_end 13 (getIn (str ": A IF LOOP ;") initial) in
  let r := expectWord (set_b_idx 1 (set_inWordDefinition true s)) in
  ∃ start node i1 s1,
    compile_loop 8 NULL NULL r.1 r.2 = Ok (start, node, i1, s1)
    ∧ errorCode s1 = INVALID_CONSTRUCTION
    ∧ deleteDefinition start s1 ≠ s1
    ∧ errorCode (deleteDefinition start s1) = INVALID_CONSTRUCTION.
Proof.
  intros s r. eexists _, _, _, _.
  split; [vm_compute; reflexivity |].
  split; [reflexivity |]. split; [| reflexivity].
  intros E. apply (f_equal (fun x => heap x !! 1%positive)) in E.
  vm_compute in E. discriminate E.
Qed.

(** [divide] has no test of its own: in a state with a fault pending, which
    the sketch never passes to it, it would replace the fault, and the ghost
    would record it. *)
Lemma divide_has_no_guard :
  let s := set_errorCode STACK_UNDERFLOW initial in
  errorCode (divide 1 0 s).2 = DIVISION_BY_ZERO
  ∧ overwritten s = false
  ∧ overwritten (divide 1 0 s).2 = true.
Proof. vm_compute. repeat split; reflexivity. Qed.

(** Claim C8, as amended.  Once the register holds a fault: the operations
    that test it on entry do nothing and return their dummy value; the end of
    a faulted definition, which frees the partial body, and the report of the
    driver keep the register.  And the first fault is never replaced by a
    later one: an assignment of a fault while a fault is pending sets the
    ghost [overwritten], and no run of the executor, of the compiler, of a
    statement or of the interpreter from power-up sets it, although [divide],
    [mod], [slashMod], [parseWord] and the direct assignments of the compiler
    and of the [IF] loop have no test of their own.  Only the driver, at the
    start of a statement, clears the register. *)
Theorem first_fault_is_never_overwritten
    (fuel : nat) (v c i : Z) (t : wordType) (w : word_t) (node : ptr) (s : state) :
  (errorCode s ≠ NO_ERROR →
     push v s = s
     ∧ discard c s = s
     ∧ peek i s = (1, s)
     ∧ pop s = (1, s)
     ∧ poke i v s = s
     ∧ defPush t s = s
     ∧ defDiscard s = s
     ∧ defPeek s = (INTEGER, s)
     ∧ idxPush v s = s
     ∧ idxDiscard s = s
     ∧ idxPeek i s = (0, s)
     ∧ idxIncr s = s
     ∧ input s = Ok s
     ∧ expectWord s = (b_idx s, s)
     ∧ readWord s = Ok (b_idx s, s)
     ∧ roll s = s
     ∧ pick s = s
     ∧ execWordStage1 (S fuel) w i s = Ok (w, i, s)
     ∧ execWordStage2 (S fuel) w node s = Ok (NULL, s)
     ∧ errorCode (deleteDefinition node s) = errorCode s
     ∧ errorCode (endDefinition w [] node s).2 = errorCode s
     ∧ errorCode (report i s).2 = errorCode s
     ∧ ∀ e, e ≠ NO_ERROR → overwritten (set_errorCode e s) = true)
  ∧ (overwritten s = false →
     (∀ r s', execWordStage2 fuel w node s = Ok (r, s') → overwritten s' = false)
     ∧ (∀ r s', run_word fuel node s = Ok (r, s') → overwritten s' = false)
     ∧ (∀ r s', run_if fuel node s = Ok (r, s') → overwritten s' = false)
     ∧ (∀ w' i' s', execWordStage1 fuel w i s = Ok (w', i', s') → overwritten s' = false)
     ∧ (∀ start start' node' i' s',
          compile_loop fuel start node i s = Ok (start', node', i', s') →
          overwritten s' = false)
     ∧ (∀ i' w' s', statement fuel i w s = Ok (i', w', s') → overwritten s' = false)
     ∧ (∀ n i' w' s', cycles n fuel i w s = Ok (i', w', s') → overwritten s' = false))
  ∧ (∀ n lines s', interpret n fuel lines = Ok s' → overwritten s' = false).
Proof.
  split; [| split].
  - intros He. pose proof (faulted_true s He) as Hf.
    unfold push, discard, peek, pop, poke, defPush, defDiscard, defPeek, idxPush,
      idxDiscard, idxPeek, idxIncr, input, expectWord, readWord, roll, pick, pop, input,
      endDefinition.
    simpl. unfold mbind, outcome_bind. rewrite ?Hf. simpl. rewrite ?Hf.
    repeat split; try reflexivity.
    + apply (proj1 (report_keeps i s)).
    + intros e Hne. simpl. unfold faulted_code.
      rewrite (bool_decide_eq_true_2 _ He), (bool_decide_eq_true_2 _ Hne).
      apply orb_true_r.
  - intros Hc.
    split; [intros r s' H; exact (proj1 (unspoiled_exec fuel) _ _ _ _ _ H Hc) |].
    split; [intros r s' H; exact (proj1 (proj2 (unspoiled_exec fuel)) _ _ _ _ H Hc) |].
    split; [intros r s' H; exact (proj2 (proj2 (unspoiled_exec fuel)) _ _ _ _ H Hc) |].
    split; [intros w' i' s' H; exact (proj1 (unspoiled_stage1 fuel) _ _ _ _ _ _ H Hc) |].
    split; [intros start start' node' i' s' H;
            exact (proj2 (unspoiled_stage1 fuel) _ _ _ _ _ _ _ _ H Hc) |].
    split; [intros i' w' s' H; exact (unspoiled_statement _ _ _ _ _ _ _ H Hc) |].
    intros n i' w' s' H. exact (unspoiled_cycles _ _ _ _ _ _ _ _ H Hc).
  - intros n lines s' H. exact (unspoiled_interpret _ _ _ _ H).
Qed.

(** Claim C8 witness.  A state with [STACK_UNDERFLOW] pending; and the
    statement [/] after [1 0], which raises [DIVISION_BY_ZERO] in a state
    whose register was clear. *)
Lemma first_fault_is_never_overwritten_witness :
  let s := set_errorCode STACK_UNDERFLOW (push 4 initial) in
  let s0 := push 0 (push 1 initial) in
  let w := mkWord DIVIDE (intValue 0) in
  let r := match execWordStage2 1 w NULL s0 with Ok r => r | _ => (NULL, s0) end in
  push 7 s = s ∧ pop s = (1, s)
  ∧ execWordStage2 1 w NULL s = Ok (NULL, s)
  ∧ execWordStage2 1 w NULL s0 = Ok r
  ∧ errorCode r.2 = DIVISION_BY_ZERO
  ∧ overwritten r.2 = false.
Proof.
  intros s s0 w r.
  destruct (first_fault_is_never_overwritten 0 7 0 0 INTEGER w NULL s)
    as ((H1 & _ & _ & H4 & H) & _); [discriminate |].
  destruct (first_fault_is_never_overwritten 1 7 0 0 INTEGER w NULL s0)
    as (_ & H0 & _).
  split; [exact H1 |]. split; [exact H4 |].
  split; [apply H |].
  assert (Hr : execWordStage2 1 w NULL s0 = Ok (r.1, r.2)) by (vm_compute; reflexivity).
  split; [vm_compute; reflexivity |]. split; [vm_compute; reflexivity |].
  exact (proj1 (H0 eq_refl) _ _ Hr).
Defined.

(** * The data stack: what the words do to it *)

(** ** The data stack as a list, for the properties of stage 2 *)

Lemma holds_length (s : state) (l : list Z) : holds s l → (length l <= 50)%nat.
Proof.
  intros (_ & Hlen & Ht & Hi). unfold items in Hi.
  apply (f_equal length) in Hi. rewrite length_take in Hi.
  change (Z.to_nat STACK_SIZE) with 50%nat in Hlen. lia.
Qed.

Lemma holds_get (s : state) (l1 : list Z) (x : Z) (xs : list Z) :
  holds s (l1 ++ x :: xs) →
  arr_get 0 (stack s) (Z.of_nat (length l1)) = x.
Proof.
  intros (_ & Hlen & Ht & Hi). unfold arr_get, items in *.
  rewrite Nat2Z.id. apply nth_lookup_Some.
  rewrite <- (lookup_take_lt _ (Z.to_nat (top s))).
  - rewrite Hi. rewrite lookup_app_r by lia.
    replace (length l1 - length l1)%nat with 0%nat by lia. reflexivity.
  - rewrite Ht, length_app. simpl. lia.
Qed.

Lemma holds_set (s : state) (st : list Z) (l' : list Z) :
  errorCode s = NO_ERROR →
  length st = Z.to_nat STACK_SIZE →
  take (length l') st = l' →
  holds (set_top (Z.of_nat (length l')) (set_stack st s)) l'.
Proof.
  intros He Hlen Ht. unfold holds, items. simpl.
  rewrite Nat2Z.id. auto.
Qed.

Lemma stack_only_refl (s : state) : stack_only s s.
Proof. destruct s. reflexivity. Qed.

Lemma stack_only_trans (s1 s2 s3 : state) :
  stack_only s1 s2 → stack_only s2 s3 → stack_only s1 s3.
Proof.
  destruct s1, s2, s3. unfold stack_only. simpl. intros H1 H2.
  injection H1. injection H2. intros. subst. reflexivity.
Qed.

Lemma stack_only_set (s : state) (st : list Z) (t : Z) :
  stack_only s (set_top t (set_stack st s)).
Proof. destruct s. reflexivity. Qed.

Lemma holds_top (s : state) (l : list Z) : holds s l → top s = Z.of_nat (length l).
Proof. intros (_ & _ & Ht & _). exact Ht. Qed.

Lemma holds_ok (s : state) (l : list Z) : holds s l → errorCode s = NO_ERROR.
Proof. intros (He & _). exact He. Qed.

Lemma holds_push (s : state) (l : list Z) (v : Z) :
  holds s l → (length l < 50)%nat →
  holds (push v s) (l ++ [v]) ∧ stack_only s (push v s).
Proof.
  intros H Hroom. pose proof H as (He & Hlen & Ht & Hi).
  rewrite (push_value v s He) by (unfold STACK_SIZE; lia).
  split; [| apply stack_only_set].
  change (Z.to_nat STACK_SIZE) with 50%nat in Hlen.
  replace (top s + 1) with (Z.of_nat (length (l ++ [v])))
    by (rewrite length_app; simpl; lia).
  apply holds_set; [exact He | unfold arr_set; rewrite length_insert; exact Hlen |].
  unfold arr_set. rewrite Ht, Nat2Z.id, length_app. simpl.
  replace (length l + 1)%nat with (S (length l)) by lia.
  rewrite (take_S_r _ _ v) by (apply list_lookup_insert_eq; lia).
  rewrite take_insert_ge by lia.
  unfold items in Hi. rewrite Ht, Nat2Z.id in Hi. rewrite Hi. reflexivity.
Qed.

Lemma holds_shrink (s : state) (l r : list Z) :
  holds s (l ++ r) → holds (set_top (Z.of_nat (length l)) s) l.
Proof.
  intros (He & Hlen & Ht & Hi). unfold holds, items in *. simpl.
  rewrite Nat2Z.id. repeat split; try assumption.
  rewrite Ht, Nat2Z.id in Hi.
  apply (f_equal (take (length l))) in Hi.
  rewrite take_take, take_app_length in Hi.
  rewrite length_app in Hi.
  replace (length l `min` (length l + length r))%nat with (length l) in Hi by lia.
  exact Hi.
Qed.

Lemma holds_pop (s : state) (l : list Z) (x : Z) :
  holds s (l ++ [x]) →
  ∃ s', pop s = (x, s') ∧ holds s' l ∧ stack_only s s'.
Proof.
  intros H. pose proof H as (He & Hlen & Ht & Hi).
  rewrite length_app in Ht. simpl in Ht.
  exists (set_top (top s - 1) s).
  rewrite (pop_value s He) by lia.
  replace (top s - 1) with (Z.of_nat (length l)) by lia.
  rewrite (holds_get s l x [] H).
  split; [reflexivity |].
  split; [apply (holds_shrink s l [x] H) |].
  destruct s; reflexivity.
Qed.

Lemma holds_discard (s : state) (l r : list Z) :
  holds s (l ++ r) →
  discard (Z.of_nat (length r)) s = set_top (Z.of_nat (length l)) s
  ∧ holds (set_top (Z.of_nat (length l)) s) l.
Proof.
  intros H. pose proof H as (He & Hlen & Ht & Hi).
  rewrite length_app in Ht.
  rewrite (discard_value _ s He) by lia.
  replace (top s - Z.of_nat (length r)) with (Z.of_nat (length l)) by lia.
  split; [reflexivity | apply (holds_shrink s l r H)].
Qed.

Lemma holds_peek (s : state) (l1 : list Z) (x : Z) (xs : list Z) :
  holds s (l1 ++ x :: xs) →
  peek (Z.of_nat (S (length xs))) s = (x, s).
Proof.
  intros H. pose proof H as (He & Hlen & Ht & Hi).
  pose proof (holds_length s _ H) as Hle.
  rewrite length_app in Ht, Hle. simpl in Ht, Hle.
  rewrite (peek_value _ s He) by (unfold STACK_SIZE; lia).
  replace (top s - Z.of_nat (S (length xs))) with (Z.of_nat (length l1)) by lia.
  rewrite (holds_get s l1 x xs H). reflexivity.
Qed.

Lemma holds_poke (s : state) (l1 : list Z) (x : Z) (xs : list Z) (v : Z) :
  holds s (l1 ++ x :: xs) →
  holds (poke (Z.of_nat (S (length xs))) v s) (l1 ++ v :: xs)
  ∧ stack_only s (poke (Z.of_nat (S (length xs))) v s).
Proof.
  intros H. pose proof H as (He & Hlen & Ht & Hi).
  rewrite length_app in Ht. simpl in Ht.
  unfold poke. rewrite (faulted_false s He).
  destruct (Z.ltb_spec (top s - Z.of_nat (S (length xs))) 0); [lia |].
  split.
  - unfold holds, items in *. simpl. unfold arr_set.
    rewrite length_insert, length_app. simpl.
    repeat split; try assumption.
    replace (Z.to_nat (top s - Z.of_nat (S (length xs)))) with (length l1) by lia.
    rewrite take_insert_lt by lia. rewrite Hi.
    replace (length l1) with (length l1 + 0)%nat at 1 by lia.
    rewrite insert_app_r. reflexivity.
  - destruct s; reflexivity.
Qed.

(** The operands of the words that use [discard(2)], [peek(0)] and
    [peek(-1)]. *)
Lemma holds_operands (s : state) (l : list Z) (a b : Z) :
  holds s (l ++ [a; b]) →
  let s1 := set_top (Z.of_nat (length l)) s in
  discard 2 s = s1 ∧ peek 0 s1 = (a, s1) ∧ peek (-1) s1 = (b, s1)
  ∧ holds s1 l ∧ stack_only s s1.
Proof.
  intros H s1. pose proof H as (He & Hlen & Ht & Hi).
  pose proof (holds_length s _ H) as Hle.
  rewrite length_app in Ht, Hle. simpl in Ht, Hle.
  destruct (holds_discard s l [a; b] H) as [Hd Hh].
  assert (He1 : errorCode s1 = NO_ERROR) by exact He.
  split; [exact Hd |].
  split; [| split; [| split; [exact Hh | destruct s; reflexivity]]].
  - rewrite (peek_value 0 s1 He1) by (unfold STACK_SIZE; simpl; lia).
    replace (top s1 - 0) with (Z.of_nat (length l)) by (simpl; lia).
    change (stack s1) with (stack s).
    rewrite (holds_get s l a [b] H). reflexivity.
  - rewrite (peek_value (-1) s1 He1) by (unfold STACK_SIZE; simpl; lia).
    replace (top s1 - -1) with (Z.of_nat (length (l ++ [a]))).
    2:{ rewrite length_app. simpl. lia. }
    change (stack s1) with (stack s).
    assert (H' : holds s ((l ++ [a]) ++ b :: [])) by (rewrite <- app_assoc; exact H).
    rewrite (holds_get s (l ++ [a]) b [] H'). reflexivity.
Qed.

Lemma holds_faulted (s : state) (l : list Z) : holds s l → faulted s = false.
Proof. intros H. apply faulted_false. exact (holds_ok s l H). Qed.

Lemma effect_DUP (s : state) (l : list Z) (a : Z) :
  holds s (l ++ [a]) → (length l + 1 < 50)%nat → effect DUP s (l ++ [a; a]).
Proof.
  intros H Hroom fuel node w Hw. simpl.
  rewrite (holds_faulted s _ H), Hw.
  change 1 with (Z.of_nat (S (length (@nil Z)))).
  rewrite (holds_peek s l a [] H), (holds_faulted s _ H).
  destruct (holds_push s (l ++ [a]) a H) as [Hp Hs];
    [rewrite length_app; simpl; lia |].
  rewrite <- app_assoc in Hp.
  unfold checked. rewrite (holds_faulted _ _ Hp). eauto.
Qed.

Lemma effect_DROP (s : state) (l : list Z) (a : Z) :
  holds s (l ++ [a]) → effect DROP s l.
Proof.
  intros H fuel node w Hw. simpl.
  rewrite (holds_faulted s _ H), Hw.
  destruct (holds_discard s l [a] H) as [Hd Hh].
  change (Z.of_nat (length [a])) with 1 in Hd. rewrite Hd.
  unfold checked. rewrite (holds_faulted _ _ Hh).
  eexists. split; [reflexivity |]. split; [exact Hh |].
  destruct s; reflexivity.
Qed.

Lemma effect_SWAP (s : state) (l : list Z) (a b : Z) :
  holds s (l ++ [a; b]) → effect SWAP s (l ++ [b; a]).
Proof.
  intros H fuel node w Hw. simpl.
  rewrite (holds_faulted s _ H), Hw.
  change 2 with (Z.of_nat (S (length [b]))).
  rewrite (holds_peek s l a [b] H), (holds_faulted s _ H).
  change 1 with (Z.of_nat (S (length (@nil Z)))).
  assert (H' : holds s ((l ++ [a]) ++ [b])) by (rewrite <- app_assoc; exact H).
  rewrite (holds_peek s (l ++ [a]) b [] H').
  destruct (holds_poke s l a [b] b H) as [H1 S1].
  assert (H1' : holds (poke (Z.of_nat (S (length [b]))) b s) ((l ++ [b]) ++ [b]))
    by (rewrite <- app_assoc; exact H1).
  destruct (holds_poke _ (l ++ [b]) b [] a H1') as [H2 S2].
  rewrite <- app_assoc in H2.
  eexists. split; [reflexivity |]. split; [exact H2 |].
  exact (stack_only_trans _ _ _ S1 S2).
Qed.

Lemma effect_OVER (s : state) (l : list Z) (a b : Z) :
  holds s (l ++ [a; b]) → (length l + 2 < 50)%nat → effect OVER s (l ++ [a; b; a]).
Proof.
  intros H Hroom fuel node w Hw. simpl.
  rewrite (holds_faulted s _ H), Hw.
  change 2 with (Z.of_nat (S (length [b]))).
  rewrite (holds_peek s l a [b] H).
  destruct (holds_push s (l ++ [a; b]) a H) as [Hp Hs];
    [rewrite length_app; simpl; lia |].
  rewrite <- app_assoc in Hp.
  unfold checked. rewrite (holds_faulted _ _ Hp). eauto.
Qed.

Lemma effect_ROT (s : state) (l : list Z) (a b c : Z) :
  holds s (l ++ [a; b; c]) → effect ROT s (l ++ [b; c; a]).
Proof.
  intros H fuel node w Hw. simpl.
  rewrite (holds_faulted s _ H), Hw.
  change 3 with (Z.of_nat (S (length [b; c]))).
  rewrite (holds_peek s l a [b; c] H), (holds_faulted s _ H).
  change 2 with (Z.of_nat (S (length [c]))).
  assert (Hb : holds s ((l ++ [a]) ++ b :: [c])) by (rewrite <- app_assoc; exact H).
  rewrite (holds_peek s (l ++ [a]) b [c] Hb).
  destruct (holds_poke s l a [b; c] b H) as [H1 S1].
  set (s1 := poke (Z.of_nat (S (length [b; c]))) b s) in *.
  change 1 with (Z.of_nat (S (length (@nil Z)))).
  assert (Hc : holds s1 ((l ++ [b; b]) ++ [c])) by (rewrite <- app_assoc; exact H1).
  rewrite (holds_peek s1 (l ++ [b; b]) c [] Hc).
  assert (H1' : holds s1 ((l ++ [b]) ++ b :: [c])) by (rewrite <- app_assoc; exact H1).
  destruct (holds_poke s1 (l ++ [b]) b [c] c H1') as [H2 S2].
  set (s2 := poke (Z.of_nat (S (length [c]))) c s1) in *.
  assert (H2' : holds s2 ((l ++ [b; c]) ++ [c])) by (rewrite <- !app_assoc in *; exact H2).
  destruct (holds_poke s2 (l ++ [b; c]) c [] a H2') as [H3 S3].
  rewrite <- app_assoc in H3.
  eexists. split; [reflexivity |]. split; [exact H3 |].
  exact (stack_only_trans _ _ _ (stack_only_trans _ _ _ S1 S2) S3).
Qed.

Lemma effect_NIP (s : state) (l : list Z) (a b : Z) :
  holds s (l ++ [a; b]) → effect NIP s (l ++ [b]).
Proof.
  intros H fuel node w Hw. simpl.
  rewrite (holds_faulted s _ H), Hw.
  assert (H' : holds s ((l ++ [a]) ++ [b])) by (rewrite <- app_assoc; exact H).
  destruct (holds_pop s (l ++ [a]) b H') as (s1 & Hpop & H1 & S1).
  rewrite Hpop, (holds_faulted _ _ H1).
  destruct (holds_discard s1 l [a] H1) as [Hd H2].
  change (Z.of_nat (length [a])) with 1 in Hd. rewrite Hd.
  rewrite (holds_faulted _ _ H2).
  pose proof (holds_length s _ H) as Hle. rewrite length_app in Hle. simpl in Hle.
  destruct (holds_push _ l b H2) as [H3 S3]; [lia |].
  eexists. split; [reflexivity |]. split; [exact H3 |].
  apply (stack_only_trans _ _ _ S1).
  refine (stack_only_trans _ _ _ _ S3). destruct s1; reflexivity.
Qed.

Lemma effect_TUCK (s : state) (l : list Z) (a b : Z) :
  holds s (l ++ [a; b]) → (length l + 2 < 50)%nat → effect TUCK s (l ++ [b; a; b]).
Proof.
  intros H Hroom fuel node w Hw. simpl.
  rewrite (holds_faulted s _ H), Hw.
  change 1 with (Z.of_nat (S (length (@nil Z)))).
  assert (H' : holds s ((l ++ [a]) ++ [b])) by (rewrite <- app_assoc; exact H).
  rewrite (holds_peek s (l ++ [a]) b [] H'), (holds_faulted s _ H).
  destruct (holds_push s (l ++ [a; b]) b H) as [H1 S1];
    [rewrite length_app; simpl; lia |].
  rewrite <- app_assoc in H1. simpl in H1.
  set (s1 := push b s) in *.
  rewrite (holds_faulted _ _ H1).
  change 3 with (Z.of_nat (S (length [b; b]))).
  rewrite (holds_peek s1 l a [b; b] H1).
  change 2 with (Z.of_nat (S (length [b]))).
  assert (H1' : holds s1 ((l ++ [a]) ++ b :: [b])) by (rewrite <- app_assoc; exact H1).
  destruct (holds_poke s1 (l ++ [a]) b [b] a H1') as [H2 S2].
  set (s2 := poke (Z.of_nat (S (length [b]))) a s1) in *.
  rewrite <- app_assoc in H2. simpl in H2.
  rewrite (holds_faulted _ _ H2).
  destruct (holds_poke s2 l a [a; b] b H2) as [H3 S3].
  eexists. split; [reflexivity |]. split; [exact H3 |].
  exact (stack_only_trans _ _ _ (stack_only_trans _ _ _ S1 S2) S3).
Qed.

(** The words that move values on the data stack, on a stack that holds
    their operands and has room for their results. *)
Theorem stack_words (s : state) (l : list Z) (a b c : Z) :
  (holds s (l ++ [a]) → (length l + 1 < 50)%nat → effect DUP s (l ++ [a; a]))
  ∧ (holds s (l ++ [a]) → effect DROP s l)
  ∧ (holds s (l ++ [a; b]) → effect SWAP s (l ++ [b; a]))
  ∧ (holds s (l ++ [a; b]) → (length l + 2 < 50)%nat → effect OVER s (l ++ [a; b; a]))
  ∧ (holds s (l ++ [a; b; c]) → effect ROT s (l ++ [b; c; a]))
  ∧ (holds s (l ++ [a; b]) → effect NIP s (l ++ [b]))
  ∧ (holds s (l ++ [a; b]) → (length l + 2 < 50)%nat → effect TUCK s (l ++ [b; a; b])).
Proof.
  split; [apply effect_DUP |]. split; [apply effect_DROP |].
  split; [apply effect_SWAP |]. split; [apply effect_OVER |].
  split; [apply effect_ROT |]. split; [apply effect_NIP |]. apply effect_TUCK.
Qed.

Lemma stack_words_witness :
  let s := state_of (interpret 2 9 ["3 4"%string]) in
  holds s [3; 4] ∧ effect SWAP s [4; 3] ∧ effect OVER s [3; 4; 3].
Proof.
  intros s.
  assert (H : holds s ([] ++ [3; 4])) by (repeat split; vm_compute; reflexivity).
  destruct (stack_words s [] 3 4 0) as (_ & _ & Hswap & Hover & _).
  split; [exact H |]. split; [exact (Hswap H) |].
  apply (Hover H). simpl. lia.
Defined.

Lemma holds_binary (f : Z → Z → Z) (s : state) (l : list Z) (a b : Z) :
  holds s (l ++ [a; b]) →
  holds (binary f s) (l ++ [f a b]) ∧ stack_only s (binary f s).
Proof.
  intros H. destruct (holds_operands s l a b H) as (Hd & Ha & Hb & H1 & S1).
  unfold binary. rewrite Hd, Ha, Hb.
  pose proof (holds_length s _ H) as Hle. rewrite length_app in Hle. simpl in Hle.
  destruct (holds_push _ l (f a b) H1) as [H2 S2]; [lia |].
  split; [exact H2 | exact (stack_only_trans _ _ _ S1 S2)].
Qed.

Lemma holds_unary (g : Z → Z) (s : state) (l : list Z) (a : Z) :
  holds s (l ++ [a]) →
  ∃ s1, pop s = (a, s1)
        ∧ holds (push (g a) s1) (l ++ [g a]) ∧ stack_only s (push (g a) s1).
Proof.
  intros H. destruct (holds_pop s l a H) as (s1 & Hpop & H1 & S1).
  pose proof (holds_length s _ H) as Hle. rewrite length_app in Hle. simpl in Hle.
  destruct (holds_push _ l (g a) H1) as [H2 S2]; [lia |].
  exists s1. split; [exact Hpop |].
  split; [exact H2 | exact (stack_only_trans _ _ _ S1 S2)].
Qed.

Lemma effect_binary (t : wordType) (f : Z → Z → Z) (s : state) (l : list Z) (a b : Z) :
  (∀ fuel w node, type w = t →
     execWordStage2 (S fuel) w node s
     = if faulted s then Ok (NULL, s) else checked node (binary f s)) →
  holds s (l ++ [a; b]) → effect t s (l ++ [f a b]).
Proof.
  intros Hcode H fuel node w Hw. rewrite (Hcode fuel w node Hw).
  rewrite (holds_faulted s _ H).
  destruct (holds_binary f s l a b H) as [H1 S1].
  unfold checked. rewrite (holds_faulted _ _ H1). eauto.
Qed.

Lemma effect_unary (t : wordType) (g : Z → Z) (s : state) (l : list Z) (a : Z) :
  (∀ fuel w node, type w = t →
     execWordStage2 (S fuel) w node s
     = if faulted s then Ok (NULL, s)
       else let '(x, s1) := pop s in checked node (push (g x) s1)) →
  holds s (l ++ [a]) → effect t s (l ++ [g a]).
Proof.
  intros Hcode H fuel node w Hw. rewrite (Hcode fuel w node Hw).
  rewrite (holds_faulted s _ H).
  destruct (holds_unary g s l a H) as (s1 & Hpop & H1 & S1).
  rewrite Hpop. unfold checked. rewrite (holds_faulted _ _ H1). eauto.
Qed.

Lemma effect_pop2 (t : wordType) (f : Z → Z → Z) (s : state) (l : list Z) (a b : Z) :
  (∀ fuel w node, type w = t →
     execWordStage2 (S fuel) w node s
     = if faulted s then Ok (NULL, s)
       else let '(x, s1) := pop s in let '(y, s2) := pop s1 in
            checked node (push (f x y) s2)) →
  holds s (l ++ [a; b]) → effect t s (l ++ [f b a]).
Proof.
  intros Hcode H fuel node w Hw. rewrite (Hcode fuel w node Hw).
  rewrite (holds_faulted s _ H).
  assert (H' : holds s ((l ++ [a]) ++ [b])) by (rewrite <- app_assoc; exact H).
  destruct (holds_pop s (l ++ [a]) b H') as (s1 & Hpop & H1 & S1).
  rewrite Hpop.
  destruct (holds_unary (f b) s1 l a H1) as (s2 & Hpop2 & H2 & S2).
  rewrite Hpop2. unfold checked. rewrite (holds_faulted _ _ H2).
  eexists. split; [reflexivity |]. split; [exact H2 |].
  exact (stack_only_trans _ _ _ S1 S2).
Qed.

Lemma effect_select (t : wordType) (f : Z → Z → Z) (s : state) (l : list Z) (a b : Z) :
  (∀ fuel w node, type w = t →
     execWordStage2 (S fuel) w node s
     = if faulted s then Ok (NULL, s)
       else let s1 := discard 2 s in
            if faulted s1 then Ok (NULL, s1)
            else let '(x, s2) := peek 0 s1 in let '(y, s3) := peek (-1) s2 in
                 Ok (node, push (f x y) s3)) →
  holds s (l ++ [a; b]) → effect t s (l ++ [f a b]).
Proof.
  intros Hcode H fuel node w Hw. rewrite (Hcode fuel w node Hw).
  rewrite (holds_faulted s _ H).
  destruct (holds_operands s l a b H) as (Hd & Ha & Hb & H1 & S1).
  cbv zeta. rewrite Hd, (holds_faulted _ _ H1), Ha, Hb.
  pose proof (holds_length s _ H) as Hle. rewrite length_app in Hle. simpl in Hle.
  destruct (holds_push _ l (f a b) H1) as [H2 S2]; [lia |].
  eexists. split; [reflexivity |]. split; [exact H2 |].
  exact (stack_only_trans _ _ _ S1 S2).
Qed.

(** The arithmetic and comparison words, on a stack that holds their
    operands: [a] below [b] for the words of two operands. *)
Theorem arithmetic_words (s : state) (l : list Z) (a b : Z) :
  (holds s (l ++ [a; b]) →
     effect PLUS s (l ++ [wrap (a + b)])
     ∧ effect MINUS s (l ++ [wrap (a - b)])
     ∧ effect MULTIPLY s (l ++ [wrap (a * b)])
     ∧ effect EQUAL_TO s (l ++ [if a =? b then -1 else 0])
     ∧ effect NOT_EQUAL_TO s (l ++ [if a =? b then 0 else -1])
     ∧ effect LESS_THAN s (l ++ [if a <? b then -1 else 0])
     ∧ effect MORE_THAN s (l ++ [if b <? a then -1 else 0])
     ∧ effect MAX s (l ++ [Z.max a b])
     ∧ effect MIN s (l ++ [Z.min a b]))
  ∧ (holds s (l ++ [a]) →
     effect NEGATE s (l ++ [wrap (- a)])
     ∧ effect LESS_THAN_ZERO s (l ++ [if a <? 0 then -1 else 0])
     ∧ effect EQUAL_TO_ZERO s (l ++ [if a =? 0 then -1 else 0])
     ∧ effect MORE_THAN_ZERO s (l ++ [if 0 <? a then -1 else 0])).
Proof.
  split; intros H.
  - split.
    { replace (a + b) with (b + a) by lia.
      apply (effect_pop2 PLUS (fun x y => wrap (x + y))); [by_code | exact H]. }
    split.
    { apply (effect_binary MINUS (fun x y => wrap (x - y))); [by_code | exact H]. }
    split.
    { replace (a * b) with (b * a) by lia.
      apply (effect_pop2 MULTIPLY (fun x y => wrap (x * y))); [by_code | exact H]. }
    split.
    { apply (effect_binary EQUAL_TO (fun x y => flag (x =? y))); [by_code | exact H]. }
    split.
    { replace (if a =? b then 0 else -1) with (flag (negb (a =? b)))
        by (destruct (a =? b); reflexivity).
      apply (effect_binary NOT_EQUAL_TO (fun x y => flag (negb (x =? y))));
        [by_code | exact H]. }
    split.
    { apply (effect_binary LESS_THAN (fun x y => flag (x <? y))); [by_code | exact H]. }
    split.
    { apply (effect_binary MORE_THAN (fun x y => flag (y <? x))); [by_code | exact H]. }
    split.
    { apply (effect_select MAX Z.max); [by_code | exact H]. }
    apply (effect_select MIN Z.min); [by_code | exact H].
  - split.
    { apply (effect_unary NEGATE (fun x => wrap (- x))); [by_code | exact H]. }
    split.
    { apply (effect_unary LESS_THAN_ZERO (fun x => flag (x <? 0))); [by_code | exact H]. }
    split.
    { apply (effect_unary EQUAL_TO_ZERO (fun x => flag (x =? 0))); [by_code | exact H]. }
    apply (effect_unary MORE_THAN_ZERO (fun x => flag (0 <? x))); [by_code | exact H].
Qed.

Lemma arithmetic_words_witness :
  let s := state_of (interpret 2 9 ["32767 1"%string]) in
  holds s [32767; 1] ∧ effect PLUS s [-32768] ∧ effect LESS_THAN s [0].
Proof.
  intros s.
  assert (H : holds s ([] ++ [32767; 1])) by (repeat split; vm_compute; reflexivity).
  destruct (proj1 (arithmetic_words s [] 32767 1) H) as (Hplus & _ & _ & _ & _ & Hlt & _).
  split; [exact H |]. split; [exact Hplus | exact Hlt].
Defined.

Lemma holds_split (s : state) (l : list Z) :
  holds s l → ∃ rest, stack s = l ++ rest ∧ (length l + length rest = 50)%nat.
Proof.
  intros H. pose proof (holds_length s l H) as Hle.
  destruct H as (_ & Hlen & Ht & Hi). unfold items in Hi.
  change (Z.to_nat STACK_SIZE) with 50%nat in Hlen.
  exists (drop (Z.to_nat (top s)) (stack s)).
  rewrite <- Hi at 1. rewrite take_drop. split; [reflexivity |].
  rewrite length_drop. lia.
Qed.

Lemma last_cons_default (r : list Z) (a d d' : Z) :
  List.last (a :: r) d = List.last (a :: r) d'.
Proof.
  revert a. induction r as [| b r IH]; intros a; [reflexivity |].
  change (List.last (b :: r) d = List.last (b :: r) d'). apply IH.
Qed.

(** The loop of [roll] moves the values above the one taken one place down. *)
Lemma roll_shift_spec (r l : list Z) (y : Z) (rest : list Z) :
  roll_shift (length r) (Z.of_nat (length l) + 1) (l ++ y :: r ++ rest)
  = l ++ r ++ List.last r y :: rest.
Proof.
  revert l y. induction r as [| z r IH]; intros l y; [reflexivity |].
  cbn [length roll_shift].
  replace (Z.of_nat (length l) + 1 - 1) with (Z.of_nat (length l)) by lia.
  assert (Hget : arr_get 0 (l ++ y :: (z :: r) ++ rest) (Z.of_nat (length l) + 1) = z).
  { unfold arr_get. apply nth_lookup_Some.
    replace (Z.to_nat (Z.of_nat (length l) + 1)) with (length l + 1)%nat by lia.
    rewrite lookup_app_r by lia.
    replace (length l + 1 - length l)%nat with 1%nat by lia. reflexivity. }
  rewrite Hget. unfold arr_set at 1. rewrite Nat2Z.id.
  rewrite (insert_app_r_alt l _ (length l)) by lia.
  replace (length l - length l)%nat with 0%nat by lia.
  cbn [insert list_insert app].
  specialize (IH (l ++ [z]) z).
  rewrite length_app in IH. simpl length in IH.
  replace (Z.of_nat (length l + 1) + 1) with (Z.of_nat (length l) + 1 + 1) in IH by lia.
  rewrite <- app_assoc in IH. simpl in IH. simpl.
  rewrite IH. rewrite <- app_assoc. simpl.
  destruct r as [| z0 r]; [reflexivity |].
  rewrite (last_cons_default r z0 z y). reflexivity.
Qed.

Lemma effect_PICK (s : state) (l : list Z) (x : Z) (r : list Z) :
  holds s ((l ++ x :: r) ++ [Z.of_nat (length r)]) →
  effect PICK s ((l ++ x :: r) ++ [x]).
Proof.
  intros H fuel node w Hw. simpl.
  rewrite (holds_faulted s _ H), Hw.
  destruct (holds_pop s _ _ H) as (s1 & Hpop & H1 & S1).
  unfold pick. rewrite Hpop.
  destruct (Z.ltb_spec (Z.of_nat (length r)) 0); [lia |].
  rewrite (holds_faulted _ _ H1).
  replace (Z.of_nat (length r) + 1) with (Z.of_nat (S (length r))) by lia.
  rewrite (holds_peek s1 l x r H1), (holds_faulted _ _ H1).
  pose proof (holds_length s _ H) as Hle. rewrite length_app in Hle. simpl in Hle.
  destruct (holds_push s1 _ x H1) as [H2 S2]; [lia |].
  eexists. split; [reflexivity |]. split; [exact H2 |].
  exact (stack_only_trans _ _ _ S1 S2).
Qed.

Lemma effect_ROLL (s : state) (l : list Z) (x : Z) (r : list Z) :
  holds s ((l ++ x :: r) ++ [Z.of_nat (length r)]) →
  effect ROLL s ((l ++ r) ++ [x]).
Proof.
  intros H fuel node w Hw. simpl.
  rewrite (holds_faulted s _ H), Hw.
  pose proof H as (He & Hlen & Ht & Hi).
  pose proof (holds_length s _ H) as Hle.
  rewrite !length_app in Ht, Hle. simpl in Ht, Hle.
  destruct (holds_split s _ H) as (rest & Hst & Hrest).
  set (n := Z.of_nat (length r)) in *.
  assert (Hpop : pop s = (n, set_top (top s - 1) s)).
  { rewrite (pop_value s He) by lia.
    replace (top s - 1) with (Z.of_nat (length (l ++ x :: r)))
      by (rewrite length_app; simpl; lia).
    rewrite (holds_get s (l ++ x :: r) n [] H). reflexivity. }
  set (s1 := set_top (top s - 1) s) in *.
  assert (H1 : holds s1 (l ++ x :: r)).
  { unfold s1. replace (top s - 1) with (Z.of_nat (length (l ++ x :: r)))
      by (rewrite length_app; simpl; lia).
    apply (holds_shrink s _ [n] H). }
  unfold roll. rewrite Hpop.
  destruct (Z.ltb_spec n 0); [lia |].
  rewrite (holds_faulted _ _ H1).
  replace (n + 1) with (Z.of_nat (S (length r))) by lia.
  rewrite (holds_peek s1 l x r H1), (holds_faulted _ _ H1).
  eexists. split; [reflexivity |].
  change (stack s1) with (stack s). change (top s1) with (top s - 1). simpl.
  replace (Z.to_nat (top s - 1 - (top s - 1 - n))) with (length r) by lia.
  replace (top s - 1 - n) with (Z.of_nat (length l) + 1) by lia.
  rewrite Hst. rewrite <- !app_assoc. simpl.
  replace (r ++ n :: rest) with (r ++ [n] ++ rest) by reflexivity.
  replace (r ++ [n] ++ rest) with (r ++ (n :: rest)) by reflexivity.
  rewrite (roll_shift_spec r l x (n :: rest)).
  assert (Hset : arr_set (l ++ r ++ List.last r x :: n :: rest) (top s - 1 - 1) x
                 = l ++ r ++ x :: n :: rest).
  { unfold arr_set.
    replace (Z.to_nat (top s - 1 - 1)) with (length (l ++ r))
      by (rewrite length_app; lia).
    rewrite (app_assoc l r), (insert_app_r_alt (l ++ r) _ (length (l ++ r))) by lia.
    replace (length (l ++ r) - length (l ++ r))%nat with 0%nat by lia.
    rewrite <- app_assoc. reflexivity. }
  rewrite Hset.
  split.
  - unfold holds, items. simpl.
    repeat split; try exact He.
    + change (Z.to_nat STACK_SIZE) with 50%nat.
      rewrite !length_app in Hrest |- *. simpl in Hrest |- *. lia.
    + rewrite !length_app. simpl. lia.
    + replace (Z.to_nat (top s - 1)) with (length ((l ++ r) ++ [x]))
        by (rewrite !length_app; simpl; lia).
      replace (l ++ r ++ x :: n :: rest) with (((l ++ r) ++ [x]) ++ n :: rest)
        by (rewrite <- !app_assoc; reflexivity).
      rewrite take_app_length, <- app_assoc. reflexivity.
  - destruct s; reflexivity.
Qed.

(** [ABS] takes two values. The macro [abs] of the board evaluates its
    argument, [pop()], once for the test and once for the value: on a stack
    that holds [a] below [b], both are popped and [a] is pushed when [b] is
    positive, [-a] otherwise. On a stack that holds one value the second pop
    raises [STACK_UNDERFLOW], and the value is lost. *)
Theorem ABS_takes_two_values (s : state) (l : list Z) (a b : Z) :
  (holds s (l ++ [a; b]) →
     effect ABS s (l ++ [if 0 <? b then a else wrap (- a)]))
  ∧ (holds s [a] →
     ∀ fuel node w, type w = ABS →
       execWordStage2 (S fuel) w node s
       = Ok (NULL, set_errorCode STACK_UNDERFLOW (set_top 0 s))).
Proof.
  split; intros H.
  - apply (effect_pop2 ABS (fun x y => if 0 <? x then y else wrap (- y)));
      [by_code | exact H].
  - intros fuel node w Hw. simpl. rewrite Hw, (holds_faulted s _ H).
    destruct (holds_pop s [] a H) as (s1 & Hpop & H1 & S1).
    rewrite Hpop.
    destruct H as (He & _ & Ht & _). simpl in Ht.
    unfold pop in Hpop. rewrite (faulted_false s He), Ht in Hpop. simpl in Hpop.
    injection Hpop as _ <-.
    unfold pop, push, checked, faulted. simpl. rewrite He. simpl. reflexivity.
Qed.

Lemma ABS_takes_two_values_witness :
  let s := state_of (interpret 2 9 ["-5 3"%string]) in
  holds s [-5; 3] ∧ effect ABS s [-5].
Proof.
  intros s.
  assert (H : holds s ([] ++ [-5; 3])) by (repeat split; vm_compute; reflexivity).
  clearbody s.
  split; [exact H |]. exact (proj1 (ABS_takes_two_values s [] (-5) 3) H).
Defined.

(** [ROLL] and [PICK] with the index [n] on top: [n PICK] copies the value
    that has [n] values above it, [n ROLL] moves it to the top; an index that
    reaches below the stack gives [STACK_UNDERFLOW], the index being
    consumed. *)
Theorem ROLL_PICK_words (s : state) (l : list Z) (x : Z) (r : list Z) :
  (holds s ((l ++ x :: r) ++ [Z.of_nat (length r)]) →
     effect PICK s ((l ++ x :: r) ++ [x]) ∧ effect ROLL s ((l ++ r) ++ [x]))
  ∧ (∀ n fuel node w,
       holds s (l ++ [n]) → Z.of_nat (length l) <= n →
       type w = ROLL ∨ type w = PICK →
       execWordStage2 (S fuel) w node s
       = Ok (node, set_errorCode STACK_UNDERFLOW (set_top (top s - 1) s))).
Proof.
  split.
  - intros H. split; [apply effect_PICK | apply effect_ROLL]; exact H.
  - intros n fuel node w H Hn Hw.
    pose proof H as (He & Hlen & Ht & Hi).
    rewrite length_app in Ht. simpl in Ht.
    assert (Hpop : pop s = (n, set_top (top s - 1) s)).
    { rewrite (pop_value s He) by lia.
      replace (top s - 1) with (Z.of_nat (length l)) by lia.
      rewrite (holds_get s l n [] H). reflexivity. }
    set (s1 := set_top (top s - 1) s) in *.
    assert (Hpeek : peek (n + 1) s1 = (1, set_errorCode STACK_UNDERFLOW s1)).
    { unfold peek. rewrite (faulted_false s1 He).
      destruct (Z.ltb_spec (top s1 - (n + 1)) 0); [reflexivity | simpl in *; lia]. }
    simpl. rewrite (holds_faulted s _ H).
    destruct Hw as [Hw | Hw]; rewrite Hw; unfold roll, pick; rewrite Hpop;
      (destruct (Z.ltb_spec n 0); [lia |]);
      rewrite (faulted_false s1 He), Hpeek; reflexivity.
Qed.

Lemma ROLL_PICK_words_witness :
  let s := state_of (interpret 4 9 ["10 20 30 1"%string]) in
  holds s [10; 20; 30; 1]
  ∧ effect PICK s [10; 20; 30; 20] ∧ effect ROLL s [10; 30; 20].
Proof.
  intros s.
  assert (H : holds s (([10] ++ 20 :: [30]) ++ [Z.of_nat (length [30])]))
    by (repeat split; vm_compute; reflexivity).
  split; [exact H |].
  exact (proj1 (ROLL_PICK_words s [10] 20 [30]) H).
Defined.

(** A word run on a stack that holds fewer values than its case of
    [execWordStage2] takes raises [STACK_UNDERFLOW]; a word that pushes one
    value more than it takes, run on a full stack, raises [STACK_OVERFLOW]
    and changes nothing else. *)
Theorem stack_limits (fuel : nat) (w : word_t) (node : ptr) (s : state) :
  errorCode s = NO_ERROR →
  (0 <= top s < operands (type w) →
     ∃ r s', execWordStage2 (S fuel) w node s = Ok (r, s')
             ∧ errorCode s' = STACK_UNDERFLOW)
  ∧ (top s = STACK_SIZE → grows (type w) = true → 1 <= idxTop s →
     execWordStage2 (S fuel) w node s = Ok (NULL, set_errorCode STACK_OVERFLOW s)).
Proof.
  intros He. pose proof (faulted_false s He) as Hf. split.
  - intros Ht. simpl. rewrite Hf.
    destruct (type w); simpl in Ht; try lia;
      unfold checked, binary, roll, pick, slashMod, mod', divide, push, discard, peek, pop,
        poke, idxPush, idxPeek, idxIncr, faulted, STACK_SIZE in *;
      simpl; rewrite ?He; simpl;
      repeat (case_match; simplify_eq; simpl in * );
      bools; try lia; try congruence; eauto.
  - intros Ht Hg Hi. simpl. rewrite Hf. unfold STACK_SIZE in *.
    destruct (type w); try discriminate Hg;
      unfold checked, push, peek, idxPeek, poke, faulted, STACK_SIZE in *;
      simpl; rewrite ?He; simpl;
      repeat (case_match; simplify_eq; simpl in * );
      bools; try lia; try congruence; eauto.
Qed.

Lemma stack_limits_witness :
  errorCode initial = NO_ERROR
  ∧ ∃ r s', execWordStage2 1 (mkWord DUP (intValue 0)) NULL initial = Ok (r, s')
            ∧ errorCode s' = STACK_UNDERFLOW.
Proof.
  split; [reflexivity |].
  apply (proj1 (stack_limits 0 (mkWord DUP (intValue 0)) NULL initial eq_refl)).
  vm_compute. split; [discriminate | reflexivity].
Defined.

(** * What each stage leaves alone, and the invariant of the interpreter *)

(** ** The invariants of the interpreter *)

Lemma kept_refl (s : state) : kept_by_stage2 s s.
Proof. unfold kept_by_stage2. auto 12. Qed.

Lemma kept_trans (s1 s2 s3 : state) :
  kept_by_stage2 s1 s2 → kept_by_stage2 s2 s3 → kept_by_stage2 s1 s3.
Proof.
  unfold kept_by_stage2. intros H1 H2.
  destruct H1 as (A1 & A2 & A3 & A4 & A5 & A6 & A7 & A8 & A9 & A10).
  destruct H2 as (B1 & B2 & B3 & B4 & B5 & B6 & B7 & B8 & B9 & B10).
  repeat split; congruence.
Qed.

Lemma kept_print_elements (l : list Z) (s : state) :
  kept_by_stage2 s (print_elements l s).
Proof.
  revert s. induction l as [| v l IH]; intros s; simpl; [apply kept_refl |].
  eapply kept_trans; [| apply IH]. unfold kept_by_stage2. simpl. auto 12.
Qed.

Lemma kept_roll (s : state) : kept_by_stage2 s (roll s).
Proof.
  unfold roll, pop, peek, kept_by_stage2.
  repeat (case_match; simplify_eq; simpl); auto 12.
Qed.

Lemma kept_pick (s : state) : kept_by_stage2 s (pick s).
Proof.
  unfold pick, pop, peek, push, kept_by_stage2.
  repeat (case_match; simplify_eq; simpl); auto 12.
Qed.

Lemma kept_part (s s' : state) :
  kept_by_stage2 s s' ↔ compiler_part s' = compiler_part s.
Proof.
  unfold kept_by_stage2, compiler_part. split.
  - intros (-> & -> & -> & -> & -> & -> & -> & -> & -> & ->). reflexivity.
  - intros H. injection H as -> -> -> -> -> -> -> -> -> ->. auto 12.
Qed.

Lemma kept_step (w : word_t) (s : state) :
  simple (type w) = true → kept_by_stage2 s (step w s).
Proof.
  intros Hs. unfold step. simpl.
  destruct (faulted s) eqn:Hf; [apply kept_refl |].
  destruct (type w); try discriminate Hs; try apply kept_refl;
    try apply kept_roll; try apply kept_pick;
    try (eapply kept_trans; [| apply kept_print_elements];
         unfold kept_by_stage2; simpl; auto 12);
    apply kept_part;
    unfold checked, binary, slashMod, mod', divide, push, discard, peek, pop, poke,
      idxPush, idxPeek, idxIncr;
    repeat (case_match; simplify_eq; simpl; try reflexivity);
    reflexivity.
Qed.

Lemma length_roll_shift (n : nat) (idx : Z) (st : list Z) :
  length (roll_shift n idx st) = length st.
Proof.
  revert idx st. induction n as [| n IH]; intros idx st; simpl; [reflexivity |].
  rewrite IH. unfold arr_set. apply length_insert.
Qed.

Lemma bounds_print_elements (l : list Z) (s : state) :
  in_bounds s → in_bounds (print_elements l s).
Proof.
  revert s. induction l as [| v l IH]; intros s H; simpl; [exact H |].
  apply IH. exact H.
Qed.

Lemma bounds_roll (s : state) : in_bounds s → in_bounds (roll s).
Proof.
  intros H. unfold roll, pop, peek.
  repeat (case_match; simplify_eq; simpl); bounds_by length_roll_shift.
Qed.

Lemma bounds_pick (s : state) : in_bounds s → in_bounds (pick s).
Proof.
  intros H. unfold pick, pop, peek, push.
  repeat (case_match; simplify_eq; simpl); bounds_by length_roll_shift.
Qed.

Lemma bounds_step (w : word_t) (s : state) :
  simple (type w) = true → in_bounds s → in_bounds (step w s).
Proof.
  intros Hs H. unfold step. simpl.
  destruct (faulted s) eqn:Hf; [exact H |].
  destruct (type w); try discriminate Hs; try exact H;
    try (apply bounds_roll; exact H); try (apply bounds_pick; exact H);
    try (apply bounds_print_elements; exact H);
    unfold checked, binary, slashMod, mod', divide, push, discard, peek, pop, poke,
      idxPush, idxPeek, idxIncr;
    repeat (case_match; simplify_eq; simpl); bounds_by length_roll_shift.
Qed.

Lemma keeps2_refl (s : state) : keeps2 s s.
Proof. split; [auto | apply kept_refl]. Qed.

Lemma keeps2_trans (s1 s2 s3 : state) : keeps2 s1 s2 → keeps2 s2 s3 → keeps2 s1 s3.
Proof.
  intros [B1 K1] [B2 K2]. split; [auto | exact (kept_trans _ _ _ K1 K2)].
Qed.

Lemma keeps2_step (w : word_t) (s : state) :
  simple (type w) = true → keeps2 s (step w s).
Proof. intros Hs. split; [apply bounds_step | apply kept_step]; exact Hs. Qed.

Lemma keeps2_pop (s : state) : keeps2 s (pop s).2.
Proof.
  unfold pop. split.
  - intros H. repeat (case_match; simplify_eq; simpl); bounds_by length_roll_shift.
  - unfold kept_by_stage2. repeat (case_match; simplify_eq; simpl); auto 12.
Qed.

Lemma keeps2_LOOP (s : state) :
  keeps2 s (idxIncr s)
  ∧ (∀ off s1, keeps2 s1 (idxPeek off s1).2).
Proof.
  split; [| intros off s1]; unfold idxIncr, idxPeek; (split;
    [intros H; repeat (case_match; simplify_eq; simpl); bounds_by length_roll_shift
    | unfold kept_by_stage2; repeat (case_match; simplify_eq; simpl); auto 12]).
Qed.

Lemma stage2_keeps (fuel : nat) :
  (∀ w node s r s', execWordStage2 fuel w node s = Ok (r, s') → keeps2 s s')
  ∧ (∀ node s r s', run_word fuel node s = Ok (r, s') → keeps2 s s')
  ∧ (∀ node s r s', run_if fuel node s = Ok (r, s') → keeps2 s s').
Proof.
  induction fuel as [| fuel (IHe & IHw & IHi)];
    [repeat split; intros; discriminate |].
  split; [| split].
  - intros w node s r s' H.
    destruct (simple (type w)) eqn:Hs.
    { destruct (exec_simple fuel w node s Hs) as (r0 & Hex & _).
      rewrite Hex in H. injection H as <- <-. apply keeps2_step. exact Hs. }
    simpl in H. destruct (faulted s) eqn:Hf.
    { injection H as <- <-. apply keeps2_refl. }
    destruct (type w); try discriminate Hs.
    + (* DEFINED_WORD *) apply IHw in H. exact H.
    + (* IF *)
      destruct node as [p |]; [| discriminate].
      destruct (heap s !! p) as [nd |]; [| discriminate].
      pose proof (keeps2_pop s) as Hpop.
      destruct (pop s) as [f s1]. simpl in Hpop.
      destruct (faulted s1).
      * injection H as <- <-. exact Hpop.
      * apply IHi in H. exact (keeps2_trans _ _ _ Hpop H).
    + (* LOOP *)
      destruct (keeps2_LOOP s) as [Hinc Hpk].
      destruct (faulted (idxIncr s)); [injection H as <- <-; exact Hinc |].
      pose proof (Hpk 1 (idxIncr s)) as H1.
      destruct (idxPeek 1 (idxIncr s)) as [val s1]. simpl in H1.
      destruct (faulted s1);
        [injection H as <- <-; exact (keeps2_trans _ _ _ Hinc H1) |].
      pose proof (Hpk 2 s1) as H2.
      destruct (idxPeek 2 s1) as [limit s2]. simpl in H2.
      pose proof (keeps2_trans _ _ _ (keeps2_trans _ _ _ Hinc H1) H2) as H3.
      destruct (faulted s2); [injection H as <- <-; exact H3 |].
      destruct (val =? limit); [injection H as <- <-; exact H3 |].
      destruct node as [p |]; [| discriminate].
      destruct (heap s2 !! p); [| discriminate].
      injection H as <- <-. exact H3.
  - intros node s r s' H. simpl in H.
    destruct node as [p |]; [| injection H as <- <-; apply keeps2_refl].
    destruct (heap s !! p) as [nd |]; [| discriminate].
    destruct (execWordStage2 fuel (_word nd) (Some p) s) as [[n1 s1] | | | |] eqn:Hex;
      simpl in H; try discriminate.
    apply IHe in Hex.
    destruct (faulted s1); [injection H as <- <-; exact Hex |].
    destruct n1 as [q |].
    + destruct (heap s1 !! q) as [nq |]; [| discriminate].
      apply IHw in H. exact (keeps2_trans _ _ _ Hex H).
    + apply IHw in H. exact (keeps2_trans _ _ _ Hex H).
  - intros node s r s' H. simpl in H.
    destruct node as [p |]; [| discriminate].
    destruct (heap s !! p) as [nd |]; [| discriminate].
    destruct (bool_decide (type (_word nd) ≠ ELSE) && bool_decide (type (_word nd) ≠ THEN)).
    + destruct (execWordStage2 fuel (_word nd) (Some p) s) as [[n1 s1] | | | |] eqn:Hex;
        simpl in H; try discriminate.
      apply IHe in Hex.
      destruct (faulted s1); [injection H as <- <-; exact Hex |].
      destruct n1 as [q |].
      * destruct (heap s1 !! q) as [nq |]; [| discriminate].
        apply IHi in H. exact (keeps2_trans _ _ _ Hex H).
      * injection H as <- <-. refine (keeps2_trans _ _ _ Hex _).
        split; [intros B; exact B | unfold kept_by_stage2; simpl; auto 12].
    + destruct (bool_decide (type (_word nd) = ELSE)); injection H as <- <-;
        apply keeps2_refl.
Qed.

Lemma kept1_refl (s : state) : kept_by_stage1 s s.
Proof. unfold kept_by_stage1. auto 10. Qed.

Lemma kept1_trans (s1 s2 s3 : state) :
  kept_by_stage1 s1 s2 → kept_by_stage1 s2 s3 → kept_by_stage1 s1 s3.
Proof.
  unfold kept_by_stage1.
  intros (A1 & A2 & A3 & A4 & A5 & A6 & A7 & A8) (B1 & B2 & B3 & B4 & B5 & B6 & B7 & B8).
  repeat split; congruence.
Qed.

Lemma quiet_refl (s : state) : quiet s s.
Proof.
  split; [auto |]. split; [reflexivity |]. split; [reflexivity |].
  split; [intros k; reflexivity |]. split; [reflexivity | apply kept1_refl].
Qed.

Lemma quiet_trans (s1 s2 s3 : state) : quiet s1 s2 → quiet s2 s3 → quiet s1 s3.
Proof.
  intros (A1 & A2 & A3 & A4 & A6 & A5) (B1 & B2 & B3 & B4 & B6 & B5).
  split; [auto |]. split; [congruence |]. split; [congruence |].
  split; [intros k; rewrite B4; apply A4 |].
  split; [congruence | exact (kept1_trans _ _ _ A5 B5)].
Qed.

Lemma keeps1_refl (s : state) : keeps1 s s.
Proof. split; [auto | apply kept1_refl]. Qed.

Lemma keeps1_trans (s1 s2 s3 : state) : keeps1 s1 s2 → keeps1 s2 s3 → keeps1 s1 s3.
Proof. intros [A1 A2] [B1 B2]. split; [auto | exact (kept1_trans _ _ _ A2 B2)]. Qed.

Lemma quiet_keeps1 (s s' : state) : quiet s s' → keeps1 s s'.
Proof.
  intros (A1 & A2 & A3 & A4 & _ & A5). split; [| exact A5].
  intros (B & N & A). split; [auto |]. split.
  - unfold names. rewrite A2. exact N.
  - intros k Hk. apply A4. apply A. rewrite <- A3. exact Hk.
Qed.

Lemma quiet_expectWord (s : state) : quiet s (expectWord s).2.
Proof. unfold expectWord. repeat (case_match; simplify_eq; simpl); quiet_fields_by length_roll_shift. Qed.

Lemma quiet_parseWord (idx : Z) (w : word_t) (s : state) : quiet s (parseWord idx w s).2.
Proof. unfold parseWord. repeat (case_match; simplify_eq; simpl); quiet_fields_by length_roll_shift. Qed.

Lemma quiet_alter (f : wordNode → wordNode) (p : positive) (s : state) :
  quiet s (set_heap (alter f p (heap s)) s).
Proof.
  unfold quiet, kept_by_stage1. simpl.
  split; [auto |]. split; [reflexivity |]. split; [reflexivity |].
  split; [intros k; apply lookup_alter_None | auto 10].
Qed.

Lemma quiet_store_word (p : positive) (w : word_t) (s : state) : quiet s (store_word p w s).
Proof. apply quiet_alter. Qed.

Lemma quiet_store_wa (p : positive) (v : workingArea) (s : state) : quiet s (store_wa p v s).
Proof. apply quiet_alter. Qed.

Lemma quiet_store_next (p : positive) (n : ptr) (s : state) : quiet s (store_next p n s).
Proof. apply quiet_alter. Qed.

Lemma quiet_set_errorCode (e : errorTypes) (s : state) : quiet s (set_errorCode e s).
Proof. quiet_fields_by length_roll_shift. Qed.

Lemma quiet_set_b_idx (i : Z) (s : state) : quiet s (set_b_idx i s).
Proof. quiet_fields_by length_roll_shift. Qed.

Lemma keeps1_set_inWordDefinition (b : bool) (s : state) :
  keeps1 s (set_inWordDefinition b s).
Proof. split; [intros H; exact H | unfold kept_by_stage1; simpl; auto 10]. Qed.

Lemma quiet_patch (start : ptr) (p : positive) (w : word_t) (s s' : state) :
  match type w with
  | LOOP => patch_LOOP start p s
  | THEN => patch_THEN start p s
  | _ => Ok s
  end = Ok s' →
  quiet s s'.
Proof.
  intros H. destruct (type w); try (injection H as <-; apply quiet_refl).
  - unfold patch_THEN in H.
    destruct (lastUndefinedIfElse (heap s) (patch_fuel s) start (Some p) NULL NULL)
      as [[[i |] [e |]] | | | |]; simpl in H; try discriminate.
    1: destruct (heap s !! e) as [nd |]; simpl in H; [| discriminate].
    all: assert (Hs : s' = _) by (symmetry; injection H; intros E; exact E);
      subst s'.
    + eapply quiet_trans; [| apply quiet_store_wa].
      eapply quiet_trans; [| apply quiet_store_wa]. apply quiet_store_wa.
    + eapply quiet_trans; [| apply quiet_store_wa]. apply quiet_store_wa.
    + apply quiet_set_errorCode.
    + apply quiet_set_errorCode.
  - unfold patch_LOOP in H.
    destruct (lastUndefinedDo (heap s) (patch_fuel s) start (Some p) NULL)
      as [[d |] | | | |]; simpl in H; try discriminate;
      assert (Hs : s' = _) by (symmetry; injection H; intros E; exact E);
      subst s'.
    + eapply quiet_trans; [| apply quiet_store_wa]. apply quiet_store_wa.
    + apply quiet_set_errorCode.
Qed.

(** Stage 1 on a word other than the colon. *)
Lemma quiet_stage1 (fuel : nat) (w w' : word_t) (idx idx' : Z) (s s' : state) :
  type w ≠ COLON ∨ inWordDefinition s = true →
  execWordStage1 fuel w idx s = Ok (w', idx', s') →
  quiet s s'.
Proof.
  intros Hc H. destruct fuel as [| fuel]; [discriminate |]. simpl in H.
  destruct (faulted s); [injection H as <- <- <-; apply quiet_refl |].
  destruct (type w) eqn:Ht;
    try (injection H as <- <- <-; apply quiet_refl).
  - unfold stage1_PRINT_S, fault, addString in H.
    repeat (case_match; simplify_eq; simpl); quiet_fields_by length_roll_shift.
  - destruct Hc as [Hc | Hc]; [congruence |]. rewrite Hc in H.
    unfold fault in H. simplify_eq. apply quiet_set_errorCode.
  - unfold stage1_open, fault, defPush in H.
    repeat (case_match; simplify_eq; simpl); quiet_fields_by length_roll_shift.
  - unfold stage1_ELSE_THEN, fault, defPeek, defDiscard in H.
    repeat (case_match; simplify_eq; simpl); quiet_fields_by length_roll_shift.
  - unfold stage1_ELSE_THEN, fault, defPeek, defDiscard in H.
    repeat (case_match; simplify_eq; simpl); quiet_fields_by length_roll_shift.
  - unfold stage1_open, fault, defPush in H.
    repeat (case_match; simplify_eq; simpl); quiet_fields_by length_roll_shift.
  - unfold stage1_LOOP, fault, defPeek, defDiscard in H.
    repeat (case_match; simplify_eq; simpl); quiet_fields_by length_roll_shift.
  - unfold stage1_I, fault in H.
    repeat (case_match; simplify_eq; simpl); quiet_fields_by length_roll_shift.
Qed.

Lemma keeps1_append_node (start node : ptr) (s : state) :
  keeps1 s (append_node start node s).2.
Proof.
  unfold append_node, malloc. simpl.
  assert (Hm : keeps1 s (set_brk (Pos.succ (brk s))
                          (set_heap (<[brk s:=fresh_node]> (heap s)) s))).
  { split; [| unfold kept_by_stage1; simpl; auto 10].
    intros (B & N & A). split; [exact B |]. split; [exact N |].
    intros k Hk. simpl in Hk |- *. rewrite lookup_insert_ne by lia. apply A. lia. }
  destruct node as [q |]; simpl.
  - eapply keeps1_trans; [exact Hm |].
    eapply keeps1_trans; apply quiet_keeps1; apply quiet_store_next.
  - eapply keeps1_trans; [exact Hm |]. apply quiet_keeps1, quiet_store_next.
Qed.

Lemma search_Some (wl : list definedWordList) (name : list ascii) (i : nat) :
  searchForDefinedWord_in wl name = Some i →
  ∃ d, wl !! i = Some d ∧ wordName d = name.
Proof.
  revert i. induction wl as [| d wl IH]; intros i H; simpl in H; [discriminate |].
  destruct (bool_decide (wordName d = name)) eqn:Hd.
  - injection H as <-. exists d. apply bool_decide_eq_true in Hd. auto.
  - destruct (searchForDefinedWord_in wl name) as [j |]; simpl in H; [| discriminate].
    injection H as <-. apply (IH j eq_refl).
Qed.

Lemma search_None (wl : list definedWordList) (name : list ascii) :
  searchForDefinedWord_in wl name = None → name ∉ wordName <$> wl.
Proof.
  induction wl as [| d wl IH]; intros H; simpl in *; [apply not_elem_of_nil |].
  destruct (bool_decide (wordName d = name)) eqn:Hd; [discriminate |].
  apply bool_decide_eq_false in Hd.
  destruct (searchForDefinedWord_in wl name); [discriminate |].
  apply not_elem_of_cons. split; [congruence | apply IH; reflexivity].
Qed.

Lemma delete_from_None (n : nat) (p : ptr) (h : gmap positive wordNode) (k : positive) :
  h !! k = None → deleteDefinition_from n p h !! k = None.
Proof.
  revert p h. induction n as [| n IH]; intros p h H; simpl; [exact H |].
  destruct p as [a |]; [| exact H].
  destruct (h !! a); [| exact H].
  apply IH. rewrite lookup_delete_None. auto.
Qed.

Lemma keeps1_deleteDefinition (p : ptr) (s : state) : keeps1 s (deleteDefinition p s).
Proof.
  split; [| unfold kept_by_stage1; simpl; auto 10].
  intros (B & N & A). split; [exact B |]. split; [exact N |].
  intros k Hk.
  change (heap (deleteDefinition p s))
    with (deleteDefinition_from (S (size (heap s))) p (heap s)).
  apply delete_from_None. apply A. exact Hk.
Qed.

Lemma keeps1_endDefinition (w : word_t) (name : list ascii) (start : ptr) (s : state) :
  keeps1 s (endDefinition w name start s).2.
Proof.
  unfold endDefinition.
  destruct (faulted s).
  { simpl. eapply keeps1_trans; [apply keeps1_deleteDefinition |].
    apply keeps1_set_inWordDefinition. }
  unfold searchForDefinedWord.
  destruct (searchForDefinedWord_in (wordList s) name) as [i |] eqn:Hs; simpl.
  - apply search_Some in Hs. destruct Hs as (d & Hd & Hn).
    rewrite Hd. simpl.
    eapply keeps1_trans; [apply keeps1_deleteDefinition |].
    set (s1 := deleteDefinition (startNode d) s).
    split; [| unfold kept_by_stage1; simpl; auto 10].
    intros (B & N & A). split; [exact B |]. split; [| exact A].
    unfold names in *. simpl. change (wordList s1) with (wordList s) in *.
    rewrite list_fmap_insert. simpl.
    rewrite list_insert_id; [exact N |].
    rewrite list_lookup_fmap, Hd. simpl. congruence.
  - apply search_None in Hs.
    split; [| unfold kept_by_stage1; simpl; auto 10].
    intros (B & N & A). split; [exact B |]. split; [| exact A].
    unfold names. simpl. apply NoDup_cons. split; assumption.
Qed.

(** One turn of the loop of the compiler. *)
Lemma keeps1_compile_word
    (stage1 : word_t → Z → state → outcome (word_t * Z * state))
    (start : ptr) (p : positive) (idx idx' : Z) (again : bool) (s s' : state) :
  (∀ w i s1 w' i' s2, inWordDefinition s1 = true →
     stage1 w i s1 = Ok (w', i', s2) → quiet s1 s2) →
  inWordDefinition s = true →
  compile_word stage1 start p idx s = Ok (again, idx', s') →
  quiet s s'.
Proof.
  intros Hst Hin H. unfold compile_word in H.
  pose proof (quiet_expectWord (set_b_idx idx s)) as Q1.
  destruct (expectWord (set_b_idx idx s)) as [i1 s1]. simpl in Q1.
  pose proof (quiet_trans _ _ _ (quiet_set_b_idx idx s) Q1) as Q1'.
  destruct (faulted s1); [injection H as <- <- <-; exact Q1' |].
  pose proof (quiet_parseWord i1 (load_word p s1) s1) as Q2.
  destruct (parseWord i1 (load_word p s1) s1) as [w2 s2]. simpl in Q2.
  pose proof (quiet_trans _ _ _ (quiet_trans _ _ _ Q1' Q2) (quiet_store_word p w2 s2)) as Q2'.
  assert (Hin2 : inWordDefinition (store_word p w2 s2) = true).
  { destruct Q2' as (_ & _ & _ & _ & E & _). congruence. }
  destruct (faulted (store_word p w2 s2)); [injection H as <- <- <-; exact Q2' |].
  destruct (stage1 w2 i1 (store_word p w2 s2)) as [[[w3 i3] s3] | | | |] eqn:Hs1;
    simpl in H; try discriminate.
  pose proof (Hst _ _ _ _ _ _ Hin2 Hs1) as Q3.
  pose proof (quiet_trans _ _ _ (quiet_trans _ _ _ Q2' Q3) (quiet_store_word p w3 s3)) as Q3'.
  destruct (faulted (store_word p w3 s3)); [injection H as <- <- <-; exact Q3' |].
  destruct (match type w3 with
            | LOOP => patch_LOOP start p (store_word p w3 s3)
            | THEN => patch_THEN start p (store_word p w3 s3)
            | _ => Ok (store_word p w3 s3)
            end) as [s4 | | | |] eqn:Hpatch; simpl in H; try discriminate.
  apply quiet_patch in Hpatch.
  pose proof (quiet_trans _ _ _ Q3' Hpatch) as Q4.
  destruct (faulted s4); injection H as <- <- <-; exact Q4.
Qed.

Lemma stage1_keeps (fuel : nat) :
  (∀ w idx s w' idx' s', execWordStage1 fuel w idx s = Ok (w', idx', s') → keeps1 s s')
  ∧ (∀ start node idx s start' node' idx' s',
       inWordDefinition s = true →
       compile_loop fuel start node idx s = Ok (start', node', idx', s') →
       keeps1 s s' ∧ inWordDefinition s' = true ∧ wordList s' = wordList s).
Proof.
  induction fuel as [| fuel [IHe IHc]]; [split; intros; discriminate |].
  split.
  - intros w idx s w' idx' s' H.
    destruct (decide (type w ≠ COLON ∨ inWordDefinition s = true)) as [Hc | Hc].
    { apply quiet_keeps1. exact (quiet_stage1 _ _ _ _ _ _ _ Hc H). }
    assert (Hw : type w = COLON).
    { destruct (decide (type w = COLON)); [assumption | exfalso; auto]. }
    assert (Hin : inWordDefinition s = false).
    { destruct (inWordDefinition s); [exfalso; auto | reflexivity]. }
    simpl in H. destruct (faulted s); [injection H as <- <- <-; apply keeps1_refl |].
    rewrite Hw, Hin in H.
    set (s0 := set_b_idx idx (set_inWordDefinition true s)) in *.
    assert (K0 : keeps1 s s0).
    { eapply keeps1_trans; [apply keeps1_set_inWordDefinition |].
      apply quiet_keeps1, quiet_set_b_idx. }
    pose proof (quiet_expectWord s0) as Q1.
    destruct (expectWord s0) as [i1 s1]. simpl in Q1.
    pose proof (keeps1_trans _ _ _ K0 (quiet_keeps1 _ _ Q1)) as K1.
    destruct (faulted s1); [injection H as <- <- <-; exact K1 |].
    destruct (compile_loop fuel NULL NULL i1 s1) as [[[[start node] i2] s2] | | | |] eqn:Hcl;
      simpl in H; try discriminate.
    apply IHc in Hcl.
    2:{ destruct Q1 as (_ & _ & _ & _ & E & _). rewrite E. reflexivity. }
    destruct Hcl as (K2 & _ & _).
    pose proof (keeps1_endDefinition w (cstr (span (b_idx s1) i1 s1)) start s2) as K3.
    destruct (endDefinition w (cstr (span (b_idx s1) i1 s1)) start s2) as [w3 s3].
    injection H as <- <- <-.
    exact (keeps1_trans _ _ _ (keeps1_trans _ _ _ K1 K2) K3).
  - intros start node idx s start' node' idx' s' Hin H.
    rewrite compile_loop_S in H.
    pose proof (keeps1_append_node start node s) as Ka.
    assert (Hin1 : inWordDefinition (append_node start node s).2 = true).
    { unfold append_node, malloc. simpl. destruct node; exact Hin. }
    assert (Hwl1 : wordList (append_node start node s).2 = wordList s).
    { unfold append_node, malloc. simpl. destruct node; reflexivity. }
    destruct (append_node start node s) as [[start1 p] s1]. simpl in Ka, Hin1, Hwl1.
    destruct (compile_word (execWordStage1 fuel) start1 p idx s1)
      as [[[again i2] s2] | | | |] eqn:Hcw; simpl in H; try discriminate.
    apply keeps1_compile_word in Hcw; [| | exact Hin1].
    2:{ intros w i sa w' i' sb Hina Hs. apply (quiet_stage1 fuel w w' i i' sa sb); auto. }
    assert (Hin2 : inWordDefinition s2 = true).
    { destruct Hcw as (_ & _ & _ & _ & E & _). congruence. }
    assert (Hwl2 : wordList s2 = wordList s).
    { destruct Hcw as (_ & E & _). congruence. }
    pose proof (keeps1_trans _ _ _ Ka (quiet_keeps1 _ _ Hcw)) as K2.
    destruct again.
    + apply IHc in H; [| exact Hin2]. destruct H as (K3 & Hin3 & Hwl3).
      split; [exact (keeps1_trans _ _ _ K2 K3) |]. split; [exact Hin3 | congruence].
    + injection H as <- <- <- <-. split; [exact K2 |]. split; [exact Hin2 | exact Hwl2].
Qed.

Lemma core_same_refl (s : state) : core_same s s.
Proof. unfold core_same. auto 12. Qed.

Lemma core_same_trans (s1 s2 s3 : state) :
  core_same s1 s2 → core_same s2 s3 → core_same s1 s3.
Proof.
  unfold core_same.
  intros (A1 & A2 & A3 & A4 & A5 & A6 & A7 & A8 & A9 & A10)
         (B1 & B2 & B3 & B4 & B5 & B6 & B7 & B8 & B9 & B10).
  repeat split; congruence.
Qed.

Lemma invariant_core (s s' : state) :
  core_same s s' → invariant s → invariant s'.
Proof.
  unfold core_same, invariant, in_bounds, names, arena_ok.
  intros (A1 & A2 & A3 & A4 & A5 & A6 & A7 & A8 & A9 & A10) (B & N & A).
  rewrite A1, A2, A3, A4, A5, A6, A7, A8, A9. auto.
Qed.

Lemma core_input_loop (lines : list (list ascii)) (s s' : state) :
  input_loop lines s = Ok s' → core_same s s'.
Proof.
  revert s. induction lines as [| line rest IH]; intros s H; simpl in H.
  - destruct (b_idx s <? b_end s); [| discriminate].
    injection H as <-. unfold core_same. simpl. auto 12.
  - destruct (b_idx s <? b_end s).
    + injection H as <-. unfold core_same. simpl. auto 12.
    + apply IH in H. refine (core_same_trans _ _ _ _ H).
      unfold core_same. destruct (printed s); simpl; auto 12.
Qed.

Lemma core_readWord (s s' : state) (i : Z) :
  readWord s = Ok (i, s') → core_same s s'.
Proof.
  unfold readWord, input. intros H.
  destruct (faulted s) eqn:Hf.
  - simpl in H. rewrite Hf in H. injection H as <- <-. apply core_same_refl.
  - destruct (input_loop (keyboard s) s) as [s1 | | | |] eqn:Hin; simpl in H;
      try discriminate.
    apply core_input_loop in Hin.
    destruct (faulted s1); [injection H as <- <-; exact Hin |].
    destruct (b_end s1 <=? scan_from is_blank (b_idx s1) s1); [discriminate |].
    injection H as <- <-. refine (core_same_trans _ _ _ Hin _).
    unfold core_same. simpl. auto 12.
Qed.

Lemma core_parseWord (idx : Z) (w : word_t) (s : state) :
  core_same s (parseWord idx w s).2.
Proof.
  unfold parseWord, core_same. repeat (case_match; simplify_eq; simpl); auto 12.
Qed.

Lemma core_report (idx : Z) (s : state) :
  core_same (set_inWordDefinition false s) (set_inWordDefinition false (report idx s).2)
  ∧ (faulted s = true → inWordDefinition (report idx s).2 = false)
  ∧ (faulted s = false → inWordDefinition (report idx s).2 = inWordDefinition s).
Proof.
  unfold report, core_same.
  destruct (faulted s); destruct (printed s); simpl; repeat split; auto; discriminate.
Qed.

Lemma endDefinition_flag (w : word_t) (name : list ascii) (start : ptr) (s : state) :
  inWordDefinition (endDefinition w name start s).2 = false.
Proof.
  unfold endDefinition.
  destruct (faulted s); [reflexivity |].
  destruct (searchForDefinedWord name s); reflexivity.
Qed.

(** Stage 1 on a word typed at the prompt leaves the flag down, or ends with
    a fault. *)
Lemma stage1_flag (fuel : nat) (w w' : word_t) (idx idx' : Z) (s s' : state) :
  inWordDefinition s = false →
  execWordStage1 fuel w idx s = Ok (w', idx', s') →
  inWordDefinition s' = false ∨ faulted s' = true.
Proof.
  intros Hin H.
  destruct (decide (type w = COLON)) as [Hw | Hw].
  - destruct fuel as [| fuel]; [discriminate |]. simpl in H.
    destruct (faulted s); [injection H as <- <- <-; auto |].
    rewrite Hw, Hin in H.
    destruct (expectWord (set_b_idx idx (set_inWordDefinition true s))) as [i1 s1].
    destruct (faulted s1) eqn:Hf1; [injection H as <- <- <-; auto |].
    destruct (compile_loop fuel NULL NULL i1 s1) as [[[[start node] i2] s2] | | | |];
      simpl in H; try discriminate.
    pose proof (endDefinition_flag w (cstr (span (b_idx s1) i1 s1)) start s2) as E.
    destruct (endDefinition w (cstr (span (b_idx s1) i1 s1)) start s2) as [w3 s3].
    injection H as <- <- <-. left. exact E.
  - apply quiet_stage1 in H; [| left; exact Hw].
    destruct H as (_ & _ & _ & _ & E & _). left. congruence.
Qed.

Lemma cycle_keeps (fuel : nat) (idx idx' : Z) (w w' : word_t) (s s' : state) :
  at_rest s → cycle fuel idx w s = Ok (idx', w', s') → at_rest s'.
Proof.
  intros [Hinv Hin] H. unfold cycle in H.
  destruct (statement fuel idx w s) as [[[i1 w1] s1] | | | |] eqn:Hst; simpl in H;
    try discriminate.
  assert (Hs1 : invariant s1 ∧ (inWordDefinition s1 = false ∨ faulted s1 = true)).
  { unfold statement in Hst.
    destruct (readWord (set_errorCode NO_ERROR s)) as [[i2 s2] | | | |] eqn:Hrw;
      simpl in Hst; try discriminate.
    apply core_readWord in Hrw.
    assert (C2 : core_same s s2).
    { refine (core_same_trans _ _ _ _ Hrw). unfold core_same. simpl. auto 12. }
    assert (I2 : invariant s2) by exact (invariant_core _ _ C2 Hinv).
    assert (F2 : inWordDefinition s2 = false).
    { destruct C2 as (_ & _ & _ & _ & _ & _ & _ & _ & _ & E). congruence. }
    destruct (faulted s2); [injection Hst as <- <- <-; auto |].
    pose proof (core_parseWord i2 w s2) as C3.
    destruct (parseWord i2 w s2) as [w3 s3]. simpl in C3.
    assert (I3 : invariant s3) by exact (invariant_core _ _ C3 I2).
    assert (F3 : inWordDefinition s3 = false).
    { destruct C3 as (_ & _ & _ & _ & _ & _ & _ & _ & _ & E). congruence. }
    destruct (faulted s3); [injection Hst as <- <- <-; auto |].
    destruct (execWordStage1 fuel w3 i2 s3) as [[[w4 i4] s4] | | | |] eqn:Hs1;
      simpl in Hst; try discriminate.
    pose proof (stage1_flag _ _ _ _ _ _ _ F3 Hs1) as F4.
    apply (proj1 (stage1_keeps fuel)) in Hs1. destruct Hs1 as [K4 _].
    specialize (K4 I3).
    destruct (faulted s4) eqn:Hf4; [injection Hst as <- <- <-; auto |].
    destruct F4 as [F4 | F4]; [| discriminate].
    destruct (execWordStage2 fuel w4 NULL s4) as [[n5 s5] | | | |] eqn:Hs2;
      simpl in Hst; try discriminate.
    apply (proj1 (stage2_keeps fuel)) in Hs2. destruct Hs2 as [B5 K5].
    injection Hst as <- <- <-.
    destruct K5 as (_ & _ & _ & _ & _ & E6 & E7 & E8 & E9 & _).
    destruct K4 as (B4 & N4 & A4).
    split; [| left; congruence].
    split; [auto |]. split; [unfold names; rewrite E7; exact N4 |].
    intros k Hk. rewrite E8. apply A4. rewrite <- E9. exact Hk. }
  destruct Hs1 as [I1 F1].
  destruct (core_report i1 s1) as (C & Ft & Ff).
  destruct (report i1 s1) as [i2 s2]. simpl in C, Ft, Ff.
  injection H as <- <- <-.
  assert (I2 : invariant s2).
  { assert (I1' : invariant (set_inWordDefinition false s1)) by exact I1.
    exact (invariant_core _ _ C I1'). }
  split; [exact I2 |].
  destruct (faulted s1) eqn:Hf; [apply Ft; reflexivity |].
  rewrite Ff by reflexivity. destruct F1 as [F1 | F1]; [exact F1 | discriminate].
Qed.

Lemma cycles_keep (n fuel : nat) (idx idx' : Z) (w w' : word_t) (s s' : state) :
  at_rest s → cycles n fuel idx w s = Ok (idx', w', s') → at_rest s'.
Proof.
  revert idx w s. induction n as [| n IH]; intros idx w s Hr H; simpl in H.
  - injection H as <- <- <-. exact Hr.
  - destruct (cycle fuel idx w s) as [[[i1 w1] s1] | | | |] eqn:Hc; simpl in H;
      try discriminate.
    apply (IH _ _ _ (cycle_keeps _ _ _ _ _ _ _ Hr Hc) H).
Qed.

Lemma at_rest_initial (lines : list (list ascii)) : at_rest (set_keyboard lines initial).
Proof.
  split; [| reflexivity]. split; [| split].
  - repeat split; try reflexivity; vm_compute; discriminate.
  - apply NoDup_nil_2.
  - intros k _. apply lookup_empty.
Qed.

Lemma interpret_at_rest (n fuel : nat) (lines : list string) (s : state) :
  interpret n fuel lines = Ok s → at_rest s.
Proof.
  unfold interpret. intros H.
  destruct (cycles n fuel 0 (_word fresh_node) (set_keyboard (str <$> lines) initial))
    as [[[i w] s1] | | | |] eqn:Hc; simpl in H; try discriminate.
  injection H as <-.
  exact (cycles_keep _ _ _ _ _ _ _ _ (at_rest_initial _) Hc).
Qed.

(** * Bodies and counted loops at run time *)

(** ** Bodies at run time *)

(** The loop of the [DEFINED_WORD] case on a node that holds a simple word. *)
Lemma run_word_simple (f : nat) (p : positive) (nd : wordNode) (s : state) :
  heap s !! p = Some nd →
  simple (type (_word nd)) = true →
  run_word (S (S f)) (Some p) s
  = if faulted (step (_word nd) s) then Ok (NULL, step (_word nd) s)
    else run_word (S f) (next nd) (step (_word nd) s).
Proof.
  intros Hp Hs. rewrite run_word_S, Hp.
  destruct (exec_simple f (_word nd) (Some p) s Hs) as (r & Hex & Hr).
  rewrite Hex. unfold mbind, outcome_bind.
  destruct (faulted (step (_word nd) s)) eqn:Hf; [reflexivity |].
  rewrite (Hr eq_refl), (heap_step _ s Hs), Hp. reflexivity.
Qed.

(** A chain of simple words is run in order, up to its end [q]. *)
Lemma run_word_seg (f : nat) (ws : list word_t) (p q : ptr) (s : state) :
  seg (heap s) p ws q →
  Forall (fun w => simple (type w) = true) ws →
  faulted s = false →
  run_word (length ws + S f) p s
  = if faulted (straight ws s) then Ok (NULL, straight ws s)
    else run_word (S f) q (straight ws s).
Proof.
  revert p s. induction ws as [| w ws IH]; intros p s Hseg Hall Hf.
  - simpl in Hseg. subst p. simpl. rewrite Hf. reflexivity.
  - simpl in Hseg. destruct Hseg as (a & nd & -> & Ha & Hw & Hseg). subst w.
    inversion Hall as [| ? ? Hs Hss]; subst.
    change (length (_word nd :: ws) + S f)%nat with (S (length ws + S f)).
    replace (length ws + S f)%nat with (S (length ws + f)) by lia.
    rewrite (run_word_simple _ a nd s Ha Hs).
    change (straight (_word nd :: ws) s) with (straight ws (step (_word nd) s)).
    destruct (faulted (step (_word nd) s)) eqn:Hf1.
    + rewrite (straight_faulted ws _ Hf1), Hf1. reflexivity.
    + replace (S (length ws + f)) with (length ws + S f)%nat by lia.
      apply IH; [rewrite (heap_step _ s Hs); exact Hseg | exact Hss | exact Hf1].
Qed.

(** Calling a defined word whose body is a chain of simple words runs these
    words in order; the pointer returned is null. *)
Theorem defined_word_runs_body
    (k : nat) (w : word_t) (node start : ptr) (ws : list word_t) (s : state) :
  type w = DEFINED_WORD →
  wa w = nodeValue start →
  seg (heap s) start ws NULL →
  Forall (fun w => simple (type w) = true) ws →
  errorCode s = NO_ERROR →
  execWordStage2 (S (length ws + S k)) w node s = Ok (NULL, straight ws s).
Proof.
  intros Hw Hwa Hseg Hall He. pose proof (faulted_false s He) as Hf.
  simpl execWordStage2. rewrite Hf, Hw, Hwa. simpl wa_node.
  rewrite (run_word_seg k ws start NULL s Hseg Hall Hf).
  destruct (faulted (straight ws s)); reflexivity.
Qed.

Lemma defined_word_runs_body_witness :
  let s := state_of (interpret 2 9 [": SQ DUP * ; 7"%string]) in
  let ws := [mkWord DUP (intValue 0); mkWord MULTIPLY (intValue 0);
             mkWord SEMICOLON (intValue 0)] in
  seg (heap s) (Some 1%positive) ws NULL
  ∧ execWordStage2 5 (mkWord DEFINED_WORD (nodeValue (Some 1%positive))) NULL s
    = Ok (NULL, straight ws s)
  ∧ take 1 (stack (straight ws s)) = [49].
Proof.
  intros s ws.
  assert (Hseg : seg (heap s) (Some 1%positive) ws NULL) by walk.
  assert (He : errorCode s = NO_ERROR) by (vm_compute; reflexivity).
  assert (Hv : take 1 (stack (straight ws s)) = [49]) by (vm_compute; reflexivity).
  clearbody s.
  split; [exact Hseg |]. split; [| exact Hv].
  change 5%nat with (S (length ws + 1)).
  refine (defined_word_runs_body 0 (mkWord DEFINED_WORD (nodeValue (Some 1%positive)))
            NULL (Some 1%positive) ws s eq_refl eq_refl Hseg _ He).
  repeat constructor.
Defined.

(** A call of a defined word inside a body ends the body: the caller runs the
    words before the call, then the word called, and none of the words that
    follow the call, whatever they are. *)
Theorem call_inside_body_ends_caller
    (f : nat) (pre : list word_t) (c : word_t) (start q r : ptr) (s s2 : state) :
  seg (heap s) start (pre ++ [c]) q →
  Forall (fun w => simple (type w) = true) pre →
  type c = DEFINED_WORD →
  errorCode s = NO_ERROR →
  faulted (straight pre s) = false →
  run_word f (wa_node (wa c)) (straight pre s) = Ok (r, s2) →
  run_word (length pre + S (S f)) start s = Ok (NULL, s2).
Proof.
  intros Hseg Hall Hc He Hnf Hcall.
  assert (Hsplit : ∃ a nd, seg (heap s) start pre (Some a)
                           ∧ heap s !! a = Some nd ∧ _word nd = c).
  { clear Hall Hnf Hcall. revert start Hseg.
    induction pre as [| w pre IH]; intros start Hseg; simpl in Hseg.
    - destruct Hseg as (a & nd & -> & Ha & Hw & _). exists a, nd. simpl. auto.
    - destruct Hseg as (a & nd & -> & Ha & Hw & Hseg).
      destruct (IH _ Hseg) as (a' & nd' & H1 & H2 & H3).
      exists a', nd'. split; [| auto]. simpl. exists a, nd. auto. }
  destruct Hsplit as (a & nd & Hpre & Ha & Hnd).
  rewrite (run_word_seg (S f) pre start (Some a) s Hpre Hall (faulted_false s He)).
  rewrite Hnf. rewrite run_word_S.
  rewrite (heap_straight pre s Hall), Ha, Hnd.
  assert (Hex : execWordStage2 (S f) c (Some a) (straight pre s) = Ok (r, s2)).
  { simpl. rewrite Hnf, Hc. exact Hcall. }
  rewrite Hex. unfold mbind, outcome_bind.
  rewrite (run_word_returns_NULL _ _ _ _ _ Hcall).
  destruct (faulted s2); reflexivity.
Qed.

Lemma call_inside_body_ends_caller_witness :
  let s := state_of (interpret 3 9 [": SQ DUP * ; : CUBE DUP SQ * ; 3"%string]) in
  let pre := [mkWord DUP (intValue 0)] in
  let c := mkWord DEFINED_WORD (nodeValue (Some 1%positive)) in
  let r := match run_word 4 (Some 1%positive) (straight pre s) with
           | Ok r => r | _ => (NULL, s) end in
  seg (heap s) (Some 4%positive) (pre ++ [c]) (Some 6%positive)
  ∧ run_word 7 (Some 4%positive) s = Ok (NULL, r.2)
  ∧ top r.2 = 2 ∧ take 2 (stack r.2) = [3; 9].
Proof.
  intros s pre c r.
  assert (Hseg : seg (heap s) (Some 4%positive) (pre ++ [c]) (Some 6%positive)) by walk.
  assert (He : errorCode s = NO_ERROR) by (vm_compute; reflexivity).
  assert (Hnf : faulted (straight pre s) = false) by (vm_compute; reflexivity).
  assert (Hcall : run_word 4 (wa_node (wa c)) (straight pre s) = Ok (r.1, r.2))
    by (vm_compute; reflexivity).
  assert (Hv : top r.2 = 2 ∧ take 2 (stack r.2) = [3; 9])
    by (split; vm_compute; reflexivity).
  clearbody r. clearbody s.
  split; [exact Hseg |]. split; [| exact Hv].
  change 7%nat with (length pre + S (S 4))%nat.
  refine (call_inside_body_ends_caller 4 pre c (Some 4%positive) (Some 6%positive)
            r.1 s r.2 Hseg _ eq_refl He Hnf Hcall).
  repeat constructor.
Defined.

(** [: SQ DUP * ; : CUBE DUP SQ * ; 3 CUBE .] prints 9: the [*] after the
    call of [SQ] is not run, and the 3 below stays on the stack. *)
Lemma nested_call_example :
  ∃ s, interpret 5 20 [": SQ DUP * ; : CUBE DUP SQ * ; 3 CUBE ."%string] = Ok s
       ∧ display s = str "9 " ∧ top s = 1 ∧ take 1 (stack s) = [3].
Proof.
  eexists. split; [vm_compute; reflexivity |].
  vm_compute. repeat split; reflexivity.
Qed.

(** ** Counted loops *)

Lemma is_int_wrap (z : Z) : is_int (wrap z).
Proof.
  unfold is_int, INT_MIN, INT_MAX, wrap.
  pose proof (Z.mod_pos_bound (z + 32768) 65536 ltac:(lia)). lia.
Qed.

Lemma mod_unique_65536 (a q r : Z) : a = 65536 * q + r → 0 <= r < 65536 → a mod 65536 = r.
Proof. intros H Hr. symmetry. apply (Z.mod_unique a 65536 q r); [left; exact Hr | exact H]. Qed.

Lemma trips_step (lim c : Z) :
  is_int c → is_int lim →
  (trips lim c = 1%nat → wrap (c + 1) = lim)
  ∧ (trips lim c ≠ 1%nat →
     wrap (c + 1) ≠ lim ∧ trips lim c = S (trips lim (wrap (c + 1)))).
Proof.
  unfold is_int, INT_MIN, INT_MAX, trips. intros Hc Hl.
  pose proof (Z.mod_pos_bound (lim - c - 1) 65536 ltac:(lia)) as Hq.
  pose proof (Z.div_mod (lim - c - 1) 65536 ltac:(lia)) as Hd.
  set (q := (lim - c - 1) mod 65536) in *.
  set (k := (lim - c - 1) / 65536) in *.
  destruct (wrap_shift (c + 1)) as [k' Hk'].
  pose proof (is_int_wrap (c + 1)) as Hw. unfold is_int, INT_MIN, INT_MAX in Hw.
  set (c' := wrap (c + 1)) in *.
  split.
  - intros H1. assert (q = 0) by lia. lia.
  - intros H1. assert (1 <= q) by lia. split; [lia |].
    rewrite (mod_unique_65536 (lim - c' - 1) (k - k') (q - 1)) by lia. lia.
Qed.

(** The simple words other than [DO] leave the loop stack alone. *)
Lemma loop_stack_print_elements (l : list Z) (s : state) :
  idxStack (print_elements l s) = idxStack s ∧ idxTop (print_elements l s) = idxTop s.
Proof.
  revert s. induction l as [| v l IH]; intros s; simpl; [auto |].
  destruct (IH (printStringD (dec v ++ [SPACE]) (sprintf_buffer (dec v ++ [SPACE]) s)))
    as [-> ->]. auto.
Qed.

Lemma loop_stack_step (w : word_t) (s : state) :
  simple (type w) = true → type w ≠ DO →
  idxStack (step w s) = idxStack s ∧ idxTop (step w s) = idxTop s.
Proof.
  intros Hs Hd. unfold step. simpl.
  destruct (faulted s) eqn:Hf; [auto |].
  destruct (type w) eqn:Ht; try discriminate Hs; try congruence; auto.
  all: try solve [
    match goal with
    | |- context [print_elements ?l ?s0] =>
        destruct (loop_stack_print_elements l s0) as [H1 H2];
        cbn [idxStack idxTop set_printed]; rewrite H1, H2; auto
    end].
  all: unfold checked, binary, roll, pick, slashMod, mod', divide, push, discard, peek,
         pop, poke, idxPeek;
    repeat (case_match; simplify_eq; simpl); auto.
Qed.

Lemma loop_stack_straight (ws : list word_t) (s : state) :
  Forall (fun w => simple (type w) = true ∧ type w ≠ DO) ws →
  idxStack (straight ws s) = idxStack s ∧ idxTop (straight ws s) = idxTop s.
Proof.
  revert s. induction ws as [| w ws IH]; intros s Hall; [auto |].
  inversion Hall as [| ? ? [Hs Hd] Hss]; subst.
  change (straight (w :: ws) s) with (straight ws (step w s)).
  destruct (IH (step w s) Hss) as [-> ->]. apply loop_stack_step; assumption.
Qed.

(** The loop of the [DEFINED_WORD] case on a [LOOP] node. *)
Lemma run_word_LOOP (f : nat) (p d : positive) (nd dn : wordNode) (s : state) :
  errorCode s = NO_ERROR →
  2 <= idxTop s <= Z.of_nat (length (idxStack s)) →
  heap s !! p = Some nd → type (_word nd) = LOOP →
  wa (_word nd) = nodeValue (Some d) → heap s !! d = Some dn →
  run_word (S (S f)) (Some p) s
  = run_word (S f)
      (if wrap (arr_get 0 (idxStack s) (idxTop s - 1) + 1)
          =? arr_get 0 (idxStack s) (idxTop s - 2)
       then next nd else next dn)
      (idxIncr s).
Proof.
  intros He Hi Hp Ht Hwa Hd.
  assert (Hinc : idxIncr s
                 = set_idxStack (arr_set (idxStack s) (idxTop s - 1)
                     (wrap (arr_get 0 (idxStack s) (idxTop s - 1) + 1))) s).
  { unfold idxIncr. rewrite (faulted_false s He).
    destruct (Z.leb_spec (idxTop s) 0); [lia | reflexivity]. }
  set (s' := idxIncr s) in *.
  assert (He' : errorCode s' = NO_ERROR) by (rewrite Hinc; exact He).
  assert (Hc : arr_get 0 (idxStack s') (idxTop s' - 1)
               = wrap (arr_get 0 (idxStack s) (idxTop s - 1) + 1)).
  { rewrite Hinc. simpl. apply arr_get_set_eq. lia. }
  assert (Hl : arr_get 0 (idxStack s') (idxTop s' - 2) = arr_get 0 (idxStack s) (idxTop s - 2)).
  { rewrite Hinc. simpl. apply arr_get_set_ne; lia. }
  assert (Hh : heap s' = heap s) by (rewrite Hinc; reflexivity).
  assert (Hit : idxTop s' = idxTop s) by (rewrite Hinc; reflexivity).
  rewrite run_word_S, Hp.
  assert (Hex : execWordStage2 (S f) (_word nd) (Some p) s
                = Ok (if wrap (arr_get 0 (idxStack s) (idxTop s - 1) + 1)
                         =? arr_get 0 (idxStack s) (idxTop s - 2)
                      then Some p else Some d, s')).
  { simpl. rewrite (faulted_false s He), Ht. fold s'.
    rewrite (faulted_false s' He').
    rewrite (idxPeek_value 1 s' He'), (faulted_false s' He') by lia.
    rewrite (idxPeek_value 2 s' He'), (faulted_false s' He') by lia.
    rewrite Hc, Hl.
    destruct (_ =? _); [reflexivity |].
    rewrite Hh, Hp, Hwa. reflexivity. }
  rewrite Hex. unfold mbind, outcome_bind. rewrite (faulted_false s' He'), Hh.
  destruct (_ =? _); [rewrite Hp | rewrite Hd]; reflexivity.
Qed.

Lemma idxPush_value (v : Z) (s : state) :
  errorCode s = NO_ERROR → idxTop s < IDX_STACK_SIZE →
  idxPush v s = set_idxTop (idxTop s + 1) (set_idxStack (arr_set (idxStack s) (idxTop s) v) s).
Proof.
  intros He H. unfold idxPush. rewrite (faulted_false s He).
  destruct (Z.leb_spec IDX_STACK_SIZE (idxTop s)); [lia | reflexivity].
Qed.

Lemma step_DO (w : word_t) (s : state) (l0 : list Z) (lim c : Z) :
  type w = DO →
  holds s (l0 ++ [lim; c]) →
  0 <= idxTop s → idxTop s + 2 <= IDX_STACK_SIZE →
  Z.of_nat (length (idxStack s)) = IDX_STACK_SIZE →
  let s1 := step w s in
  holds s1 l0 ∧ heap s1 = heap s
  ∧ idxTop s1 = idxTop s + 2
  ∧ length (idxStack s1) = length (idxStack s)
  ∧ arr_get 0 (idxStack s1) (idxTop s1 - 2) = lim
  ∧ arr_get 0 (idxStack s1) (idxTop s1 - 1) = c.
Proof.
  intros Hw H Hi0 Hi1 Hlen s1.
  destruct (holds_operands s l0 lim c H) as (Hd & Ha & Hb & H1 & S1).
  pose proof (holds_length s _ H) as Hle. rewrite length_app in Hle. simpl in Hle.
  set (s0 := set_top (Z.of_nat (length l0)) s) in *.
  assert (He0 : errorCode s0 = NO_ERROR) by exact (holds_ok _ _ H1).
  set (sa := set_idxTop (idxTop s + 1)
               (set_idxStack (arr_set (idxStack s) (idxTop s) lim) s0)).
  assert (Hpa : idxPush lim s0 = sa) by (apply idxPush_value; [exact He0 | simpl; lia]).
  assert (Hea : errorCode sa = NO_ERROR) by exact He0.
  assert (Hpk : peek (-1) sa = (c, sa)).
  { rewrite (peek_value (-1) s0 He0) in Hb by (unfold STACK_SIZE; simpl; lia).
    rewrite (peek_value (-1) sa Hea) by (unfold STACK_SIZE; simpl; lia).
    injection Hb as Hb. f_equal. exact Hb. }
  set (sb := set_idxTop (idxTop s + 2)
               (set_idxStack (arr_set (arr_set (idxStack s) (idxTop s) lim)
                                (idxTop s + 1) c) s0)).
  assert (Hpb : idxPush c sa = sb).
  { rewrite (idxPush_value c sa Hea) by (simpl; lia). unfold sb, sa. simpl.
    replace (idxTop s + 1 + 1) with (idxTop s + 2) by lia. reflexivity. }
  assert (Hs1 : s1 = sb).
  { unfold s1, step. simpl. rewrite (holds_faulted s _ H), Hw, Hd.
    rewrite (faulted_false s0 He0), Ha, Hpa, (faulted_false sa Hea), Hpk, Hpb.
    unfold checked. rewrite (faulted_false sb He0). reflexivity. }
  rewrite Hs1. unfold sb. simpl.
  split; [exact H1 |]. split; [reflexivity |]. split; [reflexivity |].
  split; [unfold arr_set; rewrite !length_insert; reflexivity |].
  split.
  - replace (idxTop s + 2 - 2) with (idxTop s) by lia.
    rewrite arr_get_set_ne by lia. apply arr_get_set_eq. lia.
  - replace (idxTop s + 2 - 1) with (idxTop s + 1) by lia.
    apply arr_get_set_eq. unfold arr_set. rewrite length_insert. lia.
Qed.

Lemma simple_of_body (ws : list word_t) :
  Forall (fun w => simple (type w) = true ∧ type w ≠ DO) ws →
  Forall (fun w => simple (type w) = true) ws.
Proof. intros H. eapply Forall_impl; [exact H |]. intros w [Hs _]. exact Hs. Qed.

(** The passes of a loop, from the node after the [DO] node. *)
Lemma loop_passes (f : nat) (ws : list word_t) (d l : positive) (nd_d nd_l : wordNode)
    (lim : Z) :
  type (_word nd_l) = LOOP →
  wa (_word nd_l) = nodeValue (Some d) →
  Forall (fun w => simple (type w) = true ∧ type w ≠ DO) ws →
  is_int lim →
  ∀ (m : nat) (σ : state) (c : Z),
    heap σ !! d = Some nd_d → heap σ !! l = Some nd_l →
    seg (heap σ) (next nd_d) ws (Some l) →
    errorCode σ = NO_ERROR →
    2 <= idxTop σ <= Z.of_nat (length (idxStack σ)) →
    arr_get 0 (idxStack σ) (idxTop σ - 2) = lim →
    arr_get 0 (idxStack σ) (idxTop σ - 1) = c →
    is_int c →
    trips lim c = m →
    (∀ j, (j < m)%nat → faulted (straight ws (Nat.iter j (pass ws) σ)) = false) →
    run_word (m * S (length ws) + S f) (next nd_d) σ
    = run_word (S f) (next nd_l) (Nat.iter m (pass ws) σ).
Proof.
  intros Htl Hwl Hall Hlim.
  pose proof (simple_of_body ws Hall) as Hsimple.
  induction m as [| m IH]; intros σ c Hd Hl Hseg He Hi Hgl Hgc Hc Htr Hnf;
    [unfold trips in Htr; discriminate |].
  pose proof (Hnf 0%nat ltac:(lia)) as Hf0. simpl in Hf0.
  set (σ' := straight ws σ) in *.
  assert (Hh' : heap σ' = heap σ) by (apply heap_straight; exact Hsimple).
  destruct (loop_stack_straight ws σ Hall) as [Hst' Hit']. fold σ' in Hst', Hit'.
  assert (He' : errorCode σ' = NO_ERROR) by (apply faulted_false_inv; exact Hf0).
  replace (S m * S (length ws) + S f)%nat
    with (length ws + S (S (m * S (length ws) + f)))%nat by lia.
  rewrite (run_word_seg _ ws (next nd_d) (Some l) σ Hseg Hsimple (faulted_false σ He)).
  fold σ'. rewrite Hf0.
  rewrite (run_word_LOOP _ l d nd_l nd_d σ' He');
    [| rewrite Hit', Hst'; exact Hi | rewrite Hh'; exact Hl | exact Htl | exact Hwl
     | rewrite Hh'; exact Hd].
  rewrite Hit', Hst', Hgl, Hgc.
  change (idxIncr σ') with (pass ws σ).
  change (Nat.iter (S m) (pass ws) σ) with (pass ws (Nat.iter m (pass ws) σ)).
  rewrite <- Nat.iter_succ, Nat.iter_succ_r.
  destruct (trips_step lim c Hc Hlim) as [T1 T2].
  destruct m as [| m].
  - rewrite (T1 Htr), Z.eqb_refl. reflexivity.
  - destruct (T2 ltac:(lia)) as [Hne Htr'].
    destruct (Z.eqb_spec (wrap (c + 1)) lim) as [E | _]; [contradiction |].
    replace (S (S m * S (length ws) + f)) with (S m * S (length ws) + S f)%nat by lia.
    assert (Hps : pass ws σ
                  = set_idxStack (arr_set (idxStack σ') (idxTop σ' - 1)
                                    (wrap (arr_get 0 (idxStack σ') (idxTop σ' - 1) + 1))) σ').
    { unfold pass. fold σ'. unfold idxIncr. rewrite (faulted_false σ' He').
      destruct (Z.leb_spec (idxTop σ') 0); [lia | reflexivity]. }
    apply (IH (pass ws σ) (wrap (c + 1))).
    + rewrite Hps. simpl. rewrite Hh'. exact Hd.
    + rewrite Hps. simpl. rewrite Hh'. exact Hl.
    + rewrite Hps. simpl. rewrite Hh'. exact Hseg.
    + rewrite Hps. exact He'.
    + rewrite Hps. simpl. unfold arr_set. rewrite length_insert, Hit', Hst'. exact Hi.
    + rewrite Hps. simpl. rewrite Hit', Hst'. rewrite arr_get_set_ne by lia. exact Hgl.
    + rewrite Hps. simpl. rewrite Hit', Hst', Hgc. apply arr_get_set_eq. lia.
    + apply is_int_wrap.
    + lia.
    + intros j Hj. specialize (Hnf (S j) ltac:(lia)).
      rewrite Nat.iter_succ_r in Hnf. exact Hnf.
Qed.

(** A counted loop [lim c DO ws LOOP] whose body [ws] is a chain of simple
    words without [DO]: the body is run [trips lim c] times, each pass
    followed by the increment of the counter, and the words after the [LOOP]
    node are run next. The body is run once at least; with [c < lim] it is
    run [lim - c] times, and with [lim <= c] it is run [65536 - (c - lim)]
    times, until the counter has wrapped round to the limit. *)
Theorem counted_loop_runs
    (f : nat) (ws : list word_t) (d l : positive) (nd_d nd_l : wordNode)
    (s : state) (l0 : list Z) (lim c : Z) :
  heap s !! d = Some nd_d → type (_word nd_d) = DO →
  seg (heap s) (next nd_d) ws (Some l) →
  heap s !! l = Some nd_l → type (_word nd_l) = LOOP →
  wa (_word nd_l) = nodeValue (Some d) →
  Forall (fun w => simple (type w) = true ∧ type w ≠ DO) ws →
  holds s (l0 ++ [lim; c]) → is_int lim → is_int c →
  0 <= idxTop s → idxTop s + 2 <= IDX_STACK_SIZE →
  Z.of_nat (length (idxStack s)) = IDX_STACK_SIZE →
  let s1 := step (_word nd_d) s in
  let n := trips lim c in
  (∀ j, (j < n)%nat → faulted (straight ws (Nat.iter j (pass ws) s1)) = false) →
  run_word (S (n * S (length ws) + S f)) (Some d) s
  = run_word (S f) (next nd_l) (Nat.iter n (pass ws) s1)
  ∧ (c < lim → n = Z.to_nat (lim - c))
  ∧ (lim <= c → n = Z.to_nat (65536 - (c - lim))).
Proof.
  intros Hd Htd Hseg Hl Htl Hwl Hall H Hlim Hc Hi0 Hi1 Hlen s1 n Hnf.
  destruct (step_DO (_word nd_d) s l0 lim c Htd H Hi0 Hi1 Hlen)
    as (H1 & Hh1 & Hit1 & Hlen1 & Hgl & Hgc).
  fold s1 in H1, Hh1, Hit1, Hlen1, Hgl, Hgc.
  split; [| split].
  - replace (S (n * S (length ws) + S f)) with (S (S (n * S (length ws) + f))) by lia.
    rewrite (run_word_simple _ d nd_d s Hd); [| rewrite Htd; reflexivity].
    fold s1. rewrite (holds_faulted _ _ H1).
    replace (S (n * S (length ws) + f)) with (n * S (length ws) + S f)%nat by lia.
    apply (loop_passes f ws d l nd_d nd_l lim Htl Hwl Hall Hlim n s1 c);
      try (rewrite Hh1; assumption); try assumption; try reflexivity.
    + exact (holds_ok _ _ H1).
    + rewrite Hit1, Hlen1. unfold IDX_STACK_SIZE, DEF_STACK_SIZE in *. lia.
  - intros Hlt. unfold n, trips. unfold is_int, INT_MIN, INT_MAX in *.
    rewrite Z.mod_small by lia. lia.
  - intros Hle. unfold n, trips. unfold is_int, INT_MIN, INT_MAX in *.
    rewrite (mod_unique_65536 (lim - c - 1) (-1) (65536 + (lim - c - 1))) by lia. lia.
Qed.

Lemma counted_loop_runs_witness :
  let s := state_of (interpret 3 19 [": T DO I . LOOP ; 3 0"%string]) in
  let ws := [mkWord I (nodeValue NULL); mkWord DOT (intValue 0)] in
  let nd_d := mkNode (mkWord DO (nodeValue (Some 4%positive))) (Some 2%positive) in
  let nd_l := mkNode (mkWord LOOP (nodeValue (Some 1%positive))) (Some 5%positive) in
  let s1 := step (_word nd_d) s in
  let n := trips 3 0 in
  holds s [3; 0]
  ∧ n = 3%nat
  ∧ run_word (S (n * S (length ws) + S 1)) (Some 1%positive) s
    = run_word (S 1) (next nd_l) (Nat.iter n (pass ws) s1)
  ∧ display (Nat.iter 3 (pass ws) s1) = str "0 1 2 ".
Proof.
  intros s ws nd_d nd_l s1 n.
  assert (H : holds s ([] ++ [3; 0])) by (repeat split; vm_compute; reflexivity).
  assert (Hn : n = 3%nat) by (vm_compute; reflexivity).
  assert (Hd : heap s !! 1%positive = Some nd_d) by (vm_compute; reflexivity).
  assert (Hseg : seg (heap s) (next nd_d) ws (Some 4%positive)) by walk.
  assert (Hl : heap s !! 4%positive = Some nd_l) by (vm_compute; reflexivity).
  assert (Hi1 : 0 <= idxTop s) by (vm_compute; discriminate).
  assert (Hi2 : idxTop s + 2 <= IDX_STACK_SIZE) by (vm_compute; discriminate).
  assert (Hi3 : Z.of_nat (length (idxStack s)) = IDX_STACK_SIZE) by (vm_compute; reflexivity).
  assert (Hv : display (Nat.iter 3 (pass ws) s1) = str "0 1 2 ") by (vm_compute; reflexivity).
  assert (Hnf : ∀ j, (j < n)%nat → faulted (straight ws (Nat.iter j (pass ws) s1)) = false).
  { intros j Hj. rewrite Hn in Hj.
    destruct j as [| [| [| j]]]; [vm_compute; reflexivity .. | lia]. }
  split; [exact H |]. split; [exact Hn |]. split; [| exact Hv].
  clearbody s.
  refine (proj1 (counted_loop_runs 1 ws 1 4 nd_d nd_l s [] 3 0
                   Hd eq_refl Hseg Hl eq_refl eq_refl _ H _ _ Hi1 Hi2 Hi3 Hnf)).
  - repeat constructor; discriminate.
  - vm_compute. split; discriminate.
  - vm_compute. split; discriminate.
Defined.

(** [: T 3 0 DO I . LOOP ; T] prints the three values of the counter, and
    [: U 2 2 DO LOOP ; U] goes round 65536 times. *)
Lemma counted_loop_examples :
  display (state_of (interpret 2 40 [": T 3 0 DO I . LOOP ; T"%string])) = str "0 1 2 "
  ∧ Z.of_nat (trips 2 2) = 65536.
Proof. split; vm_compute; reflexivity. Qed.

(** * Tokens: numbers, built-in words and defined words *)

(** ** Tokens, for the properties of the resolver *)

Lemma token_get (s : state) (idx : Z) (tok : list ascii) (k : nat) (c : ascii) :
  token s idx tok → tok !! k = Some c →
  arr_get NUL (buffer s) (b_idx s + Z.of_nat k) = c.
Proof.
  intros (H0 & Hi & Hsp) Hk. unfold arr_get. apply nth_lookup_Some.
  unfold span in Hsp. rewrite <- Hsp in Hk.
  apply lookup_take_Some in Hk. destruct Hk as [Hk _].
  rewrite lookup_drop in Hk.
  replace (Z.to_nat (b_idx s + Z.of_nat k)) with (Z.to_nat (b_idx s) + k)%nat by lia.
  exact Hk.
Qed.

Lemma compare_token (s : state) (idx : Z) (tok nm : list ascii) :
  token s idx tok → compare nm (b_idx s) idx s = bool_decide (tok = nm).
Proof.
  intros (H0 & Hi & Hsp). unfold compare. rewrite Hsp.
  replace (idx - b_idx s) with (Z.of_nat (length tok)) by lia.
  destruct (Z.eqb_spec (Z.of_nat (length tok)) (Z.of_nat (length nm))) as [E | E]; simpl;
    [reflexivity |].
  symmetry. apply bool_decide_eq_false. intros ->. contradiction.
Qed.

Lemma parse_digits_fold (buf : list ascii) (ds : list ascii) (i acc : Z) :
  (∀ k c, ds !! k = Some c → arr_get NUL buf (i + Z.of_nat k) = c) →
  parse_digits buf (length ds) i acc = digits_fold ds acc.
Proof.
  revert i acc. induction ds as [| c ds IH]; intros i acc H; [reflexivity |].
  simpl. pose proof (H 0%nat c eq_refl) as H0.
  replace (i + Z.of_nat 0) with i in H0 by lia. rewrite H0.
  destruct (isdigit c); [| reflexivity].
  apply IH. intros k x Hk. specialize (H (S k) x Hk).
  replace (i + 1 + Z.of_nat k) with (i + Z.of_nat (S k)) by lia. exact H.
Qed.

Lemma wrap_wrap_step (a x : Z) : wrap (wrap (wrap a * 10) + x) = wrap (a * 10 + x).
Proof.
  destruct (wrap_shift a) as [k1 H1].
  destruct (wrap_shift (wrap a * 10)) as [k2 H2].
  apply (wrap_congr _ _ (k1 * 10 + k2)). rewrite H2, H1. lia.
Qed.

Lemma digits_fold_all (ds : list ascii) (a : Z) :
  forallb isdigit ds = true →
  digits_fold ds (wrap a)
  = (true, wrap (fold_left (fun acc c => acc * 10 + digit c) ds a)).
Proof.
  revert a. induction ds as [| c ds IH]; intros a H; simpl in *; [reflexivity |].
  apply andb_prop in H. destruct H as [Hc Hds]. rewrite Hc.
  rewrite wrap_wrap_step. apply IH. exact Hds.
Qed.

Lemma digits_fold_some (ds : list ascii) (acc : Z) :
  forallb isdigit ds = false → (digits_fold ds acc).1 = false.
Proof.
  revert acc. induction ds as [| c ds IH]; intros acc H; simpl in *; [discriminate |].
  destruct (isdigit c); [apply IH; exact H | reflexivity].
Qed.

Lemma wrap_opp_wrap (z : Z) : wrap (- wrap z) = wrap (- z).
Proof.
  destruct (wrap_shift z) as [k H]. apply (wrap_congr _ _ (- k)). lia.
Qed.

(** [tryParseInt] on a token. *)
Lemma tryParseInt_token (s : state) (idx : Z) (tok : list ascii) (w : word_t) :
  token s idx tok →
  match numeral tok with
  | Some z => tryParseInt idx w s = (true, mkWord INTEGER (intValue z))
  | None => (tryParseInt idx w s).1 = false ∧ type (tryParseInt idx w s).2 = type w
  end.
Proof.
  intros Htok. pose proof Htok as (H0 & Hi & Hsp).
  unfold tryParseInt, numeral.
  destruct tok as [| c r].
  - simpl in Hi. cbv zeta.
    destruct (bool_decide (arr_get NUL (buffer s) (b_idx s) = "-"%char));
      match goal with |- context [?a <=? ?b] => destruct (Z.leb_spec a b) end;
      try lia; simpl; auto.
  - pose proof (token_get s idx (c :: r) 0 c Htok eq_refl) as Hc.
    replace (b_idx s + Z.of_nat 0) with (b_idx s) in Hc by lia. rewrite Hc.
    simpl length in Hi.
    destruct (bool_decide (c = "-"%char)) eqn:Hsg.
    + (* a minus sign *)
      destruct r as [| c1 r].
      { simpl in *. destruct (Z.leb_spec idx (b_idx s + 1)); [auto | lia]. }
      destruct (Z.leb_spec idx (b_idx s + 1)); [simpl in Hi; lia |].
      replace (Z.to_nat (idx - (b_idx s + 1))) with (length (c1 :: r))
        by (simpl length in *; lia).
      rewrite (parse_digits_fold (buffer s) (c1 :: r) (b_idx s + 1) 0).
      2:{ intros k x Hk.
          replace (b_idx s + 1 + Z.of_nat k) with (b_idx s + Z.of_nat (S k)) by lia.
          apply (token_get s idx (c :: c1 :: r) (S k) x Htok). exact Hk. }
      rewrite bool_decide_eq_true_2 by discriminate. rewrite andb_true_l.
      destruct (forallb isdigit (c1 :: r)) eqn:Hd.
      * change 0 with (wrap 0) at 1. rewrite (digits_fold_all _ 0 Hd).
        rewrite wrap_opp_wrap. reflexivity.
      * pose proof (digits_fold_some _ 0 Hd) as Hf.
        destruct (digits_fold (c1 :: r) 0) as [b v]. simpl in Hf. subst b. auto.
    + (* no sign *)
      destruct (Z.leb_spec idx (b_idx s)); [lia |].
      replace (Z.to_nat (idx - b_idx s)) with (length (c :: r)) by (simpl length; lia).
      rewrite (parse_digits_fold (buffer s) (c :: r) (b_idx s) 0).
      2:{ intros k x Hk. apply (token_get s idx (c :: r) k x Htok). exact Hk. }
      rewrite bool_decide_eq_true_2 by discriminate. rewrite andb_true_l.
      destruct (forallb isdigit (c :: r)) eqn:Hd.
      * change 0 with (wrap 0) at 1. rewrite (digits_fold_all _ 0 Hd). reflexivity.
      * pose proof (digits_fold_some _ 0 Hd) as Hf.
        destruct (digits_fold (c :: r) 0) as [b v]. simpl in Hf. subst b. auto.
Qed.

Lemma reads_back_all : all_from reads_back (Z.to_nat 32768) 1 = true.
Proof. vm_compute. reflexivity. Qed.

Lemma numeral_dec (z : Z) : is_int z → numeral (dec z) = Some z.
Proof.
  unfold is_int, INT_MIN, INT_MAX. intros Hz.
  destruct z as [| p | p]; [reflexivity | |].
  - assert (H : reads_back p = true).
    { apply (all_from_spec reads_back (Z.to_nat 32768) 1 p reads_back_all); [lia |].
      rewrite Z2Nat.id; lia. }
    unfold reads_back in H. apply andb_true_iff in H. destruct H as [_ H].
    apply orb_true_iff in H. destruct H as [H | H]; [lia |].
    destruct (numeral (dec (Z.pos p))) as [v |]; [| discriminate].
    apply Z.eqb_eq in H. congruence.
  - assert (H : reads_back p = true).
    { apply (all_from_spec reads_back (Z.to_nat 32768) 1 p reads_back_all); [lia |].
      rewrite Z2Nat.id; lia. }
    unfold reads_back in H. apply andb_true_iff in H. destruct H as [H _].
    destruct (numeral (dec (Z.neg p))) as [v |]; [| discriminate].
    apply Z.eqb_eq in H. congruence.
Qed.

(** [tryParseInt] accepts the tokens made of an optional minus sign and one
    digit at least, and no others; the word it gives holds the number written,
    cut to 16 bits. *)
Theorem integer_tokens (s : state) (idx : Z) (tok : list ascii) (w : word_t) :
  token s idx tok →
  (∀ z, numeral tok = Some z →
     tryParseInt idx w s = (true, mkWord INTEGER (intValue z)))
  ∧ (numeral tok = None →
     (tryParseInt idx w s).1 = false ∧ type (tryParseInt idx w s).2 = type w).
Proof.
  intros Htok. pose proof (tryParseInt_token s idx tok w Htok) as H.
  split.
  - intros z Hz. rewrite Hz in H. exact H.
  - intros Hn. rewrite Hn in H. exact H.
Qed.

Lemma integer_tokens_witness :
  let s := set_b_end 3 (getIn (str "-12") initial) in
  token s 3 (str "-12")
  ∧ tryParseInt 3 (mkWord DOT (intValue 0)) s = (true, mkWord INTEGER (intValue (-12))).
Proof.
  intros s.
  assert (H : token s 3 (str "-12")) by (repeat split; vm_compute; congruence).
  clearbody s.
  split; [exact H |].
  exact (proj1 (integer_tokens s 3 (str "-12") (mkWord DOT (intValue 0)) H) (-12) eq_refl).
Defined.

(** What [.] prints for an int, typed back, is read as that int. *)
Theorem printed_int_reads_back (s : state) (idx z : Z) (w : word_t) :
  is_int z →
  token s idx (dec z) →
  tryParseInt idx w s = (true, mkWord INTEGER (intValue z)).
Proof.
  intros Hz Htok. pose proof (tryParseInt_token s idx (dec z) w Htok) as H.
  rewrite (numeral_dec z Hz) in H. exact H.
Qed.

Lemma printed_int_reads_back_witness :
  let s := set_b_end 6 (getIn (dec (-32768)) initial) in
  token s 6 (dec (-32768))
  ∧ tryParseInt 6 (mkWord DOT (intValue 0)) s
    = (true, mkWord INTEGER (intValue (-32768))).
Proof.
  intros s.
  assert (H : token s 6 (dec (-32768))) by (repeat split; vm_compute; congruence).
  clearbody s.
  split; [exact H |].
  apply printed_int_reads_back; [| exact H].
  unfold is_int, INT_MIN, INT_MAX. lia.
Defined.

(** ** The dictionary and the table of the built-in words *)

Lemma tryParseDefined_none (wl : list definedWordList) (s : state) (idx : Z)
    (tok : list ascii) (w : word_t) :
  token s idx tok →
  tok ∉ wordName <$> wl →
  tryParseDefined_in wl idx w s = (false, w).
Proof.
  intros Htok. induction wl as [| d wl IH]; intros Hn; simpl; [reflexivity |].
  rewrite fmap_cons in Hn. apply not_elem_of_cons in Hn. destruct Hn as [Hd Hn].
  rewrite (compare_token s idx tok _ Htok).
  rewrite bool_decide_eq_false_2 by exact Hd. apply IH. exact Hn.
Qed.

Lemma tryParseBuiltIn_found (table : list (list ascii * wordType)) (s : state) (idx : Z)
    (tok : list ascii) (t : wordType) (w : word_t) :
  token s idx tok →
  NoDup (fst <$> table) →
  (tok, t) ∈ table →
  tryParseBuiltIn_in table idx w s = (true, mkWord t (wa w)).
Proof.
  intros Htok. induction table as [| [nm t'] table IH]; intros Hnd Hin; simpl.
  - apply elem_of_nil in Hin. contradiction.
  - rewrite (compare_token s idx tok nm Htok).
    rewrite fmap_cons in Hnd. apply NoDup_cons in Hnd. destruct Hnd as [Hnm Hnd].
    apply elem_of_cons in Hin. destruct Hin as [Hin | Hin].
    + injection Hin as <- <-. rewrite bool_decide_eq_true_2 by reflexivity. reflexivity.
    + rewrite bool_decide_eq_false_2.
      * apply IH; assumption.
      * intros <-. apply Hnm. simpl.
        apply (list_elem_of_fmap_2 fst) in Hin. exact Hin.
Qed.

Lemma builtins_distinct : NoDup (fst <$> builtins).
Proof. apply (bool_decide_unpack _). vm_compute. constructor. Qed.

Lemma builtins_not_numerals : forallb (fun x => bool_decide (numeral x.1 = None)) builtins = true.
Proof. vm_compute. reflexivity. Qed.

(** Every name of the table of [tryParseBuiltIn] resolves to its own type, as
    long as the dictionary holds no word of that name: no entry of the table
    is hidden by an earlier one or read as a number. *)
Theorem built_in_words_resolve (s : state) (idx : Z) (nm : list ascii) (t : wordType)
    (w : word_t) :
  (nm, t) ∈ builtins →
  token s idx nm →
  nm ∉ names s →
  ∃ w', parseWord idx w s = (w', s) ∧ type w' = t.
Proof.
  intros Hin Htok Hnew. unfold parseWord, tryParseDefined.
  rewrite (tryParseDefined_none (wordList s) s idx nm w Htok Hnew).
  pose proof (tryParseInt_token s idx nm w Htok) as Hint.
  assert (Hnum : numeral nm = None).
  { pose proof builtins_not_numerals as H. rewrite forallb_forall in H.
    specialize (H (nm, t) (proj1 (list_elem_of_In _ _) Hin)).
    apply bool_decide_eq_true in H. exact H. }
  rewrite Hnum in Hint. destruct Hint as [Hf Hty].
  destruct (tryParseInt idx w s) as [b w1]. simpl in Hf, Hty. subst b.
  unfold tryParseBuiltIn.
  rewrite (tryParseBuiltIn_found builtins s idx nm t w1 Htok builtins_distinct Hin).
  eexists. split; reflexivity.
Qed.

Lemma built_in_words_resolve_witness :
  let s := set_b_end 4 (getIn (str "swap") initial) in
  token s 4 (str "SWAP")
  ∧ ∃ w', parseWord 4 (mkWord DOT (intValue 0)) s = (w', s) ∧ type w' = SWAP.
Proof.
  intros s.
  assert (H : token s 4 (str "SWAP")) by (repeat split; vm_compute; congruence).
  assert (Hn : str "SWAP" ∉ names s) by (vm_compute; apply not_elem_of_nil).
  clearbody s.
  split; [exact H |].
  apply (built_in_words_resolve s 4 (str "SWAP")); [| exact H | exact Hn].
  apply (bool_decide_unpack _). vm_compute. exact Logic.I.
Defined.

Lemma published_over (wl : list definedWordList) (name : list ascii) (start : ptr)
    (s : state) (idx : Z) (tok : list ascii) (w : word_t) (i : nat) :
  searchForDefinedWord_in wl name = Some i →
  token s idx tok →
  tryParseDefined_in (<[i := mkDefined name start]> wl) idx w s
  = if bool_decide (tok = name) then (true, mkWord DEFINED_WORD (nodeValue start))
    else tryParseDefined_in wl idx w s.
Proof.
  intros Hs Htok. revert i Hs. induction wl as [| d wl IH]; intros i Hs; simpl in Hs;
    [discriminate |].
  destruct (bool_decide (wordName d = name)) eqn:Hd.
  - injection Hs as <-. apply bool_decide_eq_true in Hd. simpl.
    rewrite !(compare_token s idx tok _ Htok), Hd.
    destruct (bool_decide (tok = name)); reflexivity.
  - destruct (searchForDefinedWord_in wl name) as [j |]; simpl in Hs; [| discriminate].
    injection Hs as <-. apply bool_decide_eq_false in Hd. simpl.
    rewrite (compare_token s idx tok _ Htok).
    destruct (bool_decide (tok = wordName d)) eqn:Ht.
    + apply bool_decide_eq_true in Ht.
      rewrite bool_decide_eq_false_2 by congruence. reflexivity.
    + apply IH. reflexivity.
Qed.

(** The dictionary after a definition has been published. *)
Lemma endDefinition_wordList (w : word_t) (name : list ascii) (start : ptr) (s : state) :
  errorCode s = NO_ERROR →
  wa (endDefinition w name start s).1 = nodeValue start
  ∧ wordList (endDefinition w name start s).2
    = match searchForDefinedWord_in (wordList s) name with
      | Some i => <[i := mkDefined name start]> (wordList s)
      | None => mkDefined name start :: wordList s
      end.
Proof.
  intros He. unfold endDefinition, searchForDefinedWord.
  rewrite (faulted_false s He).
  destruct (searchForDefinedWord_in (wordList s) name); simpl; auto.
Qed.

(** After a definition has been compiled without a fault, its name resolves
    to the new body, whatever the name is: a name of a built-in word or a
    number is taken by the definition. The other tokens resolve in the
    dictionary as they did before. *)
Theorem definition_is_found
    (fuel : nat) (w w' : word_t) (idx idx' : Z) (s s' : state) :
  type w = COLON →
  errorCode s = NO_ERROR →
  inWordDefinition s = false →
  execWordStage1 (S fuel) w idx s = Ok (w', idx', s') →
  errorCode s' = NO_ERROR →
  let r := expectWord (set_b_idx idx (set_inWordDefinition true s)) in
  let name := cstr (span (b_idx r.2) r.1 r.2) in
  ∃ start,
    wa w' = nodeValue start
    ∧ (∀ s2 idx2 w2,
         wordList s2 = wordList s' → token s2 idx2 name →
         parseWord idx2 w2 s2 = (mkWord DEFINED_WORD (nodeValue start), s2))
    ∧ (∀ s2 idx2 w2 tok,
         tok ≠ name → token s2 idx2 tok →
         tryParseDefined_in (wordList s') idx2 w2 s2
         = tryParseDefined_in (wordList s) idx2 w2 s2).
Proof.
  intros Hw He Hin H He'. cbv zeta. simpl in H.
  rewrite (faulted_false s He), Hw, Hin in H.
  pose proof (quiet_expectWord (set_b_idx idx (set_inWordDefinition true s))) as Q0.
  destruct (expectWord (set_b_idx idx (set_inWordDefinition true s))) as [i0 s0].
  cbn [fst snd] in Q0 |- *.
  set (name := cstr (span (b_idx s0) i0 s0)) in *.
  destruct (faulted s0) eqn:Hf0.
  { injection H as <- <- <-. apply faulted_true_inv in Hf0. contradiction. }
  destruct (compile_loop fuel NULL NULL i0 s0) as [[[[start node] i1] s1] | | | |] eqn:Hcl;
    simpl in H; try discriminate.
  destruct Q0 as (_ & Hwl0 & _ & _ & Hin0 & _). simpl in Hwl0, Hin0.
  assert (Hwl : wordList s1 = wordList s).
  { apply (proj2 (stage1_keeps fuel)) in Hcl; [| exact Hin0].
    destruct Hcl as (_ & _ & E). congruence. }
  assert (He1 : errorCode s1 = NO_ERROR).
  { destruct (endDefinition w name start s1) as [w3 s3] eqn:Hend.
    injection H as <- <- <-.
    unfold endDefinition in Hend. destruct (faulted s1) eqn:Hf1.
    - injection Hend as <- <-. apply faulted_true_inv in Hf1. contradiction.
    - apply faulted_false_inv. exact Hf1. }
  destruct (endDefinition_wordList w name start s1 He1) as [Hwa Hpub].
  destruct (endDefinition w name start s1) as [w3 s3]. simpl in Hwa, Hpub.
  injection H as <- <- <-. rewrite Hwl in Hpub.
  exists start. split; [exact Hwa |]. split.
  - intros s2 idx2 w2 Hw2 Htok. unfold parseWord, tryParseDefined.
    rewrite Hw2, Hpub.
    destruct (searchForDefinedWord_in (wordList s) name) as [i |] eqn:Hs.
    + rewrite (published_over _ _ _ _ _ name _ _ Hs Htok).
      rewrite bool_decide_eq_true_2 by reflexivity. reflexivity.
    + simpl. rewrite (compare_token s2 idx2 name _ Htok).
      rewrite bool_decide_eq_true_2 by reflexivity. reflexivity.
  - intros s2 idx2 w2 tok Hne Htok. rewrite Hpub.
    destruct (searchForDefinedWord_in (wordList s) name) as [i |] eqn:Hs.
    + rewrite (published_over _ _ _ _ _ tok _ _ Hs Htok).
      rewrite bool_decide_eq_false_2 by exact Hne. reflexivity.
    + simpl. rewrite (compare_token s2 idx2 tok _ Htok).
      rewrite bool_decide_eq_false_2 by exact Hne. reflexivity.
Qed.

Lemma definition_is_found_witness :
  let s := set_b_end 7 (getIn (str ": A 1 ;") initial) in
  let w := mkWord COLON (intValue 0) in
  let r := match execWordStage1 9 w 1 s with Ok r => r | _ => (w, 0, s) end in
  execWordStage1 9 w 1 s = Ok r
  ∧ ∃ start,
      wa r.1.1 = nodeValue start
      ∧ ∀ s2 idx2 w2,
          wordList s2 = wordList r.2 → token s2 idx2 (str "A") →
          parseWord idx2 w2 s2 = (mkWord DEFINED_WORD (nodeValue start), s2).
Proof.
  intros s w r.
  assert (Hrun : execWordStage1 9 w 1 s = Ok (r.1.1, r.1.2, r.2))
    by (vm_compute; reflexivity).
  assert (He' : errorCode r.2 = NO_ERROR) by (vm_compute; reflexivity).
  assert (Hname : cstr (span (b_idx (expectWord (set_b_idx 1 (set_inWordDefinition true s))).2)
                    (expectWord (set_b_idx 1 (set_inWordDefinition true s))).1
                    (expectWord (set_b_idx 1 (set_inWordDefinition true s))).2) = str "A")
    by (vm_compute; reflexivity).
  split; [vm_compute; reflexivity |].
  destruct (definition_is_found 8 w r.1.1 1 r.1.2 s r.2 eq_refl eq_refl eq_refl Hrun He')
    as (start & Hwa & Hfound & _).
  exists start. split; [exact Hwa |].
  rewrite Hname in Hfound. exact Hfound.
Defined.

(** * The reader and the string word *)

(** ** The word reader *)

Lemma scan_spec (P : ascii → bool) (buf : list ascii) (e : Z) (n : nat) (i : Z) :
  (Z.to_nat (e - i) <= n)%nat →
  i <= scan P buf e n i
  ∧ (i <= e → scan P buf e n i <= e)
  ∧ (∀ k, i <= k < scan P buf e n i → P (arr_get NUL buf k) = true)
  ∧ (scan P buf e n i < e → P (arr_get NUL buf (scan P buf e n i)) = false).
Proof.
  revert i. induction n as [| n IH]; intros i Hn; simpl.
  - repeat split; try lia.
  - destruct (Z.ltb_spec i e) as [Hlt | Hge]; simpl.
    + destruct (P (arr_get NUL buf i)) eqn:HP.
      * destruct (IH (i + 1) ltac:(lia)) as (H1 & H2 & H3 & H4).
        split; [lia |]. split; [intros _; apply H2; lia |].
        split; [| exact H4].
        intros k Hk. destruct (Z.eq_dec k i) as [-> | Hne]; [exact HP |].
        apply H3. lia.
      * repeat split; try lia. intros _. exact HP.
    + repeat split; try lia.
Qed.

Lemma scan_from_spec (P : ascii → bool) (i : Z) (s : state) :
  i <= scan_from P i s
  ∧ (i <= b_end s → scan_from P i s <= b_end s)
  ∧ (∀ k, i <= k < scan_from P i s → P (arr_get NUL (buffer s) k) = true)
  ∧ (scan_from P i s < b_end s → P (arr_get NUL (buffer s) (scan_from P i s)) = false).
Proof. unfold scan_from. apply scan_spec. lia. Qed.

Lemma input_loop_ok (lines : list (list ascii)) (s s1 : state) :
  input_loop lines s = Ok s1 →
  errorCode s1 = errorCode s ∧ b_idx s1 < b_end s1.
Proof.
  revert s. induction lines as [| line rest IH]; intros s H; simpl in H.
  - destruct (Z.ltb_spec (b_idx s) (b_end s)); [| discriminate].
    injection H as <-. auto.
  - destruct (Z.ltb_spec (b_idx s) (b_end s)).
    + injection H as <-. auto.
    + apply IH in H. destruct H as [-> H]. split; [| exact H].
      destruct (printed s); reflexivity.
Qed.

(** A word that [readWord] returns is a run of characters other than blanks,
    one at least, that lies inside the line, starts after the blanks that
    follow the read position and ends at a blank or at the end of the line. *)
Theorem readWord_token (s s' : state) (i : Z) :
  errorCode s = NO_ERROR →
  readWord s = Ok (i, s') →
  ∃ s1, input s = Ok s1
        ∧ s' = set_b_idx (b_idx s') s1
        ∧ errorCode s' = NO_ERROR
        ∧ b_idx s1 <= b_idx s' < i ∧ i <= b_end s'
        ∧ (∀ k, b_idx s1 <= k < b_idx s' → is_blank (arr_get NUL (buffer s') k) = true)
        ∧ (∀ k, b_idx s' <= k < i → is_blank (arr_get NUL (buffer s') k) = false)
        ∧ (i < b_end s' → is_blank (arr_get NUL (buffer s') i) = true).
Proof.
  intros He H. unfold readWord in H.
  destruct (input s) as [s1 | | | |] eqn:Hin; simpl in H; try discriminate.
  exists s1. split; [reflexivity |].
  unfold input in Hin. rewrite (faulted_false s He) in Hin.
  apply input_loop_ok in Hin. destruct Hin as [He1 Hlt]. rewrite He in He1.
  rewrite (faulted_false s1 He1) in H.
  destruct (scan_from_spec is_blank (b_idx s1) s1) as (A1 & A2 & A3 & A4).
  set (i0 := scan_from is_blank (b_idx s1) s1) in *.
  destruct (Z.leb_spec (b_end s1) i0); [discriminate |].
  injection H as <- <-. simpl.
  destruct (scan_from_spec (fun c => negb (is_blank c)) (i0 + 1) (set_b_idx i0 s1))
    as (B1 & B2 & B3 & B4).
  set (i1 := scan_from (fun c => negb (is_blank c)) (i0 + 1) (set_b_idx i0 s1)) in *.
  simpl in B2, B3, B4.
  split; [reflexivity |]. split; [exact He1 |].
  split; [lia |]. split; [apply B2; lia |].
  split; [exact A3 |]. split.
  - intros k Hk. destruct (Z.eq_dec k i0) as [-> | Hne]; [apply A4; lia |].
    apply negb_true_iff. apply B3. lia.
  - intros Hi. apply negb_false_iff. apply B4. exact Hi.
Qed.

Lemma readWord_token_witness :
  let s := set_keyboard [str "  12 +"] initial in
  let r := match readWord s with Ok r => r | _ => (0, s) end in
  readWord s = Ok r
  ∧ r.1 = 4 ∧ b_idx r.2 = 2
  ∧ (∀ k, b_idx r.2 <= k < r.1 → is_blank (arr_get NUL (buffer r.2) k) = false).
Proof.
  intros s r.
  assert (Hrun : readWord s = Ok (r.1, r.2)) by (vm_compute; reflexivity).
  assert (Hv : r.1 = 4 ∧ b_idx r.2 = 2) by (split; vm_compute; reflexivity).
  split; [vm_compute; reflexivity |]. split; [exact (proj1 Hv) |].
  split; [exact (proj2 Hv) |].
  destruct (readWord_token s r.2 r.1 eq_refl Hrun) as (s1 & _ & _ & _ & _ & _ & _ & H & _).
  exact H.
Defined.

(** [expectWord] inside a definition. With nothing left on the line it raises
    [EXPECTED_WORD]. Otherwise it raises no fault: it returns the next run of
    characters other than blanks, or, when only blanks are left, the one
    character that follows the end of the line. *)
Theorem expectWord_token (s : state) :
  errorCode s = NO_ERROR →
  (b_end s <= b_idx s →
     expectWord s = (b_idx s, set_errorCode EXPECTED_WORD s))
  ∧ (b_idx s < b_end s →
     ∃ i0 i, expectWord s = (i, set_b_idx i0 s)
       ∧ b_idx s <= i0 <= b_end s
       ∧ (∀ k, b_idx s <= k < i0 → is_blank (arr_get NUL (buffer s) k) = true)
       ∧ (i0 < b_end s →
            i0 < i ∧ i <= b_end s
            ∧ (∀ k, i0 <= k < i → is_blank (arr_get NUL (buffer s) k) = false)
            ∧ (i < b_end s → is_blank (arr_get NUL (buffer s) i) = true))
       ∧ (i0 = b_end s → i = b_end s + 1)).
Proof.
  intros He. unfold expectWord. rewrite (faulted_false s He). split.
  - intros Hge. destruct (Z.leb_spec (b_end s) (b_idx s)); [| lia].
    unfold scan_from. replace (Z.to_nat (b_end s - b_idx s)) with 0%nat by lia.
    reflexivity.
  - intros Hlt. destruct (Z.leb_spec (b_end s) (b_idx s)); [lia |].
    destruct (scan_from_spec is_blank (b_idx s) s) as (A1 & A2 & A3 & A4).
    set (i0 := scan_from is_blank (b_idx s) s) in *.
    destruct (scan_from_spec (fun c => negb (is_blank c)) (i0 + 1) (set_b_idx i0 s))
      as (B1 & B2 & B3 & B4).
    simpl in B2, B3, B4.
    exists i0, (scan_from (fun c => negb (is_blank c)) (i0 + 1) (set_b_idx i0 s)).
    simpl b_idx.
    set (i1 := scan_from (fun c => negb (is_blank c)) (i0 + 1) (set_b_idx i0 s)) in *.
    split; [reflexivity |]. split; [lia |]. split; [exact A3 |]. split.
    + intros Hi0. split; [lia |]. split; [apply B2; lia |]. split.
      * intros k Hk. destruct (Z.eq_dec k i0) as [-> | Hne]; [apply A4; lia |].
        apply negb_true_iff. apply B3. lia.
      * intros Hi. apply negb_false_iff. apply B4. exact Hi.
    + intros Hi0. unfold i1, scan_from. simpl.
      replace (Z.to_nat (b_end s - (i0 + 1))) with 0%nat by lia. simpl. lia.
Qed.

Lemma expectWord_token_witness :
  let s := set_b_end 6 (getIn (str "  ab  ") initial) in
  errorCode s = NO_ERROR
  ∧ ∃ i0 i, expectWord s = (i, set_b_idx i0 s) ∧ b_idx s <= i0 <= b_end s.
Proof.
  intros s.
  assert (He : errorCode s = NO_ERROR) by reflexivity.
  assert (Hlt : b_idx s < b_end s) by (vm_compute; reflexivity).
  clearbody s.
  split; [exact He |].
  destruct (proj2 (expectWord_token s He) Hlt) as (i0 & i & H1 & H2 & _).
  exists i0, i. split; assumption.
Defined.

(** [: A 1] ends with [EXPECTED_WORD]; with one blank more at the end of the
    line the fault is [UNRECOGNIZED_WORD]. *)
Lemma expectWord_examples :
  errorCode (state_of (interpret 1 20 [": A 1"%string])) = EXPECTED_WORD
  ∧ errorCode (state_of (interpret 1 20 [": A 1 "%string])) = UNRECOGNIZED_WORD.
Proof. split; vm_compute; reflexivity. Qed.

(** ** Strings *)

Lemma cstr_id (l : list ascii) : NUL ∉ l → cstr l = l.
Proof.
  induction l as [| c l IH]; intros H; simpl; [reflexivity |].
  apply not_elem_of_cons in H. destruct H as [Hc Hl].
  rewrite bool_decide_eq_false_2 by congruence. rewrite IH by exact Hl. reflexivity.
Qed.

Lemma findExistingString_token (sl : list (list ascii)) (s : state) (idx : Z)
    (tok : list ascii) :
  token s idx tok →
  findExistingString_in sl idx s = if bool_decide (tok ∈ sl) then Some tok else None.
Proof.
  intros Htok. induction sl as [| x sl IH]; cbn [findExistingString_in].
  - destruct (bool_decide (tok ∈ [])) eqn:Hin; [| reflexivity].
    apply bool_decide_eq_true in Hin. apply elem_of_nil in Hin. contradiction.
  - rewrite (compare_token s idx tok x Htok).
    destruct (bool_decide (tok = x)) eqn:Hx.
    + apply bool_decide_eq_true in Hx. subst x.
      rewrite bool_decide_eq_true_2 by (apply elem_of_cons; auto). reflexivity.
    + apply bool_decide_eq_false in Hx. rewrite IH.
      destruct (bool_decide (tok ∈ sl)) eqn:Hin.
      * apply bool_decide_eq_true in Hin.
        rewrite bool_decide_eq_true_2 by (apply elem_of_cons; auto). reflexivity.
      * apply bool_decide_eq_false in Hin.
        rewrite bool_decide_eq_false_2; [reflexivity |].
        intros H. apply elem_of_cons in H. destruct H; contradiction.
Qed.

(** The string word, followed by a blank, a text and a quote: stage 1 takes
    the text up to the quote, stores it once in the list of strings and
    resumes after the quote; stage 2 prints the text. *)
Theorem print_string_word (fuel : nat) (w : word_t) (idx : Z) (s : state) (text : list ascii) :
  type w = PRINT_S →
  errorCode s = NO_ERROR →
  0 <= idx + 1 →
  let j := idx + 1 + Z.of_nat (length text) in
  span (idx + 1) j s = text →
  j < b_end s →
  arr_get NUL (buffer s) j = QUOTE →
  QUOTE ∉ text → NUL ∉ text →
  ∃ s1, execWordStage1 (S fuel) w idx s = Ok (mkWord PRINT_S (strValue text), j + 1, s1)
        ∧ s1 = set_s_list (if bool_decide (text ∈ s_list s) then s_list s
                           else text :: s_list s) (set_b_idx (idx + 1) s)
        ∧ ∀ fuel' node,
            execWordStage2 (S fuel') (mkWord PRINT_S (strValue text)) node s1
            = Ok (node, set_printed true (set_display (display s ++ text) s1)).
Proof.
  intros Hw He H0 j Hsp Hj Hq Hnq Hnn.
  set (s0 := set_b_idx (idx + 1) s).
  assert (Htok : token s0 j text) by (unfold token; simpl; auto).
  assert (Hscan : scan_from (fun c => negb (bool_decide (c = QUOTE))) (b_idx s0) s0 = j).
  { destruct (scan_from_spec (fun c => negb (bool_decide (c = QUOTE))) (b_idx s0) s0)
      as (A1 & A2 & A3 & A4).
    set (r := scan_from (fun c => negb (bool_decide (c = QUOTE))) (b_idx s0) s0) in *.
    simpl in A1, A2, A3, A4.
    destruct (Z.lt_trichotomy r j) as [Hlt | [Heq | Hgt]]; [| exact Heq |].
    - exfalso. specialize (A4 ltac:(lia)).
      apply negb_false_iff, bool_decide_eq_true in A4.
      assert (Hk : text !! Z.to_nat (r - (idx + 1)) = Some (arr_get NUL (buffer s) r)).
      { destruct (lookup_lt_is_Some_2 text (Z.to_nat (r - (idx + 1)))) as [c Hc];
          [unfold j in Hlt; lia |].
        rewrite Hc. f_equal.
        pose proof (token_get s0 j text _ c Htok Hc) as Hg. simpl in Hg.
        rewrite <- Hg. f_equal. lia. }
      apply Hnq. rewrite <- A4. apply list_elem_of_lookup_2 in Hk. exact Hk.
    - exfalso. specialize (A3 j ltac:(lia)).
      apply negb_true_iff, bool_decide_eq_false in A3. contradiction. }
  exists (set_s_list (if bool_decide (text ∈ s_list s) then s_list s
                      else text :: s_list s) s0).
  split; [| split; [reflexivity |]].
  - simpl. rewrite (faulted_false s He), Hw. unfold stage1_PRINT_S. fold s0.
    rewrite Hscan.
    destruct (Z.leb_spec (b_end s0) j); [simpl in *; lia |].
    unfold findExistingString. rewrite (findExistingString_token _ s0 j text Htok).
    change (s_list s0) with (s_list s).
    destruct (bool_decide (text ∈ s_list s)) eqn:Hin.
    + rewrite Hw. do 3 f_equal; try (destruct s; reflexivity).
    + unfold addString. destruct Htok as (_ & _ & Hsp0). rewrite Hsp0.
      rewrite (cstr_id text Hnn), Hw. reflexivity.
  - intros fuel' node. simpl. unfold faulted. simpl. rewrite He. reflexivity.
Qed.

Lemma print_string_word_witness :
  let s := set_b_end 6 (getIn ("."%char :: QUOTE :: str " HI" ++ [QUOTE]) initial) in
  let w := mkWord PRINT_S (intValue 0) in
  ∃ s1, execWordStage1 1 w 2 s = Ok (mkWord PRINT_S (strValue (str "HI")), 6, s1)
        ∧ ∀ fuel' node,
            execWordStage2 (S fuel') (mkWord PRINT_S (strValue (str "HI"))) node s1
            = Ok (node, set_printed true (set_display (display s ++ str "HI") s1)).
Proof.
  intros s w.
  assert (H1 : span (2 + 1) (2 + 1 + Z.of_nat (length (str "HI"))) s = str "HI")
    by (vm_compute; reflexivity).
  assert (H2 : 2 + 1 + Z.of_nat (length (str "HI")) < b_end s) by (vm_compute; reflexivity).
  assert (H3 : arr_get NUL (buffer s) (2 + 1 + Z.of_nat (length (str "HI"))) = QUOTE)
    by (vm_compute; reflexivity).
  assert (He : errorCode s = NO_ERROR) by reflexivity.
  clearbody s.
  destruct (print_string_word 0 w 2 s (str "HI") eq_refl He ltac:(lia) H1 H2 H3)
    as (s1 & Hs1 & _ & Hrun).
  - apply (bool_decide_unpack _). vm_compute. exact Logic.I.
  - apply (bool_decide_unpack _). vm_compute. exact Logic.I.
  - exists s1. split; [exact Hs1 | exact Hrun].
Defined.

(** * The arena across definitions *)

(** ** The arena across a compilation *)

Lemma block_ext (h h' : gmap positive wordNode) (a : positive) (ts : list wordType)
    (q : positive) :
  (∀ k, (a <= k)%positive → (k < q)%positive → h' !! k = h !! k) →
  block h a ts q → block h' a ts q.
Proof.
  revert a. induction ts as [| t ts IH]; intros a Hext H; simpl in *; [exact H |].
  destruct H as (nd & Ha & Ht & Hn & H).
  pose proof (block_le _ _ _ _ H) as Hle.
  exists nd. rewrite Hext by lia. repeat split; try assumption.
  apply IH; [| exact H]. intros k Hk1 Hk2. apply Hext; lia.
Qed.

(** [deleteDefinition] on a body that lies at the addresses from [a] to [q]:
    these addresses are freed and no other. *)
Lemma delete_block (ts : list wordType) :
  ∀ (a q : positive) (h : gmap positive wordNode) (n : nat) (last : wordNode) (k : positive),
    block h a ts q → h !! q = Some last → next last = NULL →
    (size h < n)%nat →
    deleteDefinition_from n (Some a) h !! k
    = if bool_decide ((a <= k)%positive ∧ (k <= q)%positive) then None else h !! k.
Proof.
  induction ts as [| t ts IH]; intros a q h n last k Hb Hq Hn Hsz.
  - simpl in Hb. subst a. destruct n as [| n]; [lia |]. simpl. rewrite Hq, Hn.
    assert (E : deleteDefinition_from n NULL (delete q h) = delete q h)
      by (destruct n; reflexivity).
    rewrite E. case_bool_decide as Hk.
    + destruct Hk as [Hk1 Hk2]. assert (k = q) by lia. subst k. apply lookup_delete_eq.
    + apply lookup_delete_ne. intros ->. apply Hk. split; lia.
  - simpl in Hb. destruct Hb as (nd & Ha & Ht & Hnx & Hb).
    pose proof (block_le _ _ _ _ Hb) as Hle.
    destruct n as [| n]; [lia |]. simpl. rewrite Ha, Hnx.
    rewrite (IH (Pos.succ a) q (delete a h) n last k).
    + case_bool_decide as H1; case_bool_decide as H2; try reflexivity.
      * exfalso. apply H2. destruct H1. split; lia.
      * destruct (decide (k = a)) as [-> | Hne]; [apply lookup_delete_eq |].
        exfalso. apply H1. destruct H2. split; lia.
      * apply lookup_delete_ne. intros ->. apply H2. split; lia.
    + apply (block_ext h); [| exact Hb].
      intros j Hj1 Hj2. apply lookup_delete_ne. lia.
    + rewrite lookup_delete_ne by lia. exact Hq.
    + exact Hn.
    + rewrite (map_size_delete_Some a h (mk_is_Some _ _ Ha)).
      pose proof (map_size_ne_0_lookup_2 h a (mk_is_Some _ _ Ha)).
      destruct (size h); simpl in *; lia.
Qed.

(** The scans of the patches return nodes of the body being compiled. *)
Lemma lastUndefinedDo_range (h : gmap positive wordNode) (ts : list wordType) :
  ∀ (a p : positive) (n : nat) (last r : ptr),
    block h a ts p →
    lastUndefinedDo h n (Some a) (Some p) last = Ok r →
    r = last ∨ ∃ d, r = Some d ∧ (a <= d)%positive ∧ (d < p)%positive.
Proof.
  induction ts as [| t ts IH]; intros a p n last r Hb H.
  - simpl in Hb. subst a. destruct n as [| n]; [discriminate |]. simpl in H.
    rewrite bool_decide_eq_true_2 in H by reflexivity. left. congruence.
  - simpl in Hb. destruct Hb as (nd & Ha & _ & Hnx & Hb).
    pose proof (block_le _ _ _ _ Hb) as Hle.
    destruct n as [| n]; [discriminate |]. simpl in H.
    rewrite bool_decide_eq_false_2 in H by (intros E; injection E; lia).
    rewrite Ha, Hnx in H. apply (IH _ _ _ _ _ Hb) in H.
    destruct H as [-> | (d & -> & H1 & H2)].
    + case_match; [right; exists a; split; [reflexivity | split; lia] | left; reflexivity].
    + right. exists d. split; [reflexivity | split; lia].
Qed.

Lemma lastUndefinedIfElse_range (h : gmap positive wordNode) (ts : list wordType) :
  ∀ (a p : positive) (n : nat) (lastIf lastElse ri re : ptr),
    block h a ts p →
    lastUndefinedIfElse h n (Some a) (Some p) lastIf lastElse = Ok (ri, re) →
    (ri = lastIf ∨ ∃ d, ri = Some d ∧ (a <= d)%positive ∧ (d < p)%positive)
    ∧ (re = lastElse ∨ ∃ d, re = Some d ∧ (a <= d)%positive ∧ (d < p)%positive).
Proof.
  induction ts as [| t ts IH]; intros a p n lastIf lastElse ri re Hb H.
  - simpl in Hb. subst a. destruct n as [| n]; [discriminate |]. simpl in H.
    rewrite bool_decide_eq_true_2 in H by reflexivity.
    injection H as <- <-. auto.
  - simpl in Hb. destruct Hb as (nd & Ha & _ & Hnx & Hb).
    pose proof (block_le _ _ _ _ Hb) as Hle.
    destruct n as [| n]; [discriminate |]. simpl in H.
    rewrite bool_decide_eq_false_2 in H by (intros E; injection E; lia).
    rewrite Ha, Hnx in H. apply (IH _ _ _ _ _ _ _ Hb) in H.
    destruct H as [Hi He]. split.
    + destruct Hi as [-> | (d & -> & H1 & H2)].
      * destruct (bool_decide (type (_word nd) = IF)
                  && bool_decide (wa_node (wa (_word nd)) = NULL));
          [right; exists a; split; [reflexivity | split; lia] | left; reflexivity].
      * right. exists d. split; [reflexivity | split; lia].
    + destruct He as [-> | (d & -> & H1 & H2)].
      * destruct (bool_decide (type (_word nd) = ELSE)
                  && bool_decide (wa_node (wa (_word nd)) = NULL));
          [right; exists a; split; [reflexivity | split; lia] | left; reflexivity].
      * right. exists d. split; [reflexivity | split; lia].
Qed.

Lemma lookup_store_wa_ne (d : positive) (v : workingArea) (s : state) (k : positive) :
  k ≠ d → heap (store_wa d v s) !! k = heap s !! k.
Proof. intros H. unfold store_wa. simpl. apply lookup_alter_ne. congruence. Qed.

Lemma lookup_store_word_ne (d : positive) (w : word_t) (s : state) (k : positive) :
  k ≠ d → heap (store_word d w s) !! k = heap s !! k.
Proof. intros H. unfold store_word. simpl. apply lookup_alter_ne. congruence. Qed.

(** The patches write into the body being compiled only. *)
Lemma patch_below (a0 p : positive) (T : list wordType) (w : word_t) (s s' : state) :
  block (heap s) a0 T p →
  match type w with
  | LOOP => patch_LOOP (Some a0) p s
  | THEN => patch_THEN (Some a0) p s
  | _ => Ok s
  end = Ok s' →
  ∀ k, (k < a0)%positive → heap s' !! k = heap s !! k.
Proof.
  intros Hb H k Hk. pose proof (block_le _ _ _ _ Hb) as Hle.
  destruct (type w); try (injection H as <-; reflexivity).
  - unfold patch_THEN in H.
    destruct (lastUndefinedIfElse (heap s) (patch_fuel s) (Some a0) (Some p) NULL NULL)
      as [[ri re] | | | |] eqn:Hscan; simpl in H; try discriminate.
    apply (lastUndefinedIfElse_range _ _ _ _ _ _ _ _ _ Hb) in Hscan.
    destruct Hscan as [Hi He].
    destruct ri as [i |]; [| injection H as <-; reflexivity].
    assert (Hia : (a0 <= i)%positive).
    { destruct Hi as [Hi | (d & Hd & H1 & _)]; [discriminate | congruence]. }
    destruct re as [e |].
    + assert (Hea : (a0 <= e)%positive).
      { destruct He as [He | (d & Hd & H1 & _)]; [discriminate | congruence]. }
      destruct (heap s !! e) as [nd |]; simpl in H; [| discriminate].
      assert (Hs : s' = _) by (symmetry; injection H; intros E; exact E). subst s'.
      rewrite !lookup_store_wa_ne by lia. reflexivity.
    + simpl in H.
      assert (Hs : s' = _) by (symmetry; injection H; intros E; exact E). subst s'.
      rewrite !lookup_store_wa_ne by lia. reflexivity.
  - unfold patch_LOOP in H.
    destruct (lastUndefinedDo (heap s) (patch_fuel s) (Some a0) (Some p) NULL)
      as [r | | | |] eqn:Hscan; simpl in H; try discriminate.
    apply (lastUndefinedDo_range _ _ _ _ _ _ _ Hb) in Hscan.
    destruct r as [d |]; [| injection H as <-; reflexivity].
    assert (Hda : (a0 <= d)%positive).
    { destruct Hscan as [Hd | (d' & Hd & H1 & _)]; [discriminate | congruence]. }
    assert (Hs : s' = _) by (symmetry; injection H; intros E; exact E). subst s'.
    rewrite !lookup_store_wa_ne by lia. reflexivity.
Qed.

(** One turn of the loop of the compiler writes at the addresses of the body
    only. *)
Lemma compile_word_below (fuel : nat) (a0 p : positive) (T : list wordType)
    (idx idx' : Z) (again : bool) (s s' : state) (t0 : wordType) :
  errorCode s = NO_ERROR →
  inWordDefinition s = true →
  block (heap s) a0 T p →
  shape (heap s) p = Some (t0, NULL) →
  compile_word (execWordStage1 fuel) (Some a0) p idx s = Ok (again, idx', s') →
  ∀ k, (k < a0)%positive → heap s' !! k = heap s !! k.
Proof.
  intros He Hin Hblk Hp H k Hk. pose proof (block_le _ _ _ _ Hblk) as Hle.
  unfold compile_word in H.
  destruct (expectWord (set_b_idx idx s)) as [i1 s1] eqn:Hew.
  apply expectWord_frame in Hew. destruct Hew as ((Hh1 & Hb1 & Hi1 & Hd1) & He1).
  simpl in Hh1, Hb1, Hi1, Hd1, He1.
  destruct (faulted s1) eqn:Hf1; [injection H as <- <- <-; congruence |].
  apply faulted_false_inv in Hf1.
  destruct (parseWord i1 (load_word p s1) s1) as [w2 s2] eqn:Hpw.
  apply parseWord_frame in Hpw. destruct Hpw as ((Hh2 & Hb2 & Hi2 & Hd2) & He2).
  assert (Hk2 : heap (store_word p w2 s2) !! k = heap s !! k).
  { rewrite lookup_store_word_ne by lia. congruence. }
  assert (Hblk2 : block (heap (store_word p w2 s2)) a0 T p).
  { apply block_shape with (h := heap s); [| exact Hblk].
    intros j Hj. rewrite shape_store_word_ne by lia. congruence. }
  destruct (faulted (store_word p w2 s2)) eqn:Hf2; [injection H as <- <- <-; exact Hk2 |].
  change (faulted (store_word p w2 s2)) with (faulted s2) in Hf2.
  apply faulted_false_inv in Hf2.
  destruct (execWordStage1 fuel w2 i1 (store_word p w2 s2))
    as [[[w3 i3] s3] | | | |] eqn:Hs1; simpl in H; try discriminate.
  apply stage1_in_definition in Hs1; [| exact Hf2 | simpl; congruence].
  destruct Hs1 as (Hh3 & Hb3 & Hi3 & Ht3 & Hd3 & Hn3 & Hn3').
  assert (Hk3 : heap (store_word p w3 s3) !! k = heap s !! k).
  { rewrite lookup_store_word_ne by lia. rewrite Hh3. exact Hk2. }
  assert (Hblk3 : block (heap (store_word p w3 s3)) a0 T p).
  { apply block_shape with (h := heap (store_word p w2 s2)); [| exact Hblk2].
    intros j Hj. rewrite shape_store_word_ne by lia. rewrite Hh3. reflexivity. }
  destruct (faulted (store_word p w3 s3)) eqn:Hf3; [injection H as <- <- <-; exact Hk3 |].
  destruct (match type w3 with
            | LOOP => patch_LOOP (Some a0) p (store_word p w3 s3)
            | THEN => patch_THEN (Some a0) p (store_word p w3 s3)
            | _ => Ok (store_word p w3 s3)
            end) as [s4 | | | |] eqn:Hpatch; simpl in H; try discriminate.
  pose proof (patch_below a0 p T w3 _ _ Hblk3 Hpatch k Hk) as Hk4.
  destruct (faulted s4); injection H as <- <- <-; congruence.
Qed.

(** The loop of the compiler: the body lies at the addresses from [a0] up to
    the last node, nothing is allocated beyond, and nothing below [a0] is
    written. *)
Lemma compile_loop_below (fuel : nat) :
  ∀ (start node : ptr) (idx : Z) (s : state) (a0 : positive) (T : list wordType)
    (start' node' : ptr) (idx' : Z) (s1 : state),
  errorCode s = NO_ERROR →
  inWordDefinition s = true →
  linked s a0 start node T →
  arena_ok s →
  compile_loop fuel start node idx s = Ok (start', node', idx', s1) →
  ∃ ts p last, start' = Some a0 ∧ node' = Some p
               ∧ block (heap s1) a0 ts p
               ∧ heap s1 !! p = Some last ∧ next last = NULL
               ∧ brk s1 = Pos.succ p ∧ arena_ok s1
               ∧ wordList s1 = wordList s
               ∧ ∀ k, (k < a0)%positive → heap s1 !! k = heap s !! k.
Proof.
  induction fuel as [| fuel IH];
    intros start node idx s a0 T start' node' idx' s1 He Hin Hl Har H; [discriminate |].
  rewrite compile_loop_S in H.
  assert (Hle0 : (a0 <= brk s)%positive).
  { destruct node as [n |]; simpl in Hl.
    - destruct Hl as (_ & Hb & ts & t & _ & Hblk & _).
      apply block_le in Hblk. lia.
    - destruct Hl as [_ ->]. lia. }
  assert (Hbel2 : ∀ k, (k < a0)%positive →
                       heap (append_node start node s).2 !! k = heap s !! k).
  { intros k Hk. unfold append_node, malloc. simpl.
    destruct node as [n |]; simpl.
    - destruct Hl as (_ & Hb & ts & t & _ & Hblk & _). apply block_le in Hblk.
      rewrite !lookup_alter_ne, lookup_insert_ne by lia. reflexivity.
    - rewrite lookup_alter_ne, lookup_insert_ne by lia. reflexivity. }
  assert (Har2 : arena_ok (append_node start node s).2).
  { pose proof (keeps1_append_node start node s) as K.
    intros k Hk. unfold append_node, malloc in *. simpl in *.
    destruct node as [n |]; simpl in *;
      rewrite ?lookup_alter_None, lookup_insert_ne by lia; apply Har; lia. }
  assert (Hwl2 : wordList (append_node start node s).2 = wordList s).
  { unfold append_node, malloc. simpl. destruct node; reflexivity. }
  destruct (append_node start node s) as [[start2 p] s2] eqn:Ha.
  simpl in Hbel2, Har2, Hwl2.
  apply (append_node_linked s s2 a0 p start start2 node T Hl) in Ha.
  destruct Ha as (-> & Hblk & Hp & Hb & He2 & Hi2 & Hd2).
  destruct (compile_word (execWordStage1 fuel) (Some a0) p idx s2)
    as [[[again i3] s3] | | | |] eqn:Hcw; simpl in H; try discriminate.
  pose proof (compile_word_below fuel a0 p T idx i3 again s2 s3 INTEGER
                ltac:(congruence) ltac:(congruence) Hblk Hp Hcw) as Hbel3.
  pose proof Hcw as Hq.
  apply keeps1_compile_word in Hq; [| | congruence].
  2:{ intros w i sa w' i' sb Hina Hs. apply (quiet_stage1 fuel w w' i i' sa sb); auto. }
  destruct Hq as (_ & Hwl3 & Hbrk3 & Hnone3 & _ & _).
  apply (compile_word_depth fuel (Some a0) a0 p T idx i3 again s2 s3 INTEGER) in Hcw;
    [| congruence | congruence | exact Hblk | exact Hp].
  destruct Hcw as (t & Hblk3 & Hp3 & Hb3 & Hi3 & Hd3 & Hag & Hst).
  assert (Har3 : arena_ok s3).
  { intros k Hk. apply Hnone3. apply Har2. rewrite <- Hbrk3. exact Hk. }
  destruct again.
  - specialize (Hag eq_refl).
    apply (IH _ _ _ _ a0 (T ++ [t])) in H; auto.
    + destruct H as (ts & p' & last & E1 & E2 & B & L & N & Bk & A & W & Bel).
      exists ts, p', last. repeat split; auto; try congruence.
      intros k Hk. rewrite (Bel k Hk), (Hbel3 k Hk). apply Hbel2. exact Hk.
    + simpl. split; [reflexivity |]. split; [congruence |]. exists T, t. auto.
  - injection H as <- <- <- <-.
    apply shape_lookup in Hp3. destruct Hp3 as (last & Hlast & _ & Hnx).
    exists T, p, last. repeat split; auto; try congruence.
    intros k Hk. rewrite (Hbel3 k Hk). apply Hbel2. exact Hk.
Qed.

Lemma search_absent (wl : list definedWordList) (name : list ascii) :
  name ∉ wordName <$> wl → searchForDefinedWord_in wl name = None.
Proof.
  induction wl as [| d wl IH]; intros H; simpl; [reflexivity |].
  rewrite fmap_cons in H. apply not_elem_of_cons in H. destruct H as [Hd Hn].
  rewrite bool_decide_eq_false_2 by congruence. rewrite IH by exact Hn. reflexivity.
Qed.

(** [deleteDefinition] on a compiled body, which lies at the addresses from
    [a] to [q]: these addresses are freed, every other address keeps its
    node. *)
Theorem deleteDefinition_frees_body
    (s : state) (a q : positive) (ts : list wordType) (last : wordNode) (k : positive) :
  block (heap s) a ts q →
  heap s !! q = Some last →
  next last = NULL →
  heap (deleteDefinition (Some a) s) !! k
  = if bool_decide ((a <= k)%positive ∧ (k <= q)%positive) then None else heap s !! k.
Proof.
  intros Hb Hq Hn.
  change (heap (deleteDefinition (Some a) s))
    with (deleteDefinition_from (S (size (heap s))) (Some a) (heap s)).
  apply (delete_block ts a q (heap s) _ last k Hb Hq Hn). lia.
Qed.

Lemma deleteDefinition_frees_body_witness :
  let s := state_of (interpret 1 9 [": SQ DUP * ;"%string]) in
  block (heap s) 1 [DUP; MULTIPLY] 3
  ∧ heap (deleteDefinition (Some 1%positive) s) !! 2%positive = None.
Proof.
  intros s.
  assert (Hb : block (heap s) 1 [DUP; MULTIPLY] 3).
  { eexists. split; [vm_compute; reflexivity |]. split; [reflexivity |].
    split; [reflexivity |].
    eexists. split; [vm_compute; reflexivity |]. split; [reflexivity |].
    split; reflexivity. }
  assert (Hl : heap s !! 3%positive
               = Some (mkNode (mkWord SEMICOLON (intValue 0)) NULL))
    by (vm_compute; reflexivity).
  clearbody s.
  split; [exact Hb |].
  rewrite (deleteDefinition_frees_body s 1 3 [DUP; MULTIPLY] _ 2 Hb Hl eq_refl).
  reflexivity.
Defined.

(** The arena across the compilation of a definition. A definition that ends
    with a fault leaves the arena and the dictionary as they were: every node
    allocated for it is freed. A definition of a new name that ends without a
    fault leaves every node allocated before as it was, and enters its body,
    which starts at the first address allocated, at the head of the
    dictionary. *)
Theorem definition_and_arena
    (fuel : nat) (w w' : word_t) (idx idx' : Z) (s s' : state) :
  type w = COLON →
  errorCode s = NO_ERROR →
  inWordDefinition s = false →
  arena_ok s →
  execWordStage1 (S fuel) w idx s = Ok (w', idx', s') →
  let r := expectWord (set_b_idx idx (set_inWordDefinition true s)) in
  let name := cstr (span (b_idx r.2) r.1 r.2) in
  (errorCode s' ≠ NO_ERROR → heap s' = heap s ∧ wordList s' = wordList s)
  ∧ (errorCode s' = NO_ERROR → name ∉ names s →
     wa w' = nodeValue (Some (brk s))
     ∧ wordList s' = mkDefined name (Some (brk s)) :: wordList s
     ∧ ∀ k, (k < brk s)%positive → heap s' !! k = heap s !! k).
Proof.
  intros Hw He Hin Har H. cbv zeta. simpl in H.
  rewrite (faulted_false s He), Hw, Hin in H.
  pose proof (quiet_expectWord (set_b_idx idx (set_inWordDefinition true s))) as Q0.
  pose proof (expectWord_frame (set_b_idx idx (set_inWordDefinition true s))) as F0.
  destruct (expectWord (set_b_idx idx (set_inWordDefinition true s))) as [i0 s0].
  cbn [fst snd] in Q0 |- *.
  specialize (F0 s0 i0 eq_refl). destruct F0 as ((Hh0 & Hb0 & Hi0 & _) & _).
  simpl in Hh0, Hb0, Hi0.
  destruct Q0 as (_ & Hwl0 & _ & _ & _ & _). simpl in Hwl0.
  set (name := cstr (span (b_idx s0) i0 s0)) in *.
  destruct (faulted s0) eqn:Hf0.
  { injection H as <- <- <-. split; [auto |].
    intros E. apply faulted_true_inv in Hf0. contradiction. }
  apply faulted_false_inv in Hf0.
  destruct (compile_loop fuel NULL NULL i0 s0) as [[[[start node] i1] s1] | | | |] eqn:Hcl;
    simpl in H; try discriminate.
  apply (compile_loop_below fuel NULL NULL i0 s0 (brk s) []) in Hcl;
    [| exact Hf0 | exact Hi0 | simpl; auto
     | intros k Hk; rewrite Hh0; apply Har; rewrite <- Hb0; exact Hk].
  destruct Hcl as (ts & p & last & -> & -> & Hblk & Hlast & Hnx & Hbrk & Har1 & Hwl1 & Hbel).
  pose proof (block_le _ _ _ _ Hblk) as Hle.
  unfold endDefinition in H.
  destruct (faulted s1) eqn:Hf1.
  - injection H as <- <- <-.
    change (errorCode (set_inWordDefinition false (deleteDefinition (Some (brk s)) s1)))
      with (errorCode s1).
    change (wordList (set_inWordDefinition false (deleteDefinition (Some (brk s)) s1)))
      with (wordList s1).
    change (heap (set_inWordDefinition false (deleteDefinition (Some (brk s)) s1)))
      with (deleteDefinition_from (S (size (heap s1))) (Some (brk s)) (heap s1)).
    split.
    + intros _. split; [| congruence].
      apply map_eq. intros k.
      rewrite (delete_block ts (brk s) p (heap s1) _ last k Hblk Hlast Hnx) by lia.
      case_bool_decide as Hk.
      * symmetry. apply Har. lia.
      * destruct (decide (k < brk s)%positive) as [Hlt | Hge].
        { rewrite (Hbel k Hlt). congruence. }
        assert (Hgt : (p < k)%positive).
        { destruct (decide (k <= p)%positive); [exfalso; apply Hk; split; lia | lia]. }
        rewrite (Har1 k) by lia. symmetry. apply Har. lia.
    + intros E. apply faulted_true_inv in Hf1. contradiction.
  - apply faulted_false_inv in Hf1. split.
    + intros Hne. exfalso. apply Hne.
      destruct (searchForDefinedWord name s1); injection H as <- <- <-; exact Hf1.
    + intros _ Hnew. unfold searchForDefinedWord in H.
      rewrite Hwl1, Hwl0 in H. simpl in H.
      rewrite (search_absent _ _ Hnew) in H. injection H as <- <- <-. simpl.
      split; [reflexivity |]. split; [congruence |].
      intros k Hk. rewrite (Hbel k Hk). congruence.
Qed.

Lemma definition_and_arena_witness :
  let s := set_b_end 7 (getIn (str ": A 1 ;") initial) in
  let w := mkWord COLON (intValue 0) in
  let r := match execWordStage1 9 w 1 s with Ok r => r | _ => (w, 0, s) end in
  execWordStage1 9 w 1 s = Ok r
  ∧ arena_ok s
  ∧ wa r.1.1 = nodeValue (Some (brk s))
  ∧ wordList r.2 = mkDefined (str "A") (Some (brk s)) :: wordList s.
Proof.
  intros s w r.
  assert (Hrun : execWordStage1 9 w 1 s = Ok (r.1.1, r.1.2, r.2))
    by (vm_compute; reflexivity).
  assert (He' : errorCode r.2 = NO_ERROR) by (vm_compute; reflexivity).
  assert (Ha : arena_ok s) by (intros k _; apply lookup_empty).
  assert (Hname : cstr (span (b_idx (expectWord (set_b_idx 1 (set_inWordDefinition true s))).2)
                    (expectWord (set_b_idx 1 (set_inWordDefinition true s))).1
                    (expectWord (set_b_idx 1 (set_inWordDefinition true s))).2) = str "A")
    by (vm_compute; reflexivity).
  split; [vm_compute; reflexivity |]. split; [exact Ha |].
  destruct (proj2 (definition_and_arena 8 w r.1.1 1 r.1.2 s r.2 eq_refl eq_refl eq_refl
                     Ha Hrun) He') as (H1 & H2 & _).
  - rewrite Hname. vm_compute. apply not_elem_of_nil.
  - split; [exact H1 |]. rewrite Hname in H2. exact H2.
Defined.

(** The invariant of the interpreter: after any number of statements of any
    lines typed from power-up, the tops of the data stack, of the
    construction stack and of the loop stack are within their arrays, no two
    entries of the dictionary have the same name, no node is allocated at or
    beyond the next free address, and the interpreter is not inside a
    definition. *)
Theorem interpreter_invariant (n fuel : nat) (lines : list string) (s : state) :
  interpret n fuel lines = Ok s →
  in_bounds s ∧ NoDup (names s) ∧ arena_ok s ∧ inWordDefinition s = false.
Proof.
  intros H. destruct (interpret_at_rest n fuel lines s H) as ((Hb & Hn & Ha) & Hf).
  auto.
Qed.

Lemma interpreter_invariant_witness :
  let s := state_of (interpret 3 20 [": A 1 ; : A 2 ; : B IF"%string]) in
  interpret 3 20 [": A 1 ; : A 2 ; : B IF"%string] = Ok s
  ∧ in_bounds s ∧ NoDup (names s) ∧ arena_ok s ∧ inWordDefinition s = false.
Proof.
  intros s.
  assert (H : interpret 3 20 [": A 1 ; : A 2 ; : B IF"%string] = Ok s)
    by (vm_compute; reflexivity).
  split; [exact H |]. exact (interpreter_invariant _ _ _ _ H).
Defined.

(** Executing a word, a built-in one or a defined one with its loops,
    conditionals and calls, never changes what the compiler owns: the read
    position and the end of the line, the construction stack, the strings,
    the dictionary, the nodes and the flag of the definition; and it keeps
    the tops of the three stacks within their arrays. *)
Theorem execution_leaves_compiler_state
    (fuel : nat) (w : word_t) (node r : ptr) (s s' : state) :
  execWordStage2 fuel w node s = Ok (r, s') →
  kept_by_stage2 s s' ∧ (in_bounds s → in_bounds s').
Proof.
  intros H. destruct (proj1 (stage2_keeps fuel) w node s r s' H) as [Hb Hk].
  split; assumption.
Qed.

Lemma execution_leaves_compiler_state_witness :
  let s := state_of (interpret 3 20 [": SQ DUP * ; 3 4"%string]) in
  let w := mkWord DEFINED_WORD (nodeValue (Some 1%positive)) in
  let r := match execWordStage2 9 w NULL s with Ok r => r | _ => (NULL, s) end in
  execWordStage2 9 w NULL s = Ok r
  ∧ take 2 (stack r.2) = [3; 16]
  ∧ kept_by_stage2 s r.2 ∧ (in_bounds s → in_bounds r.2).
Proof.
  intros s w r.
  assert (H : execWordStage2 9 w NULL s = Ok (r.1, r.2)) by (vm_compute; reflexivity).
  split; [vm_compute; reflexivity |]. split; [vm_compute; reflexivity |].
  exact (execution_leaves_compiler_state _ _ _ _ _ _ H).
Defined.

(** Compiling never touches what the executor owns: stage 1 of any word, a
    whole definition included, leaves the data stack, the loop stack, the
    line being read, the flag of the pending line break and the keys not yet
    read as they are, and it keeps the invariant of the interpreter. *)
Theorem compilation_leaves_data_stack
    (fuel : nat) (w w' : word_t) (idx idx' : Z) (s s' : state) :
  execWordStage1 fuel w idx s = Ok (w', idx', s') →
  kept_by_stage1 s s' ∧ (invariant s → invariant s').
Proof.
  intros H. destruct (proj1 (stage1_keeps fuel) w idx s w' idx' s' H) as [Hi Hk].
  split; assumption.
Qed.

Lemma compilation_leaves_data_stack_witness :
  let s := set_b_end 8 (getIn (str ": A IF ;") initial) in
  let w := mkWord COLON (intValue 0) in
  let r := match execWordStage1 9 w 1 s with Ok r => r | _ => (w, 0, s) end in
  execWordStage1 9 w 1 s = Ok r
  ∧ kept_by_stage1 s r.2 ∧ (invariant s → invariant r.2).
Proof.
  intros s w r.
  assert (Hrun : execWordStage1 9 w 1 s = Ok (r.1.1, r.1.2, r.2))
    by (vm_compute; reflexivity).
  split; [vm_compute; reflexivity |].
  exact (compilation_leaves_data_stack _ _ _ _ _ _ _ Hrun).
Defined.

(** The control words at the prompt: whatever was typed before, a definition
    that failed halfway included, stage 1 of [IF], [DO], [ELSE], [THEN], [I]
    and [LOOP] in the next statement raises [OUTSIDE_WORD_DEFINITION] and
    changes nothing else. *)
Theorem control_words_at_the_prompt
    (n fuel : nat) (lines : list string) (s : state) (f : nat) (w : word_t) (idx : Z) :
  interpret n fuel lines = Ok s →
  type w ∈ [IF; DO; ELSE; THEN; I; LOOP] →
  execWordStage1 (S f) w idx (set_errorCode NO_ERROR s)
  = Ok (w, idx, set_errorCode OUTSIDE_WORD_DEFINITION (set_errorCode NO_ERROR s)).
Proof.
  intros H Hw. destruct (interpret_at_rest n fuel lines s H) as [_ Hf].
  cbn [execWordStage1].
  unfold stage1_open, stage1_ELSE_THEN, stage1_I, stage1_LOOP, fault, faulted.
  cbn [errorCode inWordDefinition set_errorCode]. rewrite Hf.
  rewrite bool_decide_eq_false_2 by (intros E; apply E; reflexivity).
  cbn [negb].
  repeat (apply elem_of_cons in Hw; destruct Hw as [-> | Hw]; [reflexivity |]).
  apply elem_of_nil in Hw. destruct Hw.
Qed.

Lemma control_words_at_the_prompt_witness :
  let s := state_of (interpret 1 20 [": B IF LOOP ;"%string]) in
  interpret 1 20 [": B IF LOOP ;"%string] = Ok s
  ∧ errorCode s = INVALID_CONSTRUCTION
  ∧ execWordStage1 1 (mkWord LOOP (intValue 0)) 0 (set_errorCode NO_ERROR s)
    = Ok (mkWord LOOP (intValue 0), 0,
          set_errorCode OUTSIDE_WORD_DEFINITION (set_errorCode NO_ERROR s)).
Proof.
  intros s.
  assert (H : interpret 1 20 [": B IF LOOP ;"%string] = Ok s) by (vm_compute; reflexivity).
  split; [exact H |]. split; [vm_compute; reflexivity |].
  apply (control_words_at_the_prompt _ _ _ _ _ _ _ H).
  apply (bool_decide_unpack _). vm_compute. exact Logic.I.
Defined.

(** * The console *)

Section ConsoleProperties.

Import Console.

Lemma length_scroll_up (n : nat) (i : Z) (scr : list ascii) :
  length (scroll_up n i scr) = length scr.
Proof.
  revert i scr. induction n as [| n IH]; intros i scr; simpl; [reflexivity |].
  rewrite IH. unfold arr_set. apply length_insert.
Qed.

Lemma length_fill_blank (n : nat) (i : Z) (scr : list ascii) :
  length (fill_blank n i scr) = length scr.
Proof.
  revert i scr. induction n as [| n IH]; intros i scr; simpl; [reflexivity |].
  rewrite IH. unfold arr_set. apply length_insert.
Qed.

Lemma redraw_fields (n : nat) (i : Z) (cs : console) :
  screen (redraw n i cs) = screen cs ∧ sX (redraw n i cs) = sX cs
  ∧ sY (redraw n i cs) = sY cs ∧ beeps (redraw n i cs) = beeps cs.
Proof.
  revert i cs. induction n as [| n IH]; intros i cs; simpl; [auto |].
  destruct (IH (i + 1) (drawGlyph (Z.land i 15) (Z.shiftr i 4) (arr_get NUL (screen cs) i) cs))
    as (-> & -> & -> & ->). auto.
Qed.

Lemma scrollScreen_fields (cs : console) :
  sX (scrollScreen cs) = sX cs ∧ sY (scrollScreen cs) = sY cs
  ∧ length (screen (scrollScreen cs)) = length (screen cs)
  ∧ beeps (scrollScreen cs) = beeps cs.
Proof.
  unfold scrollScreen.
  match goal with |- context [redraw ?n ?i ?c] =>
    destruct (redraw_fields n i c) as (-> & -> & -> & ->) end.
  cbn [screen sX sY beeps set_screen].
  rewrite length_fill_blank, length_scroll_up. auto.
Qed.

Lemma cursor_screenSet (c : ascii) (cs : console) :
  cursor_ok cs → cursor_ok (screenSet c cs)
  ∧ sX (screenSet c cs) = sX cs ∧ sY (screenSet c cs) = sY cs.
Proof.
  unfold cursor_ok, screenSet. simpl. unfold arr_set. rewrite length_insert. auto.
Qed.

Lemma newLine_eq (cs : console) :
  newLine cs
  = if 7 <? sY cs + 1
    then set_sY 7 (scrollScreen (set_sY (sY cs + 1) (set_sX 0 cs)))
    else set_sY (sY cs + 1) (set_sX 0 cs).
Proof. reflexivity. Qed.

Lemma cursor_newLine (cs : console) :
  0 <= sY cs <= 7 → length (screen cs) = Z.to_nat SCREEN_SIZE →
  cursor_ok (newLine cs)
  ∧ sX (newLine cs) = 0
  ∧ sY (newLine cs) = Z.min (sY cs + 1) 7.
Proof.
  intros Hy Hlen. rewrite newLine_eq.
  destruct (Z.ltb_spec 7 (sY cs + 1)).
  - destruct (scrollScreen_fields (set_sY (sY cs + 1) (set_sX 0 cs))) as (Hx & _ & Hl & _).
    revert Hx Hl. generalize (scrollScreen (set_sY (sY cs + 1) (set_sX 0 cs))).
    intros T Hx Hl. unfold cursor_ok. cbn [sX sY screen set_sX set_sY] in *.
    rewrite Hx, Hl. repeat split; try lia; try exact Hlen.
  - unfold cursor_ok. cbn [sX sY screen set_sX set_sY]. repeat split; try lia; try exact Hlen.
Qed.

Lemma cursor_advance (cs : console) :
  cursor_ok cs → cursor_ok (advance cs).
Proof.
  intros (Hx & Hy & Hlen). unfold advance. cbn [sX set_sX].
  destruct (Z.ltb_spec 15 (sX cs + 1)).
  - apply cursor_newLine; assumption.
  - unfold cursor_ok. cbn [sX sY screen set_sX]. repeat split; try lia; try exact Hlen.
Qed.

Lemma cursor_printStringD (str : list ascii) (n : Z) (cs : console) :
  cursor_ok cs → cursor_ok (printStringD str n cs).
Proof.
  revert n cs. induction str as [| c r IH]; intros n cs H; simpl; [exact H |].
  destruct (bool_decide (c = NUL) || (n =? 0)); [exact H |].
  apply IH. apply cursor_advance. apply cursor_screenSet. exact H.
Qed.

Lemma cursor_blink (n : nat) (b : bool) (cs : console) :
  cursor_ok cs → cursor_ok (blink n b cs)
  ∧ sX (blink n b cs) = sX cs ∧ sY (blink n b cs) = sY cs.
Proof.
  revert b cs. induction n as [| n IH]; intros b cs H; simpl; [auto |].
  destruct (cursor_screenSet (if negb b then "_"%char else SPACE) cs H) as (H1 & Hx & Hy).
  destruct (IH (negb b) _ H1) as (H2 & -> & ->). auto.
Qed.

(** While a line is typed the cursor is at least as far from the top of the
    screen as the line is long: a backspace never takes it above the screen,
    and the cycle never calls [syncToBuffer]. *)
Lemma getIn_from_sync (sync1 sync2 : Z → list ascii → console → console)
    (keys : list (nat * key)) (bufferSize : Z) :
  bufferSize <= 113 →
  ∀ (buffer : list ascii) (i : Z) (cs : console),
    cursor_ok cs → 0 <= i <= position cs →
    getIn_from sync1 keys buffer bufferSize i cs
    = getIn_from sync2 keys buffer bufferSize i cs.
Proof.
  intros Hsize. induction keys as [| [blinks k] keys IH]; intros buffer i cs Hc Hi;
    [reflexivity |].
  unfold position in *. cbn [getIn_from].
  destruct (cursor_blink blinks false cs Hc) as (Hc1 & Hx1 & Hy1).
  fold (displayCarret blinks cs) in Hc1, Hx1, Hy1.
  set (cs1 := displayCarret blinks cs) in *.
  destruct k as [| | | c].
  - reflexivity.
  - destruct (Z.eqb_spec i 0) as [-> | Hne].
    + apply IH; [exact Hc1 | unfold position; cbn [sX sY beep]; lia].
    + destruct (cursor_screenSet SPACE cs1 Hc1) as (Hc2 & Hx2 & Hy2).
      set (cs2 := screenSet SPACE cs1) in *.
      destruct Hc2 as (Hx & Hy & Hlen).
      cbn [sX sY set_sX set_sY].
      destruct (Z.ltb_spec (sX cs2 - 1) 0) as [Hlt | Hge].
      * destruct (Z.ltb_spec (sY cs2 - 1) 0) as [Hlt' | Hge']; [lia |].
        apply IH; [| unfold position; cbn [sX sY set_sX set_sY]; lia].
        unfold cursor_ok. cbn [sX sY screen set_sX set_sY].
        repeat split; try lia; try exact Hlen.
      * apply IH; [| unfold position; cbn [sX sY set_sX]; lia].
        unfold cursor_ok. cbn [sX sY screen set_sX]. repeat split; try lia; try exact Hlen.
  - apply IH; [exact Hc1 | unfold position; cbn [sX sY beep]; lia].
  - destruct (c <? 161); [| apply IH; [exact Hc1 | unfold position; lia]].
    destruct (Z.ltb_spec (bufferSize - i) 2).
    + apply IH; [exact Hc1 | unfold position; cbn [sX sY beep]; lia].
    + destruct (cursor_screenSet (toupper (char_of c)) cs1 Hc1) as (Hc2 & Hx2 & Hy2).
      set (cs2 := screenSet (toupper (char_of c)) cs1) in *.
      apply IH; [apply cursor_advance; exact Hc2 |].
      destruct Hc2 as (Hx & Hy & Hlen).
      unfold position, advance. cbn [sX set_sX].
      destruct (Z.ltb_spec 15 (sX cs2 + 1)).
      * destruct (cursor_newLine (set_sX (sX cs2 + 1) cs2)) as (_ & Ex & Ey);
          [exact Hy | exact Hlen |].
        rewrite Ex, Ey. cbn [sY set_sX]. lia.
      * cbn [sX sY set_sX]. lia.
Qed.

Lemma kept_blink (P : console → Prop) (n : nat) (b : bool) (cs : console) :
  kept_by_keys P → cursor_ok cs → P cs → P (blink n b cs).
Proof.
  intros HP. revert b cs. induction n as [| n IH]; intros b cs Hc H; simpl; [exact H |].
  apply IH; [apply cursor_screenSet; exact Hc |].
  destruct HP as (R1 & _). apply R1; assumption.
Qed.

Lemma kept_advance (P : console → Prop) (cs : console) :
  kept_by_keys P → cursor_ok cs → P cs → P (advance cs).
Proof.
  intros (_ & R2 & R3 & _) (Hx & Hy & Hlen) H. unfold advance. cbn [sX set_sX].
  destruct (15 <? sX cs + 1); [| apply R3; exact H].
  apply R2; [exact Hy | exact Hlen | apply R3; exact H].
Qed.

Lemma kept_printStringD (P : console → Prop) (str : list ascii) (n : Z) (cs : console) :
  kept_by_keys P → cursor_ok cs → P cs → P (printStringD str n cs).
Proof.
  intros HP. revert n cs. induction str as [| c r IH]; intros n cs Hc H; simpl;
    [exact H |].
  destruct (bool_decide (c = NUL) || (n =? 0)); [exact H |].
  destruct (cursor_screenSet c cs Hc) as (Hc1 & _ & _).
  apply IH; [apply cursor_advance; exact Hc1 |].
  apply kept_advance; [exact HP | exact Hc1 |].
  destruct HP as (R1 & _). apply R1; assumption.
Qed.

Lemma getIn_from_kept (P : console → Prop)
    (sync : Z → list ascii → console → console)
    (keys : list (nat * key)) (bufferSize : Z) :
  kept_by_keys P →
  bufferSize <= 113 →
  ∀ (buffer : list ascii) (i : Z) (cs : console) buffer' cs' rest,
    cursor_ok cs → 0 <= i <= position cs → P cs →
    getIn_from sync keys buffer bufferSize i cs = Ok (buffer', cs', rest) →
    cursor_ok cs' ∧ P cs'.
Proof.
  intros HP Hsize. pose proof HP as (R1 & R2 & R3 & R4 & R5).
  induction keys as [| [blinks k] keys IH];
    intros buffer i cs buffer' cs' rest Hc Hi HP0 H; [discriminate |].
  unfold position in *. cbn [getIn_from] in H.
  destruct (cursor_blink blinks false cs Hc) as (Hc1 & Hx1 & Hy1).
  pose proof (kept_blink P blinks false cs HP Hc HP0) as HP1.
  fold (displayCarret blinks cs) in Hc1, Hx1, Hy1, HP1.
  set (cs1 := displayCarret blinks cs) in *.
  destruct k as [| | | c].
  - injection H as <- <- <-.
    destruct (cursor_screenSet SPACE cs1 Hc1) as (Hc2 & Hx2 & Hy2).
    destruct Hc2 as (Hx & Hy & Hlen).
    split; [apply cursor_newLine; assumption |].
    apply R2; [exact Hy | exact Hlen |]. apply R1; assumption.
  - destruct (Z.eqb_spec i 0) as [-> | Hne].
    + apply (IH _ _ _ _ _ _) in H; [exact H | exact Hc1 | | apply R5; exact HP1].
      unfold position. cbn [sX sY beep]. lia.
    + destruct (cursor_screenSet SPACE cs1 Hc1) as (Hc2 & Hx2 & Hy2).
      pose proof (R1 cs1 SPACE Hc1 HP1) as HP2.
      set (cs2 := screenSet SPACE cs1) in *.
      destruct Hc2 as (Hx & Hy & Hlen).
      cbn [sX sY set_sX set_sY] in H.
      destruct (Z.ltb_spec (sX cs2 - 1) 0) as [Hlt | Hge].
      * destruct (Z.ltb_spec (sY cs2 - 1) 0) as [Hlt' | Hge']; [lia |].
        apply (IH _ _ _ _ _ _) in H; [exact H | | | apply R4, R3, R3; exact HP2].
        { unfold cursor_ok. cbn [sX sY screen set_sX set_sY].
          repeat split; try lia; try exact Hlen. }
        unfold position. cbn [sX sY set_sX set_sY]. lia.
      * apply (IH _ _ _ _ _ _) in H; [exact H | | | apply R3; exact HP2].
        { unfold cursor_ok. cbn [sX sY screen set_sX].
          repeat split; try lia; try exact Hlen. }
        unfold position. cbn [sX sY set_sX]. lia.
  - apply (IH _ _ _ _ _ _) in H; [exact H | exact Hc1 | | apply R5; exact HP1].
    unfold position. cbn [sX sY beep]. lia.
  - destruct (c <? 161).
    2:{ apply (IH _ _ _ _ _ _) in H; [exact H | exact Hc1 | unfold position; lia | exact HP1]. }
    destruct (Z.ltb_spec (bufferSize - i) 2).
    + apply (IH _ _ _ _ _ _) in H; [exact H | exact Hc1 | | apply R5; exact HP1].
      unfold position. cbn [sX sY beep]. lia.
    + destruct (cursor_screenSet (toupper (char_of c)) cs1 Hc1) as (Hc2 & Hx2 & Hy2).
      pose proof (R1 cs1 (toupper (char_of c)) Hc1 HP1) as HP2.
      set (cs2 := screenSet (toupper (char_of c)) cs1) in *.
      apply (IH _ _ _ _ _ _) in H; [exact H | apply cursor_advance; exact Hc2 |
                                    | apply kept_advance; assumption].
      destruct Hc2 as (Hx & Hy & Hlen).
      unfold position, advance. cbn [sX set_sX].
      destruct (Z.ltb_spec 15 (sX cs2 + 1)).
      * destruct (cursor_newLine (set_sX (sX cs2 + 1) cs2)) as (_ & Ex & Ey);
          [exact Hy | exact Hlen |].
        rewrite Ex, Ey. cbn [sY set_sX]. lia.
      * cbn [sX sY set_sX]. lia.
Qed.

Lemma kept_True : kept_by_keys (fun _ => True).
Proof. unfold kept_by_keys. auto. Qed.

(** *** The line typed *)

Lemma take_arr_set_snoc {A} (l : list A) (acc : list A) (c : A) :
  take (length acc) l = acc → (length acc < length l)%nat →
  take (length (acc ++ [c])) (arr_set l (Z.of_nat (length acc)) c) = acc ++ [c].
Proof.
  intros Ht Hlt. unfold arr_set. rewrite Nat2Z.id, length_app. simpl.
  rewrite Nat.add_1_r, (take_S_r _ _ c).
  - rewrite take_insert_ge by lia. rewrite Ht. reflexivity.
  - apply list_lookup_insert_eq. exact Hlt.
Qed.

Lemma take_removelast {A} (l acc : list A) :
  take (length acc) l = acc →
  take (length (removelast acc)) l = removelast acc.
Proof.
  intros Ht. destruct (decide (acc = [])) as [-> | Hne]; [reflexivity |].
  destruct (exists_last Hne) as (r & x & ->).
  rewrite removelast_last. rewrite length_app in Ht. simpl in Ht.
  replace (length r) with (length r `min` (length r + 1))%nat at 1 by lia.
  rewrite <- take_take, Ht. apply take_app_length.
Qed.

Lemma length_removelast_pos {A} (acc : list A) :
  acc ≠ [] → S (length (removelast acc)) = length acc.
Proof.
  intros Hne. destruct (exists_last Hne) as (r & x & ->).
  rewrite removelast_last, length_app. simpl. lia.
Qed.

Lemma getIn_from_line (sync : Z → list ascii → console → console)
    (keys : list (nat * key)) (bufferSize : Z) :
  ENTER ∈ keys.*2 →
  ∀ (buffer acc : list ascii) (cs : console),
    take (length acc) buffer = acc →
    Z.of_nat (length acc) < bufferSize <= Z.of_nat (length buffer) →
    ∃ buffer' cs' pre n rest,
      getIn_from sync keys buffer bufferSize (Z.of_nat (length acc)) cs
      = Ok (buffer', cs', rest)
      ∧ keys = pre ++ (n, ENTER) :: rest ∧ (ENTER ∉ pre.*2)
      ∧ length buffer' = length buffer
      ∧ (let t := typed keys bufferSize acc in
         take (length t) buffer' = t
         ∧ buffer' !! length t = Some NUL
         ∧ Z.of_nat (length t) < bufferSize).
Proof.
  induction keys as [| [blinks k] keys IH]; intros Hin buffer acc cs Ht Hsz.
  { simpl in Hin. apply elem_of_nil in Hin. destruct Hin. }
  cbn [getIn_from typed].
  assert (Hrest : k ≠ ENTER → ENTER ∈ keys.*2).
  { intros Hk. simpl in Hin. apply elem_of_cons in Hin. destruct Hin as [E | E]; [| exact E].
    simpl in E. congruence. }
  assert (Hcons : ∀ (b : list ascii) (c : list ascii → Prop)
                     (r : outcome (list ascii * console * list (nat * key))), k ≠ ENTER →
            (∃ buffer' cs' pre n rest, r = Ok (buffer', cs', rest)
               ∧ keys = pre ++ (n, ENTER) :: rest ∧ (ENTER ∉ pre.*2)
               ∧ length buffer' = length b ∧ c buffer') →
            length b = length buffer →
            ∃ buffer' cs' pre n rest, r = Ok (buffer', cs', rest)
               ∧ (blinks, k) :: keys = pre ++ (n, ENTER) :: rest ∧ (ENTER ∉ pre.*2)
               ∧ length buffer' = length buffer ∧ c buffer').
  { intros b c r Hk (b' & cs' & pre & n & rest & E1 & E2 & E3 & E4 & E5) Hb.
    exists b', cs', ((blinks, k) :: pre), n, rest.
    split; [exact E1 |]. split; [rewrite E2; reflexivity |].
    split; [| split; [congruence | exact E5]].
    simpl. apply not_elem_of_cons. split; [congruence | exact E3]. }
  destruct k as [| | | c].
  - exists (arr_set buffer (Z.of_nat (length acc)) NUL), (newLine (screenSet SPACE (displayCarret blinks cs))),
      [], blinks, keys.
    split; [reflexivity |]. split; [reflexivity |].
    split; [simpl; apply not_elem_of_nil |].
    unfold arr_set. rewrite Nat2Z.id.
    split; [apply length_insert |]. cbv zeta.
    split; [rewrite take_insert_ge by lia; exact Ht |].
    split; [apply list_lookup_insert_eq; lia | lia].
  - destruct (Z.eqb_spec (Z.of_nat (length acc)) 0) as [E | E].
    + destruct acc; [| simpl in E; lia]. simpl removelast.
      apply (Hcons buffer); [discriminate | | reflexivity].
      apply (IH (Hrest ltac:(discriminate)) buffer [] _ Ht Hsz).
    + assert (Hne : acc ≠ []) by (intros ->; simpl in E; lia).
      pose proof (length_removelast_pos acc Hne) as Hl.
      replace (Z.of_nat (length acc) - 1) with (Z.of_nat (length (removelast acc))) by lia.
      apply (Hcons buffer); [discriminate | | reflexivity].
      apply (IH (Hrest ltac:(discriminate)) buffer (removelast acc)).
      * apply take_removelast. exact Ht.
      * lia.
  - apply (Hcons buffer); [discriminate | | reflexivity].
    apply (IH (Hrest ltac:(discriminate)) buffer acc _ Ht Hsz).
  - destruct (c <? 161); cbn [andb].
    2:{ apply (Hcons buffer); [discriminate | | reflexivity].
        apply (IH (Hrest ltac:(discriminate)) buffer acc _ Ht Hsz). }
    destruct (Z.ltb_spec (bufferSize - Z.of_nat (length acc)) 2) as [Hlt | Hge];
      destruct (Z.leb_spec (Z.of_nat (length acc) + 2) bufferSize) as [Hle | Hgt]; try lia.
    + apply (Hcons buffer); [discriminate | | reflexivity].
      apply (IH (Hrest ltac:(discriminate)) buffer acc _ Ht Hsz).
    + replace (Z.of_nat (length acc) + 1)
        with (Z.of_nat (length (acc ++ [toupper (char_of c)])))
        by (rewrite length_app; simpl; lia).
      apply (Hcons (arr_set buffer (Z.of_nat (length acc)) (toupper (char_of c))));
        [discriminate | | unfold arr_set; apply length_insert].
      apply (IH (Hrest ltac:(discriminate))).
      * apply take_arr_set_snoc; [exact Ht | lia].
      * unfold arr_set. rewrite length_insert, length_app. simpl. lia.
Qed.

Lemma cstr_terminated (t r : list ascii) :
  NUL ∉ t → cstr (t ++ NUL :: r) = t.
Proof.
  induction t as [| c t IH]; intros H; [reflexivity |]. cbn [app cstr].
  apply not_elem_of_cons in H. destruct H as [Hc Ht].
  rewrite bool_decide_eq_false_2 by congruence. rewrite IH by exact Ht. reflexivity.
Qed.

Lemma cstr_of_take (b t : list ascii) :
  take (length t) b = t → b !! length t = Some NUL → NUL ∉ t → cstr b = t.
Proof.
  intros Ht Hn Hz.
  rewrite <- (take_drop (length t) b), Ht.
  rewrite (drop_S _ NUL _ Hn). apply cstr_terminated. exact Hz.
Qed.

(** *** The display and the array *)

Lemma cell_split (i : Z) : 0 <= i → i = Z.land i 15 + 16 * Z.shiftr i 4.
Proof.
  intros Hi. change 15 with (Z.ones 4). rewrite Z.land_ones by lia.
  rewrite Z.shiftr_div_pow2 by lia. change (2 ^ 4) with 16.
  pose proof (Z.div_mod i 16). lia.
Qed.

Lemma cell_of (x y : Z) :
  0 <= x <= 15 → 0 <= y →
  Z.land (x + 16 * y) 15 = x ∧ Z.shiftr (x + 16 * y) 4 = y.
Proof.
  intros Hx Hy. change 15 with (Z.ones 4). rewrite Z.land_ones by lia.
  rewrite Z.shiftr_div_pow2 by lia. change (2 ^ 4) with 16.
  split.
  - symmetry. apply (Z.mod_unique_pos _ _ y); lia.
  - symmetry. apply (Z.div_unique_pos _ _ _ x); lia.
Qed.

Lemma shown_drawGlyph (x y x' y' : Z) (c : ascii) (cs : console) :
  shown (drawGlyph x y c cs) x' y'
  = if decide ((x, y) = (x', y')) then c else shown cs x' y'.
Proof.
  unfold shown, drawGlyph. cbn [glass].
  destruct (decide ((x, y) = (x', y'))) as [<- | Hne].
  - rewrite lookup_insert_eq. reflexivity.
  - rewrite lookup_insert_ne by exact Hne. reflexivity.
Qed.

Lemma arr_get_set_same {A} (d : A) (l : list A) (i : Z) (v : A) :
  0 <= i < Z.of_nat (length l) → arr_get d (arr_set l i v) i = v.
Proof.
  intros Hi. unfold arr_get, arr_set.
  apply nth_lookup_Some. apply list_lookup_insert_eq. lia.
Qed.

Lemma arr_get_set_other {A} (d : A) (l : list A) (i j : Z) (v : A) :
  0 <= i → 0 <= j → i ≠ j → arr_get d (arr_set l i v) j = arr_get d l j.
Proof.
  intros Hi Hj Hne. unfold arr_get, arr_set.
  rewrite !nth_lookup. rewrite list_lookup_insert_ne by lia. reflexivity.
Qed.

Lemma mirror_screenSet (c : ascii) (cs : console) :
  cursor_ok cs → mirror cs → mirror (screenSet c cs).
Proof.
  intros (Hx & Hy & Hlen) Hm i Hi. unfold SCREEN_SIZE in *.
  unfold screenSet. cbn [screen sX sY set_screen drawGlyph].
  change (shown _ (Z.land i 15) (Z.shiftr i 4))
    with (shown (drawGlyph (sX cs) (sY cs) c cs) (Z.land i 15) (Z.shiftr i 4)).
  rewrite shown_drawGlyph.
  destruct (cell_of (sX cs) (sY cs)) as [E1 E2]; [lia | lia |].
  destruct (decide (i = sX cs + 16 * sY cs)) as [-> | Hne].
  - rewrite E1, E2. rewrite decide_True by reflexivity.
    rewrite arr_get_set_same by lia. reflexivity.
  - rewrite decide_False.
    + rewrite arr_get_set_other by lia. apply Hm. unfold SCREEN_SIZE. lia.
    + intros E. injection E as Ex Ey. pose proof (cell_split i). lia.
Qed.

Lemma redraw_shown (n : nat) :
  ∀ (i : Z) (cs : console) (k : Z),
    0 <= i → 0 <= k →
    shown (redraw n i cs) (Z.land k 15) (Z.shiftr k 4)
    = if (i <=? k) && (k <? i + Z.of_nat n) then arr_get NUL (screen cs) k
      else shown cs (Z.land k 15) (Z.shiftr k 4).
Proof.
  induction n as [| n IH]; intros i cs k Hi Hk.
  - cbn [redraw]. zcases; try reflexivity; lia.
  - cbn [redraw]. rewrite IH by lia. cbn [screen drawGlyph].
    rewrite shown_drawGlyph.
    destruct (decide ((Z.land i 15, Z.shiftr i 4) = (Z.land k 15, Z.shiftr k 4))) as [E | E].
    + injection E as Ex Ey.
      assert (k = i) as -> by (pose proof (cell_split i); pose proof (cell_split k); lia).
      zcases; try reflexivity; lia.
    + assert (k ≠ i) by (intros ->; apply E; reflexivity).
      zcases; try reflexivity; lia.
Qed.

Lemma mirror_scrollScreen (cs : console) : mirror (scrollScreen cs).
Proof.
  intros i Hi. unfold SCREEN_SIZE in Hi. unfold scrollScreen.
  rewrite redraw_shown by lia.
  match goal with |- context [redraw ?n ?j ?c] =>
    destruct (redraw_fields n j c) as (-> & _) end.
  zcases; try reflexivity; lia.
Qed.

Lemma mirror_set_sY (v : Z) (cs : console) : mirror cs → mirror (set_sY v cs).
Proof. intros H. exact H. Qed.

Lemma mirror_set_sX (v : Z) (cs : console) : mirror cs → mirror (set_sX v cs).
Proof. intros H. exact H. Qed.

Lemma mirror_beep (cs : console) : mirror cs → mirror (beep cs).
Proof. intros H. exact H. Qed.

Lemma mirror_newLine (cs : console) : mirror cs → mirror (newLine cs).
Proof.
  intros Hm. rewrite newLine_eq.
  destruct (7 <? sY cs + 1).
  - apply mirror_set_sY, mirror_scrollScreen.
  - apply mirror_set_sY, mirror_set_sX, Hm.
Qed.

Lemma kept_mirror : kept_by_keys mirror.
Proof.
  unfold kept_by_keys. split; [intros cs c; apply mirror_screenSet |].
  split; [intros cs _ _; apply mirror_newLine |].
  split; [intros cs x; apply mirror_set_sX |].
  split; [intros cs y; apply mirror_set_sY | apply mirror_beep].
Qed.

(** The array after [scrollScreen]. *)
Lemma scroll_up_get (n : nat) :
  ∀ (i : Z) (scr : list ascii) (k : Z),
    16 <= i → i + Z.of_nat n <= Z.of_nat (length scr) → 0 <= k →
    arr_get NUL (scroll_up n i scr) k
    = if (i - 16 <=? k) && (k <? i - 16 + Z.of_nat n) then arr_get NUL scr (k + 16)
      else arr_get NUL scr k.
Proof.
  induction n as [| n IH]; intros i scr k Hi Hlen Hk.
  - cbn [scroll_up]. zcases; try reflexivity; lia.
  - cbn [scroll_up]. rewrite IH; [| lia | unfold arr_set; rewrite length_insert; lia | lia].
    zcases; try lia.
    all: try (rewrite arr_get_set_other by lia; reflexivity).
    all: assert (k = i - 16) as -> by lia.
    all: rewrite arr_get_set_same by lia.
    all: f_equal; lia.
Qed.

Lemma fill_blank_get (n : nat) :
  ∀ (i : Z) (scr : list ascii) (k : Z),
    0 <= i → i + Z.of_nat n <= Z.of_nat (length scr) → 0 <= k →
    arr_get NUL (fill_blank n i scr) k
    = if (i <=? k) && (k <? i + Z.of_nat n) then SPACE else arr_get NUL scr k.
Proof.
  induction n as [| n IH]; intros i scr k Hi Hlen Hk.
  - cbn [fill_blank]. zcases; try reflexivity; lia.
  - cbn [fill_blank]. rewrite IH; [| lia | unfold arr_set; rewrite length_insert; lia | lia].
    zcases; try reflexivity; try lia.
    all: try (rewrite arr_get_set_other by lia; reflexivity).
    all: assert (k = i) as -> by lia.
    all: rewrite arr_get_set_same by lia; reflexivity.
Qed.

Lemma list_of_arr_get (l l' : list ascii) :
  length l = length l' →
  (∀ k, 0 <= k < Z.of_nat (length l) → arr_get NUL l k = arr_get NUL l' k) →
  l = l'.
Proof.
  intros Hlen H. apply (nth_ext _ _ NUL NUL Hlen).
  intros n Hn. specialize (H (Z.of_nat n)). unfold arr_get in H.
  rewrite Nat2Z.id in H. apply H. lia.
Qed.

Lemma scrollScreen_screen (cs : console) :
  length (screen cs) = Z.to_nat SCREEN_SIZE →
  screen (scrollScreen cs) = drop 16 (screen cs) ++ replicate 16 SPACE.
Proof.
  intros Hlen. unfold SCREEN_SIZE in Hlen.
  unfold scrollScreen.
  match goal with |- context [redraw ?n ?j ?c] =>
    destruct (redraw_fields n j c) as (-> & _) end.
  cbn [screen set_screen].
  apply list_of_arr_get.
  { rewrite length_fill_blank, length_scroll_up, length_app, length_drop, length_replicate. lia. }
  rewrite length_fill_blank, length_scroll_up.
  intros k Hk.
  rewrite fill_blank_get; [| lia | rewrite length_scroll_up; lia | lia].
  rewrite scroll_up_get by lia.
  unfold arr_get.
  zcases; try lia.
  - rewrite app_nth2 by (rewrite length_drop; lia).
    rewrite length_drop. symmetry. apply nth_lookup_Some.
    apply lookup_replicate_2. lia.
  - rewrite app_nth1 by (rewrite length_drop; lia).
    rewrite !nth_lookup, lookup_drop. do 2 f_equal. lia.
Qed.

Lemma setup_eq (cs : console) :
  setup cs
  = set_sY 0 (set_sX 0 (clear (printStringD welcome (-1)
      (set_sY 3 (clear (set_screen (fill_blank 128 0 (screen cs)) cs)))))).
Proof. reflexivity. Qed.

Lemma cursor_clear (cs : console) : cursor_ok cs → cursor_ok (clear cs).
Proof. intros H. exact H. Qed.

Lemma cursor_home (cs : console) : cursor_ok cs → cursor_ok (set_sY 0 (set_sX 0 cs)).
Proof.
  intros (_ & _ & Hlen). unfold cursor_ok. cbn [sX sY screen set_sX set_sY].
  repeat split; try lia; exact Hlen.
Qed.

Lemma cursor_setup (cs : console) : cursor_ok cs → cursor_ok (setup cs).
Proof.
  intros (Hx & Hy & Hlen). rewrite setup_eq.
  apply cursor_home, cursor_clear, cursor_printStringD.
  unfold cursor_ok. cbn [sX sY screen set_sY clear set_screen].
  rewrite length_fill_blank. repeat split; try lia; exact Hlen.
Qed.

Lemma cursor_scrollScreen (cs : console) : cursor_ok cs → cursor_ok (scrollScreen cs).
Proof.
  intros (Hx & Hy & Hlen). destruct (scrollScreen_fields cs) as (Ex & Ey & El & _).
  unfold cursor_ok. rewrite Ex, Ey, El. auto.
Qed.

Lemma fill_blank_all (scr : list ascii) :
  fill_blank (length scr) 0 scr = replicate (length scr) SPACE.
Proof.
  apply list_of_arr_get; [rewrite length_fill_blank, length_replicate; reflexivity |].
  rewrite length_fill_blank. intros k Hk.
  rewrite fill_blank_get by lia. zcases; try lia.
  unfold arr_get. symmetry. apply nth_lookup_Some, lookup_replicate_2. lia.
Qed.

(** The array after [setup], started with the cursor in the first column. *)
Lemma setup_screen (cs : console) :
  sX cs = 0 → length (screen cs) = Z.to_nat SCREEN_SIZE →
  screen (setup cs) = replicate 48 SPACE ++ welcome ++ replicate 64 SPACE.
Proof.
  intros Hx Hlen. rewrite setup_eq.
  change 128%nat with (Z.to_nat SCREEN_SIZE). rewrite <- Hlen, fill_blank_all, Hlen.
  destruct cs as [scr x y g b]. cbn [sX] in Hx. subst x.
  vm_compute. reflexivity.
Qed.

(** The cursor never leaves the screen: from a console whose cursor is at a
    column 0..15 and a row 0..7 over an array of 128 characters, every
    function that moves the cursor or writes at it leaves such a console;
    for [getIn] with a buffer of 113 characters at most. *)
Theorem cursor_stays_on_screen (cs : console) :
  cursor_ok cs →
  (∀ c, cursor_ok (screenSet c cs))
  ∧ cursor_ok (newLine cs)
  ∧ cursor_ok (advance cs)
  ∧ cursor_ok (scrollScreen cs)
  ∧ (∀ str n, cursor_ok (printStringD str n cs))
  ∧ (∀ blinks, cursor_ok (displayCarret blinks cs))
  ∧ cursor_ok (setup cs)
  ∧ (∀ keys buffer bufferSize buffer' cs' rest,
       bufferSize <= 113 →
       getIn keys buffer bufferSize cs = Ok (buffer', cs', rest) →
       cursor_ok cs').
Proof.
  intros Hc.
  split; [intros c; apply cursor_screenSet; exact Hc |].
  split; [destruct Hc as (_ & Hy & Hlen); apply cursor_newLine; assumption |].
  split; [apply cursor_advance; exact Hc |].
  split; [apply cursor_scrollScreen; exact Hc |].
  split; [intros str n; apply cursor_printStringD; exact Hc |].
  split; [intros blinks; apply cursor_blink; exact Hc |].
  split; [apply cursor_setup; exact Hc |].
  intros keys buffer bufferSize buffer' cs' rest Hsize H.
  refine (proj1 (getIn_from_kept (fun _ => True) _ keys bufferSize kept_True Hsize
                   buffer 0 cs buffer' cs' rest Hc _ Logic.I H)).
  unfold position. destruct Hc as (Hx & Hy & _). lia.
Qed.

Lemma cursor_stays_on_screen_witness :
  let cs := set_sY 7 (set_sX 15 power_on) in
  cursor_ok cs ∧ cursor_ok (advance cs) ∧ cursor_ok (printStringD welcome 3 cs).
Proof.
  intros cs.
  assert (Hc : cursor_ok cs) by (repeat split; vm_compute; congruence).
  split; [exact Hc |].
  destruct (cursor_stays_on_screen cs Hc) as (_ & _ & Ha & _ & Hp & _).
  split; [exact Ha | apply Hp].
Defined.

(** The display shows the array: when the glyph shown at every column and
    row is the character of [screen] at that place, it is so again after
    every function that writes a character, moves the cursor or reads a line
    (for [getIn] with a buffer of 113 characters at most). *)
Theorem display_shows_array (cs : console) :
  cursor_ok cs → mirror cs →
  (∀ c, mirror (screenSet c cs))
  ∧ mirror (newLine cs)
  ∧ mirror (advance cs)
  ∧ (∀ str n, mirror (printStringD str n cs))
  ∧ (∀ blinks, mirror (displayCarret blinks cs))
  ∧ (∀ keys buffer bufferSize buffer' cs' rest,
       bufferSize <= 113 →
       getIn keys buffer bufferSize cs = Ok (buffer', cs', rest) →
       mirror cs').
Proof.
  intros Hc Hm.
  split; [intros c; apply mirror_screenSet; assumption |].
  split; [apply mirror_newLine; exact Hm |].
  split; [apply (kept_advance mirror cs kept_mirror Hc Hm) |].
  split; [intros str n; apply (kept_printStringD mirror str n cs kept_mirror Hc Hm) |].
  split; [intros blinks; apply (kept_blink mirror blinks false cs kept_mirror Hc Hm) |].
  intros keys buffer bufferSize buffer' cs' rest Hsize H.
  refine (proj2 (getIn_from_kept mirror _ keys bufferSize kept_mirror Hsize
                   buffer 0 cs buffer' cs' rest Hc _ Hm H)).
  unfold position. destruct Hc as (Hx & Hy & _). lia.
Qed.

Lemma display_shows_array_witness :
  let cs := scrollScreen (setup power_on) in
  cursor_ok cs ∧ mirror cs ∧ mirror (printStringD (str "OK") (-1) cs).
Proof.
  intros cs.
  assert (Hc : cursor_ok cs) by (repeat split; vm_compute; congruence).
  assert (Hm : mirror cs) by apply mirror_scrollScreen.
  split; [exact Hc |]. split; [exact Hm |].
  destruct (display_shows_array cs Hc Hm) as (_ & _ & _ & Hp & _).
  exact (Hp (str "OK") (-1)).
Defined.

(** [scrollScreen] moves every row of the array one row up, blanks the last
    row, leaves the cursor where it is, and afterwards the display shows the
    array, whatever it showed before. *)
Theorem scrollScreen_moves_rows (cs : console) :
  length (screen cs) = Z.to_nat SCREEN_SIZE →
  screen (scrollScreen cs) = drop 16 (screen cs) ++ replicate 16 SPACE
  ∧ sX (scrollScreen cs) = sX cs ∧ sY (scrollScreen cs) = sY cs
  ∧ mirror (scrollScreen cs).
Proof.
  intros Hlen. destruct (scrollScreen_fields cs) as (Ex & Ey & _).
  split; [apply scrollScreen_screen; exact Hlen |].
  split; [exact Ex |]. split; [exact Ey | apply mirror_scrollScreen].
Qed.

Lemma scrollScreen_moves_rows_witness :
  screen (scrollScreen power_on) = drop 16 (screen power_on) ++ replicate 16 SPACE
  ∧ sX (scrollScreen power_on) = sX power_on
  ∧ sY (scrollScreen power_on) = sY power_on
  ∧ mirror (scrollScreen power_on).
Proof. apply (scrollScreen_moves_rows power_on). reflexivity. Defined.

(** [setup] clears the display after the welcome message but not the array:
    started with the cursor in the first column it leaves a display that
    shows nothing and an array that holds the message on the fourth row, so
    the display does not show the array; the first scroll draws the message,
    on the third row. *)
Theorem setup_leaves_welcome_in_array (cs : console) :
  sX cs = 0 → length (screen cs) = Z.to_nat SCREEN_SIZE →
  glass (setup cs) = ∅
  ∧ sX (setup cs) = 0 ∧ sY (setup cs) = 0
  ∧ screen (setup cs) = replicate 48 SPACE ++ welcome ++ replicate 64 SPACE
  ∧ ¬ mirror (setup cs)
  ∧ (∀ x, 0 <= x <= 15 →
          shown (scrollScreen (setup cs)) x 2 = arr_get NUL welcome x).
Proof.
  intros Hx Hlen. pose proof (setup_screen cs Hx Hlen) as Hs.
  split; [rewrite setup_eq; reflexivity |].
  split; [rewrite setup_eq; reflexivity |].
  split; [rewrite setup_eq; reflexivity |].
  split; [exact Hs |].
  split.
  - intros Hm. specialize (Hm 48 ltac:(unfold SCREEN_SIZE; lia)).
    rewrite Hs in Hm. revert Hm. rewrite setup_eq. vm_compute. discriminate.
  - intros x Hx'.
    destruct (cell_of x 2 ltac:(lia) ltac:(lia)) as [E1 E2].
    pose proof (mirror_scrollScreen (setup cs) (x + 16 * 2)
                  ltac:(unfold SCREEN_SIZE; lia)) as Hm.
    rewrite E1, E2 in Hm. rewrite Hm.
    rewrite scrollScreen_screen, Hs.
    + assert (Hcases : x = 0 ∨ x = 1 ∨ x = 2 ∨ x = 3 ∨ x = 4 ∨ x = 5 ∨ x = 6 ∨ x = 7
                       ∨ x = 8 ∨ x = 9 ∨ x = 10 ∨ x = 11 ∨ x = 12 ∨ x = 13 ∨ x = 14
                       ∨ x = 15) by lia.
      repeat (destruct Hcases as [-> | Hcases]; [vm_compute; reflexivity |]).
      subst x. vm_compute. reflexivity.
    + rewrite Hs. reflexivity.
Qed.

Lemma setup_leaves_welcome_in_array_witness :
  glass (setup power_on) = ∅
  ∧ sX (setup power_on) = 0 ∧ sY (setup power_on) = 0
  ∧ screen (setup power_on) = replicate 48 SPACE ++ welcome ++ replicate 64 SPACE
  ∧ ¬ mirror (setup power_on)
  ∧ (∀ x, 0 <= x <= 15 →
          shown (scrollScreen (setup power_on)) x 2 = arr_get NUL welcome x).
Proof. apply (setup_leaves_welcome_in_array power_on); reflexivity. Defined.

(** [getIn] returns at the first enter key. The buffer then holds the text
    typed (characters in upper case, the last one removed by each backspace,
    characters beyond the size of the buffer less one dropped) followed by a
    NUL; the text is shorter than the buffer, and the keys after the enter
    key are left for the next call. *)
Theorem getIn_line (keys : list (nat * key)) (buffer : list ascii) (bufferSize : Z)
    (cs : console) :
  ENTER ∈ keys.*2 →
  1 <= bufferSize <= Z.of_nat (length buffer) →
  ∃ buffer' cs' pre n rest,
    getIn keys buffer bufferSize cs = Ok (buffer', cs', rest)
    ∧ keys = pre ++ (n, ENTER) :: rest ∧ (ENTER ∉ pre.*2)
    ∧ length buffer' = length buffer
    ∧ (let t := typed keys bufferSize [] in
       take (length t) buffer' = t
       ∧ buffer' !! length t = Some NUL
       ∧ Z.of_nat (length t) < bufferSize
       ∧ (NUL ∉ t → cstr buffer' = t)).
Proof.
  intros Hin Hsz.
  destruct (getIn_from_line syncToBuffer keys bufferSize Hin buffer [] cs)
    as (b' & cs' & pre & n & rest & E1 & E2 & E3 & E4 & E5 & E6 & E7);
    [reflexivity | simpl; lia |].
  exists b', cs', pre, n, rest.
  split; [exact E1 |]. split; [exact E2 |]. split; [exact E3 |]. split; [exact E4 |].
  cbv zeta. split; [exact E5 |]. split; [exact E6 |]. split; [exact E7 |].
  apply cstr_of_take; assumption.
Qed.

Lemma getIn_line_witness :
  ∃ buffer' cs' rest,
    getIn [(0%nat, CHAR 49); (3%nat, CHAR 120); (1%nat, BACKSPACE); (0%nat, CHAR 32);
           (0%nat, CHAR 100); (0%nat, CHAR 117); (0%nat, CHAR 112); (2%nat, ENTER);
           (0%nat, CHAR 46)]
      (replicate 64 NUL) 64 power_on = Ok (buffer', cs', rest)
    ∧ cstr buffer' = str "1 DUP"
    ∧ rest = [(0%nat, CHAR 46)].
Proof.
  destruct (getIn_line
              [(0%nat, CHAR 49); (3%nat, CHAR 120); (1%nat, BACKSPACE); (0%nat, CHAR 32);
               (0%nat, CHAR 100); (0%nat, CHAR 117); (0%nat, CHAR 112); (2%nat, ENTER);
               (0%nat, CHAR 46)]
              (replicate 64 NUL) 64 power_on)
    as (b' & cs' & pre & n & rest & E1 & E2 & E3 & E4 & E5 & E6 & E7 & E8).
  - apply list_elem_of_In. simpl. tauto.
  - simpl. lia.
  - exists b', cs', rest. split; [exact E1 |].
    split.
    + apply E8. apply (bool_decide_unpack _). vm_compute. exact Logic.I.
    + revert E1. vm_compute. congruence.
Defined.

(** [syncToBuffer] is never called: with a buffer of 113 characters at most
    (seven rows of text and the NUL) a backspace never takes the cursor above
    the first row while characters are left in the buffer, so [getIn] is the
    same whatever stands in the place of [syncToBuffer]. *)
Theorem syncToBuffer_is_never_called
    (sync : Z → list ascii → console → console)
    (keys : list (nat * key)) (buffer : list ascii) (bufferSize : Z) (cs : console) :
  bufferSize <= 113 →
  cursor_ok cs →
  getIn_from sync keys buffer bufferSize 0 cs = getIn keys buffer bufferSize cs.
Proof.
  intros Hsize Hc. unfold getIn.
  apply getIn_from_sync; [exact Hsize | exact Hc |].
  unfold position. destruct Hc as (Hx & Hy & _). lia.
Qed.

Lemma syncToBuffer_is_never_called_witness :
  getIn_from (fun _ _ cs => beep cs)
    [(0%nat, CHAR 97); (0%nat, BACKSPACE); (0%nat, ENTER)] (replicate 64 NUL) 64 0
    (setup power_on)
  = getIn [(0%nat, CHAR 97); (0%nat, BACKSPACE); (0%nat, ENTER)] (replicate 64 NUL) 64
      (setup power_on).
Proof.
  apply syncToBuffer_is_never_called; [lia |].
  repeat split; vm_compute; congruence.
Defined.

End ConsoleProperties.
